(** * A shallow embedding of the Diophantine system solver

    The solver enumerates the natural-number matrices [M] with
    [R . M = C] under per-row size bounds.  The C++ [int] values are
    embedded as [Z]; the development assumes, as the code does, that no
    arithmetic leaves the [int] range.  Vectors are lists, the mutable
    object is an explicit record that every operation takes and
    returns. *)

From Stdlib Require Import ZArith List Lia Bool Arith Permutation Sorted.
Import ListNotations.
Open Scope Z_scope.

(* ================================================================= *)
(** ** Constants and helpers declared in the header *)

(** Modelled from the spec: the header [diophantineSystem.hh] is missing.
    [UNBOUNDED] is the sentinel for "no declared upper bound" of a
    32-bit signed integer. *)
Definition UNBOUNDED : Z := 2147483647.

(** Modelled from the spec: the header [diophantineSystem.hh] is missing.
    [INSOLUBLE] is the distinguished negative value of the solubility
    tables ([precompute] tests it with [< 0]). *)
Definition INSOLUBLE : Z := -1.

(** Modelled from the spec: [floorDivision] is declared in a missing
    header; the spec writes it as the floor of the quotient. *)
Definition floorDivision (dividend divisor : Z) : Z := dividend / divisor.

(** Modelled from the spec: [ceilingDivision] is declared in a missing
    header; the spec writes it as the ceiling of the quotient. *)
Definition ceilingDivision (dividend divisor : Z) : Z :=
  - ((- dividend) / divisor).

(* ================================================================= *)
(** ** Data model *)

Record Select := mkSelect {
  base : Z;      (* base value for the element of M *)
  extra : Z;     (* extra value: current state of the search *)
  maxExtra : Z   (* maximum for extra *)
}.

Record Soluble := mkSoluble {
  min : Z;
  max : Z
}.

Record Row := mkRow {
  name : nat;
  coeff : Z;
  minSize : Z;
  maxSize : Z;
  minProduct : Z;
  maxProduct : Z;
  minLeave : Z;
  maxLeave : Z;
  currentSize : Z;
  currentMaxSize : Z;
  selection : list Select;
  soluble : list Soluble
}.

Record DiophantineSystem := mkSys {
  rows : list Row;
  columns : list Z;
  rowPermute : list nat;
  columnSum : Z;
  maxColumnValue : Z;
  closed : bool;
  complex : bool;
  failed : bool
}.

(** Field updates. *)

Definition set_extra (s : Select) (e : Z) : Select :=
  mkSelect (base s) e (maxExtra s).

Definition set_base (s : Select) (b : Z) : Select :=
  mkSelect b (extra s) (maxExtra s).

Definition set_selection (r : Row) (s : list Select) : Row :=
  mkRow (name r) (coeff r) (minSize r) (maxSize r) (minProduct r)
        (maxProduct r) (minLeave r) (maxLeave r) (currentSize r)
        (currentMaxSize r) s (soluble r).

Definition set_soluble (r : Row) (s : list Soluble) : Row :=
  mkRow (name r) (coeff r) (minSize r) (maxSize r) (minProduct r)
        (maxProduct r) (minLeave r) (maxLeave r) (currentSize r)
        (currentMaxSize r) (selection r) s.

Definition set_sizes (r : Row) (cur curMax : Z) : Row :=
  mkRow (name r) (coeff r) (minSize r) (maxSize r) (minProduct r)
        (maxProduct r) (minLeave r) (maxLeave r) cur curMax
        (selection r) (soluble r).

Definition set_currentSize (r : Row) (cur : Z) : Row :=
  set_sizes r cur (currentMaxSize r).

Definition set_products (r : Row) (mx : Z) : Row :=
  mkRow (name r) (coeff r) (minSize r) mx (minSize r * coeff r)
        (mx * coeff r) (minLeave r) (maxLeave r) (currentSize r)
        (currentMaxSize r) (selection r) (soluble r).

Definition set_leaves (r : Row) (mn mx : Z) (s : list Select) : Row :=
  mkRow (name r) (coeff r) (minSize r) (maxSize r) (minProduct r)
        (maxProduct r) mn mx (currentSize r) (currentMaxSize r) s
        (soluble r).

Definition set_rows_columns (d : DiophantineSystem) (rs : list Row)
    (cs : list Z) : DiophantineSystem :=
  mkSys rs cs (rowPermute d) (columnSum d) (maxColumnValue d)
        (closed d) (complex d) (failed d).

Definition set_failed (d : DiophantineSystem) : DiophantineSystem :=
  mkSys (rows d) (columns d) (rowPermute d) (columnSum d)
        (maxColumnValue d) (closed d) (complex d) true.

(** Vector helpers: assignment at an index and [resize]. *)

Fixpoint upd {A : Type} (i : nat) (x : A) (l : list A) : list A :=
  match l, i with
  | [], _ => []
  | _ :: t, O => x :: t
  | h :: t, S i' => h :: upd i' x t
  end.

Definition resize {A : Type} (n : nat) (d : A) (l : list A) : list A :=
  firstn n l ++ repeat d (n - length l).

Definition zsum (l : list Z) : Z := fold_right Z.add 0 l.

(* ================================================================= *)
(** ** Building a system *)

Definition newSystem : DiophantineSystem :=
  mkSys [] [] [] 0 0 false false false.

Definition emptyRow : Row := mkRow O 0 0 0 0 0 0 0 0 0 [] [].

Definition insertRow (c mn mx : Z) (d : DiophantineSystem)
    : DiophantineSystem :=
  let r := mkRow (length (rows d)) c mn mx 0 0 0 0 0 0 [] [] in
  mkSys (rows d ++ [r]) (columns d) (rowPermute d) (columnSum d)
        (maxColumnValue d) (closed d) (complex d) (failed d).

Definition insertColumn (v : Z) (d : DiophantineSystem)
    : DiophantineSystem :=
  mkSys (rows d) (columns d ++ [v]) (rowPermute d) (columnSum d + v)
        (if maxColumnValue d <? v then v else maxColumnValue d)
        (closed d) (complex d) (failed d).

(* ================================================================= *)
(** ** Sorting the rows *)

Definition rowLt (i j : Row) : bool :=
  let t := coeff i - coeff j in
  if negb (t =? 0) then t <? 0 else (maxSize i - maxSize j) <? 0.

(** [sort(rows.begin(), rows.end(), rowLt)]: the result is ordered by
    the comparison; rows the comparison does not separate keep their
    insertion order here. *)
Fixpoint insertSorted (x : Row) (l : list Row) : list Row :=
  match l with
  | [] => [x]
  | y :: l' => if rowLt y x then y :: insertSorted x l' else x :: l
  end.

Definition sortRows (l : list Row) : list Row :=
  fold_left (fun acc x => insertSorted x acc) l [].

(* ================================================================= *)
(** ** Solubility vectors *)

Definition insolubleEntry : Soluble := mkSoluble INSOLUBLE INSOLUBLE.

(** Reading a table; an index outside the table has no value. *)
Definition getSol (s : list Soluble) (k : Z) : option Soluble :=
  if k <? 0 then None else nth_error s (Z.to_nat k).

Definition solAt (s : list Soluble) (k : Z) : Soluble :=
  match getSol s k with
  | Some x => x
  | None => insolubleEntry
  end.

(** Second loop of the last row:
    [for (j = 0; j <= maxColumnValue && count <= r.maxSize; j += coeff)
       s[j].min = s[j].max = count++;] *)
Fixpoint lastRowLoop (fuel : nat) (mcv c mx : Z) (j count : Z)
    (s : list Soluble) : list Soluble :=
  match fuel with
  | O => s
  | S f =>
      if (j <=? mcv) && (count <=? mx)
      then lastRowLoop f mcv c mx (j + c) (count + 1)
             (upd (Z.to_nat j) (mkSoluble count count) s)
      else s
  end.

Definition lastRowTable (mcv : Z) (r : Row) : list Soluble :=
  let s0 := mkSoluble 0 0 :: repeat insolubleEntry (Z.to_nat mcv) in
  lastRowLoop (S (Z.to_nat mcv)) mcv (coeff r) (maxSize r) 0 0 s0.

(** [for (k = j - maxSize * coeff; prev[k].min == INSOLUBLE; k += coeff)
       --newMax;] *)
Fixpoint scanNewMax (fuel : nat) (prev : list Soluble) (c : Z)
    (k newMax : Z) : Z :=
  match fuel with
  | O => newMax
  | S f =>
      if min (solAt prev k) =? INSOLUBLE
      then scanNewMax f prev c (k + c) (newMax - 1)
      else newMax
  end.

Definition nextEntry (prev next : list Soluble) (c mx : Z) (j : Z)
    : Soluble :=
  let t := j - c in
  if (0 <=? t) && negb (min (solAt next t) =? INSOLUBLE)
     && (min (solAt next t) <? mx)
  then
    mkSoluble
      (if min (solAt prev j) =? INSOLUBLE
       then min (solAt next t) + 1 else 0)
      (if max (solAt next t) <? mx
       then max (solAt next t) + 1
       else scanNewMax (S (Z.to_nat mx)) prev c (j - mx * c) mx)
  else
    if min (solAt prev j) =? INSOLUBLE
    then insolubleEntry
    else mkSoluble 0 0.

Fixpoint nextRowLoop (fuel : nat) (prev : list Soluble) (c mx : Z)
    (j : Z) (next : list Soluble) : list Soluble :=
  match fuel with
  | O => next
  | S f =>
      nextRowLoop f prev c mx (j + 1)
        (upd (Z.to_nat j) (nextEntry prev next c mx j) next)
  end.

Definition nextRowTable (mcv : Z) (prev : list Soluble) (r : Row)
    : list Soluble :=
  nextRowLoop (S (Z.to_nat mcv)) prev (coeff r) (maxSize r) 0
    (repeat (mkSoluble 0 0) (S (Z.to_nat mcv))).

(** The tables are built from the last row upwards; the table of a row
    reads the table of the row after it. *)
Fixpoint buildRows (mcv : Z) (rs : list Row) : list Row :=
  match rs with
  | [] => []
  | r :: rest =>
      match buildRows mcv rest with
      | [] => [set_soluble r (lastRowTable mcv r)]
      | r' :: rest' =>
          set_soluble r (nextRowTable mcv (soluble r') r) :: r' :: rest'
      end
  end.

Definition buildSolubilityVectors (d : DiophantineSystem)
    : DiophantineSystem :=
  set_rows_columns d (buildRows (maxColumnValue d) (rows d)) (columns d).

(* ================================================================= *)
(** ** Precomputation *)

Definition substituteBound (colSum : Z) (r : Row) : Row :=
  set_products r (if maxSize r =? UNBOUNDED then colSum else maxSize r).

Definition sumOfMinProducts (rs : list Row) : Z :=
  zsum (map minProduct rs).

Definition sumOfMaxProducts (rs : list Row) : Z :=
  zsum (map maxProduct rs).

Definition clearBase (s : Select) : Select := set_base s 0.

(** The loop [for (i = nrRows - 1; i >= 0; i--)]: the rows after a row
    are handled before it.  Returns the rows, the permutation and the
    running totals. *)
Fixpoint fillLeaves (nrColumns : nat) (i : nat) (rs : list Row)
    (perm : list nat) : list Row * list nat * Z * Z :=
  match rs with
  | [] => ([], perm, 0, 0)
  | r :: rest =>
      match fillLeaves nrColumns (S i) rest perm with
      | (rest', perm', minTotal, maxTotal) =>
          (set_leaves r minTotal maxTotal
             (map clearBase
                (resize nrColumns (mkSelect 0 0 0) (selection r)))
             :: rest',
           upd (name r) i perm',
           minTotal + minProduct r,
           maxTotal + maxProduct r)
      end
  end.

Definition lastRowIsComplex (mcv : Z) (rs : list Row) : bool :=
  let r := last rs emptyRow in
  (1 <? coeff r) || (maxSize r <? mcv).

Definition anyInsoluble (s : list Soluble) (cs : list Z) : bool :=
  existsb (fun c => min (solAt s c) <? 0) cs.

(** The state of [precompute] after the bounds were substituted, after
    the sort and the loop over the rows, and after the tables were
    built. *)
Definition boundedRows (d : DiophantineSystem) : list Row :=
  map (substituteBound (columnSum d)) (rows d).

Definition preparedState (d : DiophantineSystem)
    : list Row * list nat * Z * Z :=
  let rs2 := sortRows (boundedRows d) in
  fillLeaves (length (columns d)) O rs2
    (resize (length rs2) O (rowPermute d)).

Definition preparedRows (d : DiophantineSystem) : list Row :=
  fst (fst (fst (preparedState d))).

Definition preparedPermute (d : DiophantineSystem) : list nat :=
  snd (fst (fst (preparedState d))).

Definition tabledRows (d : DiophantineSystem) : list Row :=
  buildRows (maxColumnValue d) (preparedRows d).

Definition precompute (d : DiophantineSystem)
    : bool * DiophantineSystem :=
  let rs1 := boundedRows d in
  if (columnSum d <? sumOfMinProducts rs1)
     || (sumOfMaxProducts rs1 <? columnSum d)
  then
    (false, mkSys rs1 (columns d) (rowPermute d) (columnSum d)
              (maxColumnValue d) true (complex d) true)
  else
    let rs3 := preparedRows d in
    let perm := preparedPermute d in
    if lastRowIsComplex (maxColumnValue d) rs3
    then
      let rs4 := tabledRows d in
      if anyInsoluble (soluble (hd emptyRow rs4)) (columns d)
      then
        (false, mkSys rs4 (columns d) perm (columnSum d)
                  (maxColumnValue d) true (complex d) true)
      else
        (true, mkSys rs4 (columns d) perm (columnSum d)
                 (maxColumnValue d) true true (failed d))
    else
      (true, mkSys rs3 (columns d) perm (columnSum d)
               (maxColumnValue d) true (complex d) (failed d)).

(* ================================================================= *)
(** ** Outcomes of fallible code

    [Abort] stands for a fired [Assert] or an access outside a vector;
    [OutOfFuel] only arises from the bound put on the loops that have no
    structural one. *)

Inductive Outcome (A : Type) : Type :=
| Done (a : A)
| Abort
| OutOfFuel.

Arguments Done {A} a.
Arguments Abort {A}.
Arguments OutOfFuel {A}.

Definition bind {A B : Type} (m : Outcome A) (f : A -> Outcome B)
    : Outcome B :=
  match m with
  | Done a => f a
  | Abort => Abort
  | OutOfFuel => OutOfFuel
  end.

Notation "x <- m ;; k" := (bind m (fun x => k))
  (at level 61, m at next level, right associativity).
Notation "' p <- m ;; k" := (bind m (fun p => k))
  (at level 61, p pattern, m at next level, right associativity).

Definition getAt {A : Type} (l : list A) (i : nat) : Outcome A :=
  match nth_error l i with
  | Some x => Done x
  | None => Abort
  end.

Definition readSol (s : list Soluble) (k : Z) : Outcome Soluble :=
  match getSol s k with
  | Some x => Done x
  | None => Abort
  end.

(* ================================================================= *)
(** ** Viability *)

(** The inner loop over the columns: is there an initial stretch of the
    columns whose values of at least [lowerLimit] sum up to [target]? *)
Fixpoint prefixReaches (lowerLimit target : Z) (localColumnSum : Z)
    (cs : list Z) : bool :=
  match cs with
  | [] => false
  | c :: cs' =>
      if lowerLimit <=? c
      then if target <=? localColumnSum + c then true
           else prefixReaches lowerLimit target (localColumnSum + c) cs'
      else prefixReaches lowerLimit target localColumnSum cs'
  end.

Fixpoint viableFrom (rs : list Row) (cs : list Z)
    (localSumOfMinProducts : Z) : bool :=
  match rs with
  | [] => true
  | r :: rs' =>
      let t := minProduct r in
      if 0 <? t
      then if prefixReaches (coeff r) (localSumOfMinProducts + t) 0 cs
           then viableFrom rs' cs (localSumOfMinProducts + t)
           else false
      else viableFrom rs' cs localSumOfMinProducts
  end.

(** Rows [row_idx .. nrRows - 2] are inspected. *)
Definition viable (d : DiophantineSystem) (row_idx : nat) : bool :=
  viableFrom (skipn row_idx (removelast (rows d))) (columns d) 0.

(* ================================================================= *)
(** ** Simple case *)

(** The scan of [multisetSelect] that undoes the previous selection.
    The result tells whether some element could be increased, the
    number of units still to place, and the vectors. *)
Fixpoint selectBackward (c : Z) (undone : Z) (sel : list Select)
    (bag : list Z) : Outcome (bool * Z * list Select * list Z) :=
  match bag with
  | [] => Done (false, undone, sel, bag)
  | b :: bag' =>
      match sel with
      | [] => Abort
      | s :: sel' =>
          if maxExtra s <? extra s then Abort
          else
            let t := extra s in
            if (0 <? undone) && (t <? maxExtra s)
            then Done (true, undone - 1,
                       set_extra s (t + 1) :: sel', (b - c) :: bag')
            else
              let s1 := if 0 <? t then set_extra s 0 else s in
              let u1 := if 0 <? t then undone + t else undone in
              let b1 := if 0 <? t then b + t * c else b in
              ' (found, u, sel2, bag2) <- selectBackward c u1 sel' bag' ;;
              Done (found, u, s1 :: sel2, b1 :: bag2)
      end
  end.

(** The loop at label [forwards]: take the earliest elements available. *)
Fixpoint selectForward (c : Z) (undone : Z) (sel : list Select)
    (bag : list Z) : Outcome (list Select * list Z) :=
  if 0 <? undone
  then
    match sel, bag with
    | s :: sel', b :: bag' =>
        let t := Z.min undone (maxExtra s) in
        let s1 := if 0 <? t then set_extra s t else s in
        let u1 := if 0 <? t then undone - t else undone in
        let b1 := if 0 <? t then b - t * c else b in
        ' (sel2, bag2) <- selectForward c u1 sel' bag' ;;
        Done (s1 :: sel2, b1 :: bag2)
    | _, _ => Abort
    end
  else Done (sel, bag).

Definition multisetSelect (r : Row) (bag : list Z) (findFirst : bool)
    : Outcome (bool * Row * list Z) :=
  if negb findFirst
  then
    if 0 <? currentSize r
    then
      ' (found, undone, sel, bag1) <-
          selectBackward (coeff r) 0 (selection r) bag ;;
      if found
      then
        ' (sel2, bag2) <- selectForward (coeff r) undone sel bag1 ;;
        Done (true, set_selection r sel2, bag2)
      else Done (false, set_selection r sel, bag1)
    else Done (false, r, bag)
  else
    ' (sel2, bag2) <-
        selectForward (coeff r) (currentSize r) (selection r) bag ;;
    Done (true, set_selection r sel2, bag2).

Fixpoint fillLastSimple (sel : list Select) (cols : list Z)
    : Outcome (list Select) :=
  match cols with
  | [] => Done sel
  | t :: cols' =>
      match sel with
      | [] => Abort
      | s :: sel' =>
          sel2 <- fillLastSimple sel' cols' ;;
          Done (set_extra s t :: sel2)
      end
  end.

Definition lastIndex (d : DiophantineSystem) : nat :=
  (length (rows d) - 1)%nat.

Definition solveLastRowSimple (d : DiophantineSystem)
    : Outcome DiophantineSystem :=
  r <- getAt (rows d) (lastIndex d) ;;
  sel <- fillLastSimple (selection r) (columns d) ;;
  Done (set_rows_columns d
          (upd (lastIndex d) (set_selection r sel) (rows d)) (columns d)).

(** First loop of [solveRowSimple]: returns the selection, [columnTotal]
    and [maxSum]. *)
Fixpoint initSimple (c : Z) (sel : list Select) (cols : list Z)
    : Outcome (list Select * Z * Z) :=
  match cols with
  | [] => Done (sel, 0, 0)
  | t :: cols' =>
      match sel with
      | [] => Abort
      | s :: sel' =>
          ' (sel2, columnTotal, maxSum) <- initSimple c sel' cols' ;;
          if c <=? t
          then Done (mkSelect (base s) 0 (Z.quot t c) :: sel2,
                     columnTotal + t, maxSum + Z.quot t c)
          else Done (mkSelect (base s) 0 0 :: sel2, columnTotal + t, maxSum)
      end
  end.

Definition putRow (d : DiophantineSystem) (i : nat) (r : Row)
    (cols : list Z) : DiophantineSystem :=
  set_rows_columns d (upd i r (rows d)) cols.

Definition solveRowSimple (d : DiophantineSystem) (row_idx : nat)
    (findFirst : bool) : Outcome (bool * DiophantineSystem) :=
  r <- getAt (rows d) row_idx ;;
  if findFirst
  then
    if negb (viable d row_idx) then Done (false, d)
    else
      ' (sel, columnTotal, maxSum) <-
          initSimple (coeff r) (selection r) (columns d) ;;
      let r1 := set_selection r sel in
      let mn := Z.max (minSize r)
                  (ceilingDivision (columnTotal - maxLeave r) (coeff r)) in
      let mx := Z.min (Z.min maxSum (maxSize r))
                  (floorDivision (columnTotal - minLeave r) (coeff r)) in
      if mx <? mn then Done (false, putRow d row_idx r1 (columns d))
      else
        ' (b, r2, cols) <-
            multisetSelect (set_sizes r1 mn mx) (columns d) true ;;
        Done (b, putRow d row_idx r2 cols)
  else
    ' (b, r1, cols1) <- multisetSelect r (columns d) false ;;
    if b then Done (true, putRow d row_idx r1 cols1)
    else
      if currentSize r1 =? currentMaxSize r1
      then Done (false, putRow d row_idx r1 cols1)
      else
        ' (b2, r2, cols2) <-
            multisetSelect (set_currentSize r1 (currentSize r1 + 1))
              cols1 true ;;
        Done (b2, putRow d row_idx r2 cols2).

(** The [for (;;)] loop of the drivers, over a row solver. *)
Fixpoint driverLoop
    (solveRow : DiophantineSystem -> nat -> bool ->
                Outcome (bool * DiophantineSystem))
    (fuel : nat) (penultimate i : nat) (findFirst : bool)
    (d : DiophantineSystem) : Outcome (bool * DiophantineSystem) :=
  match fuel with
  | O => OutOfFuel
  | S fuel' =>
      ' (found, d1) <- solveRow d i findFirst ;;
      if found
      then if (i =? penultimate)%nat then Done (true, d1)
           else driverLoop solveRow fuel' penultimate (S i) true d1
      else if (i =? 0)%nat then Done (false, d1)
           else driverLoop solveRow fuel' penultimate (pred i) false d1
  end.

Definition solveSimple (fuel : nat) (d : DiophantineSystem)
    (findFirst : bool) : Outcome (bool * DiophantineSystem) :=
  ' (found, d1) <-
      (if (1 <? length (rows d))%nat
       then
         let penultimate := (length (rows d) - 2)%nat in
         driverLoop solveRowSimple fuel penultimate
           (if findFirst then O else penultimate) findFirst d
       else Done (findFirst, d)) ;;
  if found
  then d2 <- solveLastRowSimple d1 ;; Done (true, d2)
  else Done (false, set_failed d1).

(* ================================================================= *)
(** ** Complex case *)

(** The inner loop of the backtrack scan,
    [for (e = 1; e <= undone; e++)], over the remaining number of
    iterations.  [Done (Some (e, c))] is the accepted lift and the
    residual of the column. *)
Fixpoint probeLift (n : nat) (sol : list Soluble) (coeff_ t mx : Z)
    (e c : Z) : Outcome (option (Z * Z)) :=
  match n with
  | O => Done None
  | S n' =>
      if mx <? t + e then Abort
      else
        let c' := c - coeff_ in
        x <- readSol sol c' ;;
        if negb (min x =? INSOLUBLE) then Done (Some (e, c'))
        else probeLift n' sol coeff_ t mx (e + 1) c'
  end.

(** The scan at label [backtrack]. *)
Fixpoint complexBackward (c : Z) (sol : list Soluble) (undone : Z)
    (sel : list Select) (bag : list Z)
    : Outcome (bool * Z * list Select * list Z) :=
  match bag with
  | [] => Done (false, undone, sel, bag)
  | b :: bag' =>
      match sel with
      | [] => Abort
      | s :: sel' =>
          if maxExtra s <? extra s then Abort
          else
            let t := extra s in
            lifted <-
              (if (0 <? undone) && (t <? maxExtra s)
               then probeLift (Z.to_nat undone) sol c t (maxExtra s) 1 b
               else Done None) ;;
            match lifted with
            | Some (e, c') =>
                Done (true, undone - e,
                      set_extra s (t + e) :: sel', c' :: bag')
            | None =>
                let s1 := if 0 <? t then set_extra s 0 else s in
                let u1 := if 0 <? t then undone + t else undone in
                let b1 := if 0 <? t then b + t * c else b in
                ' (found, u, sel2, bag2) <-
                    complexBackward c sol u1 sel' bag' ;;
                Done (found, u, s1 :: sel2, b1 :: bag2)
            end
      end
  end.

(** The loop at label [forwards]; [false] is the jump to [backtrack]. *)
Fixpoint complexForward (c : Z) (sol : list Soluble) (undone : Z)
    (sel : list Select) (bag : list Z)
    : Outcome (bool * list Select * list Z) :=
  if 0 <? undone
  then
    match sel, bag with
    | s :: sel', b :: bag' =>
        let t := maxExtra s in
        if t <=? undone
        then
          let s1 := if 0 <? t then set_extra s t else s in
          let u1 := if 0 <? t then undone - t else undone in
          let b1 := if 0 <? t then b - t * c else b in
          ' (ok, sel2, bag2) <- complexForward c sol u1 sel' bag' ;;
          Done (ok, s1 :: sel2, b1 :: bag2)
        else
          let b1 := b - undone * c in
          x <- readSol sol b1 ;;
          Done (negb (min x =? INSOLUBLE),
                set_extra s undone :: sel', b1 :: bag')
    | _, _ => Abort
    end
  else Done (true, sel, bag).

(** The two labels jump to each other; [fuel] bounds the number of
    returns from [forwards] to [backtrack]. *)
Fixpoint complexSearch (fuel : nat) (c : Z) (sol : list Soluble)
    (undone : Z) (sel : list Select) (bag : list Z)
    : Outcome (bool * list Select * list Z) :=
  match fuel with
  | O => OutOfFuel
  | S fuel' =>
      ' (ok, sel1, bag1) <- complexForward c sol undone sel bag ;;
      if ok then Done (true, sel1, bag1)
      else
        ' (found, u, sel2, bag2) <- complexBackward c sol 0 sel1 bag1 ;;
        if found then complexSearch fuel' c sol u sel2 bag2
        else Done (false, sel2, bag2)
  end.

Definition multisetComplex (fuel : nat) (r : Row) (bag : list Z)
    (sol : list Soluble) (findFirst : bool)
    : Outcome (bool * Row * list Z) :=
  if negb findFirst
  then
    if 0 <? currentSize r
    then
      ' (found, undone, sel, bag1) <-
          complexBackward (coeff r) sol 0 (selection r) bag ;;
      if found
      then
        ' (ok, sel2, bag2) <-
            complexSearch fuel (coeff r) sol undone sel bag1 ;;
        Done (ok, set_selection r sel2, bag2)
      else Done (false, set_selection r sel, bag1)
    else Done (false, r, bag)
  else
    ' (ok, sel2, bag2) <-
        complexSearch fuel (coeff r) sol (currentSize r) (selection r)
          bag ;;
    Done (ok, set_selection r sel2, bag2).

Fixpoint fillLastComplex (sol : list Soluble) (sel : list Select)
    (cols : list Z) : Outcome (list Select) :=
  match cols with
  | [] => Done sel
  | c :: cols' =>
      match sel with
      | [] => Abort
      | s :: sel' =>
          x <- readSol sol c ;;
          if min x =? INSOLUBLE then Abort
          else
            sel2 <- fillLastComplex sol sel' cols' ;;
            Done (set_extra s (min x) :: sel2)
      end
  end.

Definition solveLastRowComplex (d : DiophantineSystem)
    : Outcome DiophantineSystem :=
  r <- getAt (rows d) (lastIndex d) ;;
  sel <- fillLastComplex (soluble r) (selection r) (columns d) ;;
  Done (set_rows_columns d
          (upd (lastIndex d) (set_selection r sel) (rows d)) (columns d)).

(** First loop of [solveRowComplex]: returns the selection,
    [columnTotal], [minSum] and [maxSum]. *)
Fixpoint initComplex (sol : list Soluble) (sel : list Select)
    (cols : list Z) : Outcome (list Select * Z * Z * Z) :=
  match cols with
  | [] => Done (sel, 0, 0, 0)
  | t :: cols' =>
      match sel with
      | [] => Abort
      | _ :: sel' =>
          x <- readSol sol t ;;
          if (min x =? INSOLUBLE) || (max x =? INSOLUBLE)
             || (max x <? min x)
          then Abort
          else
            ' (sel2, columnTotal, minSum, maxSum) <-
                initComplex sol sel' cols' ;;
            Done (mkSelect (min x) 0 (max x - min x) :: sel2,
                  columnTotal + t, minSum + min x, maxSum + max x)
      end
  end.

(** [columns[i] -= selection[i].base * coeff] where the base is positive. *)
Fixpoint applyBase (c : Z) (sel : list Select) (cols : list Z)
    : Outcome (list Z) :=
  match cols with
  | [] => Done []
  | t :: cols' =>
      match sel with
      | [] => Abort
      | s :: sel' =>
          rest <- applyBase c sel' cols' ;;
          if 0 <? base s
          then if t - base s * c <? 0 then Abort
               else Done ((t - base s * c) :: rest)
          else Done (t :: rest)
      end
  end.

(** [columns[i] += selection[i].base * coeff] where the base is positive. *)
Fixpoint restoreBase (mcv c : Z) (sel : list Select) (cols : list Z)
    : Outcome (list Z) :=
  match cols with
  | [] => Done []
  | t :: cols' =>
      match sel with
      | [] => Abort
      | s :: sel' =>
          rest <- restoreBase mcv c sel' cols' ;;
          if 0 <? base s
          then if mcv <? t + base s * c then Abort
               else Done ((t + base s * c) :: rest)
          else Done (t :: rest)
      end
  end.

(** [for (; r.currentSize <= r.currentMaxSize; r.currentSize++)]; [n]
    counts the sizes that are left. *)
Fixpoint sizeLoop (n : nat) (fuel : nat) (r : Row) (sol2 : list Soluble)
    (bag : list Z) : Outcome (bool * Row * list Z) :=
  if currentSize r <=? currentMaxSize r
  then
    match n with
    | O => OutOfFuel
    | S n' =>
        ' (ok, r1, bag1) <- multisetComplex fuel r bag sol2 true ;;
        if ok then Done (true, r1, bag1)
        else sizeLoop n' fuel (set_currentSize r1 (currentSize r1 + 1))
               sol2 bag1
    end
  else Done (false, r, bag).

Definition sizesLeft (r : Row) : nat :=
  Z.to_nat (currentMaxSize r + 1 - currentSize r).

(** The tail of [solveRowComplex]: try the sizes, restore on failure. *)
Definition trySizes (fuel : nat) (d : DiophantineSystem) (rowNr : nat)
    (r : Row) (sol2 : list Soluble) (bag : list Z)
    : Outcome (bool * DiophantineSystem) :=
  ' (ok, r1, bag1) <- sizeLoop (sizesLeft r) fuel r sol2 bag ;;
  if ok then Done (true, putRow d rowNr r1 bag1)
  else
    bag2 <- restoreBase (maxColumnValue d) (coeff r1) (selection r1) bag1 ;;
    Done (false, putRow d rowNr r1 bag2).

Definition solveRowComplex (fuel : nat) (d : DiophantineSystem)
    (rowNr : nat) (findFirst : bool)
    : Outcome (bool * DiophantineSystem) :=
  r <- getAt (rows d) rowNr ;;
  rnext <- getAt (rows d) (S rowNr) ;;
  let soluble2 := soluble rnext in
  if findFirst
  then
    if negb (viable d rowNr) then Done (false, d)
    else
      ' (sel, columnTotal, minSum, maxSum) <-
          initComplex (soluble r) (selection r) (columns d) ;;
      let r1 := set_selection r sel in
      let mn := Z.max (Z.max minSum (minSize r))
                  (ceilingDivision (columnTotal - maxLeave r) (coeff r)) in
      let mx := Z.min (Z.min maxSum (maxSize r))
                  (floorDivision (columnTotal - minLeave r) (coeff r)) in
      if mx <? mn then Done (false, putRow d rowNr r1 (columns d))
      else
        cols1 <- applyBase (coeff r) sel (columns d) ;;
        trySizes fuel d rowNr (set_sizes r1 (mn - minSum) (mx - minSum))
          soluble2 cols1
  else
    ' (ok, r1, cols1) <- multisetComplex fuel r (columns d) soluble2 false ;;
    if ok then Done (true, putRow d rowNr r1 cols1)
    else
      trySizes fuel d rowNr (set_currentSize r1 (currentSize r1 + 1))
        soluble2 cols1.

Definition solveComplex (fuel : nat) (d : DiophantineSystem)
    (findFirst : bool) : Outcome (bool * DiophantineSystem) :=
  ' (found, d1) <-
      (if (1 <? length (rows d))%nat
       then
         let penultimate := (length (rows d) - 2)%nat in
         driverLoop (solveRowComplex fuel) fuel penultimate
           (if findFirst then O else penultimate) findFirst d
       else Done (findFirst, d)) ;;
  if found
  then d2 <- solveLastRowComplex d1 ;; Done (true, d2)
  else Done (false, set_failed d1).

(* ================================================================= *)
(** ** The public operations *)

(** [solve()]; the assertions of [precompute] on the number of rows and
    columns and the assertion on [failed] abort. *)
Definition solve (fuel : nat) (d : DiophantineSystem)
    : Outcome (bool * DiophantineSystem) :=
  let findFirst := negb (closed d) in
  ' (ok, d1) <-
      (if findFirst
       then
         if (length (rows d) =? 0)%nat || (length (columns d) =? 0)%nat
         then Abort
         else Done (precompute d)
       else Done (true, d)) ;;
  if negb ok then Done (false, d1)
  else
    if failed d1 then Abort
    else
      if complex d1 then solveComplex fuel d1 findFirst
      else solveSimple fuel d1 findFirst.

(** Modelled from the spec: [solution] is defined in the missing header.
    It reads [base + extra] of the selection of [rows[rowPermute[row]]]
    at the column. *)
Definition solution (d : DiophantineSystem) (row col : nat) : Z :=
  let r := nth (nth row (rowPermute d) O) (rows d) emptyRow in
  let s := nth col (selection r) (mkSelect 0 0 0) in
  base s + extra s.

(** The whole matrix, in the caller's row order. *)
Definition solutionMatrix (d : DiophantineSystem) : list (list Z) :=
  map (fun i => map (fun j => solution d i j) (seq 0 (length (columns d))))
      (seq 0 (length (rows d))).

(** A system declared by a list of rows [(coeff, minSize, maxSize)] and
    a list of column values, inserted in order. *)
Definition declare (rs : list (Z * Z * Z)) (cs : list Z)
    : DiophantineSystem :=
  fold_left (fun d v => insertColumn v d) cs
    (fold_left (fun d r => insertRow (fst (fst r)) (snd (fst r)) (snd r) d)
       rs newSystem).

(* ================================================================= *)
(** ** Systems used as examples *)

Definition scenario4 : DiophantineSystem := declare [(3, 1, 1)] [6].

Definition ascendingExample : DiophantineSystem :=
  declare [(2, 0, 5); (1, 0, 5)] [3].

(* ================================================================= *)
(** ** Completions of a suffix of the rows

    A completion of the rows [rs] at a column of magnitude [v] gives
    every row a count between 0 and its [maxSize] such that the counts,
    weighted by the coefficients, add up to [v]. *)

Definition weightedSum (rs : list Row) (ks : list Z) : Z :=
  zsum (map (fun p => snd p * coeff (fst p)) (combine rs ks)).

Definition completion (rs : list Row) (ks : list Z) (v : Z) : Prop :=
  Forall2 (fun r k => 0 <= k <= maxSize r) rs ks /\ weightedSum rs ks = v.

Definition solubleBy (rs : list Row) (v : Z) : Prop :=
  exists ks, completion rs ks v.

(** The counts [k] of a row (coefficient [c], bound [mx]) that leave a
    residual of [v] in [P], and what a table entry says about them. *)
Definition countOK (P : Z -> Prop) (c mx v k : Z) : Prop :=
  0 <= k <= mx /\ P (v - k * c).

Definition entryOK (P : Z -> Prop) (c mx v : Z) (e : Soluble) : Prop :=
  (min e = INSOLUBLE /\ max e = INSOLUBLE
   /\ forall k, ~ countOK P c mx v k)
  \/ (countOK P c mx v (min e) /\ countOK P c mx v (max e)
      /\ forall k, countOK P c mx v k -> min e <= k <= max e).

Definition tableOK (P : Z -> Prop) (mcv c mx : Z) (s : list Soluble)
    : Prop :=
  length s = S (Z.to_nat mcv)
  /\ forall v, 0 <= v <= mcv -> entryOK P c mx v (solAt s v).

(** Every row of [rs] carries the table of the suffix that starts at it. *)
Fixpoint tablesOK (mcv : Z) (rs : list Row) : Prop :=
  match rs with
  | [] => True
  | r :: rest =>
      tableOK (solubleBy rest) mcv (coeff r) (maxSize r) (soluble r)
      /\ tablesOK mcv rest
  end.

Definition rowDeclared (r : Row) : Prop :=
  0 < coeff r /\ 0 <= minSize r <= maxSize r.

(** Invariant of the second loop of the last row: the multiples of [c]
    below [count * c] are set, the other entries are as initialised. *)
Definition startEntry (v : Z) : Soluble :=
  if v =? 0 then mkSoluble 0 0 else insolubleEntry.

Definition lastRowInv (mcv c mx : Z) (count : Z) (s : list Soluble)
    : Prop :=
  0 <= count <= mx + 1
  /\ length s = S (Z.to_nat mcv)
  /\ forall v, 0 <= v <= mcv ->
       (exists k, 0 <= k < count /\ v = k * c
                  /\ solAt s v = mkSoluble k k)
       \/ ((forall k, 0 <= k < count -> v <> k * c)
           /\ solAt s v = startEntry v).

(* ================================================================= *)
(** ** Selections as vectors of extras

    The functions [scanSel], [fillSel] follow the two loops of
    [multisetSelect] on the vector of [extra] values alone; [rgreedy]
    and [rnext] describe the least selection of a size and the
    successor of a selection on the reversed vector, last column
    first. *)

Fixpoint scanSel (u : Z) (caps xs : list Z) : bool * Z * list Z :=
  match caps, xs with
  | cap :: caps', x :: xs' =>
      if (0 <? u) && (x <? cap) then (true, u - 1, (x + 1) :: xs')
      else
        match scanSel (if 0 <? x then u + x else u) caps' xs' with
        | (found, u', ys) => (found, u', (if 0 <? x then 0 else x) :: ys)
        end
  | _, _ => (false, u, xs)
  end.

Fixpoint fillSel (u : Z) (caps xs : list Z) : list Z :=
  if 0 <? u
  then
    match caps, xs with
    | cap :: caps', x :: xs' =>
        let t := Z.min u cap in
        (if 0 <? t then t else x)
          :: fillSel (if 0 <? t then u - t else u) caps' xs'
    | _, _ => xs
    end
  else xs.

(** The loop at [forwards] assumes that the elements it sets were
    released: the units it places fit into elements whose extra is 0. *)
Fixpoint fillsZeros (u : Z) (caps xs : list Z) : Prop :=
  u <= 0
  \/ match caps, xs with
     | cap :: caps', x :: xs' =>
         x = 0 /\ fillsZeros (u - Z.min u cap) caps' xs'
     | _, _ => False
     end.

Definition greedy (u : Z) (caps : list Z) : list Z :=
  fillSel u caps (repeat 0 (length caps)).

Definition nextSel (caps xs : list Z) : option (list Z) :=
  match scanSel 0 caps xs with
  | (true, u, ys) => Some (fillSel u caps ys)
  | (false, _, _) => None
  end.

Fixpoint rgreedy (u : Z) (rcaps : list Z) : list Z :=
  match rcaps with
  | [] => []
  | _ :: rest =>
      let low := Z.min u (zsum rest) in
      (u - low) :: rgreedy low rest
  end.

Fixpoint rnext (rcaps rxs : list Z) : option (list Z) :=
  match rcaps, rxs with
  | cap :: rcaps', x :: rxs' =>
      match rnext rcaps' rxs' with
      | Some ys => Some (x :: ys)
      | None =>
          if (0 <? zsum rxs') && (x <? cap)
          then Some ((x + 1) :: rgreedy (zsum rxs' - 1) rcaps')
          else None
      end
  | _, _ => None
  end.

(** Lexicographic order on vectors of the same length. *)
Fixpoint lexLt (u v : list Z) : Prop :=
  match u, v with
  | x :: u', y :: v' => x < y \/ (x = y /\ lexLt u' v')
  | _, _ => False
  end.

(** A vector of extras within the capacities. *)
Definition within (caps xs : list Z) : Prop :=
  Forall2 (fun cap x => 0 <= x <= cap) caps xs.

(** The order of the enumeration: by size, then lexicographically on
    the reversed vector [(extra_{m-1}, ..., extra_0)]. *)
Definition selLt (u v : list Z) : Prop :=
  zsum u < zsum v \/ (zsum u = zsum v /\ lexLt (rev u) (rev v)).

(** The selections a row activation has to produce. *)
Definition validSel (caps : list Z) (lo hi : Z) (v : list Z) : Prop :=
  within caps v /\ lo <= zsum v <= hi.

(** The selection with its extras replaced, the bag with the extras of a
    selection given back, and the bag after a vector of extras was
    taken from it. *)
Definition setExtras (sel : list Select) (ys : list Z) : list Select :=
  map (fun p => set_extra (fst p) (snd p)) (combine sel ys).

Definition giveBack (c : Z) (sel : list Select) (bag : list Z) : list Z :=
  map (fun p => snd p + extra (fst p) * c) (combine sel bag).

Definition takeFrom (c : Z) (full : list Z) (ys : list Z) : list Z :=
  map (fun p => fst p - snd p * c) (combine full ys).

(** The advance of [solveRowSimple] on the vector of extras: the next
    selection of the size, or the least selection of the next size. *)
Definition advanceSel (caps : list Z) (hi : Z) (xs : list Z)
    : option (list Z) :=
  match nextSel caps xs with
  | Some ys => Some ys
  | None =>
      if zsum xs =? hi then None else Some (greedy (zsum xs + 1) caps)
  end.

(** What a row keeps throughout an activation. *)
Definition rowStatic (r r' : Row) : Prop :=
  name r' = name r /\ coeff r' = coeff r
  /\ minSize r' = minSize r /\ maxSize r' = maxSize r
  /\ minProduct r' = minProduct r /\ maxProduct r' = maxProduct r
  /\ minLeave r' = minLeave r /\ maxLeave r' = maxLeave r
  /\ currentMaxSize r' = currentMaxSize r
  /\ soluble r' = soluble r
  /\ map maxExtra (selection r') = map maxExtra (selection r)
  /\ map base (selection r') = map base (selection r).

Definition selOK (s : Select) : Prop := 0 <= extra s <= maxExtra s.

(** State of a row between two calls of [solveRowSimple]. *)
Definition simpleRowOK (r : Row) (bag : list Z) : Prop :=
  length (selection r) = length bag
  /\ within (map maxExtra (selection r)) (map extra (selection r))
  /\ zsum (map extra (selection r)) = currentSize r
  /\ currentSize r <= currentMaxSize r
  /\ currentMaxSize r <= zsum (map maxExtra (selection r)).

(** Number of vectors within the capacities, and the position of a
    vector among them (first component most significant). *)
Fixpoint capSpace (caps : list Z) : Z :=
  match caps with
  | [] => 1
  | cap :: rest => (cap + 1) * capSpace rest
  end.

Fixpoint lexRank (caps xs : list Z) : Z :=
  match caps, xs with
  | _ :: caps', x :: xs' => x * capSpace caps' + lexRank caps' xs'
  | _, _ => 0
  end.

(** Distance of a selection from the end of the enumeration. *)
Definition selMeasure (caps : list Z) (hi : Z) (xs : list Z) : Z :=
  (hi - zsum xs) * capSpace (rev caps)
  + (capSpace (rev caps) - 1 - lexRank (rev caps) (rev xs)).

(** The extras of row [k], and the selections produced by repeated
    advance calls of [solveRowSimple] on row [k] until it fails. *)
Definition rowExtras (d : DiophantineSystem) (k : nat) : list Z :=
  map extra (selection (nth k (rows d) emptyRow)).

Fixpoint advances (n : nat) (d : DiophantineSystem) (k : nat)
    : Outcome (list (list Z)) :=
  match n with
  | O => OutOfFuel
  | S n' =>
      ' (found, d') <- solveRowSimple d k false ;;
      if found
      then rest <- advances n' d' k ;; Done (rowExtras d' k :: rest)
      else Done []
  end.

(** The capacity [solveRowSimple] gives a column of value [t]. *)
Definition capOf (c t : Z) : Z := if c <=? t then Z.quot t c else 0.

(** The size window [solveRowSimple] computes on a first visit. *)
Definition simpleLo (r : Row) (cols : list Z) : Z :=
  Z.max (minSize r) (ceilingDivision (zsum cols - maxLeave r) (coeff r)).

Definition simpleHi (r : Row) (cols : list Z) : Z :=
  Z.min (Z.min (zsum (map (capOf (coeff r)) cols)) (maxSize r))
        (floorDivision (zsum cols - minLeave r) (coeff r)).

(** The selection [solveRowSimple] starts a first visit with. *)
Definition initSel (c : Z) (sel : list Select) (cols : list Z)
    : list Select :=
  map (fun p => mkSelect (base (fst p)) 0 (capOf c (snd p)))
      (combine sel cols).

(** The simple system of two rows (1,1,1) and two columns 1, closed. *)
Definition orderExample : DiophantineSystem :=
  snd (precompute (declare [(1, 1, 1); (1, 1, 1)] [1; 1])).

(** A simple system of three unit rows and two columns 2, closed. *)
Definition unitExample : DiophantineSystem :=
  snd (precompute (declare [(1, 1, 2); (1, 0, 5); (1, 1, 3)] [2; 2])).

(* ================================================================= *)
(** ** Invariants of the complex case *)

(** The residual [x] is inside the table of the next row and soluble. *)
Definition sol2 (t2 : list Soluble) (x : Z) : Prop :=
  exists e, getSol t2 x = Some e /\ min e <> INSOLUBLE.

(** A column of a row under enumeration: the extra is within its
    maximum, and both the residual with no extra and the residual with
    the maximal extra are inside the table and soluble. *)
Definition weakCol (mcv c : Z) (t2 : list Soluble) (s : Select) (b : Z)
    : Prop :=
  0 <= extra s <= maxExtra s
  /\ b + extra s * c <= mcv
  /\ 0 <= b + extra s * c - maxExtra s * c
  /\ sol2 t2 (b + extra s * c - maxExtra s * c)
  /\ sol2 t2 (b + extra s * c).

(** State in which [forwards] jumps to [backtrack]: the columns before
    the one that was filled in part hold their maximum, the columns
    after it have soluble residuals. *)
Fixpoint stuckOK (t2 : list Soluble) (sel : list Select) (bag : list Z)
    : Prop :=
  match sel, bag with
  | s :: sel', b :: bag' =>
      Forall (sol2 t2) bag'
      \/ (extra s = maxExtra s /\ stuckOK t2 sel' bag')
  | _, _ => True
  end.

(** The fields of a row that the search never changes. *)
Definition rowFixed (R r : Row) : Prop :=
  name r = name R /\ coeff r = coeff R
  /\ minSize r = minSize R /\ maxSize r = maxSize R
  /\ minProduct r = minProduct R /\ maxProduct r = maxProduct R
  /\ minLeave r = minLeave R /\ maxLeave r = maxLeave R
  /\ soluble r = soluble R.

(** The selection [solveRowComplex] starts a first visit with, the
    columns with the bases taken off and put back. *)
Definition initSelC (tk : list Soluble) (cols : list Z) : list Select :=
  map (fun t => mkSelect (min (solAt tk t)) 0
                  (max (solAt tk t) - min (solAt tk t))) cols.

Definition baseOff (c : Z) (sel : list Select) (cols : list Z) : list Z :=
  map (fun p => snd p - base (fst p) * c) (combine sel cols).

Definition baseOn (c : Z) (sel : list Select) (bag : list Z) : list Z :=
  map (fun p => snd p + base (fst p) * c) (combine sel bag).

(** The bag a row found at its first visit, from its selection and the
    current bag. *)
Definition entryBag (c : Z) (sel : list Select) (bag : list Z) : list Z :=
  baseOn c sel (giveBack c sel bag).

Definition baseSum (sel : list Select) : Z := zsum (map base sel).

(** The sizes still to be tried keep the row within its size bounds and
    leave the rows after it within theirs. *)
Definition windowOK (R r : Row) (V : list Z) : Prop :=
  currentSize r <= currentMaxSize r
  /\ minSize R <= baseSum (selection r) + currentSize r
  /\ baseSum (selection r) + currentMaxSize r <= maxSize R
  /\ zsum V - (baseSum (selection r) + currentSize r) * coeff R
     <= maxLeave R
  /\ minLeave R
     <= zsum V - (baseSum (selection r) + currentMaxSize r) * coeff R.

(** A row of the complex case that holds a selection: [V] is the bag at
    its first visit, [bag] the bag it leaves to the next row, whose
    table is [t2]. *)
Definition activeComplex (mcv : Z) (t2 : list Soluble) (R r : Row)
    (V bag : list Z) : Prop :=
  rowFixed R r
  /\ Forall2 (weakCol mcv (coeff R) t2) (selection r) bag
  /\ Forall (sol2 t2) bag
  /\ zsum (map extra (selection r)) = currentSize r
  /\ entryBag (coeff R) (selection r) bag = V
  /\ Forall (fun s => 0 <= base s) (selection r)
  /\ Forall (fun v => v <= mcv) V
  /\ currentMaxSize r <= zsum (map maxExtra (selection r))
  /\ windowOK R r V.

(** A complete activation of row [k] in the complex case: the first
    visit, then advance calls until one fails; the result is the state
    after the failing call.  [n] bounds the number of advance calls. *)
Fixpoint retries (n : nat) (fuel : nat) (d : DiophantineSystem) (k : nat)
    : Outcome DiophantineSystem :=
  match n with
  | O => OutOfFuel
  | S n' =>
      ' (found, d') <- solveRowComplex fuel d k false ;;
      if found then retries n' fuel d' k else Done d'
  end.

Definition activationC (n : nat) (fuel : nat) (d : DiophantineSystem)
    (k : nat) : Outcome DiophantineSystem :=
  ' (found, d1) <- solveRowComplex fuel d k true ;;
  if found then retries n fuel d1 k else Done d1.

(** A closed system whose tables are built, with a row [k] that is not
    the last one and columns that the table of row [k] can absorb. *)
Definition complexEntry (d : DiophantineSystem) (k : nat) : Prop :=
  0 <= maxColumnValue d
  /\ tablesOK (maxColumnValue d) (rows d)
  /\ Forall (fun r => 0 < coeff r) (rows d)
  /\ (S k < length (rows d))%nat
  /\ length (selection (nth k (rows d) emptyRow)) = length (columns d)
  /\ Forall (sol2 (soluble (nth k (rows d) emptyRow))) (columns d).

(** The complex system of rows (2,0,5), (1,0,5) and column 3, closed. *)
Definition complexExample : DiophantineSystem :=
  snd (precompute ascendingExample).

(* ================================================================= *)
(** ** Invariants of the drivers *)

(** A row of the simple case that holds a selection. *)
Definition activeSimple (R r : Row) (V bag : list Z) : Prop :=
  rowFixed R r
  /\ simpleRowOK r bag
  /\ Forall (fun s => base s = 0) (selection r)
  /\ giveBack (coeff R) (selection r) bag = V
  /\ Forall2 (fun s v => maxExtra s * coeff R <= v) (selection r) V
  /\ windowOK R r V.

(** Rows [0 .. a-1] hold selections: row [a-1] found the bag [V] that
    the rows before it left, and leaves [bag]. *)
Fixpoint activeUpTo (Active : nat -> Row -> list Z -> list Z -> Prop)
    (Entry : nat -> list Z -> Prop) (a : nat) (rs : list Row)
    (V0 bag : list Z) : Prop :=
  match a with
  | O => bag = V0
  | S a' =>
      exists V r,
        nth_error rs a' = Some r
        /\ activeUpTo Active Entry a' rs V0 V
        /\ Entry a' V
        /\ Active a' r V bag
  end.

Definition idleFrom (Idle : nat -> Row -> Prop) (a : nat) (rs : list Row)
    : Prop :=
  forall j r, (a <= j)%nat -> nth_error rs j = Some r -> Idle j r.

Definition driverInv (Active : nat -> Row -> list Z -> list Z -> Prop)
    (Idle : nat -> Row -> Prop) (Entry : nat -> list Z -> Prop)
    (Sys : DiophantineSystem -> Prop) (n : nat) (V0 : list Z) (a : nat)
    (d : DiophantineSystem) : Prop :=
  length (rows d) = n
  /\ Sys d
  /\ activeUpTo Active Entry a (rows d) V0 (columns d)
  /\ idleFrom Idle a (rows d)
  /\ Entry a (columns d).

(** What precomputation leaves in the rows, in sorted order. *)
Definition staticRows (Rs : list Row) : Prop :=
  forall k R, nth_error Rs k = Some R ->
    0 < coeff R /\ 0 <= minSize R
    /\ minProduct R = minSize R * coeff R
    /\ maxProduct R = maxSize R * coeff R
    /\ minLeave R = sumOfMinProducts (skipn (S k) Rs)
    /\ maxLeave R = sumOfMaxProducts (skipn (S k) Rs).

(** The mass of a bag that rows [k ..] can absorb. *)
Definition leaveBounds (Rs : list Row) (k : nat) (bag : list Z) : Prop :=
  sumOfMinProducts (skipn k Rs) <= zsum bag
    <= sumOfMaxProducts (skipn k Rs).

Definition idleSimple (Rs : list Row) (m : nat) (k : nat) (r : Row)
    : Prop :=
  rowFixed (nth k Rs emptyRow) r
  /\ length (selection r) = m
  /\ Forall (fun s => base s = 0) (selection r).

Definition entrySimple (Rs : list Row) (m : nat) (k : nat)
    (bag : list Z) : Prop :=
  length bag = m /\ Forall (fun t => 0 <= t) bag /\ leaveBounds Rs k bag.

Definition activeSimpleAt (Rs : list Row) (m : nat) (k : nat) (r : Row)
    (V bag : list Z) : Prop :=
  activeSimple (nth k Rs emptyRow) r V bag /\ length V = m.

Definition idleComplex (Rs : list Row) (m : nat) (k : nat) (r : Row)
    : Prop :=
  rowFixed (nth k Rs emptyRow) r
  /\ length (selection r) = m
  /\ (S k = length Rs -> Forall (fun s => base s = 0) (selection r)).

Definition entryComplex (Rs : list Row) (m : nat) (k : nat)
    (bag : list Z) : Prop :=
  length bag = m
  /\ Forall (sol2 (soluble (nth k Rs emptyRow))) bag
  /\ leaveBounds Rs k bag.

Definition activeComplexAt (Rs : list Row) (m : nat) (mcv : Z) (k : nat)
    (r : Row) (V bag : list Z) : Prop :=
  activeComplex mcv (soluble (nth (S k) Rs emptyRow)) (nth k Rs emptyRow)
    r V bag
  /\ length V = m.

(** The fields of the system that the search leaves alone. *)
Definition sysIs (cx : bool) (perm : list nat) (mcv : Z)
    (d : DiophantineSystem) : Prop :=
  closed d = true /\ failed d = false /\ complex d = cx
  /\ rowPermute d = perm /\ maxColumnValue d = mcv.

(** The entry of a row at a column and the size of a row, as [solution]
    reads them. *)
Definition cell (r : Row) (j : nat) : Z :=
  base (nth j (selection r) (mkSelect 0 0 0))
  + extra (nth j (selection r) (mkSelect 0 0 0)).

Definition rowTotal (r : Row) : Z :=
  zsum (map (fun s => base s + extra s) (selection r)).

(** What a row with a selection means: it took [cell * coeff] out of
    every column of [V], leaving [bag], and its size is within the
    bounds of the row. *)
Definition rowSem (R r : Row) (V bag : list Z) : Prop :=
  rowFixed R r
  /\ length (selection r) = length V
  /\ length bag = length V
  /\ (forall j, nth j V 0 = nth j bag 0 + cell r j * coeff R)
  /\ minSize R <= rowTotal r <= maxSize R.

(** What the last row means once it was filled from the bag. *)
Definition lastSem (R r : Row) (bag : list Z) : Prop :=
  rowFixed R r
  /\ length (selection r) = length bag
  /\ (forall j, nth j bag 0 = cell r j * coeff R)
  /\ minSize R <= rowTotal r <= maxSize R.

(** The invariant of the search, for either case: the rows before [a]
    hold selections, the rows from [a] on hold none. *)
Definition searchInv (cx : bool) (Rs : list Row) (perm : list nat)
    (mcv : Z) (V0 : list Z) (a : nat) (d : DiophantineSystem) : Prop :=
  if cx
  then driverInv (activeComplexAt Rs (length V0) mcv)
         (idleComplex Rs (length V0)) (entryComplex Rs (length V0))
         (sysIs true perm mcv) (length Rs) V0 a d
  else driverInv (activeSimpleAt Rs (length V0))
         (idleSimple Rs (length V0)) (entrySimple Rs (length V0))
         (sysIs false perm mcv) (length Rs) V0 a d.

(** What [precompute] leaves in the rows, as far as the search relies on
    it. *)
Definition prepared (cx : bool) (Rs : list Row) (mcv : Z) : Prop :=
  staticRows Rs /\ (1 <= length Rs)%nat /\ 0 <= mcv
  /\ if cx then tablesOK mcv Rs
     else coeff (nth (length Rs - 1) Rs emptyRow) = 1.

(** The state after a call of [solve] that returned true. *)
Definition solvedState (cx : bool) (Rs : list Row) (perm : list nat)
    (mcv : Z) (V0 : list Z) (d : DiophantineSystem) : Prop :=
  searchInv cx Rs perm mcv V0 (length Rs - 1) d
  /\ lastSem (nth (length Rs - 1) Rs emptyRow)
       (nth (length Rs - 1) (rows d) emptyRow) (columns d).

(** The rows of a declared system, before the first [solve]: the name of
    a row is the index at which it was inserted. *)
Fixpoint declaredRows (i : nat) (rs : list (Z * Z * Z)) : list Row :=
  match rs with
  | [] => []
  | r :: rest =>
      mkRow i (fst (fst r)) (snd (fst r)) (snd r) 0 0 0 0 0 0 [] []
        :: declaredRows (S i) rest
  end.

(** The arguments [insertRow] and [insertColumn] assert. *)
Definition validRow (r : Z * Z * Z) : Prop :=
  0 < fst (fst r) /\ 0 <= snd (fst r) <= snd r.

Definition validColumn (v : Z) : Prop := 0 < v.

(** The fields of a row that come from its declaration. *)
Definition sameDecl (r R : Row) : Prop :=
  name R = name r /\ coeff R = coeff r
  /\ minSize R = minSize r /\ maxSize R = maxSize r
  /\ minProduct R = minProduct r /\ maxProduct R = maxProduct r.

(** Rows that differ in nothing but the tables and the state of the
    search. *)
Definition sameRow (r R : Row) : Prop :=
  sameDecl r R /\ minLeave R = minLeave r /\ maxLeave R = maxLeave r
  /\ selection R = selection r.

(** How the sorted rows [Rs] and the permutation [perm] stand for the
    declared rows: the row declared at index [i] is found at position
    [perm[i]], with its bound substituted. *)
Definition permuted (rs : list (Z * Z * Z)) (csum : Z) (Rs : list Row)
    (perm : list nat) : Prop :=
  length Rs = length rs
  /\ forall i r,
       nth_error rs i = Some r ->
       exists R,
         nth_error Rs (nth i perm O) = Some R
         /\ name R = i /\ coeff R = fst (fst r)
         /\ minSize R = snd (fst r)
         /\ maxSize R = (if snd r =? UNBOUNDED then csum else snd r).

(** The states reached from [d0] by calls of [solve] that returned
    true. *)
Inductive solved (d0 : DiophantineSystem) : DiophantineSystem -> Prop :=
| solved_first (fuel : nat) (d : DiophantineSystem) :
    solve fuel d0 = Done (true, d) -> solved d0 d
| solved_next (fuel : nat) (d d' : DiophantineSystem) :
    solved d0 d -> solve fuel d = Done (true, d') -> solved d0 d'.

(** A declared system with an unbounded row, and the states after its
    first and second solution. *)
Definition exampleRows : list (Z * Z * Z) :=
  [(2, 0, 3); (1, 0, UNBOUNDED)].

Definition exampleColumns : list Z := [3; 2].

Definition resultOf (o : Outcome (bool * DiophantineSystem))
    (d : DiophantineSystem) : DiophantineSystem :=
  match o with
  | Done (_, d') => d'
  | _ => d
  end.

Definition firstSolution : DiophantineSystem :=
  resultOf (solve 50 (declare exampleRows exampleColumns))
    (declare exampleRows exampleColumns).

Definition secondSolution : DiophantineSystem :=
  resultOf (solve 50 firstSolution) firstSolution.

(* ================================================================= *)
(** ** The insertions with their assertions *)

(** [insertRow] with its four assertions: the system is not closed,
    [coeff > 0], [minSize >= 0] and [minSize <= maxSize]. *)
Definition insertRowAsserted (c mn mx : Z) (d : DiophantineSystem)
    : Outcome DiophantineSystem :=
  if closed d then Abort
  else if negb (0 <? c) then Abort
  else if mn <? 0 then Abort
  else if mx <? mn then Abort
  else Done (insertRow c mn mx d).

(** [insertColumn] with its two assertions: [value > 0] and the system
    is not closed. *)
Definition insertColumnAsserted (v : Z) (d : DiophantineSystem)
    : Outcome DiophantineSystem :=
  if negb (0 <? v) then Abort
  else if closed d then Abort
  else Done (insertColumn v d).

(** The systems a caller can build: the constructor, then insertions of
    rows and columns in any order, none of which fired an assertion. *)
Inductive built : DiophantineSystem -> Prop :=
| built_new : built newSystem
| built_row (c mn mx : Z) (d d' : DiophantineSystem) :
    built d -> insertRowAsserted c mn mx d = Done d' -> built d'
| built_column (v : Z) (d d' : DiophantineSystem) :
    built d -> insertColumnAsserted v d = Done d' -> built d'.

(** A system built with the insertions interleaved. *)
Definition interleavedExample : DiophantineSystem :=
  insertRow 1 0 UNBOUNDED
    (insertColumn 2 (insertRow 2 0 3 (insertColumn 3 newSystem))).

(** What the search leaves alone: the permutation, the totals, the
    classification, and in every row the fields that come from the
    declaration and from [precompute]. *)
Definition sameSystem (d d' : DiophantineSystem) : Prop :=
  rowPermute d' = rowPermute d
  /\ columnSum d' = columnSum d
  /\ maxColumnValue d' = maxColumnValue d
  /\ closed d' = closed d
  /\ complex d' = complex d
  /\ Forall2 rowFixed (rows d) (rows d').

(** The state after the first [solve] of the scenario of one row
    (3,1,1) and one column 6. *)
Definition scenario4Failed : DiophantineSystem :=
  resultOf (solve 0 scenario4) scenario4.

(** The order in which [sort] with [rowLt] leaves the rows. *)
Definition rowLe (a b : Row) : Prop :=
  coeff a < coeff b \/ (coeff a = coeff b /\ maxSize a <= maxSize b).

(** The bound of a declared row once [UNBOUNDED] is replaced. *)
Definition boundOf (csum : Z) (r : Z * Z * Z) : Z :=
  if snd r =? UNBOUNDED then csum else snd r.

(** A solution of the system declared by [rs] and [cs], in the caller's
    order: a matrix of natural numbers, one row for each declared row,
    whose columns balance and whose rows have a size within their
    bounds; a [maxSize] of [UNBOUNDED] is no bound. *)
Definition isSolution (rs : list (Z * Z * Z)) (cs : list Z)
    (M : list (list Z)) : Prop :=
  length M = length rs
  /\ Forall (fun row => length row = length cs
                        /\ Forall (fun x => 0 <= x) row) M
  /\ (forall j, (j < length cs)%nat ->
        zsum (map (fun i => fst (fst (nth i rs (0, 0, 0)))
                            * nth j (nth i M []) 0)
                (seq 0 (length rs)))
        = nth j cs 0)
  /\ (forall i r, nth_error rs i = Some r ->
        snd (fst r) <= zsum (nth i M [])
        /\ (snd r = UNBOUNDED \/ zsum (nth i M []) <= snd r)).

(** Three rows and two columns with a solution that [solve] does not
    find. *)
Definition missedRows : list (Z * Z * Z) :=
  [(1, 1, 1); (2, 1, 1); (2, 0, 5)].

Definition missedColumns : list Z := [1; 2].

Definition missedSolution : list (list Z) := [[1; 0]; [0; 1]; [0; 0]].

(** A complete activation of row [k] in the simple case: the first
    visit, then advance calls until one fails; the result is the state
    after the failing call.  [n] bounds the number of advance calls. *)
Fixpoint retriesSimple (n : nat) (d : DiophantineSystem) (k : nat)
    : Outcome DiophantineSystem :=
  match n with
  | O => OutOfFuel
  | S n' =>
      ' (found, d') <- solveRowSimple d k false ;;
      if found then retriesSimple n' d' k else Done d'
  end.

Definition activationSimple (n : nat) (d : DiophantineSystem) (k : nat)
    : Outcome DiophantineSystem :=
  ' (found, d1) <- solveRowSimple d k true ;;
  if found then retriesSimple n d1 k else Done d1.

(** A row [k] that holds no selection, before columns that are not
    negative. *)
Definition simpleEntry (d : DiophantineSystem) (k : nat) : Prop :=
  (k < length (rows d))%nat
  /\ 0 < coeff (nth k (rows d) emptyRow)
  /\ 0 <= minSize (nth k (rows d) emptyRow)
  /\ length (selection (nth k (rows d) emptyRow)) = length (columns d)
  /\ Forall (fun s => base s = 0) (selection (nth k (rows d) emptyRow))
  /\ Forall (fun t => 0 <= t) (columns d).

(** The number of selections a row of the simple case has still to
    produce, at most. *)
Definition simpleRank (r : Row) : Z :=
  selMeasure (map maxExtra (selection r)) (currentMaxSize r)
    (map extra (selection r)).

(** A declared system of unit coefficients, treated as simple, and the
    state after its first solution. *)
Definition unitRows : list (Z * Z * Z) := [(1, 1, 2); (1, 0, 5); (1, 1, 3)].

Definition unitColumns : list Z := [2; 2].

Definition unitFirst : DiophantineSystem :=
  resultOf (solve 50 (declare unitRows unitColumns))
    (declare unitRows unitColumns).

(* ================================================================= *)
(** ** The program of [main.cc] *)

(** The six rows and six columns [main] inserts. *)
Definition mainRows : list (Z * Z * Z) :=
  [(1, 14, 14); (2, 15, 15); (2, 17, 17); (2, 18, 18); (1, 34, 34);
   (2, 15, 15)].

Definition mainColumns : list Z := [26; 28; 32; 25; 41; 26].

(** The loop of [main]: [s] times, call [solve], ignore what it
    returns, and print [solution(row, col)] for the 6 x 6 entries.  The
    output is the list of the printed matrices, each with the result of
    its call. *)
Fixpoint mainLoop (fuel : nat) (s : nat) (d : DiophantineSystem)
    : Outcome (list (bool * list (list Z))) :=
  match s with
  | O => Done []
  | S s' =>
      ' (b, d1) <- solve fuel d ;;
      rest <- mainLoop fuel s' d1 ;;
      Done ((b, map (fun row => map (fun col => solution d1 row col)
                                (seq 0 6)) (seq 0 6)) :: rest)
  end.

Definition mainProgram (fuel : nat)
    : Outcome (list (bool * list (list Z))) :=
  mainLoop fuel 8 (declare mainRows mainColumns).

(** The state of the system of [main] after [k] calls of [solve]. *)
Definition mainState (k : nat) : DiophantineSystem :=
  Nat.iter k (fun d => resultOf (solve 200 d) d)
    (declare mainRows mainColumns).

(** A declared system of a single row, with coefficient 3. *)
Definition singleRow : list (Z * Z * Z) := [(3, 1, 4)].

Definition singleColumns : list Z := [6; 3].

(* ================================================================= *)
(** ** The precomputation with its vector accesses checked

    A second rendering of [precompute] and [buildSolubilityVectors].
    Every subscript whose index is computed (a table, [rowPermute],
    [rows[0]]) is checked against the length of the vector, the
    [Assert]s are kept, and the two loops that have no counter run on
    fuel. *)

Definition writeSol (s : list Soluble) (k : Z) (e : Soluble)
    : Outcome (list Soluble) :=
  match getSol s k with
  | Some _ => Done (upd (Z.to_nat k) e s)
  | None => Abort
  end.

Fixpoint lastRowLoopChecked (fuel : nat) (mcv c mx : Z) (j count : Z)
    (s : list Soluble) : Outcome (list Soluble) :=
  match fuel with
  | O => OutOfFuel
  | S f =>
      if (j <=? mcv) && (count <=? mx)
      then
        s' <- writeSol s j (mkSoluble count count) ;;
        lastRowLoopChecked f mcv c mx (j + c) (count + 1) s'
      else Done s
  end.

Definition lastRowTableChecked (fuel : nat) (mcv : Z) (r : Row)
    : Outcome (list Soluble) :=
  let s0 := mkSoluble 0 0 :: repeat insolubleEntry (Z.to_nat mcv) in
  lastRowLoopChecked fuel mcv (coeff r) (maxSize r) 0 0 s0.

Fixpoint scanNewMaxChecked (fuel : nat) (prev : list Soluble) (c : Z)
    (k newMax : Z) : Outcome Z :=
  match fuel with
  | O => OutOfFuel
  | S f =>
      e <- readSol prev k ;;
      if min e =? INSOLUBLE
      then scanNewMaxChecked f prev c (k + c) (newMax - 1)
      else Done newMax
  end.

(** The body of the loop over [j]; [Assert(newMax >= next[t].min + 1)]
    aborts when it fails. *)
Definition nextEntryChecked (fuel : nat) (prev next : list Soluble)
    (c mx : Z) (j : Z) : Outcome Soluble :=
  let t := j - c in
  takes <- (if 0 <=? t
            then
              nt <- readSol next t ;;
              Done (negb (min nt =? INSOLUBLE) && (min nt <? mx))
            else Done false) ;;
  if takes : bool
  then
    nt <- readSol next t ;;
    pj <- readSol prev j ;;
    let mn := if min pj =? INSOLUBLE then min nt + 1 else 0 in
    if max nt <? mx
    then Done (mkSoluble mn (max nt + 1))
    else
      newMax <- scanNewMaxChecked fuel prev c (j - mx * c) mx ;;
      if newMax <? min nt + 1 then Abort else Done (mkSoluble mn newMax)
  else
    pj <- readSol prev j ;;
    Done (if min pj =? INSOLUBLE then insolubleEntry else mkSoluble 0 0).

Fixpoint nextRowLoopChecked (n fuel : nat) (prev : list Soluble)
    (c mx : Z) (j : Z) (next : list Soluble) : Outcome (list Soluble) :=
  match n with
  | O => Done next
  | S n' =>
      e <- nextEntryChecked fuel prev next c mx j ;;
      next' <- writeSol next j e ;;
      nextRowLoopChecked n' fuel prev c mx (j + 1) next'
  end.

Definition nextRowTableChecked (fuel : nat) (mcv : Z)
    (prev : list Soluble) (r : Row) : Outcome (list Soluble) :=
  nextRowLoopChecked (S (Z.to_nat mcv)) fuel prev (coeff r) (maxSize r) 0
    (repeat (mkSoluble 0 0) (S (Z.to_nat mcv))).

Fixpoint buildRowsChecked (fuel : nat) (mcv : Z) (rs : list Row)
    : Outcome (list Row) :=
  match rs with
  | [] => Done []
  | r :: rest =>
      below <- buildRowsChecked fuel mcv rest ;;
      match below with
      | [] =>
          s <- lastRowTableChecked fuel mcv r ;;
          Done [set_soluble r s]
      | r' :: rest' =>
          s <- nextRowTableChecked fuel mcv (soluble r') r ;;
          Done (set_soluble r s :: r' :: rest')
      end
  end.

(** [rowPermute[r.name] = i] with the subscript checked. *)
Fixpoint fillLeavesChecked (nrColumns : nat) (i : nat) (rs : list Row)
    (perm : list nat) : Outcome (list Row * list nat * Z * Z) :=
  match rs with
  | [] => Done ([], perm, 0, 0)
  | r :: rest =>
      res <- fillLeavesChecked nrColumns (S i) rest perm ;;
      match res with
      | (rest', perm', minTotal, maxTotal) =>
          if (name r <? length perm')%nat
          then
            Done (set_leaves r minTotal maxTotal
                    (map clearBase
                       (resize nrColumns (mkSelect 0 0 0) (selection r)))
                    :: rest',
                  upd (name r) i perm',
                  minTotal + minProduct r,
                  maxTotal + maxProduct r)
          else Abort
      end
  end.

(** [if (soluble[columns[j]].min < 0) return false] over the columns. *)
Fixpoint anyInsolubleChecked (s : list Soluble) (cs : list Z)
    : Outcome bool :=
  match cs with
  | [] => Done false
  | c :: rest =>
      e <- readSol s c ;;
      if min e <? 0 then Done true else anyInsolubleChecked s rest
  end.

Definition precomputeChecked (fuel : nat) (d : DiophantineSystem)
    : Outcome (bool * DiophantineSystem) :=
  if (length (rows d) =? 0)%nat || (length (columns d) =? 0)%nat
  then Abort
  else
    let rs1 := boundedRows d in
    if (columnSum d <? sumOfMinProducts rs1)
       || (sumOfMaxProducts rs1 <? columnSum d)
    then
      Done (false, mkSys rs1 (columns d) (rowPermute d) (columnSum d)
                     (maxColumnValue d) true (complex d) true)
    else
      let rs2 := sortRows rs1 in
      res <- fillLeavesChecked (length (columns d)) O rs2
               (resize (length rs2) O (rowPermute d)) ;;
      let rs3 := fst (fst (fst res)) in
      let perm := snd (fst (fst res)) in
      last3 <- getAt rs3 (length rs3 - 1) ;;
      if (1 <? coeff last3) || (maxSize last3 <? maxColumnValue d)
      then
        rs4 <- buildRowsChecked fuel (maxColumnValue d) rs3 ;;
        r0 <- getAt rs4 0 ;;
        bad <- anyInsolubleChecked (soluble r0) (columns d) ;;
        if bad : bool
        then
          Done (false, mkSys rs4 (columns d) perm (columnSum d)
                         (maxColumnValue d) true (complex d) true)
        else
          Done (true, mkSys rs4 (columns d) perm (columnSum d)
                        (maxColumnValue d) true true (failed d))
      else
        Done (true, mkSys rs3 (columns d) perm (columnSum d)
                      (maxColumnValue d) true (complex d) (failed d)).

Definition checkedRows : list (Z * Z * Z) := [(2, 0, 2); (3, 0, UNBOUNDED)].

Definition checkedColumns : list Z := [7; 4].

(* ================================================================= *)
(** ** The enumeration of the simple case

    The rows of a simple system all have coefficient 1.  A solution is
    followed in the sorted order of the rows, as the list of the
    selections of the rows. *)

(** The selections the rows of a state hold, in sorted order. *)
Definition stateTuple (d : DiophantineSystem) : list (list Z) :=
  map (fun r => map extra (selection r)) (rows d).

(** The bag that is left of [V0] after the selections [P] were taken. *)
Definition bagAfter (V0 : list Z) (P : list (list Z)) : list Z :=
  fold_left (takeFrom 1) P V0.

(** [Y] and [P] agree on their first [a] rows; [Y] comes before [P]
    within the first [a] rows: at the first row where they differ the
    selection of [Y] is the earlier one in the order of
    [multisetSelect]. *)
Definition prefEq (a : nat) (Y P : list (list Z)) : Prop :=
  forall i, (i < a)%nat -> nth i Y [] = nth i P [].

Definition prefLt (a : nat) (Y P : list (list Z)) : Prop :=
  exists i, (i < a)%nat /\ prefEq i Y P /\ selLt (nth i Y []) (nth i P []).

(** A solution over the sorted rows [Rs]: every row takes a selection
    out of what the rows before it left, of a size within its bounds,
    and nothing is left over. *)
Definition feasible (Rs : list Row) (V0 : list Z) (Y : list (list Z))
    : Prop :=
  length Y = length Rs
  /\ (forall k R, nth_error Rs k = Some R ->
        within (bagAfter V0 (firstn k Y)) (nth k Y [])
        /\ minSize R <= zsum (nth k Y []) <= maxSize R)
  /\ Forall (fun v => v = 0) (bagAfter V0 Y).

(** What a row with a selection has fixed at its first visit. *)
Definition exactRow (R r : Row) (V : list Z) : Prop :=
  map maxExtra (selection r) = map (capOf 1) V
  /\ currentMaxSize r = simpleHi R V.

(** The solutions that come after the last one found, [T0]. *)
Definition newer (n : nat) (T0 : option (list (list Z)))
    (Y : list (list Z)) : Prop :=
  match T0 with
  | None => True
  | Some T => prefLt (n - 1) T Y
  end.

(** The state of the search with [a] rows holding selections: no newer
    solution lies before the selections held, the selections held lie
    after the last solution, and when the search comes back to a row
    ([ff = false]) no newer solution begins with the selections held. *)
Definition enumInv (Rs : list Row) (V0 : list Z)
    (T0 : option (list (list Z))) (a : nat) (ff : bool)
    (d : DiophantineSystem) : Prop :=
  columns d = bagAfter V0 (firstn a (stateTuple d))
  /\ (forall i R, (i < a)%nat -> nth_error Rs i = Some R ->
        exactRow R (nth i (rows d) emptyRow)
          (bagAfter V0 (firstn i (stateTuple d))))
  /\ (forall Y, feasible Rs V0 Y -> newer (length Rs) T0 Y ->
        ~ prefLt a Y (stateTuple d)
        /\ (ff = false -> ~ prefEq a Y (stateTuple d)))
  /\ match T0 with
     | None => True
     | Some T =>
         prefLt a T (stateTuple d)
         \/ (ff = false /\ prefEq a T (stateTuple d))
     end.

(** A solution matrix, in the sorted order of the rows. *)
Definition sortedTuple (Rs : list Row) (M : list (list Z))
    : list (list Z) :=
  map (fun R => nth (name R) M []) Rs.

(** A number that falls as the first [a] rows of [P] advance. *)
Fixpoint tupleMeasure (key : list Z -> Z) (K : Z) (a : nat)
    (P : list (list Z)) : Z :=
  match a with
  | O => 0
  | S a' => tupleMeasure key K a' P * K + key (nth a' P [])
  end.

(** What a state that holds a solution keeps for the next call: the
    windows of the rows and the bag the last row was filled from. *)
Definition enumState (Rs : list Row) (V0 : list Z) (d : DiophantineSystem)
    : Prop :=
  columns d = bagAfter V0 (firstn (length Rs - 1) (stateTuple d))
  /\ (forall i R, (i < length Rs - 1)%nat -> nth_error Rs i = Some R ->
        exactRow R (nth i (rows d) emptyRow)
          (bagAfter V0 (firstn i (stateTuple d))))
  /\ nth (length Rs - 1) (stateTuple d) [] = columns d.

(** A solution of the system of [unitRows] and [unitColumns]. *)
Definition unitLast : list (list Z) := [[0; 2]; [0; 0]; [2; 0]].

(** The states reached from [d] by one or more calls of [solve] that
    returned true. *)
Inductive laterThan (d : DiophantineSystem) : DiophantineSystem -> Prop :=
| later_one (fuel : nat) (d' : DiophantineSystem) :
    solve fuel d = Done (true, d') -> laterThan d d'
| later_more (fuel : nat) (d' d'' : DiophantineSystem) :
    laterThan d d' -> solve fuel d' = Done (true, d'') -> laterThan d d''.

(** The state after the second solution of the system of [unitRows]. *)
Definition unitSecond : DiophantineSystem :=
  resultOf (solve 50 unitFirst) unitFirst.

(* ================================================================= *)
(** ** Progress of the complex case *)

(** The position of a vector of extras in the order in which
    [multisetComplex] goes through them: the last column is the most
    significant. *)
Fixpoint colexRank (caps xs : list Z) : Z :=
  match caps, xs with
  | cap :: caps', x :: xs' => x + (cap + 1) * colexRank caps' xs'
  | _, _ => 0
  end.

(** The number of calls a row of the complex case can still answer with
    a new selection, at most. *)
Definition complexRank (r : Row) : Z :=
  (currentMaxSize r - currentSize r)
    * capSpace (map maxExtra (selection r))
  + (capSpace (map maxExtra (selection r)) - 1
     - colexRank (map maxExtra (selection r)) (map extra (selection r))).

(** A bound on the number of selections of a row: no extra exceeds the
    largest column value. *)
Definition searchBound (mcv : Z) (m : nat) : nat :=
  Z.to_nat (capSpace (repeat mcv m)).


(** An advance of a row within one activation: the bases, the maximal
    extras and the largest size stay, the size is the sum of the extras
    before and after, and the rank is lower. *)
Definition rowAdv (r r' : Row) : Prop :=
  map base (selection r') = map base (selection r)
  /\ map maxExtra (selection r') = map maxExtra (selection r)
  /\ currentMaxSize r' = currentMaxSize r
  /\ zsum (map extra (selection r)) = currentSize r
  /\ zsum (map extra (selection r')) = currentSize r'
  /\ complexRank r' < complexRank r.

(** The state [d'] is ahead of [d] in the search over [n] rows: the rows
    before some row that is not the last one are the same, and that row
    has advanced. *)
Definition advanced (n : nat) (d d' : DiophantineSystem) : Prop :=
  exists k,
    (k < n - 1)%nat
    /\ (forall j, (j < k)%nat ->
          nth_error (rows d') j = nth_error (rows d) j)
    /\ rowAdv (nth k (rows d) emptyRow) (nth k (rows d') emptyRow).
(* ================================================================= *)
(** * Theorems *)


(* ----------------------------------------------------------------- *)
(** ** Trivial infeasibility *)

Lemma solve_first_precompute_fails (fuel : nat) (d d' : DiophantineSystem) :
  closed d = false -> rows d <> [] -> columns d <> [] ->
  precompute d = (false, d') ->
  solve fuel d = Done (false, d').
Proof.
  intros Hc Hr Hcol Hp. unfold solve. rewrite Hc. simpl.
  assert (E1 : (length (rows d) =? 0)%nat = false)
    by (destruct (rows d); [congruence | reflexivity]).
  assert (E2 : (length (columns d) =? 0)%nat = false)
    by (destruct (columns d); [congruence | reflexivity]).
  rewrite E1, E2. simpl. rewrite Hp. reflexivity.
Qed.

Lemma anyInsoluble_intro (s : list Soluble) (cs : list Z) (c : Z) :
  In c cs -> min (solAt s c) = INSOLUBLE -> anyInsoluble s cs = true.
Proof.
  intros Hin Hm. unfold anyInsoluble. apply existsb_exists.
  exists c. split; [assumption|]. rewrite Hm. reflexivity.
Qed.



(* ----------------------------------------------------------------- *)
(** ** The scenario of one row (3,1,1) and one column 6 *)

(** C9 as stated fails: the first [solve()] does not return true. *)
Lemma C9_counterexample :
  ~ (exists fuel d', solve fuel scenario4 = Done (true, d')
                     /\ solutionMatrix d' = [[2]]).
Proof.
  intros [fuel [d' [H _]]]. destruct fuel; vm_compute in H; discriminate.
Qed.

(** C9 (amended): for the single row (3,1,1) and the single column 6 the
    sum of the maxProducts, 3, is below [columnSum], 6; the first
    [solve()] returns false with [failed] set, before the system is
    classified (the [complex] flag is still false). *)
Theorem C9_scenario4_fails :
  forall fuel, exists d',
    solve fuel scenario4 = Done (false, d')
    /\ failed d' = true /\ complex d' = false
    /\ sumOfMaxProducts (boundedRows scenario4) = 3
    /\ columnSum scenario4 = 6.
Proof.
  intros fuel. eexists. split.
  { destruct fuel; vm_compute; reflexivity. }
  repeat split.
Qed.

(* ----------------------------------------------------------------- *)
(** ** The order of the sorted rows *)

(** C4 at a failing input: after the first [solve()] the rows are in
    ascending order of coefficient, (1,0,5) before (2,0,5), while
    [rowPermute] does give the positions. *)
Theorem C4_rows_sorted_ascending :
  exists d', solve 5 ascendingExample = Done (true, d')
    /\ map coeff (rows d') = [1; 2]
    /\ map name (rows d') = [1%nat; 0%nat]
    /\ rowPermute d' = [1%nat; 0%nat].
Proof.
  eexists. split; [vm_compute; reflexivity|]. repeat split.
Qed.

(** C5 at a failing input: the row (1,0,5) has coefficient 1 and
    [maxSize] 5 >= [maxColumnValue] 3, and the system is classified
    complex because the last sorted row is (2,0,5). *)
Theorem C5_classified_complex_with_unit_row :
  exists d', solve 5 ascendingExample = Done (true, d')
    /\ complex d' = true
    /\ existsb (fun r => (coeff r =? 1)
                         && (maxColumnValue d' <=? maxSize r)) (rows d')
       = true
    /\ map coeff (rows d') = [1; 2].
Proof.
  eexists. split; [vm_compute; reflexivity|]. repeat split.
Qed.

(* ----------------------------------------------------------------- *)
(** ** Vectors *)

Lemma length_upd {A : Type} (i : nat) (x : A) (l : list A) :
  length (upd i x l) = length l.
Proof.
  revert i. induction l as [|h t IH]; intros [|i]; simpl; auto.
Qed.

Lemma nth_error_upd_eq {A : Type} (i : nat) (x : A) (l : list A) :
  (i < length l)%nat -> nth_error (upd i x l) i = Some x.
Proof.
  revert i. induction l as [|h t IH]; intros [|i] H; simpl in *;
    try lia; auto. apply IH. lia.
Qed.

Lemma nth_error_upd_neq {A : Type} (i j : nat) (x : A) (l : list A) :
  i <> j -> nth_error (upd i x l) j = nth_error l j.
Proof.
  revert i j. induction l as [|h t IH]; intros [|i] [|j] H; simpl;
    try congruence; auto.
Qed.

Lemma solAt_upd_eq (s : list Soluble) (j : Z) (x : Soluble) :
  0 <= j -> (Z.to_nat j < length s)%nat ->
  solAt (upd (Z.to_nat j) x s) j = x.
Proof.
  intros Hj Hl. unfold solAt, getSol.
  destruct (j <? 0) eqn:E; [apply Z.ltb_lt in E; lia|].
  rewrite nth_error_upd_eq by assumption. reflexivity.
Qed.

Lemma solAt_upd_neq (s : list Soluble) (j v : Z) (x : Soluble) :
  0 <= j -> v <> j -> solAt (upd (Z.to_nat j) x s) v = solAt s v.
Proof.
  intros Hj Hv. unfold solAt, getSol.
  destruct (v <? 0) eqn:E; [reflexivity|]. apply Z.ltb_ge in E.
  rewrite nth_error_upd_neq by lia. reflexivity.
Qed.

Lemma solAt_repeat (x : Soluble) (n : nat) (v : Z) :
  0 <= v -> (Z.to_nat v < n)%nat -> solAt (repeat x n) v = x.
Proof.
  intros Hv Hn. unfold solAt, getSol.
  destruct (v <? 0) eqn:E; [apply Z.ltb_lt in E; lia|].
  rewrite nth_error_repeat by assumption. reflexivity.
Qed.

Lemma INSOLUBLE_neg : INSOLUBLE < 0.
Proof. unfold INSOLUBLE. lia. Qed.

(* ----------------------------------------------------------------- *)
(** ** The table of the last row *)

Section LastRow.

Variables mcv c mx : Z.
Hypothesis Hmcv : 0 <= mcv.
Hypothesis Hc : 0 < c.
Hypothesis Hmx : 0 <= mx.

Lemma lastRowLoop_inv (fuel : nat) (count : Z) (s : list Soluble) :
  lastRowInv mcv c mx count s ->
  mcv < Z.of_nat fuel + count ->
  let s' := lastRowLoop fuel mcv c mx (count * c) count s in
  exists count', lastRowInv mcv c mx count' s'
                 /\ (mcv < count' * c \/ count' = mx + 1)
                 /\ count <= count'.
Proof.
  revert count s. induction fuel as [|fuel IH]; intros count s Hinv Hf.
  - simpl. exists count. split; [assumption|]. split; [left; nia | lia].
  - simpl.
    destruct ((count * c <=? mcv) && (count <=? mx)) eqn:E.
    + apply andb_true_iff in E. destruct E as [E1 E2].
      apply Z.leb_le in E1. apply Z.leb_le in E2.
      destruct Hinv as [Hcnt [Hlen Hent]].
      replace (count * c + c) with ((count + 1) * c) by ring.
      destruct (IH (count + 1)
                  (upd (Z.to_nat (count * c)) (mkSoluble count count) s))
        as [count' [Hinv' [Hex Hle]]].
      * split; [lia|]. split; [rewrite length_upd; assumption|].
        intros v Hv. destruct (Z.eq_dec v (count * c)) as [->|Hne].
        -- left. exists count. split; [lia|]. split; [reflexivity|].
           apply solAt_upd_eq; [nia | lia].
        -- rewrite solAt_upd_neq by (try nia; assumption).
           destruct (Hent v Hv) as [[k [Hk [Hvk Hs]]] | [Hno Hs]].
           ++ left. exists k. repeat split; try lia; assumption.
           ++ right. split; [|assumption]. intros k Hk.
              destruct (Z.eq_dec k count) as [->|]; [assumption|].
              apply Hno. lia.
      * lia.
      * exists count'. split; [assumption|]. split; [assumption | lia].
    + exists count. split; [assumption|]. split; [|lia].
      apply andb_false_iff in E. destruct E as [E|E].
      * apply Z.leb_gt in E. left. lia.
      * apply Z.leb_gt in E. right. destruct Hinv as [Hcnt _]. lia.
Qed.

Lemma lastRowTable_ok (r : Row) :
  coeff r = c -> maxSize r = mx ->
  tableOK (fun v => v = 0) mcv c mx (lastRowTable mcv r).
Proof.
  intros Hrc Hrm. unfold lastRowTable. rewrite Hrc, Hrm.
  set (s0 := mkSoluble 0 0 :: repeat insolubleEntry (Z.to_nat mcv)).
  assert (Hinv0 : lastRowInv mcv c mx 0 s0).
  { split; [lia|]. split.
    - unfold s0. simpl. rewrite repeat_length. reflexivity.
    - intros v Hv. right. split; [intros k Hk; lia|].
      unfold startEntry. destruct (v =? 0) eqn:E.
      + apply Z.eqb_eq in E. subst v. reflexivity.
      + apply Z.eqb_neq in E. unfold s0, solAt, getSol.
        destruct (v <? 0) eqn:E2; [apply Z.ltb_lt in E2; lia|].
        destruct (Z.to_nat v) as [|n] eqn:En; [lia|]. simpl.
        rewrite nth_error_repeat by lia. reflexivity. }
  destruct (lastRowLoop_inv (S (Z.to_nat mcv)) 0 s0 Hinv0)
    as [count' [[Hcnt [Hlen Hent]] [Hex Hle]]]; [lia|].
  simpl in Hent, Hlen |- *. split; [exact Hlen|].
  intros v Hv.
  assert (Hpos : 1 <= count') by (destruct Hex; nia).
  destruct (Hent v Hv) as [[k [Hk [Hvk Hs]]] | [Hno Hs]].
  - right. rewrite Hs. simpl. unfold countOK.
    assert (Hkm : 0 <= k <= mx) by lia.
    split; [split; [assumption | lia]|].
    split; [split; [assumption | lia]|].
    intros k' [Hk' Hz]. assert (k' = k) by nia. lia.
  - left. rewrite Hs. unfold startEntry.
    destruct (v =? 0) eqn:E.
    + apply Z.eqb_eq in E. exfalso. apply (Hno 0); lia.
    + simpl. split; [reflexivity|]. split; [reflexivity|].
      intros k [Hk Hz]. destruct Hex as [Hex|Hex].
      * destruct (Z_lt_dec k count') as [Hlt|Hge];
          [apply (Hno k); lia | nia].
      * apply (Hno k); lia.
Qed.

End LastRow.

(* ----------------------------------------------------------------- *)
(** ** The table of a row above the last *)

Section NextRow.

Variables mcv c mx : Z.
Variable P : Z -> Prop.
Variable prev : list Soluble.
Hypothesis Hmcv : 0 <= mcv.
Hypothesis Hc : 0 < c.
Hypothesis Hmx : 0 <= mx.
Hypothesis Hprev : forall v, 0 <= v <= mcv ->
  (P v <-> min (solAt prev v) <> INSOLUBLE).
Hypothesis HP : forall v, P v -> 0 <= v.

Lemma countOK_zero (v : Z) : countOK P c mx v 0 <-> P v.
Proof.
  unfold countOK. replace (v - 0 * c) with v by ring.
  split; [tauto | intro; split; [lia | assumption]].
Qed.

Lemma countOK_pred (v k : Z) :
  1 <= k -> countOK P c mx v k -> countOK P c mx (v - c) (k - 1).
Proof.
  unfold countOK. intros Hk [Hb Hp]. split; [lia|].
  replace (v - c - (k - 1) * c) with (v - k * c) by ring. assumption.
Qed.

Lemma countOK_succ (v k : Z) :
  k < mx -> countOK P c mx (v - c) k -> countOK P c mx v (k + 1).
Proof.
  unfold countOK. intros Hk [Hb Hp]. split; [lia|].
  replace (v - (k + 1) * c) with (v - c - k * c) by ring. assumption.
Qed.

Lemma countOK_residual (v k : Z) : countOK P c mx v k -> k * c <= v.
Proof. intros [_ Hp]. apply HP in Hp. lia. Qed.

Lemma scanNewMax_ok (fuel : nat) (j lo newMax : Z) :
  0 <= j <= mcv -> 1 <= lo <= newMax -> newMax <= mx ->
  0 <= j - mx * c ->
  countOK P c mx j lo ->
  (forall k, newMax < k -> ~ countOK P c mx j k) ->
  (Z.to_nat (newMax - lo) < fuel)%nat ->
  let m := scanNewMax fuel prev c (j - newMax * c) newMax in
  countOK P c mx j m /\ forall k, countOK P c mx j k -> k <= m.
Proof.
  revert newMax. induction fuel as [|fuel IH];
    intros newMax Hj Hlo Hn Hres Hok Hup Hf; [lia|].
  simpl.
  assert (Hidx : 0 <= j - newMax * c <= mcv) by nia.
  destruct (min (solAt prev (j - newMax * c)) =? INSOLUBLE) eqn:E.
  - apply Z.eqb_eq in E.
    assert (Hnot : ~ countOK P c mx j newMax).
    { intros [_ Hp]. apply (Hprev _ Hidx) in Hp. congruence. }
    assert (Hlt : lo < newMax).
    { destruct (Z.eq_dec lo newMax) as [->|]; [contradiction | lia]. }
    replace (j - newMax * c + c) with (j - (newMax - 1) * c) by ring.
    apply IH; try lia; try assumption.
    intros k Hk. destruct (Z.eq_dec k newMax) as [->|]; [assumption|].
    apply Hup. lia.
  - apply Z.eqb_neq in E. split.
    + split; [lia|]. apply (Hprev _ Hidx). assumption.
    + intros k Hk. destruct (Z_le_dec k newMax); [assumption|].
      exfalso. apply (Hup k); [lia | assumption].
Qed.

Lemma nextEntry_ok (j : Z) (next : list Soluble) :
  0 <= j <= mcv ->
  (forall v, 0 <= v < j -> entryOK P c mx v (solAt next v)) ->
  entryOK P c mx j (nextEntry prev next c mx j).
Proof.
  intros Hj Hnext. unfold nextEntry.
  set (t := j - c).
  assert (Hzero : min (solAt prev j) <> INSOLUBLE <-> countOK P c mx j 0).
  { rewrite countOK_zero. symmetry. apply Hprev. assumption. }
  destruct ((0 <=? t) && negb (min (solAt next t) =? INSOLUBLE)
            && (min (solAt next t) <? mx)) eqn:E.
  - apply andb_true_iff in E. destruct E as [E E3].
    apply andb_true_iff in E. destruct E as [E1 E2].
    apply Z.leb_le in E1. apply Z.ltb_lt in E3.
    apply negb_true_iff in E2. apply Z.eqb_neq in E2.
    assert (Ht : 0 <= t < j) by (unfold t; lia).
    destruct (Hnext t Ht) as [[Hins _] | [Hmin [Hmax Hall]]];
      [congruence|].
    set (mn := min (solAt next t)) in *.
    set (mxt := max (solAt next t)) in *.
    assert (Hmn1 : countOK P c mx j (mn + 1)).
    { apply countOK_succ; [assumption|]. exact Hmin. }
    assert (Hmn0 : 0 <= mn) by (destruct Hmin; lia).
    assert (Hpred : forall k, countOK P c mx j k -> 1 <= k ->
                              mn <= k - 1 <= mxt).
    { intros k Hk H1. apply Hall. apply countOK_pred; assumption. }
    right. simpl.
    assert (Hlow : countOK P c mx j
                     (if min (solAt prev j) =? INSOLUBLE
                      then mn + 1 else 0)
                   /\ forall k, countOK P c mx j k ->
                        (if min (solAt prev j) =? INSOLUBLE
                         then mn + 1 else 0) <= k).
    { destruct (min (solAt prev j) =? INSOLUBLE) eqn:Ep.
      - apply Z.eqb_eq in Ep. split; [assumption|].
        intros k Hk. destruct (Z.eq_dec k 0) as [->|Hk0].
        + apply Hzero in Hk. congruence.
        + assert (1 <= k) by (destruct Hk; lia).
          specialize (Hpred k Hk H). lia.
      - apply Z.eqb_neq in Ep. split; [apply Hzero; assumption|].
        intros k [Hk _]. lia. }
    assert (Hhigh : countOK P c mx j
                      (if mxt <? mx then mxt + 1
                       else scanNewMax (S (Z.to_nat mx)) prev c
                              (j - mx * c) mx)
                    /\ forall k, countOK P c mx j k ->
                         k <= (if mxt <? mx then mxt + 1
                               else scanNewMax (S (Z.to_nat mx)) prev c
                                      (j - mx * c) mx)).
    { destruct (mxt <? mx) eqn:Em.
      - apply Z.ltb_lt in Em. split.
        + apply countOK_succ; [assumption|]. exact Hmax.
        + intros k Hk. destruct (Z_le_dec k 0); [destruct Hmax; lia|].
          assert (1 <= k) by lia. specialize (Hpred k Hk H). lia.
      - apply Z.ltb_ge in Em.
        assert (Hmxt : mxt = mx) by (destruct Hmax; lia).
        assert (Hres : 0 <= j - mx * c).
        { pose proof (countOK_residual _ _ Hmax) as Hr.
          fold mxt in Hr. rewrite Hmxt in Hr. unfold t in Hr. nia. }
        apply (scanNewMax_ok (S (Z.to_nat mx)) j (mn + 1) mx);
          try lia; try assumption.
        intros k Hk [Hb _]. lia. }
    destruct Hlow as [Hl1 Hl2]. destruct Hhigh as [Hh1 Hh2].
    split; [assumption|]. split; [assumption|].
    intros k Hk. split; [apply Hl2 | apply Hh2]; assumption.
  - assert (Hnone : forall k, countOK P c mx j k -> k = 0).
    { intros k Hk. destruct (Z.eq_dec k 0) as [|Hk0]; [assumption|].
      exfalso. assert (H1 : 1 <= k) by (destruct Hk; lia).
      pose proof (countOK_pred _ _ H1 Hk) as Hp. fold t in Hp.
      pose proof (countOK_residual _ _ Hp) as Hr.
      assert (Ht : 0 <= t < j) by (unfold t in *; nia).
      destruct (Hnext t Ht) as [[_ [_ Hno]] | [Hmin [_ Hall]]].
      - apply (Hno _ Hp).
      - specialize (Hall _ Hp).
        assert (E1 : (0 <=? t) = true) by (apply Z.leb_le; lia).
        assert (E2 : negb (min (solAt next t) =? INSOLUBLE) = true).
        { apply negb_true_iff. apply Z.eqb_neq.
          pose proof INSOLUBLE_neg. destruct Hmin. lia. }
        assert (E3 : (min (solAt next t) <? mx) = true).
        { apply Z.ltb_lt. destruct Hk. lia. }
        rewrite E1, E2, E3 in E. discriminate. }
    destruct (min (solAt prev j) =? INSOLUBLE) eqn:Ep.
    + apply Z.eqb_eq in Ep. left. simpl.
      split; [reflexivity|]. split; [reflexivity|].
      intros k Hk. pose proof (Hnone k Hk). subst k.
      apply Hzero in Hk. congruence.
    + apply Z.eqb_neq in Ep. right. simpl.
      assert (H0 : countOK P c mx j 0) by (apply Hzero; assumption).
      split; [assumption|]. split; [assumption|].
      intros k Hk. rewrite (Hnone k Hk). lia.
Qed.

Lemma nextRowLoop_ok (fuel : nat) (j : Z) (next : list Soluble) :
  0 <= j ->
  length next = S (Z.to_nat mcv) ->
  (forall v, 0 <= v < j -> entryOK P c mx v (solAt next v)) ->
  Z.of_nat fuel + j = mcv + 1 ->
  tableOK P mcv c mx (nextRowLoop fuel prev c mx j next).
Proof.
  revert j next. induction fuel as [|fuel IH];
    intros j next Hj Hlen Hent Hf; simpl.
  - split; [assumption|]. intros v Hv. apply Hent. lia.
  - apply IH; try lia.
    + rewrite length_upd. assumption.
    + intros v Hv. destruct (Z.eq_dec v j) as [->|Hne].
      * rewrite solAt_upd_eq by lia.
        apply nextEntry_ok; [lia | assumption].
      * rewrite solAt_upd_neq by lia. apply Hent. lia.
Qed.

Lemma nextRowTable_ok (r : Row) :
  coeff r = c -> maxSize r = mx ->
  tableOK P mcv c mx (nextRowTable mcv prev r).
Proof.
  intros Hrc Hrm. unfold nextRowTable. rewrite Hrc, Hrm.
  apply nextRowLoop_ok; try lia.
  rewrite repeat_length. reflexivity.
Qed.

End NextRow.

(* ----------------------------------------------------------------- *)
(** ** Completions and the tables of all rows *)

Lemma completion_nil (ks : list Z) (v : Z) :
  completion [] ks v <-> ks = [] /\ v = 0.
Proof.
  unfold completion, weightedSum. split.
  - intros [H1 H2]. inversion H1. simpl in H2. auto.
  - intros [-> ->]. split; [constructor | reflexivity].
Qed.

Lemma completion_cons (r : Row) (rs : list Row) (k : Z) (ks : list Z)
    (v : Z) :
  completion (r :: rs) (k :: ks) v
  <-> 0 <= k <= maxSize r /\ completion rs ks (v - k * coeff r).
Proof.
  unfold completion, weightedSum. simpl. split.
  - intros [H1 H2]. inversion H1; subst. repeat split; auto; lia.
  - intros [Hk [H1 H2]]. split; [constructor; assumption | lia].
Qed.

Lemma completion_cons_inv (r : Row) (rs : list Row) (ks : list Z) (v : Z) :
  completion (r :: rs) ks v -> exists k ks', ks = k :: ks'.
Proof.
  intros [H _]. inversion H; subst. eauto.
Qed.

Lemma solubleBy_nil (v : Z) : solubleBy [] v <-> v = 0.
Proof.
  unfold solubleBy. split.
  - intros [ks H]. apply completion_nil in H. tauto.
  - intros ->. exists []. apply completion_nil. auto.
Qed.

Lemma solubleBy_cons (r : Row) (rs : list Row) (v : Z) :
  solubleBy (r :: rs) v
  <-> exists k, countOK (solubleBy rs) (coeff r) (maxSize r) v k.
Proof.
  unfold solubleBy, countOK. split.
  - intros [ks H]. destruct (completion_cons_inv _ _ _ _ H) as [k [ks' ->]].
    apply completion_cons in H. exists k. split; [tauto|].
    exists ks'. tauto.
  - intros [k [Hk [ks H]]]. exists (k :: ks). apply completion_cons. tauto.
Qed.

Lemma solubleBy_nonneg (rs : list Row) (v : Z) :
  Forall (fun r => 0 < coeff r) rs -> solubleBy rs v -> 0 <= v.
Proof.
  intros Hrs. revert v. induction Hrs as [|r rs Hr Hrs IH]; intros v H.
  - apply solubleBy_nil in H. lia.
  - apply solubleBy_cons in H. destruct H as [k [Hk Hs]].
    apply IH in Hs. nia.
Qed.

Lemma entryOK_ext (P Q : Z -> Prop) (c mx v : Z) (e : Soluble) :
  (forall w, P w <-> Q w) -> entryOK P c mx v e -> entryOK Q c mx v e.
Proof.
  intros H. unfold entryOK, countOK.
  intros [[H1 [H2 H3]] | [H1 [H2 H3]]].
  - left. repeat split; auto. intros k [Hk Hq]. apply (H3 k).
    split; [assumption | apply H; assumption].
  - right. repeat split; try tauto; try (apply H; tauto);
      apply H3; (split; [tauto | apply H; tauto]).
Qed.

Lemma tableOK_ext (P Q : Z -> Prop) (mcv c mx : Z) (s : list Soluble) :
  (forall w, P w <-> Q w) -> tableOK P mcv c mx s -> tableOK Q mcv c mx s.
Proof.
  intros H [Hl He]. split; [assumption|].
  intros v Hv. apply (entryOK_ext P Q); auto.
Qed.

Lemma entryOK_soluble (P : Z -> Prop) (c mx v : Z) (e : Soluble) :
  entryOK P c mx v e ->
  (min e <> INSOLUBLE <-> exists k, countOK P c mx v k).
Proof.
  pose proof INSOLUBLE_neg as Hneg.
  intros [[H1 [H2 H3]] | [H1 [H2 H3]]]; split.
  - congruence.
  - intros [k Hk]. exfalso. apply (H3 k Hk).
  - intros _. exists (min e). assumption.
  - intros _. destruct H1. lia.
Qed.

Lemma tableOK_decides (rs : list Row) (r : Row) (mcv : Z) :
  tableOK (solubleBy rs) mcv (coeff r) (maxSize r) (soluble r) ->
  forall v, 0 <= v <= mcv ->
    (solubleBy (r :: rs) v <-> min (solAt (soluble r) v) <> INSOLUBLE).
Proof.
  intros [_ He] v Hv. rewrite solubleBy_cons.
  symmetry. apply entryOK_soluble. apply He. assumption.
Qed.

(** [buildRows] changes nothing but the tables. *)
Lemma buildRows_fields (mcv : Z) (rs : list Row) :
  Forall2 (fun r r' => r' = set_soluble r (soluble r')) rs
    (buildRows mcv rs).
Proof.
  induction rs as [|r rest IH]; simpl; [constructor|].
  destruct (buildRows mcv rest) as [|r' rest'] eqn:E.
  - inversion IH; subst. constructor; [reflexivity | constructor].
  - constructor; [reflexivity | assumption].
Qed.

Lemma buildRows_length (mcv : Z) (rs : list Row) :
  length (buildRows mcv rs) = length rs.
Proof.
  symmetry. apply (Forall2_length (buildRows_fields mcv rs)).
Qed.

Lemma buildRows_Forall (Q : Row -> Prop) (mcv : Z) (rs : list Row) :
  (forall r s, Q r -> Q (set_soluble r s)) ->
  Forall Q rs -> Forall Q (buildRows mcv rs).
Proof.
  intros HQ H. pose proof (buildRows_fields mcv rs) as HF.
  induction HF as [|r r' rs rs' Hr HF IH]; [constructor|].
  inversion H; subst. constructor; [|auto].
  rewrite Hr. apply HQ. assumption.
Qed.

Lemma buildRows_ok (mcv : Z) (rs : list Row) :
  0 <= mcv ->
  Forall (fun r => 0 < coeff r /\ 0 <= maxSize r) rs ->
  tablesOK mcv (buildRows mcv rs).
Proof.
  intros Hmcv Hrs. induction Hrs as [|r rest [Hc Hm] Hrest IH];
    simpl; [exact I|].
  pose proof (buildRows_Forall (fun r => 0 < coeff r) mcv rest) as Hpos.
  destruct (buildRows mcv rest) as [|r' rest'] eqn:E.
  - assert (rest = []) as ->.
    { apply length_zero_iff_nil. rewrite <- (buildRows_length mcv), E.
      reflexivity. }
    simpl. split; [|exact I].
    apply (tableOK_ext (fun v => v = 0)).
    + intros w. symmetry. apply solubleBy_nil.
    + apply lastRowTable_ok; auto.
  - simpl. split; [|exact IH]. destruct IH as [IH1 IH2].
    apply nextRowTable_ok; auto.
    + intros v Hv. exact (tableOK_decides rest' r' mcv IH1 v Hv).
    + intros v. apply solubleBy_nonneg. apply Hpos.
      * intros; assumption.
      * eapply Forall_impl; [|exact Hrest]. simpl. tauto.
Qed.

Lemma tablesOK_nth (mcv : Z) (rs : list Row) (i : nat) (r : Row) :
  tablesOK mcv rs -> nth_error rs i = Some r ->
  tableOK (solubleBy (skipn (S i) rs)) mcv (coeff r) (maxSize r)
    (soluble r).
Proof.
  revert i. induction rs as [|r0 rest IH]; intros [|i] Ht Hn;
    simpl in Hn; try discriminate; destruct Ht as [H1 H2].
  - injection Hn as <-. exact H1.
  - apply (IH i); assumption.
Qed.

(* ----------------------------------------------------------------- *)
(** ** What precomputation does to the rows *)

Lemma insertSorted_perm (x : Row) (l : list Row) :
  Permutation (insertSorted x l) (x :: l).
Proof.
  induction l as [|y l IH]; simpl; [apply Permutation_refl|].
  destruct (rowLt y x).
  - apply perm_trans with (y :: x :: l);
      [apply perm_skip; exact IH | apply perm_swap].
  - apply Permutation_refl.
Qed.

Lemma sortRows_perm (l : list Row) : Permutation (sortRows l) l.
Proof.
  unfold sortRows.
  assert (H : forall acc,
             Permutation (fold_left (fun a x => insertSorted x a) l acc)
               (acc ++ l)).
  { induction l as [|x l IH]; intros acc; simpl.
    - rewrite app_nil_r. apply Permutation_refl.
    - eapply perm_trans; [apply IH|].
      eapply perm_trans;
        [apply Permutation_app_tail; apply insertSorted_perm|].
      simpl. apply Permutation_middle. }
  apply (H []).
Qed.

Lemma fillLeaves_fields (nc : nat) (rs : list Row) (i : nat)
    (perm : list nat) :
  Forall2 (fun r r' => r' = set_leaves r (minLeave r') (maxLeave r')
                              (map clearBase
                                 (resize nc (mkSelect 0 0 0) (selection r))))
    rs (fst (fst (fst (fillLeaves nc i rs perm)))).
Proof.
  revert i. induction rs as [|r rest IH]; intros i; simpl; [constructor|].
  specialize (IH (S i)).
  destruct (fillLeaves nc (S i) rest perm) as [[[rest' perm'] mn] mx].
  simpl in *. constructor; [reflexivity | assumption].
Qed.

Lemma fillLeaves_Forall (Q : Row -> Prop) (nc : nat) (rs : list Row)
    (i : nat) (perm : list nat) :
  (forall r a b s, Q r -> Q (set_leaves r a b s)) ->
  Forall Q rs -> Forall Q (fst (fst (fst (fillLeaves nc i rs perm)))).
Proof.
  intros HQ H. pose proof (fillLeaves_fields nc rs i perm) as HF.
  induction HF as [|r r' l l' Hr HF IH]; [constructor|].
  inversion H; subst. constructor; [|auto].
  rewrite Hr. apply HQ. assumption.
Qed.

Lemma preparedRows_Forall (Q : Row -> Prop) (d : DiophantineSystem) :
  (forall r a b s, Q r -> Q (set_leaves r a b s)) ->
  Forall Q (boundedRows d) -> Forall Q (preparedRows d).
Proof.
  intros HQ H. unfold preparedRows, preparedState.
  apply fillLeaves_Forall; [assumption|].
  rewrite Forall_forall in *. intros r Hr. apply H.
  apply (Permutation_in r (sortRows_perm (boundedRows d))). assumption.
Qed.

Lemma boundedRows_positive (d : DiophantineSystem) :
  Forall rowDeclared (rows d) -> 0 <= columnSum d ->
  Forall (fun r => 0 < coeff r /\ 0 <= maxSize r) (boundedRows d).
Proof.
  intros H Hs. unfold boundedRows. apply Forall_map.
  eapply Forall_impl; [|exact H]. intros r [Hc Hm]. simpl.
  split; [assumption|].
  destruct (maxSize r =? UNBOUNDED); lia.
Qed.

Lemma tabledRows_ok (d : DiophantineSystem) :
  Forall rowDeclared (rows d) -> 0 <= columnSum d ->
  0 <= maxColumnValue d ->
  tablesOK (maxColumnValue d) (tabledRows d).
Proof.
  intros H Hs Hm. unfold tabledRows. apply buildRows_ok; [assumption|].
  apply preparedRows_Forall; [intros; assumption|].
  apply boundedRows_positive; assumption.
Qed.

Lemma precompute_complex_rows (d : DiophantineSystem) :
  sumOfMinProducts (boundedRows d) <= columnSum d
    <= sumOfMaxProducts (boundedRows d) ->
  lastRowIsComplex (maxColumnValue d) (preparedRows d) = true ->
  rows (snd (precompute d)) = tabledRows d
  /\ maxColumnValue (snd (precompute d)) = maxColumnValue d.
Proof.
  intros Ht Hc. unfold precompute.
  destruct ((columnSum d <? sumOfMinProducts (boundedRows d))
            || (sumOfMaxProducts (boundedRows d) <? columnSum d)) eqn:E.
  - apply orb_true_iff in E. destruct E as [E|E]; apply Z.ltb_lt in E; lia.
  - rewrite Hc.
    destruct (anyInsoluble (soluble (hd emptyRow (tabledRows d)))
                (columns d)); simpl; auto.
Qed.

(** C3: in a complex system, after precomputation, the entry of row [i]
    at a magnitude [v] in [0, maxColumnValue] holds the least and the
    greatest count [k_i] over the tuples [(k_i, ..., k_{n-1})] of counts
    between 0 and the rows' [maxSize] whose weighted sum is [v], and
    both fields are [INSOLUBLE] exactly when there is no such tuple. *)
Theorem C3_solubility_tables (d : DiophantineSystem) :
  Forall rowDeclared (rows d) ->
  0 <= columnSum d -> 0 <= maxColumnValue d ->
  sumOfMinProducts (boundedRows d) <= columnSum d
    <= sumOfMaxProducts (boundedRows d) ->
  lastRowIsComplex (maxColumnValue d) (preparedRows d) = true ->
  let d' := snd (precompute d) in
  forall (i : nat) (r : Row) (v : Z),
    nth_error (rows d') i = Some r ->
    0 <= v <= maxColumnValue d' ->
    let suffix := skipn i (rows d') in
    let e := solAt (soluble r) v in
    ((exists ks, completion suffix ks v) ->
       (exists ks, completion suffix (min e :: ks) v)
       /\ (exists ks, completion suffix (max e :: ks) v)
       /\ forall k ks, completion suffix (k :: ks) v ->
            min e <= k <= max e)
    /\ (~ (exists ks, completion suffix ks v)
        <-> min e = INSOLUBLE /\ max e = INSOLUBLE).
Proof.
  intros Hrows Hsum Hmcv Htot Hcx d' i r v Hn Hv suffix e.
  destruct (precompute_complex_rows d Htot Hcx) as [Hr Hm].
  fold d' in Hr, Hm.
  pose proof (tabledRows_ok d Hrows Hsum Hmcv) as Hok.
  rewrite <- Hr in Hok.
  pose proof (tablesOK_nth _ _ _ _ Hok Hn) as [_ Hent].
  rewrite Hm in Hv. specialize (Hent v Hv). fold e in Hent.
  assert (Hsuf : suffix = r :: skipn (S i) (rows d')).
  { unfold suffix. clear - Hn. revert i Hn.
    induction (rows d') as [|r0 l IH]; intros [|i] Hn; simpl in Hn;
      try discriminate.
    - injection Hn as <-. reflexivity.
    - simpl. apply IH. assumption. }
  rewrite Hsuf.
  set (rest := skipn (S i) (rows d')) in *.
  assert (Hcount : forall k,
            countOK (solubleBy rest) (coeff r) (maxSize r) v k
            <-> exists ks, completion (r :: rest) (k :: ks) v).
  { intros k. unfold countOK, solubleBy. split.
    - intros [Hk [ks Hc]]. exists ks. apply completion_cons. tauto.
    - intros [ks Hc]. apply completion_cons in Hc. split; [tauto|].
      exists ks. tauto. }
  pose proof INSOLUBLE_neg as Hneg.
  destruct Hent as [[H1 [H2 H3]] | [H1 [H2 H3]]].
  - split.
    + intros [ks Hc]. exfalso.
      destruct (completion_cons_inv _ _ _ _ Hc) as [k [ks' ->]].
      apply (H3 k). apply Hcount. exists ks'. assumption.
    + split; [auto|]. intros _ [ks Hc].
      destruct (completion_cons_inv _ _ _ _ Hc) as [k [ks' ->]].
      apply (H3 k). apply Hcount. exists ks'. assumption.
  - split.
    + intros _. split; [apply Hcount; assumption|].
      split; [apply Hcount; assumption|].
      intros k ks Hc. apply H3. apply Hcount. exists ks. assumption.
    + split.
      * intros Hno. exfalso. apply Hno.
        apply Hcount in H1. destruct H1 as [ks Hc]. eauto.
      * intros [Hi _]. destruct H1. lia.
Qed.

Lemma C3_solubility_tables_witness :
  let d := declare [(2, 0, 5); (1, 0, 5)] [3] in
  let d' := snd (precompute d) in
  let r := nth 0 (rows d') emptyRow in
  let e := solAt (soluble r) 3 in
  ((exists ks, completion (skipn 0 (rows d')) ks 3) ->
     (exists ks, completion (skipn 0 (rows d')) (min e :: ks) 3)
     /\ (exists ks, completion (skipn 0 (rows d')) (max e :: ks) 3)
     /\ forall k ks, completion (skipn 0 (rows d')) (k :: ks) 3 ->
          min e <= k <= max e)
  /\ (~ (exists ks, completion (skipn 0 (rows d')) ks 3)
      <-> min e = INSOLUBLE /\ max e = INSOLUBLE).
Proof.
  intros d d' r e.
  apply (C3_solubility_tables d).
  - repeat constructor; simpl; lia.
  - simpl. lia.
  - simpl. lia.
  - vm_compute. split; discriminate.
  - reflexivity.
  - reflexivity.
  - vm_compute. split; discriminate.
Defined.

(* ----------------------------------------------------------------- *)
(** ** Least selection and successor, last column first *)

Lemma zsum_cons (x : Z) (l : list Z) : zsum (x :: l) = x + zsum l.
Proof. reflexivity. Qed.

Lemma zsum_app (l1 l2 : list Z) : zsum (l1 ++ l2) = zsum l1 + zsum l2.
Proof.
  induction l1 as [|x l1 IH]; [reflexivity|].
  simpl app. rewrite !zsum_cons, IH. ring.
Qed.

Lemma within_length (caps xs : list Z) :
  within caps xs -> length caps = length xs.
Proof. apply Forall2_length. Qed.

Lemma within_sum (caps xs : list Z) :
  within caps xs -> 0 <= zsum xs <= zsum caps.
Proof.
  induction 1 as [|cap x caps xs H _ IH]; simpl; lia.
Qed.

Lemma within_caps_nonneg (caps xs : list Z) :
  within caps xs -> Forall (fun c => 0 <= c) caps.
Proof.
  induction 1 as [|cap x caps xs H _ IH]; constructor; [lia | assumption].
Qed.

Lemma caps_sum_nonneg (caps : list Z) :
  Forall (fun c => 0 <= c) caps -> 0 <= zsum caps.
Proof. induction 1; simpl; lia. Qed.

Lemma rgreedy_valid (rcaps : list Z) (u : Z) :
  Forall (fun c => 0 <= c) rcaps -> 0 <= u <= zsum rcaps ->
  within rcaps (rgreedy u rcaps) /\ zsum (rgreedy u rcaps) = u.
Proof.
  intros H. revert u. induction H as [|cap rest Hc Hrest IH]; intros u Hu.
  - simpl in *. split; [constructor | lia].
  - simpl in *. pose proof (caps_sum_nonneg _ Hrest) as Hs.
    destruct (IH (Z.min u (zsum rest))) as [IH1 IH2]; [lia|].
    split; [constructor; [lia | assumption] | lia].
Qed.

Lemma lexLt_irrefl (u : list Z) : ~ lexLt u u.
Proof.
  induction u as [|x u IH]; simpl; [tauto|]. intros [H|[_ H]]; [lia | auto].
Qed.

Lemma lexLt_trans (u v w : list Z) : lexLt u v -> lexLt v w -> lexLt u w.
Proof.
  revert v w. induction u as [|x u IH]; intros [|y v] [|z w]; simpl;
    try tauto.
  intros [H1|[-> H1]] [H2|[-> H2]]; try (left; lia).
  right. split; [reflexivity | eauto].
Qed.

Lemma rgreedy_least (rcaps zs : list Z) :
  within rcaps zs ->
  zs = rgreedy (zsum zs) rcaps \/ lexLt (rgreedy (zsum zs) rcaps) zs.
Proof.
  induction 1 as [|cap z rest zs Hz Hw IH]; [left; reflexivity|].
  rewrite zsum_cons. cbn [rgreedy lexLt].
  pose proof (within_sum _ _ Hw) as Hs.
  destruct (Z.eq_dec (z + zsum zs - Z.min (z + zsum zs) (zsum rest)) z)
    as [E|E].
  - assert (Hm : Z.min (z + zsum zs) (zsum rest) = zsum zs) by lia.
    rewrite E, Hm. destruct IH as [IH|IH].
    + left. congruence.
    + right. right. split; [reflexivity | assumption].
  - right. left. lia.
Qed.

Lemma rnext_none (rcaps xs : list Z) :
  within rcaps xs -> rnext rcaps xs = None ->
  forall zs, within rcaps zs -> zsum zs = zsum xs -> ~ lexLt xs zs.
Proof.
  induction 1 as [|cap x rest xs Hx Hw IH]; intros Hn zs Hz Hzs Hlt.
  - inversion Hz; subst. exact Hlt.
  - inversion Hz as [|? z ? zs' Hzb Hzw]; subst.
    rewrite !zsum_cons in Hzs. cbn [rnext lexLt] in *.
    pose proof (within_sum _ _ Hw) as Hs.
    pose proof (within_sum _ _ Hzw) as Hs'.
    destruct (rnext rest xs) eqn:E; [discriminate|].
    destruct ((0 <? zsum xs) && (x <? cap)) eqn:Ec; [discriminate|].
    destruct Hlt as [Hlt|[-> Hlt]].
    + apply andb_false_iff in Ec.
      destruct Ec as [Ec|Ec]; apply Z.ltb_ge in Ec; lia.
    + apply (IH eq_refl zs'); auto. lia.
Qed.

Lemma rnext_some (rcaps xs ys : list Z) :
  within rcaps xs -> rnext rcaps xs = Some ys ->
  within rcaps ys /\ zsum ys = zsum xs /\ lexLt xs ys
  /\ forall zs, within rcaps zs -> zsum zs = zsum xs -> lexLt xs zs ->
       zs = ys \/ lexLt ys zs.
Proof.
  intros H. revert ys.
  induction H as [|cap x rest xs Hx Hw IH]; intros ys Hn;
    cbn [rnext] in Hn; [discriminate|].
  pose proof (within_sum _ _ Hw) as Hs.
  pose proof (within_caps_nonneg _ _ Hw) as Hcaps.
  destruct (rnext rest xs) as [ys'|] eqn:E.
  - injection Hn as <-. destruct (IH ys' eq_refl) as [I1 [I2 [I3 I4]]].
    split; [constructor; assumption|].
    split; [rewrite !zsum_cons; lia|].
    split; [cbn [lexLt]; right; auto|].
    intros zs Hz Hzs Hlt. inversion Hz as [|? z ? zs' Hzb Hzw]; subst.
    rewrite !zsum_cons in Hzs. cbn [lexLt] in *.
    destruct Hlt as [Hlt|[-> Hlt]].
    + right. left. assumption.
    + destruct (I4 zs' Hzw) as [->|Hl]; [lia | assumption | auto|].
      right. right. auto.
  - destruct ((0 <? zsum xs) && (x <? cap)) eqn:Ec; [|discriminate].
    injection Hn as <-.
    apply andb_true_iff in Ec. destruct Ec as [E1 E2].
    apply Z.ltb_lt in E1. apply Z.ltb_lt in E2.
    destruct (rgreedy_valid rest (zsum xs - 1) Hcaps) as [G1 G2]; [lia|].
    split; [constructor; [lia | assumption]|].
    split; [rewrite !zsum_cons; lia|].
    split; [cbn [lexLt]; left; lia|].
    intros zs Hz Hzs Hlt. inversion Hz as [|? z ? zs' Hzb Hzw]; subst.
    rewrite !zsum_cons in Hzs. cbn [lexLt] in *.
    destruct Hlt as [Hlt|[-> Hlt]].
    + destruct (Z.eq_dec z (x + 1)) as [->|Hne]; [|right; left; lia].
      assert (Hzs' : zsum zs' = zsum xs - 1) by lia.
      destruct (rgreedy_least rest zs' Hzw) as [Hg|Hg];
        rewrite Hzs' in Hg.
      * left. congruence.
      * right. right. auto.
    + exfalso. apply (rnext_none rest xs Hw E zs' Hzw); [lia | assumption].
Qed.

(* ----------------------------------------------------------------- *)
(** ** The loops of [multisetSelect] on vectors of extras *)

Lemma zsum_rev (l : list Z) : zsum (rev l) = zsum l.
Proof.
  induction l as [|x l IH]; [reflexivity|].
  simpl rev. rewrite zsum_app, zsum_cons, IH. simpl. unfold zsum. simpl. lia.
Qed.

Lemma zsum_repeat_zero (n : nat) : zsum (repeat 0 n) = 0.
Proof.
  induction n as [|n IH]; [reflexivity|].
  simpl repeat. rewrite zsum_cons. lia.
Qed.

Lemma within_app (caps xs : list Z) (cap x : Z) :
  within caps xs -> 0 <= x <= cap -> within (caps ++ [cap]) (xs ++ [x]).
Proof.
  intros H Hx. apply Forall2_app; [assumption|].
  constructor; [assumption|constructor].
Qed.

Lemma within_rev (caps xs : list Z) :
  within caps xs -> within (rev caps) (rev xs).
Proof.
  induction 1 as [|cap x caps xs Hx Hw IH]; [constructor|].
  simpl. apply within_app; assumption.
Qed.

(** Induction on a vector within its capacities from the last column. *)
Lemma within_snoc_ind (Q : list Z -> list Z -> Prop) :
  Q [] [] ->
  (forall caps xs cap x, within caps xs -> 0 <= x <= cap -> Q caps xs ->
                         Q (caps ++ [cap]) (xs ++ [x])) ->
  forall caps xs, within caps xs -> Q caps xs.
Proof.
  intros H0 Hstep caps xs Hw.
  rewrite <- (rev_involutive caps), <- (rev_involutive xs).
  apply within_rev in Hw.
  induction Hw as [|cap x rcaps rxs Hx Hw IH]; [exact H0|].
  simpl. apply Hstep; [|assumption|assumption].
  apply within_rev in Hw. exact Hw.
Qed.

Lemma fillSel_done (u : Z) (caps xs : list Z) :
  u <= 0 -> fillSel u caps xs = xs.
Proof.
  intros Hu. destruct caps; simpl;
    (destruct (0 <? u) eqn:E; [apply Z.ltb_lt in E; lia | reflexivity]).
Qed.

Lemma greedy_cons (u cap : Z) (caps : list Z) :
  0 <= u -> 0 <= cap ->
  greedy u (cap :: caps) = Z.min u cap :: greedy (u - Z.min u cap) caps.
Proof.
  intros Hu Hc. unfold greedy. simpl length. simpl repeat.
  destruct (Z.eq_dec u 0) as [->|Hne].
  - rewrite !fillSel_done by lia. f_equal. lia.
  - cbn [fillSel]. destruct (0 <? u) eqn:E; [|apply Z.ltb_ge in E; lia].
    destruct (0 <? Z.min u cap) eqn:E2.
    + reflexivity.
    + apply Z.ltb_ge in E2. replace (Z.min u cap) with 0 by lia.
      replace (u - 0) with u by lia. reflexivity.
Qed.

Lemma greedy_nil (u : Z) : greedy u [] = [].
Proof. unfold greedy. simpl. destruct (0 <? u); reflexivity. Qed.

Lemma greedy_snoc (caps : list Z) (cap u : Z) :
  Forall (fun c => 0 <= c) caps -> 0 <= cap ->
  0 <= u <= zsum caps + cap ->
  greedy u (caps ++ [cap])
  = greedy (Z.min u (zsum caps)) caps ++ [u - Z.min u (zsum caps)].
Proof.
  intros H. revert u. induction H as [|c caps Hc Hcaps IH]; intros u Hcap Hu.
  - simpl app. rewrite greedy_cons, !greedy_nil by (simpl in *; lia).
    simpl in *. f_equal. lia.
  - rewrite zsum_cons in *. pose proof (caps_sum_nonneg _ Hcaps) as Hs.
    simpl app. rewrite !greedy_cons by lia.
    rewrite IH by lia. simpl app. f_equal; [lia|].
    f_equal; [f_equal; lia | f_equal; lia].
Qed.

Lemma greedy_rev (caps : list Z) (u : Z) :
  Forall (fun c => 0 <= c) caps -> 0 <= u <= zsum caps ->
  greedy u caps = rev (rgreedy u (rev caps)).
Proof.
  revert u. induction caps as [|cap caps IH] using rev_ind; intros u H Hu.
  - rewrite greedy_nil. reflexivity.
  - apply Forall_app in H. destruct H as [H1 H2]. inversion H2; subst.
    rewrite zsum_app in Hu. simpl in Hu.
    pose proof (caps_sum_nonneg _ H1) as Hs.
    rewrite rev_app_distr. simpl rev at 1. simpl app. cbn [rgreedy].
    simpl rev. rewrite zsum_rev.
    rewrite <- IH by (try assumption; lia).
    apply greedy_snoc; try assumption; lia.
Qed.

Lemma scanSel_snoc (caps xs : list Z) (cap x u : Z) :
  within caps xs ->
  scanSel u (caps ++ [cap]) (xs ++ [x])
  = match scanSel u caps xs with
    | (true, u', ys) => (true, u', ys ++ [x])
    | (false, u', ys) =>
        if (0 <? u') && (x <? cap) then (true, u' - 1, ys ++ [x + 1])
        else (false, (if 0 <? x then u' + x else u'),
              ys ++ [if 0 <? x then 0 else x])
    end.
Proof.
  intros H. revert u. induction H as [|c y caps xs Hy Hw IH]; intros u.
  - simpl. destruct ((0 <? u) && (x <? cap)); reflexivity.
  - simpl app. cbn [scanSel].
    destruct ((0 <? u) && (y <? c)); [reflexivity|].
    rewrite IH.
    destruct (scanSel (if 0 <? y then u + y else u) caps xs)
      as [[[|] u'] ys]; [reflexivity|].
    destruct ((0 <? u') && (x <? cap)); reflexivity.
Qed.

Lemma scanSel_not_found (caps xs ys : list Z) (u u' : Z) :
  within caps xs -> scanSel u caps xs = (false, u', ys) ->
  u' = u + zsum xs /\ ys = repeat 0 (length xs).
Proof.
  intros H. revert u u' ys.
  induction H as [|c y caps xs Hy Hw IH]; intros u u' ys Hs.
  - simpl in Hs. injection Hs as <- <-. simpl. split; [lia | reflexivity].
  - cbn [scanSel] in Hs.
    destruct ((0 <? u) && (y <? c)); [discriminate|].
    destruct (scanSel (if 0 <? y then u + y else u) caps xs)
      as [[f u2] ys2] eqn:E.
    injection Hs as -> <- <-.
    destruct (IH _ _ _ E) as [I1 I2]. rewrite zsum_cons. simpl.
    destruct (0 <? y) eqn:E0.
    + split; [lia | congruence].
    + apply Z.ltb_ge in E0. assert (y = 0) by lia. subst y.
      split; [lia | congruence].
Qed.

Lemma scanSel_found (caps xs ys : list Z) (u u' : Z) :
  within caps xs -> 0 <= u -> scanSel u caps xs = (true, u', ys) ->
  0 <= u' < u + zsum caps /\ length ys = length xs.
Proof.
  intros H. revert u u' ys.
  induction H as [|c y caps xs Hy Hw IH]; intros u u' ys Hu Hs.
  - simpl in Hs. discriminate.
  - cbn [scanSel] in Hs. rewrite zsum_cons.
    pose proof (within_sum _ _ Hw) as Hsum.
    destruct ((0 <? u) && (y <? c)) eqn:Ec.
    + injection Hs as <- <-. apply andb_true_iff in Ec.
      destruct Ec as [E1 E2]. apply Z.ltb_lt in E1. apply Z.ltb_lt in E2.
      split; [lia | reflexivity].
    + destruct (scanSel (if 0 <? y then u + y else u) caps xs)
        as [[f u2] ys2] eqn:E.
      injection Hs as -> <- <-.
      destruct (0 <? y) eqn:E0.
      * assert (Hu2 : 0 <= u + y) by lia.
        destruct (IH _ _ _ Hu2 E) as [I1 I2].
        split; [lia | simpl; congruence].
      * destruct (IH _ _ _ Hu E) as [I1 I2].
        split; [lia | simpl; congruence].
Qed.

Lemma fillSel_app (caps cs xs zs : list Z) (u : Z) :
  Forall (fun c => 0 <= c) caps -> length xs = length caps ->
  u <= zsum caps ->
  fillSel u (caps ++ cs) (xs ++ zs) = fillSel u caps xs ++ zs.
Proof.
  intros H. revert u xs.
  induction H as [|c caps Hc Hcaps IH]; intros u xs Hl Hu.
  - destruct xs; [|discriminate]. simpl in Hu. simpl app.
    rewrite (fillSel_done u cs zs) by lia.
    simpl. destruct (0 <? u); reflexivity.
  - destruct xs as [|x xs]; [discriminate|]. simpl in Hl.
    rewrite zsum_cons in Hu. simpl app. cbn [fillSel].
    destruct (0 <? u) eqn:E; [|reflexivity].
    simpl app. f_equal. apply IH; [lia|].
    apply Z.ltb_lt in E. pose proof (caps_sum_nonneg _ Hcaps) as Hs.
    destruct (0 <? Z.min u c) eqn:E2;
      [apply Z.ltb_lt in E2 | apply Z.ltb_ge in E2]; lia.
Qed.

Lemma nextSel_snoc (caps xs : list Z) (cap x : Z) :
  within caps xs -> 0 <= x <= cap ->
  nextSel (caps ++ [cap]) (xs ++ [x])
  = match nextSel caps xs with
    | Some ys => Some (ys ++ [x])
    | None =>
        if (0 <? zsum xs) && (x <? cap)
        then Some (greedy (zsum xs - 1) caps ++ [x + 1])
        else None
    end.
Proof.
  intros Hw Hx. unfold nextSel. rewrite scanSel_snoc by assumption.
  pose proof (within_caps_nonneg _ _ Hw) as Hcaps.
  pose proof (within_length _ _ Hw) as Hlen.
  destruct (scanSel 0 caps xs) as [[[|] u'] ys] eqn:E.
  - destruct (scanSel_found _ _ _ _ _ Hw (Z.le_refl 0) E) as [Hu' Hl].
    rewrite fillSel_app; [reflexivity | assumption | lia | lia].
  - destruct (scanSel_not_found _ _ _ _ _ Hw E) as [-> ->].
    simpl. destruct ((0 <? zsum xs) && (x <? cap)) eqn:Ec; [|reflexivity].
    apply andb_true_iff in Ec. destruct Ec as [E1 E2].
    apply Z.ltb_lt in E1.
    pose proof (within_sum _ _ Hw) as Hs.
    rewrite fillSel_app;
      [|assumption | rewrite repeat_length; lia | lia].
    unfold greedy. rewrite Hlen. reflexivity.
Qed.

Lemma nextSel_rev (caps xs : list Z) :
  within caps xs ->
  nextSel caps xs = option_map (@rev Z) (rnext (rev caps) (rev xs)).
Proof.
  intros H. induction H as [|caps xs cap x Hw Hx IH] using within_snoc_ind.
  - reflexivity.
  - rewrite nextSel_snoc by assumption. rewrite IH.
    rewrite !rev_app_distr. simpl rev. simpl app. cbn [rnext].
    destruct (rnext (rev caps) (rev xs)) as [ys|] eqn:E; simpl.
    + reflexivity.
    + rewrite zsum_rev.
      destruct ((0 <? zsum xs) && (x <? cap)) eqn:Ec; [|reflexivity].
      simpl. f_equal. f_equal.
      apply andb_true_iff in Ec. destruct Ec as [E1 E2].
      apply Z.ltb_lt in E1. pose proof (within_sum _ _ Hw) as Hs.
      apply greedy_rev; [apply (within_caps_nonneg _ _ Hw) | lia].
Qed.

(* ----------------------------------------------------------------- *)
(** ** [multisetSelect] follows the vector functions *)

Lemma within_selOK (sel : list Select) :
  within (map maxExtra sel) (map extra sel) <-> Forall selOK sel.
Proof.
  induction sel as [|s sel IH]; simpl.
  - split; constructor.
  - split; intros H; inversion H; subst; constructor;
      try assumption; apply IH; assumption.
Qed.

Lemma setExtras_cons (s : Select) (sel : list Select) (y : Z)
    (ys : list Z) :
  setExtras (s :: sel) (y :: ys) = set_extra s y :: setExtras sel ys.
Proof. reflexivity. Qed.

Lemma takeFrom_giveBack_cons (c : Z) (s : Select) (sel : list Select)
    (b : Z) (bag : list Z) (y : Z) (ys : list Z) :
  takeFrom c (giveBack c (s :: sel) (b :: bag)) (y :: ys)
  = (b + extra s * c - y * c) :: takeFrom c (giveBack c sel bag) ys.
Proof. reflexivity. Qed.

Lemma set_extra_id (s : Select) : set_extra s (extra s) = s.
Proof. destruct s; reflexivity. Qed.

Lemma setExtras_id (sel : list Select) :
  setExtras sel (map extra sel) = sel.
Proof.
  induction sel as [|a l IH]; [reflexivity|].
  simpl map. rewrite setExtras_cons, IH, set_extra_id. reflexivity.
Qed.

Lemma takeFrom_giveBack_id (c : Z) (sel : list Select) (bag : list Z) :
  length sel = length bag ->
  takeFrom c (giveBack c sel bag) (map extra sel) = bag.
Proof.
  revert bag. induction sel as [|a l IH]; intros [|b bag] Hl;
    simpl in Hl; try discriminate; [reflexivity|].
  simpl map. rewrite takeFrom_giveBack_cons, IH by lia.
  f_equal. ring.
Qed.

Lemma selectBackward_sim (c u : Z) (sel : list Select) (bag : list Z) :
  length sel = length bag -> Forall selOK sel ->
  selectBackward c u sel bag
  = match scanSel u (map maxExtra sel) (map extra sel) with
    | (found, u', ys) =>
        Done (found, u', setExtras sel ys,
              takeFrom c (giveBack c sel bag) ys)
    end.
Proof.
  intros Hl H. revert u bag Hl.
  induction H as [|s sel Hs Hsel IH]; intros u bag Hl.
  - destruct bag; [reflexivity | discriminate].
  - destruct bag as [|b bag]; [discriminate|]. simpl in Hl.
    cbn [selectBackward scanSel map]. destruct Hs as [Hs1 Hs2].
    destruct (maxExtra s <? extra s) eqn:E; [apply Z.ltb_lt in E; lia|].
    destruct ((0 <? u) && (extra s <? maxExtra s)) eqn:Ec.
    + rewrite setExtras_cons, takeFrom_giveBack_cons.
      rewrite setExtras_id, takeFrom_giveBack_id by lia.
      replace (b + extra s * c - (extra s + 1) * c) with (b - c) by ring.
      reflexivity.
    + rewrite IH by lia.
      destruct (scanSel (if 0 <? extra s then u + extra s else u)
                  (map maxExtra sel) (map extra sel)) as [[f u'] ys].
      rewrite setExtras_cons, takeFrom_giveBack_cons. cbn [bind].
      destruct (0 <? extra s) eqn:E0.
      * replace (b + extra s * c - 0 * c) with (b + extra s * c) by ring.
        reflexivity.
      * rewrite set_extra_id.
        replace (b + extra s * c - extra s * c) with b by ring.
        reflexivity.
Qed.

Lemma fillsZeros_done (u : Z) (caps xs : list Z) :
  u <= 0 -> fillsZeros u caps xs.
Proof. intros H. destruct caps; simpl; left; assumption. Qed.

Lemma fillsZeros_repeat (caps : list Z) (u : Z) :
  Forall (fun c => 0 <= c) caps -> u <= zsum caps ->
  fillsZeros u caps (repeat 0 (length caps)).
Proof.
  intros H. revert u. induction H as [|c caps Hc Hcaps IH]; intros u Hu.
  - simpl in *. left. assumption.
  - rewrite zsum_cons in Hu. simpl. right. split; [reflexivity|].
    apply IH. pose proof (caps_sum_nonneg _ Hcaps). lia.
Qed.

Lemma scanSel_fillsZeros (caps xs ys : list Z) (u u' : Z) :
  within caps xs -> scanSel u caps xs = (true, u', ys) ->
  forall w, w <= u' - u -> fillsZeros w caps ys.
Proof.
  intros H. revert u u' ys.
  induction H as [|c y caps xs Hy Hw IH]; intros u u' ys Hs w Hle.
  - simpl in Hs. discriminate.
  - cbn [scanSel] in Hs.
    destruct ((0 <? u) && (y <? c)) eqn:Ec.
    + injection Hs as <- <-. apply fillsZeros_done. lia.
    + destruct (scanSel (if 0 <? y then u + y else u) caps xs)
        as [[f u2] ys2] eqn:E.
      injection Hs as -> <- <-.
      assert (Hy0 : (if 0 <? y then 0 else y) = 0).
      { destruct (0 <? y) eqn:E0; [reflexivity|].
        apply Z.ltb_ge in E0. lia. }
      rewrite Hy0. cbn [fillsZeros]. right. split; [reflexivity|].
      destruct (Z_le_dec w c) as [Hwc|Hwc].
      * apply fillsZeros_done. lia.
      * apply (IH _ _ _ E).
        destruct (0 <? y) eqn:E0;
          [apply Z.ltb_lt in E0 | apply Z.ltb_ge in E0]; lia.
Qed.

Lemma selectForward_sim (c u : Z) (sel : list Select) (bag : list Z) :
  length sel = length bag ->
  Forall (fun s => 0 <= maxExtra s) sel ->
  fillsZeros u (map maxExtra sel) (map extra sel) ->
  selectForward c u sel bag
  = Done (setExtras sel (fillSel u (map maxExtra sel) (map extra sel)),
          takeFrom c (giveBack c sel bag)
            (fillSel u (map maxExtra sel) (map extra sel))).
Proof.
  intros Hl H. revert u bag Hl.
  induction H as [|s sel Hs Hsel IH]; intros u bag Hl Hu.
  - destruct bag; [|discriminate]. simpl in Hu. simpl.
    destruct (0 <? u) eqn:E; [|reflexivity].
    apply Z.ltb_lt in E. destruct Hu as [Hu|[]]. lia.
  - destruct bag as [|b bag]; [discriminate|]. simpl in Hl.
    destruct (0 <? u) eqn:E.
    + simpl map in *. cbn [fillsZeros] in Hu.
      cbn [selectForward fillSel]. rewrite E.
      apply Z.ltb_lt in E. destruct Hu as [Hu|[Hx Hu]]; [lia|].
      assert (Hrec : (if 0 <? Z.min u (maxExtra s)
                      then u - Z.min u (maxExtra s) else u)
                     = u - Z.min u (maxExtra s)).
      { destruct (0 <? Z.min u (maxExtra s)) eqn:E2; [reflexivity|].
        apply Z.ltb_ge in E2. lia. }
      rewrite Hrec. rewrite IH; [| lia | assumption].
      rewrite setExtras_cons, takeFrom_giveBack_cons. cbn [bind].
      rewrite Hx.
      destruct (0 <? Z.min u (maxExtra s)) eqn:E2.
      * replace (b + 0 * c - Z.min u (maxExtra s) * c)
          with (b - Z.min u (maxExtra s) * c) by ring.
        reflexivity.
      * rewrite <- Hx, set_extra_id.
        replace (b + extra s * c - extra s * c) with b by ring.
        reflexivity.
    + rewrite fillSel_done by (apply Z.ltb_ge in E; lia).
      rewrite setExtras_id, takeFrom_giveBack_id by (simpl; lia).
      destruct sel; simpl; rewrite E; reflexivity.
Qed.

Lemma setExtras_length (sel : list Select) (ys : list Z) :
  length ys = length sel -> length (setExtras sel ys) = length sel.
Proof.
  intros H. unfold setExtras. rewrite length_map, length_combine. lia.
Qed.

Lemma setExtras_fields (sel : list Select) (ys : list Z) :
  length ys = length sel ->
  map maxExtra (setExtras sel ys) = map maxExtra sel
  /\ map base (setExtras sel ys) = map base sel
  /\ map extra (setExtras sel ys) = ys.
Proof.
  revert ys. induction sel as [|s sel IH]; intros [|y ys] H;
    simpl in H; try discriminate; [repeat split|].
  rewrite setExtras_cons. simpl map.
  destruct (IH ys) as [I1 [I2 I3]]; [lia|].
  rewrite I1, I2, I3. repeat split.
Qed.

Lemma takeFrom_length (c : Z) (full ys : list Z) :
  length ys = length full -> length (takeFrom c full ys) = length full.
Proof.
  intros H. unfold takeFrom. rewrite length_map, length_combine. lia.
Qed.

Lemma giveBack_length (c : Z) (sel : list Select) (bag : list Z) :
  length sel = length bag -> length (giveBack c sel bag) = length bag.
Proof.
  intros H. unfold giveBack. rewrite length_map, length_combine. lia.
Qed.

Lemma giveBack_takeFrom (c : Z) (sel : list Select) (full ys : list Z) :
  length ys = length sel -> length full = length sel ->
  giveBack c (setExtras sel ys) (takeFrom c full ys) = full.
Proof.
  revert full ys. induction sel as [|s sel IH]; intros [|v full] [|y ys] H1 H2;
    simpl in *; try discriminate; [reflexivity|].
  unfold giveBack, setExtras, takeFrom in *. simpl.
  rewrite IH by lia. f_equal. ring.
Qed.

Lemma takeFrom_zeros (c : Z) (full : list Z) :
  takeFrom c full (repeat 0 (length full)) = full.
Proof.
  induction full as [|v full IH]; [reflexivity|].
  unfold takeFrom in *. simpl. rewrite IH. f_equal. ring.
Qed.

Lemma giveBack_zeros (c : Z) (sel : list Select) (bag : list Z) :
  length sel = length bag -> Forall (fun s => extra s = 0) sel ->
  giveBack c sel bag = bag.
Proof.
  intros Hl H. revert bag Hl. induction H as [|s sel Hs Hsel IH];
    intros [|b bag] Hl; simpl in Hl; try discriminate; [reflexivity|].
  unfold giveBack in *. simpl. rewrite IH by lia. rewrite Hs.
  f_equal. ring.
Qed.

Lemma setExtras_twice (sel : list Select) (ys zs : list Z) :
  length ys = length sel ->
  setExtras (setExtras sel ys) zs = setExtras sel zs.
Proof.
  revert ys zs. induction sel as [|s sel IH]; intros [|y ys] [|z zs] H;
    simpl in H; try discriminate; try reflexivity.
  rewrite !setExtras_cons, IH by lia. reflexivity.
Qed.

Lemma zero_sum_zeros (caps xs : list Z) :
  within caps xs -> zsum xs <= 0 -> xs = repeat 0 (length xs).
Proof.
  induction 1 as [|cap x caps xs Hx Hw IH]; intros Hs; [reflexivity|].
  rewrite zsum_cons in Hs. pose proof (within_sum _ _ Hw).
  simpl. assert (x = 0) by lia. subst x. f_equal. apply IH. lia.
Qed.

Lemma scanSel_zeros (caps : list Z) (n : nat) :
  scanSel 0 caps (repeat 0 n) = (false, 0, repeat 0 n).
Proof.
  revert n. induction caps as [|c caps IH]; intros [|n]; simpl;
    try reflexivity. rewrite IH. reflexivity.
Qed.

Lemma set_selection_id (r : Row) : set_selection r (selection r) = r.
Proof. destruct r; reflexivity. Qed.

(** [multisetSelect] with [findFirst] false is the successor. *)
Lemma multisetSelect_next (r : Row) (bag : list Z) :
  simpleRowOK r bag ->
  let sel := selection r in
  let full := giveBack (coeff r) sel bag in
  multisetSelect r bag false
  = match nextSel (map maxExtra sel) (map extra sel) with
    | Some ys =>
        Done (true, set_selection r (setExtras sel ys),
              takeFrom (coeff r) full ys)
    | None =>
        Done (false,
              set_selection r (setExtras sel (repeat 0 (length sel))),
              full)
    end.
Proof.
  intros [Hl [Hw [Hs [Hcs Hcm]]]] sel full. subst sel full.
  unfold multisetSelect. cbn [negb].
  pose proof (proj1 (within_selOK _) Hw) as Hok.
  assert (Hfl : length (giveBack (coeff r) (selection r) bag)
                = length (selection r))
    by (rewrite giveBack_length; lia).
  destruct (0 <? currentSize r) eqn:E.
  - rewrite selectBackward_sim by assumption. unfold nextSel.
    destruct (scanSel 0 (map maxExtra (selection r))
                (map extra (selection r)))
      as [[[|] u'] ys] eqn:Es; cbn [bind].
    + destruct (scanSel_found _ _ _ _ _ Hw (Z.le_refl 0) Es) as [Hu' Hly].
      rewrite length_map in Hly.
      destruct (setExtras_fields (selection r) ys Hly) as [F1 [F2 F3]].
      rewrite selectForward_sim.
      * rewrite F1, F3. cbn [bind].
        rewrite setExtras_twice by assumption.
        rewrite giveBack_takeFrom by assumption. reflexivity.
      * rewrite setExtras_length, takeFrom_length; lia.
      * apply Forall_forall. intros s Hin.
        assert (Hin' : In (maxExtra s) (map maxExtra (selection r))).
        { rewrite <- F1. apply in_map. assumption. }
        pose proof (within_caps_nonneg _ _ Hw) as Hc.
        rewrite Forall_forall in Hc. apply Hc. assumption.
      * rewrite F1, F3.
        apply (scanSel_fillsZeros _ _ _ _ _ Hw Es). lia.
    + destruct (scanSel_not_found _ _ _ _ _ Hw Es) as [_ ->].
      rewrite length_map. rewrite <- Hfl at 2.
      rewrite takeFrom_zeros. reflexivity.
  - apply Z.ltb_ge in E.
    assert (Hz : map extra (selection r)
                 = repeat 0 (length (selection r))).
    { rewrite <- (length_map extra). apply (zero_sum_zeros _ _ Hw). lia. }
    unfold nextSel. rewrite Hz at 1. rewrite scanSel_zeros.
    rewrite <- Hz, setExtras_id. rewrite set_selection_id.
    rewrite giveBack_zeros; [reflexivity | assumption|].
    apply Forall_forall. intros s Hin.
    assert (Hin' : In (extra s) (map extra (selection r)))
      by (apply in_map; assumption).
    rewrite Hz in Hin'. apply repeat_spec in Hin'. assumption.
Qed.

(** [multisetSelect] with [findFirst] true is the least selection of
    the current size when every extra is 0. *)
Lemma multisetSelect_first (r : Row) (bag : list Z) :
  length (selection r) = length bag ->
  Forall (fun s => extra s = 0 /\ 0 <= maxExtra s) (selection r) ->
  currentSize r <= zsum (map maxExtra (selection r)) ->
  let sel := selection r in
  multisetSelect r bag true
  = Done (true,
          set_selection r
            (setExtras sel (greedy (currentSize r) (map maxExtra sel))),
          takeFrom (coeff r) bag
            (greedy (currentSize r) (map maxExtra sel))).
Proof.
  intros Hl Hsel Hcs sel. subst sel. unfold multisetSelect. cbn [negb].
  assert (Hz : map extra (selection r)
               = repeat 0 (length (map maxExtra (selection r)))).
  { rewrite length_map. clear - Hsel.
    induction Hsel as [|s l [Hs _] _ IH]; [reflexivity|].
    simpl. rewrite Hs, IH. reflexivity. }
  assert (Hcaps : Forall (fun c => 0 <= c) (map maxExtra (selection r))).
  { apply Forall_map. eapply Forall_impl; [|exact Hsel]. simpl. tauto. }
  rewrite selectForward_sim.
  - rewrite Hz.
    fold (greedy (currentSize r) (map maxExtra (selection r))).
    cbn [bind]. rewrite giveBack_zeros; [reflexivity | assumption|].
    eapply Forall_impl; [|exact Hsel]. simpl. tauto.
  - assumption.
  - eapply Forall_impl; [|exact Hsel]. simpl. tauto.
  - rewrite Hz. apply fillsZeros_repeat; assumption.
Qed.

(* ----------------------------------------------------------------- *)
(** ** The order of the enumeration *)

Lemma capSpace_pos (caps : list Z) :
  Forall (fun c => 0 <= c) caps -> 1 <= capSpace caps.
Proof. induction 1 as [|c caps Hc _ IH]; simpl; nia. Qed.

Lemma lexRank_bound (caps xs : list Z) :
  within caps xs -> 0 <= lexRank caps xs <= capSpace caps - 1.
Proof.
  induction 1 as [|cap x caps xs Hx Hw IH]; simpl; [lia|].
  pose proof (capSpace_pos _ (within_caps_nonneg _ _ Hw)). nia.
Qed.

Lemma lexLt_rank (caps xs ys : list Z) :
  within caps xs -> within caps ys -> lexLt xs ys ->
  lexRank caps xs < lexRank caps ys.
Proof.
  intros H. revert ys. induction H as [|cap x caps xs Hx Hw IH];
    intros ys Hy Hlt; inversion Hy as [|? y ? ys' Hyb Hyw]; subst;
    simpl in *; [tauto|].
  pose proof (lexRank_bound _ _ Hw). pose proof (lexRank_bound _ _ Hyw).
  destruct Hlt as [Hlt|[-> Hlt]]; [nia|].
  specialize (IH _ Hyw Hlt). lia.
Qed.

Lemma selLt_trans (u v w : list Z) : selLt u v -> selLt v w -> selLt u w.
Proof.
  unfold selLt. intros [H1|[H1 L1]] [H2|[H2 L2]]; try (left; lia).
  right. split; [lia|]. eapply lexLt_trans; eassumption.
Qed.

Lemma selLt_irrefl (u : list Z) : ~ selLt u u.
Proof.
  unfold selLt. intros [H|[_ H]]; [lia|]. exact (lexLt_irrefl _ H).
Qed.

Lemma selMeasure_nonneg (caps xs : list Z) (hi : Z) :
  within caps xs -> zsum xs <= hi -> 0 <= selMeasure caps hi xs.
Proof.
  intros Hw Hs. unfold selMeasure.
  pose proof (lexRank_bound _ _ (within_rev _ _ Hw)).
  pose proof (capSpace_pos _ (within_caps_nonneg _ _ (within_rev _ _ Hw))).
  nia.
Qed.

Lemma selLt_measure (caps xs ys : list Z) (hi : Z) :
  within caps xs -> within caps ys -> zsum ys <= hi -> selLt xs ys ->
  selMeasure caps hi ys < selMeasure caps hi xs.
Proof.
  intros Hx Hy Hs Hlt. unfold selMeasure.
  pose proof (lexRank_bound _ _ (within_rev _ _ Hx)).
  pose proof (lexRank_bound _ _ (within_rev _ _ Hy)).
  pose proof (capSpace_pos _ (within_caps_nonneg _ _ (within_rev _ _ Hx))).
  destruct Hlt as [Hlt|[He Hlt]].
  - nia.
  - pose proof (lexLt_rank _ _ _ (within_rev _ _ Hx) (within_rev _ _ Hy) Hlt).
    rewrite He. lia.
Qed.

Lemma greedy_valid (caps : list Z) (u : Z) :
  Forall (fun c => 0 <= c) caps -> 0 <= u <= zsum caps ->
  within caps (greedy u caps) /\ zsum (greedy u caps) = u.
Proof.
  intros Hc Hu. rewrite greedy_rev by assumption.
  destruct (rgreedy_valid (rev caps) u) as [G1 G2].
  - apply Forall_rev. assumption.
  - rewrite zsum_rev. assumption.
  - split; [|rewrite zsum_rev; assumption].
    apply within_rev in G1. rewrite rev_involutive in G1. exact G1.
Qed.

Lemma greedy_least (caps zs : list Z) :
  within caps zs ->
  zs = greedy (zsum zs) caps
  \/ lexLt (rev (greedy (zsum zs) caps)) (rev zs).
Proof.
  intros Hw. pose proof (within_sum _ _ Hw) as Hs.
  rewrite greedy_rev by (try apply (within_caps_nonneg _ _ Hw); lia).
  rewrite rev_involutive.
  destruct (rgreedy_least _ _ (within_rev _ _ Hw)) as [H|H];
    rewrite zsum_rev in H.
  - left. rewrite <- H. symmetry. apply rev_involutive.
  - right. assumption.
Qed.

Lemma advanceSel_some (caps xs ys : list Z) (hi : Z) :
  within caps xs -> zsum xs <= hi -> hi <= zsum caps ->
  advanceSel caps hi xs = Some ys ->
  within caps ys /\ zsum xs <= zsum ys <= hi /\ selLt xs ys
  /\ forall zs, within caps zs -> zsum zs <= hi -> selLt xs zs ->
       zs = ys \/ selLt ys zs.
Proof.
  intros Hw Hs Hhi Ha. unfold advanceSel in Ha.
  rewrite nextSel_rev in Ha by assumption.
  pose proof (within_rev _ _ Hw) as Hrw.
  pose proof (within_sum _ _ Hw) as Hsum.
  pose proof (within_caps_nonneg _ _ Hw) as Hcaps.
  destruct (rnext (rev caps) (rev xs)) as [ys'|] eqn:E; simpl in Ha.
  - injection Ha as <-.
    destruct (rnext_some _ _ _ Hrw E) as [R1 [R2 [R3 R4]]].
    rewrite zsum_rev in R2.
    split; [apply within_rev in R1; rewrite rev_involutive in R1; exact R1|].
    split; [rewrite zsum_rev; lia|].
    split; [right; rewrite zsum_rev, rev_involutive; auto|].
    intros zs Hz Hzs [Hlt|[He Hlt]].
    + right. left. rewrite zsum_rev. lia.
    + destruct (R4 (rev zs) (within_rev _ _ Hz)) as [H|H].
      * rewrite !zsum_rev. lia.
      * assumption.
      * left. rewrite <- H. symmetry. apply rev_involutive.
      * right. right. rewrite zsum_rev, rev_involutive. split; [lia|auto].
  - destruct (zsum xs =? hi) eqn:Eh; [discriminate|].
    apply Z.eqb_neq in Eh. injection Ha as <-.
    destruct (greedy_valid caps (zsum xs + 1) Hcaps) as [G1 G2]; [lia|].
    split; [assumption|]. split; [lia|]. split; [left; lia|].
    intros zs Hz Hzs [Hlt|[He Hlt]].
    + destruct (Z.eq_dec (zsum zs) (zsum xs + 1)) as [Heq|Hne].
      * destruct (greedy_least _ _ Hz) as [H|H]; rewrite Heq in H.
        -- left. assumption.
        -- right. right. split; [lia | assumption].
      * right. left. lia.
    + exfalso.
      apply (rnext_none _ _ Hrw E (rev zs) (within_rev _ _ Hz));
        [rewrite !zsum_rev; lia | assumption].
Qed.

Lemma advanceSel_none (caps xs : list Z) (hi : Z) :
  within caps xs -> zsum xs <= hi ->
  advanceSel caps hi xs = None ->
  forall zs, within caps zs -> zsum zs <= hi -> ~ selLt xs zs.
Proof.
  intros Hw Hs Ha zs Hz Hzs Hlt. unfold advanceSel in Ha.
  rewrite nextSel_rev in Ha by assumption.
  destruct (rnext (rev caps) (rev xs)) as [ys'|] eqn:E; simpl in Ha;
    [discriminate|].
  destruct (zsum xs =? hi) eqn:Eh; [|discriminate].
  apply Z.eqb_eq in Eh. destruct Hlt as [Hlt|[He Hlt]]; [lia|].
  apply (rnext_none _ _ (within_rev _ _ Hw) E (rev zs) (within_rev _ _ Hz));
    [rewrite !zsum_rev; lia | assumption].
Qed.

(* ----------------------------------------------------------------- *)
(** ** [solveRowSimple] on a row *)

Lemma nextSel_sum (caps xs ys : list Z) :
  within caps xs -> nextSel caps xs = Some ys ->
  within caps ys /\ zsum ys = zsum xs.
Proof.
  intros Hw Hn. rewrite nextSel_rev in Hn by assumption.
  destruct (rnext (rev caps) (rev xs)) as [ys'|] eqn:E; [|discriminate].
  simpl in Hn. injection Hn as <-.
  destruct (rnext_some _ _ _ (within_rev _ _ Hw) E) as [R1 [R2 _]].
  rewrite !zsum_rev in *. split; [|assumption].
  apply within_rev in R1. rewrite rev_involutive in R1. exact R1.
Qed.

Lemma getAt_nth {A : Type} (l : list A) (i : nat) (x : A) :
  nth_error l i = Some x -> getAt l i = Done x.
Proof. intros H. unfold getAt. rewrite H. reflexivity. Qed.

Lemma solveRowSimple_advance (d : DiophantineSystem) (k : nat) (r : Row) :
  nth_error (rows d) k = Some r ->
  simpleRowOK r (columns d) ->
  solveRowSimple d k false
  = match advanceSel (map maxExtra (selection r)) (currentMaxSize r)
            (map extra (selection r)) with
    | Some ys =>
        Done (true,
              putRow d k
                (set_sizes (set_selection r (setExtras (selection r) ys))
                   (zsum ys) (currentMaxSize r))
                (takeFrom (coeff r)
                   (giveBack (coeff r) (selection r) (columns d)) ys))
    | None =>
        Done (false,
              putRow d k
                (set_selection r
                   (setExtras (selection r)
                      (repeat 0 (length (selection r)))))
                (giveBack (coeff r) (selection r) (columns d)))
    end.
Proof.
  intros Hn Hok. unfold solveRowSimple.
  rewrite (getAt_nth _ _ _ Hn). cbn [bind].
  rewrite (multisetSelect_next r (columns d) Hok).
  destruct Hok as [Hl [Hw [Hs [Hcs Hcm]]]].
  unfold advanceSel.
  destruct (nextSel (map maxExtra (selection r)) (map extra (selection r)))
    as [ys|] eqn:E; cbn [bind].
  - destruct (nextSel_sum _ _ _ Hw E) as [_ Hsum].
    rewrite Hsum, Hs. destruct r; reflexivity.
  - rewrite Hs.
    change (currentSize (set_selection r
              (setExtras (selection r) (repeat 0 (length (selection r))))))
      with (currentSize r).
    change (currentMaxSize (set_selection r
              (setExtras (selection r) (repeat 0 (length (selection r))))))
      with (currentMaxSize r).
    destruct (currentSize r =? currentMaxSize r) eqn:Eh; [reflexivity|].
    apply Z.eqb_neq in Eh.
    pose proof (within_caps_nonneg _ _ Hw) as Hcaps.
    pose proof (within_sum _ _ Hw) as Hsum.
    assert (Hlz : length (repeat 0 (length (selection r)))
                  = length (selection r)) by apply repeat_length.
    destruct (setExtras_fields (selection r) _ Hlz) as [F1 [F2 F3]].
    rewrite multisetSelect_first.
    + cbn [bind selection set_currentSize set_sizes set_selection
           currentSize coeff].
      rewrite F1. rewrite setExtras_twice by assumption.
      destruct (greedy_valid (map maxExtra (selection r))
                  (currentSize r + 1) Hcaps) as [_ Hg]; [lia|].
      rewrite Hg. reflexivity.
    + cbn [selection set_currentSize set_sizes set_selection].
      rewrite setExtras_length, giveBack_length; lia.
    + cbn [selection set_currentSize set_sizes set_selection].
      apply Forall_forall. intros s Hin. split.
      * assert (Hin' : In (extra s) (repeat 0 (length (selection r)))).
        { rewrite <- F3. apply in_map. assumption. }
        apply repeat_spec in Hin'. assumption.
      * assert (Hin' : In (maxExtra s) (map maxExtra (selection r))).
        { rewrite <- F1. apply in_map. assumption. }
        rewrite Forall_forall in Hcaps. apply Hcaps. assumption.
    + cbn [selection set_currentSize set_sizes set_selection currentSize].
      rewrite F1. lia.
Qed.

Lemma initSel_fields (c : Z) (sel : list Select) (cols : list Z) :
  length sel = length cols ->
  map maxExtra (initSel c sel cols) = map (capOf c) cols
  /\ map base (initSel c sel cols) = map base sel
  /\ map extra (initSel c sel cols) = repeat 0 (length cols)
  /\ length (initSel c sel cols) = length cols.
Proof.
  revert cols. induction sel as [|s sel IH]; intros [|t cols] H;
    simpl in H; try discriminate; [repeat split|].
  destruct (IH cols) as [I1 [I2 [I3 I4]]]; [lia|].
  unfold initSel in *. simpl. rewrite I1, I2, I3, I4. repeat split.
Qed.

Lemma initSimple_ok (c : Z) (sel : list Select) (cols : list Z) :
  length sel = length cols ->
  initSimple c sel cols
  = Done (initSel c sel cols, zsum cols, zsum (map (capOf c) cols)).
Proof.
  revert cols. induction sel as [|s sel IH]; intros [|t cols] H;
    simpl in H; try discriminate; [reflexivity|].
  cbn [initSimple]. rewrite IH by lia. cbn [bind]. unfold initSel.
  simpl map. rewrite !zsum_cons. unfold capOf.
  destruct (c <=? t); f_equal; f_equal; try ring; f_equal; ring.
Qed.

Lemma capOf_nonneg (c t : Z) : 0 < c -> 0 <= t -> 0 <= capOf c t.
Proof.
  intros Hc Ht. unfold capOf. destruct (c <=? t); [|lia].
  apply Z.quot_pos; lia.
Qed.

Lemma solveRowSimple_first (d : DiophantineSystem) (k : nat) (r : Row) :
  nth_error (rows d) k = Some r ->
  length (selection r) = length (columns d) ->
  0 < coeff r -> 0 <= minSize r ->
  Forall (fun t => 0 <= t) (columns d) ->
  let caps := map (capOf (coeff r)) (columns d) in
  let sel0 := initSel (coeff r) (selection r) (columns d) in
  let lo := simpleLo r (columns d) in
  let hi := simpleHi r (columns d) in
  solveRowSimple d k true
  = if negb (viable d k) then Done (false, d)
    else
      if hi <? lo
      then Done (false, putRow d k (set_selection r sel0) (columns d))
      else
        Done (true,
              putRow d k
                (set_sizes (set_selection r (setExtras sel0 (greedy lo caps)))
                   lo hi)
                (takeFrom (coeff r) (columns d) (greedy lo caps))).
Proof.
  intros Hn Hl Hc Hm Hcols caps sel0 lo hi. unfold solveRowSimple.
  rewrite (getAt_nth _ _ _ Hn). cbn [bind].
  destruct (negb (viable d k)); [reflexivity|].
  rewrite initSimple_ok by assumption. cbn [bind].
  fold sel0. fold caps.
  change (Z.max (minSize r)
            (ceilingDivision (zsum (columns d) - maxLeave r) (coeff r)))
    with lo.
  change (Z.min (Z.min (zsum caps) (maxSize r))
            (floorDivision (zsum (columns d) - minLeave r) (coeff r)))
    with hi.
  destruct (hi <? lo) eqn:E; [reflexivity|]. apply Z.ltb_ge in E.
  destruct (initSel_fields (coeff r) (selection r) (columns d) Hl)
    as [F1 [F2 [F3 F4]]]. fold sel0 in F1, F2, F3, F4.
  rewrite multisetSelect_first.
  - cbn [bind selection set_sizes set_selection currentSize coeff].
    rewrite F1. reflexivity.
  - cbn [selection set_sizes set_selection]. assumption.
  - cbn [selection set_sizes set_selection].
    apply Forall_forall. intros s Hin. split.
    + assert (Hin' : In (extra s) (repeat 0 (length (columns d)))).
      { rewrite <- F3. apply in_map. assumption. }
      apply repeat_spec in Hin'. assumption.
    + assert (Hin' : In (maxExtra s) caps).
      { unfold caps. rewrite <- F1. apply in_map. assumption. }
      unfold caps in Hin'. apply in_map_iff in Hin'.
      destruct Hin' as [t [<- Ht]]. rewrite Forall_forall in Hcols.
      apply capOf_nonneg; auto.
  - cbn [selection set_sizes set_selection currentSize].
    rewrite F1. unfold hi, simpleHi in E. lia.
Qed.

(* ----------------------------------------------------------------- *)
(** ** The selections of a row activation in the simple case *)

Lemma putRow_rows (d : DiophantineSystem) (k : nat) (r : Row)
    (cols : list Z) :
  rows (putRow d k r cols) = upd k r (rows d).
Proof. reflexivity. Qed.

Lemma putRow_columns (d : DiophantineSystem) (k : nat) (r : Row)
    (cols : list Z) :
  columns (putRow d k r cols) = cols.
Proof. reflexivity. Qed.

Lemma nth_error_lt {A : Type} (l : list A) (i : nat) (x : A) :
  nth_error l i = Some x -> (i < length l)%nat.
Proof. intros H. apply nth_error_Some. congruence. Qed.

Lemma rowExtras_putRow (d : DiophantineSystem) (k : nat) (r : Row)
    (cols : list Z) :
  (k < length (rows d))%nat ->
  rowExtras (putRow d k r cols) k = map extra (selection r).
Proof.
  intros H. unfold rowExtras. rewrite putRow_rows.
  rewrite (nth_error_nth _ _ _ (nth_error_upd_eq k r (rows d) H)).
  reflexivity.
Qed.

Lemma advances_enumerate (n : nat) :
  forall (d : DiophantineSystem) (k : nat) (r : Row) (caps : list Z)
         (hi : Z),
    nth_error (rows d) k = Some r ->
    simpleRowOK r (columns d) ->
    map maxExtra (selection r) = caps ->
    currentMaxSize r = hi ->
    selMeasure caps hi (map extra (selection r)) < Z.of_nat n ->
    exists L,
      advances n d k = Done L
      /\ StronglySorted selLt (map extra (selection r) :: L)
      /\ Forall (fun v => within caps v
                          /\ zsum (map extra (selection r)) <= zsum v <= hi)
           L
      /\ forall zs, within caps zs -> zsum zs <= hi ->
           selLt (map extra (selection r)) zs -> In zs L.
Proof.
  induction n as [|n IH]; intros d k r caps hi Hn Hok Hcaps Hhi Hm.
  - exfalso. destruct Hok as [Hl [Hw [Hs [Hcs Hcm]]]].
    rewrite Hcaps in Hw.
    pose proof (selMeasure_nonneg caps _ hi Hw). lia.
  - cbn [advances]. rewrite (solveRowSimple_advance d k r Hn Hok).
    destruct Hok as [Hl [Hw [Hs [Hcs Hcm]]]].
    rewrite Hcaps, Hhi in *.
    set (xs := map extra (selection r)) in *.
    assert (Hxs : zsum xs <= hi) by lia.
    destruct (advanceSel caps hi xs) as [ys|] eqn:Ea; cbn [bind].
    + destruct (advanceSel_some _ _ _ _ Hw Hxs Hcm Ea)
        as [Hy [Hys [Hlt Hleast]]].
      pose proof (within_length _ _ Hy) as Hly.
      assert (Hlsel : length ys = length (selection r)).
      { rewrite <- Hly, <- Hcaps. apply length_map. }
      destruct (setExtras_fields (selection r) ys Hlsel) as [F1 [F2 F3]].
      set (r' := set_sizes (set_selection r (setExtras (selection r) ys))
                   (zsum ys) hi).
      set (d' := putRow d k r'
                   (takeFrom (coeff r)
                      (giveBack (coeff r) (selection r) (columns d)) ys)).
      pose proof (nth_error_lt _ _ _ Hn) as Hk.
      assert (Hn' : nth_error (rows d') k = Some r').
      { unfold d'. rewrite putRow_rows. apply nth_error_upd_eq. exact Hk. }
      assert (Hok' : simpleRowOK r' (columns d')).
      { unfold simpleRowOK, d', r'.
        cbn [selection set_sizes set_selection currentSize currentMaxSize].
        rewrite putRow_columns, F1, F3, Hcaps.
        split; [|repeat split; try assumption; lia].
        rewrite setExtras_length, takeFrom_length;
          rewrite ?giveBack_length; lia. }
      destruct (IH d' k r' caps hi Hn' Hok') as [L [HL [Hsort [Hall Hin]]]].
      * unfold r'. cbn [selection set_sizes set_selection].
        rewrite F1. exact Hcaps.
      * reflexivity.
      * unfold r'. cbn [selection set_sizes set_selection]. rewrite F3.
        assert (Hyh : zsum ys <= hi) by lia.
        pose proof (selLt_measure caps xs ys hi Hw Hy Hyh Hlt). lia.
      * assert (Hex : map extra (selection r') = ys).
        { unfold r'. cbn [selection set_sizes set_selection]. exact F3. }
        rewrite Hex in *.
        exists (ys :: L). rewrite HL. cbn [bind].
        assert (Hre : rowExtras d' k = ys).
        { unfold d'. rewrite rowExtras_putRow by exact Hk. exact Hex. }
        rewrite Hre. split; [reflexivity|].
        pose proof (StronglySorted_inv Hsort) as [_ Hfa].
        split; [|split].
        -- constructor; [assumption|]. constructor; [assumption|].
           eapply Forall_impl; [|exact Hfa].
           intros a Ha. eapply selLt_trans; eassumption.
        -- constructor; [split; [assumption | lia]|].
           eapply Forall_impl; [|exact Hall]. simpl. intros a [A1 A2].
           split; [assumption | lia].
        -- intros zs Hz Hzs Hzl.
           destruct (Hleast zs Hz Hzs Hzl) as [->|Hgt];
             [left; reflexivity | right; auto].
    + exists []. split; [reflexivity|].
      split; [constructor; constructor|]. split; [constructor|].
      intros zs Hz Hzs Hzl. exfalso.
      apply (advanceSel_none _ _ _ Hw Hxs Ea zs Hz Hzs Hzl).
Qed.

Lemma StronglySorted_selLt_NoDup (L : list (list Z)) :
  StronglySorted selLt L -> NoDup L.
Proof.
  induction 1 as [|x L Hs IH Hfa]; constructor; [|assumption].
  intros Hin. rewrite Forall_forall in Hfa.
  exact (selLt_irrefl x (Hfa x Hin)).
Qed.

(** C6 (amended): after a successful first visit of [solveRowSimple] at
    a row, with the capacities and the size window it has fixed, the
    repeated advance calls end, and the selections produced, the one of
    the first visit included, are exactly the vectors within the
    capacities whose sum lies in the window, each once, in ascending
    order of size and, within a size, in ascending lexicographic order
    of the reversed vector [(extra_{m-1}, ..., extra_0)]. *)
Theorem C6_simple_enumeration (d d1 : DiophantineSystem) (k : nat)
    (r : Row) :
  nth_error (rows d) k = Some r ->
  length (selection r) = length (columns d) ->
  0 < coeff r -> 0 <= minSize r ->
  Forall (fun t => 0 <= t) (columns d) ->
  solveRowSimple d k true = Done (true, d1) ->
  let r1 := nth k (rows d1) emptyRow in
  let caps := map maxExtra (selection r1) in
  let lo := currentSize r1 in
  let hi := currentMaxSize r1 in
  caps = map (capOf (coeff r)) (columns d)
  /\ lo = simpleLo r (columns d) /\ hi = simpleHi r (columns d)
  /\ exists n L,
       advances n d1 k = Done L
       /\ StronglySorted selLt (rowExtras d1 k :: L)
       /\ NoDup (rowExtras d1 k :: L)
       /\ forall v, In v (rowExtras d1 k :: L) <-> validSel caps lo hi v.
Proof.
  intros Hn Hl Hc Hm Hcols Hfirst r1 caps lo hi.
  rewrite (solveRowSimple_first d k r Hn Hl Hc Hm Hcols) in Hfirst.
  destruct (negb (viable d k)); [discriminate|].
  destruct (simpleHi r (columns d) <? simpleLo r (columns d)) eqn:E;
    [discriminate|].
  apply Z.ltb_ge in E. injection Hfirst as Hd1.
  set (caps0 := map (capOf (coeff r)) (columns d)) in *.
  set (lo0 := simpleLo r (columns d)) in *.
  set (hi0 := simpleHi r (columns d)) in *.
  set (sel0 := initSel (coeff r) (selection r) (columns d)) in *.
  set (r' := set_sizes (set_selection r (setExtras sel0 (greedy lo0 caps0)))
               lo0 hi0) in *.
  pose proof (nth_error_lt _ _ _ Hn) as Hk.
  assert (Hn1 : nth_error (rows d1) k = Some r').
  { rewrite <- Hd1, putRow_rows. apply nth_error_upd_eq. exact Hk. }
  assert (Hr1 : r1 = r').
  { unfold r1. apply nth_error_nth. exact Hn1. }
  destruct (initSel_fields (coeff r) (selection r) (columns d) Hl)
    as [F1 [F2 [F3 F4]]]. fold sel0 caps0 in F1, F2, F3, F4.
  assert (Hcaps0 : Forall (fun c => 0 <= c) caps0).
  { unfold caps0. apply Forall_map. eapply Forall_impl; [|exact Hcols].
    intros t Ht. apply capOf_nonneg; assumption. }
  assert (Hlo0 : 0 <= lo0 <= zsum caps0).
  { unfold lo0, simpleLo. unfold hi0, simpleHi in E. fold caps0 in E.
    unfold lo0, simpleLo in E. lia. }
  destruct (greedy_valid caps0 lo0 Hcaps0 Hlo0) as [G1 G2].
  assert (Hlg : length (greedy lo0 caps0) = length sel0).
  { rewrite <- (within_length _ _ G1). unfold caps0.
    rewrite length_map. symmetry. exact F4. }
  destruct (setExtras_fields sel0 _ Hlg) as [S1 [S2 S3]].
  assert (Hcaps : caps = caps0).
  { unfold caps. rewrite Hr1. unfold r'.
    cbn [selection set_sizes set_selection]. rewrite S1. exact F1. }
  assert (Hlo : lo = lo0) by (unfold lo; rewrite Hr1; reflexivity).
  assert (Hhi : hi = hi0) by (unfold hi; rewrite Hr1; reflexivity).
  assert (Hex : map extra (selection r') = greedy lo0 caps0).
  { unfold r'. cbn [selection set_sizes set_selection]. exact S3. }
  split; [exact Hcaps|]. split; [exact Hlo|]. split; [exact Hhi|].
  assert (Hok : simpleRowOK r' (columns d1)).
  { unfold simpleRowOK. rewrite Hex. unfold r'.
    cbn [selection set_sizes set_selection currentSize currentMaxSize].
    rewrite S1, F1, <- Hd1, putRow_columns.
    split; [rewrite setExtras_length, takeFrom_length; lia|].
    split; [exact G1|]. split; [exact G2|].
    split; [exact E|]. unfold hi0, simpleHi. fold caps0. lia. }
  set (m := selMeasure caps0 hi0 (map extra (selection r'))).
  destruct (advances_enumerate (S (Z.to_nat m)) d1 k r' caps0 hi0 Hn1 Hok)
    as [L [HL [Hsort [Hall Hin]]]].
  - unfold r'. cbn [selection set_sizes set_selection]. rewrite S1. exact F1.
  - reflexivity.
  - fold m. lia.
  - exists (S (Z.to_nat m)), L. split; [exact HL|].
    assert (Hre : rowExtras d1 k = greedy lo0 caps0).
    { unfold rowExtras. fold r1. rewrite Hr1. exact Hex. }
    rewrite Hre. rewrite Hex in *.
    split; [exact Hsort|].
    split; [apply StronglySorted_selLt_NoDup; exact Hsort|].
    intros v. rewrite Hcaps, Hlo, Hhi. unfold validSel. split.
    + intros [<-|Hv].
      * split; [exact G1 | lia].
      * rewrite Forall_forall in Hall. destruct (Hall v Hv) as [A1 A2].
        split; [assumption | lia].
    + intros [Hw Hs].
      destruct (Z.eq_dec (zsum v) lo0) as [Heq|Hne].
      * destruct (greedy_least _ _ Hw) as [H|H]; rewrite Heq in H.
        -- left. congruence.
        -- right. apply Hin; [assumption | lia|].
           right. split; [lia | assumption].
      * right. apply Hin; [assumption | lia|]. left. lia.
Qed.

Lemma C6_simple_enumeration_witness :
  exists d1,
    solveRowSimple unitExample 0 true = Done (true, d1)
    /\ let r1 := nth 0 (rows d1) emptyRow in
       let caps := map maxExtra (selection r1) in
       let lo := currentSize r1 in
       let hi := currentMaxSize r1 in
       exists n L,
         advances n d1 0 = Done L
         /\ StronglySorted selLt (rowExtras d1 0 :: L)
         /\ NoDup (rowExtras d1 0 :: L)
         /\ forall v, In v (rowExtras d1 0 :: L) <-> validSel caps lo hi v.
Proof.
  eexists. split; [vm_compute; reflexivity|].
  refine (proj2 (proj2 (proj2
    (C6_simple_enumeration unitExample _ 0
       (nth 0 (rows unitExample) emptyRow) _ _ _ _ _ _)))).
  - reflexivity.
  - reflexivity.
  - reflexivity.
  - vm_compute. discriminate.
  - repeat constructor; vm_compute; discriminate.
  - vm_compute. reflexivity.
Defined.

(** C6 as stated fails: in the simple system of two rows (1,1,1) and two
    columns 1, the activation of row 0 produces (1,0) and then (0,1),
    which is not ascending in the lexicographic order of
    [(extra_0, extra_1)]. *)
Lemma C6_counterexample :
  exists d1 L,
    solveRowSimple orderExample 0 true = Done (true, d1)
    /\ advances 3 d1 0 = Done L
    /\ rowExtras d1 0 :: L = [[1; 0]; [0; 1]]
    /\ ~ StronglySorted lexLt (rowExtras d1 0 :: L).
Proof.
  eexists. eexists. split; [vm_compute; reflexivity|].
  split; [vm_compute; reflexivity|]. split; [reflexivity|].
  intros H. apply StronglySorted_inv in H. destruct H as [_ H].
  inversion H as [|? ? Hlt _]; subst. simpl in Hlt. lia.
Qed.

(* ----------------------------------------------------------------- *)
(** ** The loops of [multisetComplex] *)

Section ComplexLoops.

Variables mcv c : Z.
Variable t2 : list Soluble.
Hypothesis Hmcv : 0 <= mcv.
Hypothesis Hc : 0 < c.
Hypothesis Ht2 : length t2 = S (Z.to_nat mcv).

Lemma getSol_in_range (x : Z) :
  0 <= x <= mcv -> exists e, getSol t2 x = Some e.
Proof.
  intros Hx. unfold getSol.
  destruct (x <? 0) eqn:E; [apply Z.ltb_lt in E; lia|].
  destruct (nth_error t2 (Z.to_nat x)) as [e|] eqn:En; [eauto|].
  apply nth_error_None in En. lia.
Qed.

Lemma readSol_in_range (x : Z) :
  0 <= x <= mcv -> exists e, readSol t2 x = Done e /\ getSol t2 x = Some e.
Proof.
  intros Hx. destruct (getSol_in_range x Hx) as [e He].
  exists e. unfold readSol. rewrite He. auto.
Qed.

Lemma weakCol_change (s s' : Select) (b b' : Z) :
  weakCol mcv c t2 s b ->
  base s' = base s -> maxExtra s' = maxExtra s ->
  b' + extra s' * c = b + extra s * c ->
  0 <= extra s' <= maxExtra s ->
  weakCol mcv c t2 s' b'.
Proof.
  unfold weakCol. intros [H1 [H2 [H3 [H4 H5]]]] Hb Hm He Hx.
  rewrite Hm, He. repeat split; try assumption; lia.
Qed.

(** The probes of an incremental lift stay below the maximal extra and
    inside the table, and a lift is found at the maximal extra at the
    latest. *)
Lemma probeLift_ok (s : Select) (b : Z) (n : nat) (e0 : Z) :
  weakCol mcv c t2 s b ->
  1 <= e0 -> extra s + e0 <= maxExtra s ->
  exists res,
    probeLift n t2 c (extra s) (maxExtra s) e0 (b - (e0 - 1) * c)
    = Done res
    /\ match res with
       | Some (e, c') =>
           e0 <= e < e0 + Z.of_nat n /\ extra s + e <= maxExtra s
           /\ c' = b - e * c /\ 0 <= c' <= mcv /\ sol2 t2 c'
       | None => True
       end.
Proof.
  intros [H1 [H2 [H3 [H4 H5]]]]. revert e0.
  induction n as [|n IH]; intros e0 He0 Hle.
  - exists None. split; [reflexivity | exact I].
  - cbn [probeLift].
    destruct (maxExtra s <? extra s + e0) eqn:E;
      [apply Z.ltb_lt in E; lia|].
    replace (b - (e0 - 1) * c - c) with (b - e0 * c) by ring.
    assert (Hr : 0 <= b - e0 * c <= mcv) by nia.
    destruct (readSol_in_range _ Hr) as [x [Hx Hg]].
    rewrite Hx. cbn [bind].
    destruct (min x =? INSOLUBLE) eqn:Em; cbn [negb].
    + apply Z.eqb_eq in Em.
      assert (Hne : extra s + e0 <> maxExtra s).
      { intros Heq. destruct H4 as [y [Hy Hym]].
        replace (b + extra s * c - maxExtra s * c) with (b - e0 * c)
          in Hy by (rewrite <- Heq; ring).
        congruence. }
      destruct (IH (e0 + 1)) as [res [Hres Hpost]]; [lia | lia|].
      replace (e0 + 1 - 1) with e0 in Hres by ring.
      exists res. split; [exact Hres|].
      destruct res as [[e c']|]; [|exact I].
      destruct Hpost as [P1 P2]. split; [lia | exact P2].
    + apply Z.eqb_neq in Em. exists (Some (e0, b - e0 * c)).
      split; [reflexivity|]. split; [lia|]. split; [lia|].
      split; [reflexivity|]. split; [lia|]. exists x. auto.
Qed.

Lemma giveBack_cons (s : Select) (sel : list Select) (b : Z)
    (bag : list Z) :
  giveBack c (s :: sel) (b :: bag)
  = (b + extra s * c) :: giveBack c sel bag.
Proof. reflexivity. Qed.

Lemma stuckOK_good (sel : list Select) (bag : list Z) :
  Forall (sol2 t2) bag -> stuckOK t2 sel bag.
Proof.
  intros H. destruct sel as [|s sel]; [exact I|].
  destruct bag as [|b bag]; [exact I|].
  left. inversion H; assumption.
Qed.

Lemma complexBackward_ok (sel : list Select) (bag : list Z) :
  Forall2 (weakCol mcv c t2) sel bag ->
  forall u, 0 <= u ->
  exists found u' sel' bag',
    complexBackward c t2 u sel bag = Done (found, u', sel', bag')
    /\ Forall2 (weakCol mcv c t2) sel' bag'
    /\ map base sel' = map base sel
    /\ map maxExtra sel' = map maxExtra sel
    /\ giveBack c sel' bag' = giveBack c sel bag
    /\ zsum (map extra sel') + u' = zsum (map extra sel) + u
    /\ 0 <= u'
    /\ (found = false -> Forall (fun s => extra s = 0) sel')
    /\ (found = true ->
        forall w, w <= u' - u ->
          fillsZeros w (map maxExtra sel') (map extra sel'))
    /\ (stuckOK t2 sel bag -> Forall (sol2 t2) bag').
Proof.
  induction 1 as [|s b sel bag Hw Hall IH]; intros u Hu.
  - exists false, u, [], []. cbn. repeat split; auto; try discriminate.
  - cbn [complexBackward].
    pose proof Hw as [W1 [W2 [W3 [W4 W5]]]].
    destruct (maxExtra s <? extra s) eqn:E;
      [apply Z.ltb_lt in E; lia|].
    assert (Hprobe :
      exists lifted,
        (if (0 <? u) && (extra s <? maxExtra s)
         then probeLift (Z.to_nat u) t2 c (extra s) (maxExtra s) 1 b
         else Done None) = Done lifted
        /\ match lifted with
           | Some (e, c') =>
               1 <= e <= u /\ extra s + e <= maxExtra s
               /\ c' = b - e * c /\ sol2 t2 c'
               /\ extra s < maxExtra s
           | None => True
           end).
    { destruct ((0 <? u) && (extra s <? maxExtra s)) eqn:Ec.
      - apply andb_true_iff in Ec. destruct Ec as [E1 E2].
        apply Z.ltb_lt in E1. apply Z.ltb_lt in E2.
        destruct (probeLift_ok s b (Z.to_nat u) 1 Hw) as [res [Hr Hp]];
          [lia | lia|].
        replace (b - (1 - 1) * c) with b in Hr by ring.
        exists res. split; [exact Hr|].
        destruct res as [[e c']|]; [|exact I].
        destruct Hp as [P1 [P2 [P3 [P4 P5]]]].
        repeat split; try assumption; lia.
      - exists None. split; [reflexivity | exact I]. }
    destruct Hprobe as [lifted [Hl Hpost]]. rewrite Hl. cbn [bind].
    destruct lifted as [[e c']|].
    + destruct Hpost as [P1 [P2 [P3 [P4 P5]]]].
      exists true, (u - e), (set_extra s (extra s + e) :: sel), (c' :: bag).
      split; [reflexivity|].
      split.
      { constructor; [|assumption].
        apply (weakCol_change s _ b _ Hw); cbn; try reflexivity;
          [subst c'; ring | lia]. }
      split; [reflexivity|]. split; [reflexivity|].
      split; [rewrite !giveBack_cons; f_equal; cbn; subst c'; ring|].
      split; [cbn [map extra set_extra]; rewrite !zsum_cons; lia|].
      split; [lia|]. split; [discriminate|].
      split.
      { intros _ w Hle. apply fillsZeros_done. lia. }
      intros Hst. constructor; [assumption|].
      cbn [stuckOK] in Hst. destruct Hst as [Hst|[Hfull _]];
        [assumption | lia].
    + set (s1 := if 0 <? extra s then set_extra s 0 else s).
      set (u1 := if 0 <? extra s then u + extra s else u).
      set (b1 := if 0 <? extra s then b + extra s * c else b).
      assert (Hs1 : extra s1 = 0 /\ base s1 = base s
                    /\ maxExtra s1 = maxExtra s).
      { unfold s1. destruct (0 <? extra s) eqn:E0; cbn; [auto|].
        apply Z.ltb_ge in E0. repeat split. lia. }
      assert (Hu1 : u1 = u + extra s).
      { unfold u1. destruct (0 <? extra s) eqn:E0; [reflexivity|].
        apply Z.ltb_ge in E0. lia. }
      assert (Hb1 : b1 = b + extra s * c).
      { unfold b1. destruct (0 <? extra s) eqn:E0; [reflexivity|].
        apply Z.ltb_ge in E0. assert (extra s = 0) by lia. nia. }
      destruct Hs1 as [S1 [S2 S3]].
      destruct (IH u1) as [found [u' [sel' [bag' [Hrun [I1 [I2 [I3
                          [I4 [I5 [I6 [I7 [I8 I9]]]]]]]]]]]]]; [lia|].
      rewrite Hrun. cbn [bind].
      exists found, u', (s1 :: sel'), (b1 :: bag').
      split; [reflexivity|].
      split.
      { constructor; [|assumption].
        apply (weakCol_change s _ b _ Hw); try assumption;
          [rewrite S1, Hb1; ring | rewrite S1; lia]. }
      split; [cbn [map]; congruence|].
      split; [cbn [map]; congruence|].
      split; [rewrite !giveBack_cons, I4, S1, Hb1; f_equal; ring|].
      split; [cbn [map]; rewrite !zsum_cons, S1; lia|].
      split; [assumption|].
      split; [intros Hf; constructor; [assumption | auto]|].
      split.
      { intros Hf w Hle. cbn [map fillsZeros]. right.
        split; [assumption|].
        destruct (Z_le_dec w (maxExtra s1)) as [Hwc|Hwc].
        - apply fillsZeros_done. lia.
        - apply (I8 Hf). lia. }
      intros Hst. constructor.
      * rewrite Hb1. exact W5.
      * apply I9. cbn [stuckOK] in Hst.
        destruct Hst as [Hst|[_ Hst]]; [apply stuckOK_good|]; assumption.
Qed.

Lemma complexForward_ok (sel : list Select) (bag : list Z) :
  Forall2 (weakCol mcv c t2) sel bag ->
  Forall (sol2 t2) bag ->
  forall u, 0 <= u ->
  fillsZeros u (map maxExtra sel) (map extra sel) ->
  exists ok sel' bag',
    complexForward c t2 u sel bag = Done (ok, sel', bag')
    /\ Forall2 (weakCol mcv c t2) sel' bag'
    /\ map base sel' = map base sel
    /\ map maxExtra sel' = map maxExtra sel
    /\ giveBack c sel' bag' = giveBack c sel bag
    /\ zsum (map extra sel') = zsum (map extra sel) + u
    /\ (ok = true -> Forall (sol2 t2) bag')
    /\ (ok = false -> stuckOK t2 sel' bag').
Proof.
  induction 1 as [|s b sel bag Hw Hall IH]; intros Hgood u Hu Hfz.
  - cbn [complexForward]. cbn in Hfz.
    destruct (0 <? u) eqn:E.
    + apply Z.ltb_lt in E. destruct Hfz as [Hfz|[]]. lia.
    + apply Z.ltb_ge in E. exists true, [], [].
      cbn. repeat split; auto; lia.
  - inversion Hgood as [|? ? Hgb Hgt]; subst.
    cbn [complexForward]. destruct (0 <? u) eqn:E.
    + apply Z.ltb_lt in E. cbn [map fillsZeros] in Hfz.
      destruct Hfz as [Hfz|[Hx Hfz]]; [lia|].
      pose proof Hw as [W1 [W2 [W3 [W4 W5]]]].
      rewrite Hx in W2, W3, W4, W5.
      replace (b + 0 * c) with b in * by ring.
      destruct (maxExtra s <=? u) eqn:Et.
      * apply Z.leb_le in Et.
        replace (u - Z.min u (maxExtra s)) with (u - maxExtra s)
          in Hfz by lia.
        set (s1 := if 0 <? maxExtra s
                   then set_extra s (maxExtra s) else s).
        set (u1 := if 0 <? maxExtra s then u - maxExtra s else u).
        set (b1 := if 0 <? maxExtra s then b - maxExtra s * c else b).
        assert (Hs1 : extra s1 = maxExtra s /\ base s1 = base s
                      /\ maxExtra s1 = maxExtra s).
        { unfold s1. destruct (0 <? maxExtra s) eqn:E0; cbn; [auto|].
          apply Z.ltb_ge in E0. repeat split. lia. }
        assert (Hu1 : u1 = u - maxExtra s).
        { unfold u1. destruct (0 <? maxExtra s) eqn:E0; [reflexivity|].
          apply Z.ltb_ge in E0. lia. }
        assert (Hb1 : b1 = b - maxExtra s * c).
        { unfold b1. destruct (0 <? maxExtra s) eqn:E0; [reflexivity|].
          apply Z.ltb_ge in E0. assert (maxExtra s = 0) by lia. nia. }
        destruct Hs1 as [S1 [S2 S3]].
        destruct (IH Hgt u1) as [ok [sel' [bag' [Hrun [I1 [I2 [I3
                                [I4 [I5 [I6 I7]]]]]]]]]];
          [lia | rewrite Hu1; exact Hfz|].
        rewrite Hrun. cbn [bind].
        exists ok, (s1 :: sel'), (b1 :: bag').
        split; [reflexivity|].
        split.
        { constructor; [|assumption].
          apply (weakCol_change s _ b _ Hw); try assumption;
            [rewrite S1, Hb1, Hx; ring | rewrite S1; lia]. }
        split; [cbn [map]; congruence|].
        split; [cbn [map]; congruence|].
        split; [rewrite !giveBack_cons, I4, S1, Hb1, Hx; f_equal; ring|].
        split; [cbn [map]; rewrite !zsum_cons, S1, I5, Hx; lia|].
        split.
        { intros Hok. constructor; [|auto]. rewrite Hb1. exact W4. }
        intros Hok. cbn [stuckOK]. right.
        split; [congruence | auto].
      * apply Z.leb_gt in Et.
        assert (Hr : 0 <= b - u * c <= mcv) by nia.
        destruct (readSol_in_range _ Hr) as [x [Hrx Hgx]].
        rewrite Hrx. cbn [bind].
        exists (negb (min x =? INSOLUBLE)), (set_extra s u :: sel),
               ((b - u * c) :: bag).
        split; [reflexivity|].
        split.
        { constructor; [|assumption].
          apply (weakCol_change s _ b _ Hw); cbn; try reflexivity;
            [rewrite Hx; ring | lia]. }
        split; [reflexivity|]. split; [reflexivity|].
        split; [rewrite !giveBack_cons; f_equal; cbn; rewrite Hx; ring|].
        split; [cbn [map extra set_extra]; rewrite !zsum_cons, Hx; lia|].
        split.
        { intros Hok. apply negb_true_iff in Hok. apply Z.eqb_neq in Hok.
          constructor; [exists x; auto | assumption]. }
        intros _. cbn [stuckOK]. left. assumption.
    + apply Z.ltb_ge in E. exists true, (s :: sel), (b :: bag).
      split; [reflexivity|]. split; [constructor; assumption|].
      split; [reflexivity|]. split; [reflexivity|].
      split; [reflexivity|]. split; [lia|].
      split; [intros _; assumption | discriminate].
Qed.

End ComplexLoops.

Section ComplexSearch.

Variables mcv c : Z.
Variable t2 : list Soluble.
Hypothesis Hmcv : 0 <= mcv.
Hypothesis Hc : 0 < c.
Hypothesis Ht2 : length t2 = S (Z.to_nat mcv).

Lemma complexSearch_ok (fuel : nat) :
  forall (sel : list Select) (bag : list Z) (u : Z),
    Forall2 (weakCol mcv c t2) sel bag ->
    Forall (sol2 t2) bag ->
    0 <= u ->
    fillsZeros u (map maxExtra sel) (map extra sel) ->
    complexSearch fuel c t2 u sel bag = OutOfFuel
    \/ exists ok sel' bag',
         complexSearch fuel c t2 u sel bag = Done (ok, sel', bag')
         /\ Forall2 (weakCol mcv c t2) sel' bag'
         /\ map base sel' = map base sel
         /\ map maxExtra sel' = map maxExtra sel
         /\ giveBack c sel' bag' = giveBack c sel bag
         /\ Forall (sol2 t2) bag'
         /\ (ok = true -> zsum (map extra sel') = zsum (map extra sel) + u)
         /\ (ok = false -> Forall (fun s => extra s = 0) sel').
Proof.
  induction fuel as [|fuel IH]; intros sel bag u Hw Hg Hu Hfz;
    [left; reflexivity|].
  cbn [complexSearch].
  destruct (complexForward_ok mcv c t2 Hc Ht2 sel bag Hw Hg u Hu Hfz)
    as [ok [sel1 [bag1 [Hrun [F1 [F2 [F3 [F4 [F5 [F6 F7]]]]]]]]]].
  rewrite Hrun. cbn [bind]. destruct ok.
  - right. exists true, sel1, bag1. split; [reflexivity|].
    repeat split; auto. discriminate.
  - destruct (complexBackward_ok mcv c t2 Hc Ht2 sel1 bag1 F1 0
                (Z.le_refl 0))
      as [found [u2 [sel2 [bag2 [Hrun2 [B1 [B2 [B3 [B4 [B5 [B6 [B7
         [B8 B9]]]]]]]]]]]]].
    rewrite Hrun2. cbn [bind]. specialize (B9 (F7 eq_refl)).
    destruct found.
    + assert (Hfz2 : fillsZeros u2 (map maxExtra sel2) (map extra sel2))
        by (apply (B8 eq_refl); lia).
      destruct (IH sel2 bag2 u2 B1 B9 B6 Hfz2)
        as [Hout | [ok [sel3 [bag3 [Hrun3 [S1 [S2 [S3 [S4 [S5 [S6 S7]]]]]]]]]]].
      * left. exact Hout.
      * right. exists ok, sel3, bag3. split; [exact Hrun3|].
        split; [assumption|]. split; [congruence|]. split; [congruence|].
        split; [congruence|]. split; [assumption|].
        split; [intros Hok; rewrite (S6 Hok); lia | assumption].
    + right. exists false, sel2, bag2. split; [reflexivity|].
      split; [assumption|]. split; [congruence|]. split; [congruence|].
      split; [congruence|]. split; [assumption|].
      split; [discriminate | auto].
Qed.

Lemma zero_extras_repeat (sel : list Select) :
  Forall (fun s => extra s = 0) sel ->
  map extra sel = repeat 0 (length (map maxExtra sel)).
Proof.
  induction 1 as [|s sel Hs _ IH]; [reflexivity|].
  simpl. rewrite Hs, IH. reflexivity.
Qed.

Lemma weakCol_within (sel : list Select) (bag : list Z) :
  Forall2 (weakCol mcv c t2) sel bag ->
  within (map maxExtra sel) (map extra sel).
Proof.
  induction 1 as [|s b sel bag Hw _ IH]; [constructor|].
  constructor; [|assumption]. destruct Hw as [H _]. exact H.
Qed.

Lemma weakCol_length (sel : list Select) (bag : list Z) :
  Forall2 (weakCol mcv c t2) sel bag -> length sel = length bag.
Proof. apply Forall2_length. Qed.

Lemma multisetComplex_ok (fuel : nat) (r : Row) (bag : list Z)
    (findFirst : bool) :
  coeff r = c ->
  Forall2 (weakCol mcv c t2) (selection r) bag ->
  Forall (sol2 t2) bag ->
  zsum (map extra (selection r)) = (if findFirst then 0 else currentSize r) ->
  (findFirst = true ->
   0 <= currentSize r <= zsum (map maxExtra (selection r))) ->
  multisetComplex fuel r bag t2 findFirst = OutOfFuel
  \/ exists ok sel' bag',
       multisetComplex fuel r bag t2 findFirst
       = Done (ok, set_selection r sel', bag')
       /\ Forall2 (weakCol mcv c t2) sel' bag'
       /\ map base sel' = map base (selection r)
       /\ map maxExtra sel' = map maxExtra (selection r)
       /\ giveBack c sel' bag' = giveBack c (selection r) bag
       /\ Forall (sol2 t2) bag'
       /\ (ok = true -> zsum (map extra sel') = currentSize r)
       /\ (ok = false -> Forall (fun s => extra s = 0) sel').
Proof.
  intros Hrc Hw Hg Hs Hff. unfold multisetComplex. rewrite Hrc.
  pose proof (weakCol_within _ _ Hw) as Hwi.
  pose proof (within_sum _ _ Hwi) as Hsum.
  assert (Hzero : zsum (map extra (selection r)) <= 0 ->
                  Forall (fun s => extra s = 0) (selection r)).
  { intros Hz. pose proof (zero_sum_zeros _ _ Hwi Hz) as Hrep.
    apply Forall_forall. intros s Hin.
    assert (Hin' : In (extra s) (map extra (selection r)))
      by (apply in_map; assumption).
    rewrite Hrep in Hin'. apply repeat_spec in Hin'. assumption. }
  destruct findFirst; cbn [negb].
  - destruct (Hff eq_refl) as [Hc0 Hc1].
    assert (Hfz : fillsZeros (currentSize r) (map maxExtra (selection r))
                    (map extra (selection r))).
    { rewrite (zero_extras_repeat _ (Hzero ltac:(lia))).
      apply fillsZeros_repeat; [|assumption].
      apply (within_caps_nonneg _ _ Hwi). }
    destruct (complexSearch_ok fuel (selection r) bag (currentSize r)
                Hw Hg Hc0 Hfz)
      as [Hout | [ok [sel' [bag' [Hrun [S1 [S2 [S3 [S4 [S5 [S6 S7]]]]]]]]]]].
    + left. rewrite Hout. reflexivity.
    + right. exists ok, sel', bag'. rewrite Hrun. cbn [bind].
      split; [reflexivity|]. repeat split; auto.
      intros Hok. rewrite (S6 Hok). lia.
  - destruct (0 <? currentSize r) eqn:E.
    + destruct (complexBackward_ok mcv c t2 Hc Ht2 _ _ Hw 0
                  (Z.le_refl 0))
        as [found [u2 [sel2 [bag2 [Hrun2 [B1 [B2 [B3 [B4 [B5 [B6 [B7
           [B8 B9]]]]]]]]]]]]].
      rewrite Hrun2. cbn [bind].
      specialize (B9 (stuckOK_good t2 _ _ Hg)).
      destruct found.
      * assert (Hfz2 : fillsZeros u2 (map maxExtra sel2) (map extra sel2))
          by (apply (B8 eq_refl); lia).
        destruct (complexSearch_ok fuel sel2 bag2 u2 B1 B9 B6 Hfz2)
          as [Hout | [ok [sel3 [bag3 [Hrun3 [S1 [S2 [S3 [S4 [S5
                     [S6 S7]]]]]]]]]]].
        -- left. rewrite Hout. reflexivity.
        -- right. exists ok, sel3, bag3. rewrite Hrun3. cbn [bind].
           split; [reflexivity|].
           split; [assumption|]. split; [congruence|].
           split; [congruence|]. split; [congruence|].
           split; [assumption|].
           split; [intros Hok; rewrite (S6 Hok); lia | assumption].
      * right. exists false, sel2, bag2. split; [reflexivity|].
        repeat split; auto. discriminate.
    + apply Z.ltb_ge in E. right. exists false, (selection r), bag.
      rewrite set_selection_id. split; [reflexivity|].
      repeat split; auto. intros _. apply Hzero. lia.
Qed.

End ComplexSearch.

(* ----------------------------------------------------------------- *)
(** ** [solveRowComplex] on a row *)

Lemma sol2_iff (t : list Soluble) (x : Z) :
  sol2 t x <-> min (solAt t x) <> INSOLUBLE.
Proof.
  unfold sol2, solAt. split.
  - intros [e [He Hm]]. rewrite He. exact Hm.
  - intros H. destruct (getSol t x) as [e|]; [eauto|].
    exfalso. apply H. reflexivity.
Qed.

Lemma sol2_range (t : list Soluble) (x : Z) :
  sol2 t x -> 0 <= x /\ (Z.to_nat x < length t)%nat.
Proof.
  intros [e [He _]]. unfold getSol in He.
  destruct (x <? 0) eqn:E; [discriminate|]. apply Z.ltb_ge in E.
  split; [assumption|]. apply nth_error_Some. congruence.
Qed.

Lemma rowFixed_refl (r : Row) : rowFixed r r.
Proof. unfold rowFixed. repeat split. Qed.

Lemma rowFixed_trans (R r r' : Row) :
  rowFixed R r -> rowFixed r r' -> rowFixed R r'.
Proof.
  unfold rowFixed. intros H1 H2.
  destruct H1 as [? [? [? [? [? [? [? [? ?]]]]]]]].
  destruct H2 as [? [? [? [? [? [? [? [? ?]]]]]]]].
  repeat split; congruence.
Qed.

Lemma rowFixed_set_selection (r : Row) (s : list Select) :
  rowFixed r (set_selection r s).
Proof. unfold rowFixed. repeat split. Qed.

Lemma rowFixed_set_sizes (r : Row) (a b : Z) :
  rowFixed r (set_sizes r a b).
Proof. unfold rowFixed. repeat split. Qed.

Lemma baseOn_baseOff (c : Z) (sel : list Select) (cols : list Z) :
  length sel = length cols ->
  baseOn c sel (baseOff c sel cols) = cols.
Proof.
  revert cols. induction sel as [|s sel IH]; intros [|t cols] H;
    simpl in H; try discriminate; [reflexivity|].
  unfold baseOn, baseOff in *. simpl. rewrite IH by lia. f_equal. ring.
Qed.

Lemma baseOn_cong (c : Z) (sel sel' : list Select) (bag : list Z) :
  map base sel' = map base sel -> baseOn c sel' bag = baseOn c sel bag.
Proof.
  revert sel' bag. induction sel as [|s sel IH]; intros [|s' sel'] bag H;
    simpl in H; try discriminate; [reflexivity|].
  destruct bag as [|b bag]; [reflexivity|].
  injection H as H1 H2. unfold baseOn in *. simpl.
  rewrite (IH sel' bag H2), H1. reflexivity.
Qed.

Lemma applyBase_ok (c : Z) (sel : list Select) (cols : list Z) :
  length sel = length cols ->
  Forall (fun s => 0 <= base s) sel ->
  Forall (fun x => 0 <= x) (baseOff c sel cols) ->
  applyBase c sel cols = Done (baseOff c sel cols).
Proof.
  revert cols. induction sel as [|s sel IH]; intros [|t cols] Hl Hb Hn;
    simpl in Hl; try discriminate; [reflexivity|].
  inversion Hb; subst. unfold baseOff in Hn. simpl in Hn.
  inversion Hn; subst. cbn [applyBase].
  rewrite IH by (try assumption; lia). cbn [bind].
  unfold baseOff. simpl.
  destruct (0 <? base s) eqn:E.
  - destruct (t - base s * c <? 0) eqn:E2;
      [apply Z.ltb_lt in E2; lia | reflexivity].
  - apply Z.ltb_ge in E. assert (base s = 0) by lia.
    repeat f_equal. nia.
Qed.

Lemma restoreBase_ok (mcv c : Z) (sel : list Select) (bag : list Z) :
  length sel = length bag ->
  Forall (fun s => 0 <= base s) sel ->
  Forall (fun v => v <= mcv) (baseOn c sel bag) ->
  restoreBase mcv c sel bag = Done (baseOn c sel bag).
Proof.
  revert bag. induction sel as [|s sel IH]; intros [|t bag] Hl Hb Hn;
    simpl in Hl; try discriminate; [reflexivity|].
  inversion Hb; subst. unfold baseOn in Hn. simpl in Hn.
  inversion Hn; subst. cbn [restoreBase].
  rewrite IH by (try assumption; lia). cbn [bind].
  unfold baseOn. simpl.
  destruct (0 <? base s) eqn:E.
  - destruct (mcv <? t + base s * c) eqn:E2;
      [apply Z.ltb_lt in E2; lia | reflexivity].
  - apply Z.ltb_ge in E. assert (base s = 0) by lia.
    repeat f_equal. nia.
Qed.

Lemma giveBack_cong (c : Z) (sel : list Select) (bag : list Z) :
  Forall (fun s => extra s = 0) sel -> length sel = length bag ->
  giveBack c sel bag = bag.
Proof. intros H Hl. apply giveBack_zeros; assumption. Qed.

Section ComplexSizes.

Variables mcv c : Z.
Variable t2 : list Soluble.
Hypothesis Hmcv : 0 <= mcv.
Hypothesis Hc : 0 < c.
Hypothesis Ht2 : length t2 = S (Z.to_nat mcv).

Lemma sizeLoop_ok (fuel : nat) (n : nat) :
  forall (r : Row) (bag : list Z),
    coeff r = c ->
    Forall2 (weakCol mcv c t2) (selection r) bag ->
    Forall (sol2 t2) bag ->
    Forall (fun s => extra s = 0) (selection r) ->
    0 <= currentSize r ->
    currentMaxSize r <= zsum (map maxExtra (selection r)) ->
    sizeLoop n fuel r t2 bag = OutOfFuel
    \/ exists ok r' bag',
         sizeLoop n fuel r t2 bag = Done (ok, r', bag')
         /\ rowFixed r r'
         /\ currentMaxSize r' = currentMaxSize r
         /\ Forall2 (weakCol mcv c t2) (selection r') bag'
         /\ map base (selection r') = map base (selection r)
         /\ map maxExtra (selection r') = map maxExtra (selection r)
         /\ giveBack c (selection r') bag' = giveBack c (selection r) bag
         /\ Forall (sol2 t2) bag'
         /\ (ok = true ->
             zsum (map extra (selection r')) = currentSize r'
             /\ currentSize r <= currentSize r' <= currentMaxSize r)
         /\ (ok = false -> Forall (fun s => extra s = 0) (selection r')).
Proof.
  induction n as [|n IH]; intros r bag Hrc Hw Hg Hz Hcs Hcm;
    cbn [sizeLoop].
  - destruct (currentSize r <=? currentMaxSize r); [left; reflexivity|].
    right. exists false, r, bag. split; [reflexivity|].
    split; [apply rowFixed_refl|]. repeat split; auto; discriminate.
  - destruct (currentSize r <=? currentMaxSize r) eqn:E.
    + apply Z.leb_le in E.
      assert (Hs0 : zsum (map extra (selection r)) = 0).
      { rewrite (zero_extras_repeat _ Hz). apply zsum_repeat_zero. }
      assert (Hff : true = true ->
                    0 <= currentSize r
                    <= zsum (map maxExtra (selection r)))
        by (intros _; lia).
      destruct (multisetComplex_ok mcv c t2 Hc Ht2 fuel r bag true
                  Hrc Hw Hg Hs0 Hff)
        as [Hout | [ok [sel' [bag' [Hrun [M1 [M2 [M3 [M4 [M5 [M6 M7]]]]]]]]]]];
        [left; rewrite Hout; reflexivity|].
      rewrite Hrun. cbn [bind]. destruct ok.
      * right. exists true, (set_selection r sel'), bag'.
        split; [reflexivity|].
        split; [apply rowFixed_set_selection|].
        split; [reflexivity|].
        cbn [selection set_selection currentSize].
        repeat split; auto; try discriminate;
          try (change (currentSize (set_selection r sel'))
                 with (currentSize r); lia).
      * set (r1 := set_currentSize (set_selection r sel')
                     (currentSize (set_selection r sel') + 1)).
        assert (R1 : selection r1 = sel') by reflexivity.
        assert (R2 : currentSize r1 = currentSize r + 1) by reflexivity.
        assert (R3 : currentMaxSize r1 = currentMaxSize r) by reflexivity.
        assert (R4 : coeff r1 = c) by exact Hrc.
        assert (P1 : Forall2 (weakCol mcv c t2) (selection r1) bag')
          by (rewrite R1; exact M1).
        assert (P2 : Forall (fun s => extra s = 0) (selection r1))
          by (rewrite R1; auto).
        assert (P3 : 0 <= currentSize r1) by (rewrite R2; lia).
        assert (P4 : currentMaxSize r1
                     <= zsum (map maxExtra (selection r1)))
          by (rewrite R1, R3, M3; exact Hcm).
        destruct (IH r1 bag' R4 P1 M5 P2 P3 P4)
          as [Hout | [ok [r' [bag2 [Hrun2 [L1 [L2
                     [L3 [L4 [L5 [L6 [L7 [L8 L9]]]]]]]]]]]]].
        -- left. exact Hout.
        -- right. exists ok, r', bag2. split; [exact Hrun2|].
           rewrite R1 in *. rewrite R2, R3 in *.
           split.
           { eapply rowFixed_trans; [|exact L1]. unfold r1.
             unfold rowFixed. repeat split. }
           split; [congruence|]. split; [assumption|].
           split; [congruence|]. split; [congruence|].
           split; [congruence|]. split; [assumption|].
           split; [|assumption].
           intros Hok. destruct (L8 Hok) as [A1 A2]. split; [assumption|lia].
    + right. exists false, r, bag. split; [reflexivity|].
      split; [apply rowFixed_refl|]. repeat split; auto; discriminate.
Qed.

End ComplexSizes.

Lemma ceilingDivision_ge (a c : Z) : 0 < c -> a <= ceilingDivision a c * c.
Proof.
  intros Hc. unfold ceilingDivision.
  pose proof (Z.mul_div_le (- a) c Hc). nia.
Qed.

Lemma floorDivision_le (a c : Z) : 0 < c -> floorDivision a c * c <= a.
Proof.
  intros Hc. unfold floorDivision.
  pose proof (Z.mul_div_le a c Hc). nia.
Qed.

Lemma Forall_base_eq (sel sel' : list Select) (Q : Z -> Prop) :
  map base sel' = map base sel ->
  Forall (fun s => Q (base s)) sel -> Forall (fun s => Q (base s)) sel'.
Proof.
  intros Hm H. apply (proj1 (Forall_map base Q sel')). rewrite Hm.
  apply (proj2 (Forall_map base Q sel)). exact H.
Qed.

Lemma upd_same {A : Type} (l : list A) (i : nat) (x : A) :
  nth_error l i = Some x -> upd i x l = l.
Proof.
  revert i. induction l as [|h t IH]; intros [|i] H; simpl in *;
    try discriminate; [congruence|]. f_equal. apply IH. assumption.
Qed.

Lemma putRow_same (d : DiophantineSystem) (k : nat) (r : Row) :
  nth_error (rows d) k = Some r -> putRow d k r (columns d) = d.
Proof.
  intros H. unfold putRow, set_rows_columns. rewrite (upd_same _ _ _ H).
  destruct d; reflexivity.
Qed.

Section ComplexRow.

Variable mcv : Z.
Variable R : Row.
Variable t2 : list Soluble.
Variable P : Z -> Prop.
Hypothesis Hmcv : 0 <= mcv.
Hypothesis HcR : 0 < coeff R.
Hypothesis Htk : tableOK P mcv (coeff R) (maxSize R) (soluble R).
Hypothesis Hdec : forall w, 0 <= w <= mcv -> (P w <-> sol2 t2 w).
Hypothesis HP : forall w, P w -> 0 <= w.
Hypothesis Ht2 : length t2 = S (Z.to_nat mcv).

Lemma table_entry (t : Z) :
  sol2 (soluble R) t ->
  let x := solAt (soluble R) t in
  0 <= t <= mcv
  /\ readSol (soluble R) t = Done x
  /\ min x <> INSOLUBLE /\ max x <> INSOLUBLE
  /\ 0 <= min x <= max x
  /\ 0 <= t - max x * coeff R
  /\ sol2 t2 (t - max x * coeff R)
  /\ sol2 t2 (t - min x * coeff R).
Proof.
  intros Hs. cbn zeta. destruct Htk as [Hlen Hent].
  destruct (sol2_range _ _ Hs) as [Ht0 Ht1].
  assert (Ht : 0 <= t <= mcv) by lia.
  pose proof (proj1 (sol2_iff _ _) Hs) as Hmin.
  destruct Hs as [e [He _]].
  assert (Hx : solAt (soluble R) t = e)
    by (unfold solAt; rewrite He; reflexivity).
  pose proof INSOLUBLE_neg as Hneg.
  destruct (Hent t Ht) as [[Hi _] | [[A1 A2] [[B1 B2] Hall]]];
    [congruence|].
  pose proof (HP _ A2) as HA. pose proof (HP _ B2) as HB.
  assert (Hmm : min (solAt (soluble R) t) <= max (solAt (soluble R) t)).
  { destruct (Hall (min (solAt (soluble R) t))) as [_ H];
      [split; assumption | exact H]. }
  split; [assumption|].
  split; [unfold readSol; rewrite He, Hx; reflexivity|].
  split; [assumption|]. split; [lia|]. split; [lia|].
  split; [assumption|].
  split; apply Hdec; try assumption; nia.
Qed.

Lemma initComplex_ok (sel : list Select) (cols : list Z) :
  length sel = length cols ->
  Forall (sol2 (soluble R)) cols ->
  initComplex (soluble R) sel cols
  = Done (initSelC (soluble R) cols, zsum cols,
          baseSum (initSelC (soluble R) cols),
          baseSum (initSelC (soluble R) cols)
          + zsum (map maxExtra (initSelC (soluble R) cols))).
Proof.
  intros Hl H. revert sel Hl.
  induction H as [|t cols Ht Hcols IH]; intros [|s sel] Hl;
    simpl in Hl; try discriminate; [reflexivity|].
  cbn [initComplex].
  destruct (table_entry t Ht) as [_ [Hr [H1 [H2 [H3 _]]]]].
  rewrite Hr. cbn [bind].
  destruct (min (solAt (soluble R) t) =? INSOLUBLE) eqn:E1;
    [apply Z.eqb_eq in E1; congruence|].
  destruct (max (solAt (soluble R) t) =? INSOLUBLE) eqn:E2;
    [apply Z.eqb_eq in E2; congruence|].
  destruct (max (solAt (soluble R) t) <? min (solAt (soluble R) t)) eqn:E3;
    [apply Z.ltb_lt in E3; lia|].
  cbn [orb]. rewrite IH by lia. cbn [bind].
  unfold baseSum, initSelC. cbn [map base maxExtra].
  rewrite !zsum_cons. f_equal. f_equal; [f_equal; [f_equal|]|]; ring.
Qed.

Lemma firstCols (cols : list Z) :
  Forall (sol2 (soluble R)) cols ->
  let sel0 := initSelC (soluble R) cols in
  let bag := baseOff (coeff R) sel0 cols in
  Forall2 (weakCol mcv (coeff R) t2) sel0 bag
  /\ Forall (sol2 t2) bag
  /\ Forall (fun s => 0 <= base s) sel0
  /\ Forall (fun v => v <= mcv) cols
  /\ Forall (fun x => 0 <= x) bag
  /\ Forall (fun s => extra s = 0) sel0
  /\ length sel0 = length cols.
Proof.
  induction 1 as [|t cols Ht Hcols IH]; cbn zeta.
  - unfold initSelC, baseOff. simpl. repeat split; constructor.
  - destruct IH as [I1 [I2 [I3 [I4 [I5 [I6 I7]]]]]].
    destruct (table_entry t Ht) as [T0 [_ [T1 [T2 [T3 [T4 [T5 T6]]]]]]].
    destruct (sol2_range _ _ T6) as [T7 _].
    unfold initSelC, baseOff in *. cbn [map combine fst snd base].
    set (x := solAt (soluble R) t) in *.
    split.
    { constructor; [|exact I1]. unfold weakCol.
      cbn [extra maxExtra base].
      replace (t - min x * coeff R + 0 * coeff R
               - (max x - min x) * coeff R)
        with (t - max x * coeff R) by ring.
      replace (t - min x * coeff R + 0 * coeff R)
        with (t - min x * coeff R) by ring.
      repeat split; try assumption; try lia; nia. }
    split; [constructor; assumption|].
    split; [constructor; [cbn; lia | assumption]|].
    split; [constructor; [lia | assumption]|].
    split; [constructor; assumption|].
    split; [constructor; [reflexivity | assumption]|].
    simpl. f_equal. exact I7.
Qed.

Lemma trySizes_ok (fuel : nat) (d : DiophantineSystem) (k : nat)
    (r1 : Row) (bag1 V : list Z) :
  maxColumnValue d = mcv ->
  rowFixed R r1 ->
  Forall2 (weakCol mcv (coeff R) t2) (selection r1) bag1 ->
  Forall (sol2 t2) bag1 ->
  Forall (fun s => extra s = 0) (selection r1) ->
  0 <= currentSize r1 ->
  currentMaxSize r1 <= zsum (map maxExtra (selection r1)) ->
  Forall (fun s => 0 <= base s) (selection r1) ->
  baseOn (coeff R) (selection r1) bag1 = V ->
  Forall (fun v => v <= mcv) V ->
  minSize R <= baseSum (selection r1) + currentSize r1 ->
  baseSum (selection r1) + currentMaxSize r1 <= maxSize R ->
  zsum V - (baseSum (selection r1) + currentSize r1) * coeff R
    <= maxLeave R ->
  minLeave R
    <= zsum V - (baseSum (selection r1) + currentMaxSize r1) * coeff R ->
  trySizes fuel d k r1 t2 bag1 = OutOfFuel
  \/ exists b r' bag',
       trySizes fuel d k r1 t2 bag1 = Done (b, putRow d k r' bag')
       /\ rowFixed R r'
       /\ length (selection r') = length V
       /\ (b = true -> activeComplex mcv t2 R r' V bag')
       /\ (b = false -> bag' = V).
Proof.
  intros Hm Hfix Hw Hg Hz Hcs Hcm Hb HV HVm W1 W2 W3 W4.
  unfold trySizes.
  assert (Hrc : coeff r1 = coeff R) by (destruct Hfix as [_ [H _]]; exact H).
  destruct (sizeLoop_ok mcv (coeff R) t2 HcR Ht2 fuel (sizesLeft r1) r1 bag1
              Hrc Hw Hg Hz Hcs Hcm)
    as [Hout | [ok [r2 [bag2 [Hrun [L1 [L2 [L3 [L4 [L5 [L6 [L7 [L8 L9]
       ]]]]]]]]]]]].
  - left. rewrite Hout. reflexivity.
  - right. rewrite Hrun. cbn [bind].
    pose proof (rowFixed_trans _ _ _ Hfix L1) as Hfix2.
    pose proof (Forall2_length Hw) as Hl1.
    pose proof (Forall2_length L3) as Hl2.
    assert (HlV : length bag1 = length V).
    { rewrite <- HV. unfold baseOn.
      rewrite length_map, length_combine. lia. }
    assert (Hlsel : length (selection r2) = length (selection r1)).
    { rewrite <- (length_map base (selection r2)), L4.
      apply length_map. }
    assert (Hgb1 : giveBack (coeff R) (selection r1) bag1 = bag1)
      by (apply giveBack_zeros; assumption).
    assert (HbS : baseSum (selection r2) = baseSum (selection r1))
      by (unfold baseSum; rewrite L4; reflexivity).
    destruct ok.
    + exists true, r2, bag2. split; [reflexivity|].
      split; [assumption|]. split; [lia|]. split; [|discriminate].
      intros _. destruct (L8 eq_refl) as [A1 A2].
      unfold activeComplex. split; [assumption|].
      split; [assumption|]. split; [assumption|]. split; [assumption|].
      split.
      { unfold entryBag. rewrite L6, Hgb1.
        rewrite (baseOn_cong _ _ _ _ L4). exact HV. }
      split; [apply (Forall_base_eq _ _ (fun z => 0 <= z) L4 Hb)|].
      split; [assumption|].
      split; [rewrite L2, L5; assumption|].
      unfold windowOK. rewrite HbS, L2.
      repeat split; try lia; nia.
    + assert (Hz2 := L9 eq_refl).
      assert (Hbag2 : bag2 = bag1).
      { rewrite <- Hgb1, <- L6. symmetry.
        apply giveBack_zeros; [lia | assumption]. }
      assert (Hon : baseOn (coeff R) (selection r2) bag2 = V).
      { rewrite Hbag2, (baseOn_cong _ _ _ _ L4). exact HV. }
      assert (Hrc2 : coeff r2 = coeff R)
        by (destruct Hfix2 as [_ [H _]]; exact H).
      rewrite Hm, Hrc2.
      rewrite restoreBase_ok.
      * cbn [bind]. rewrite Hon.
        exists false, r2, V. split; [reflexivity|].
        split; [assumption|]. split; [lia|].
        split; [discriminate | reflexivity].
      * lia.
      * apply (Forall_base_eq _ _ (fun z => 0 <= z) L4 Hb).
      * rewrite Hon. assumption.
Qed.

Lemma solveRowComplex_first (fuel : nat) (d : DiophantineSystem) (k : nat)
    (r rn : Row) :
  nth_error (rows d) k = Some r ->
  nth_error (rows d) (S k) = Some rn ->
  soluble rn = t2 ->
  maxColumnValue d = mcv ->
  rowFixed R r ->
  length (selection r) = length (columns d) ->
  Forall (sol2 (soluble R)) (columns d) ->
  solveRowComplex fuel d k true = OutOfFuel
  \/ exists b r' bag',
       solveRowComplex fuel d k true = Done (b, putRow d k r' bag')
       /\ rowFixed R r'
       /\ length (selection r') = length (columns d)
       /\ (b = true -> activeComplex mcv t2 R r' (columns d) bag')
       /\ (b = false -> bag' = columns d).
Proof.
  intros Hn Hn2 Hrn Hm Hfix Hl Hcols. unfold solveRowComplex.
  rewrite (getAt_nth _ _ _ Hn), (getAt_nth _ _ _ Hn2). cbn [bind].
  rewrite Hrn.
  pose proof Hfix as [_ [Hrc [Hmin [Hmax [_ [_ [HminL [HmaxL Hsol]]]]]]]].
  destruct (negb (viable d k)).
  { right. exists false, r, (columns d).
    rewrite (putRow_same _ _ _ Hn). split; [reflexivity|].
    split; [assumption|]. split; [assumption|].
    split; [discriminate | reflexivity]. }
  rewrite Hsol, initComplex_ok by assumption. cbn [bind].
  set (sel0 := initSelC (soluble R) (columns d)).
  set (T := zsum (columns d)).
  set (minSum := baseSum sel0).
  set (mn := Z.max (Z.max minSum (minSize r))
               (ceilingDivision (T - maxLeave r) (coeff r))).
  set (mx := Z.min (Z.min (minSum + zsum (map maxExtra sel0)) (maxSize r))
               (floorDivision (T - minLeave r) (coeff r))).
  destruct (firstCols (columns d) Hcols)
    as [F1 [F2 [F3 [F4 [F5 [F6 F7]]]]]]. fold sel0 in F1, F2, F3, F5, F6, F7.
  destruct (mx <? mn) eqn:E.
  { right. exists false, (set_selection r sel0), (columns d).
    split; [reflexivity|].
    split; [eapply rowFixed_trans; [exact Hfix|];
            apply rowFixed_set_selection|].
    split; [exact F7|]. split; [discriminate | reflexivity]. }
  apply Z.ltb_ge in E.
  rewrite Hrc. rewrite applyBase_ok; [|lia | assumption | assumption].
  cbn [bind].
  set (r1 := set_sizes (set_selection r sel0) (mn - minSum) (mx - minSum)).
  pose proof (ceilingDivision_ge (T - maxLeave r) (coeff r)) as Hceil.
  pose proof (floorDivision_le (T - minLeave r) (coeff r)) as Hfloor.
  rewrite Hrc in Hceil, Hfloor.
  specialize (Hceil HcR). specialize (Hfloor HcR).
  assert (Hmn1 : ceilingDivision (T - maxLeave r) (coeff R) <= mn)
    by (unfold mn; rewrite Hrc; lia).
  assert (Hmx1 : mx <= floorDivision (T - minLeave r) (coeff R))
    by (unfold mx; rewrite Hrc; lia).
  assert (Hmn2 : minSum <= mn /\ minSize r <= mn) by (unfold mn; lia).
  assert (Hmx2 : mx <= minSum + zsum (map maxExtra sel0)
                 /\ mx <= maxSize r) by (unfold mx; lia).
  assert (Q1 : rowFixed R r1).
  { eapply rowFixed_trans; [exact Hfix|]. unfold r1.
    eapply rowFixed_trans; [apply rowFixed_set_selection|].
    apply rowFixed_set_sizes. }
  assert (Q2 : 0 <= currentSize r1)
    by (unfold r1; cbn [currentSize set_sizes]; lia).
  assert (Q3 : currentMaxSize r1 <= zsum (map maxExtra (selection r1)))
    by (unfold r1;
        cbn [currentMaxSize set_sizes selection set_selection]; lia).
  assert (Q4 : baseOn (coeff R) (selection r1)
                 (baseOff (coeff R) sel0 (columns d)) = columns d)
    by (apply baseOn_baseOff; exact F7).
  assert (Q5 : minSize R <= baseSum (selection r1) + currentSize r1).
  { unfold r1. cbn [currentSize set_sizes selection set_selection].
    fold minSum. lia. }
  assert (Q6 : baseSum (selection r1) + currentMaxSize r1 <= maxSize R).
  { unfold r1. cbn [currentMaxSize set_sizes selection set_selection].
    fold minSum. lia. }
  assert (Q7 : zsum (columns d)
               - (baseSum (selection r1) + currentSize r1) * coeff R
               <= maxLeave R).
  { unfold r1. cbn [currentSize set_sizes selection set_selection].
    fold minSum. fold T. nia. }
  assert (Q8 : minLeave R
               <= zsum (columns d)
                  - (baseSum (selection r1) + currentMaxSize r1) * coeff R).
  { unfold r1. cbn [currentMaxSize set_sizes selection set_selection].
    fold minSum. fold T. nia. }
  destruct (trySizes_ok fuel d k r1
              (baseOff (coeff R) sel0 (columns d)) (columns d)
              Hm Q1 F1 F2 F6 Q2 Q3 F3 Q4 F4 Q5 Q6 Q7 Q8)
    as [Hout | [b [r' [bag' [Hrun [T1 [T2 [T3 T4]]]]]]]].
  - left. exact Hout.
  - right. exists b, r', bag'. split; [exact Hrun|].
    split; [assumption|]. split; [assumption|]. split; assumption.
Qed.

Lemma solveRowComplex_next (fuel : nat) (d : DiophantineSystem) (k : nat)
    (r rn : Row) (V : list Z) :
  nth_error (rows d) k = Some r ->
  nth_error (rows d) (S k) = Some rn ->
  soluble rn = t2 ->
  maxColumnValue d = mcv ->
  activeComplex mcv t2 R r V (columns d) ->
  solveRowComplex fuel d k false = OutOfFuel
  \/ exists b r' bag',
       solveRowComplex fuel d k false = Done (b, putRow d k r' bag')
       /\ rowFixed R r'
       /\ length (selection r') = length V
       /\ (b = true -> activeComplex mcv t2 R r' V bag')
       /\ (b = false -> bag' = V).
Proof.
  intros Hn Hn2 Hrn Hm
         [Hfix [Hw [Hg [Hs [He [Hb [HVm [Hcm [W0 [W1 [W2 [W3 W4]]]]]]]]]]]].
  unfold solveRowComplex.
  rewrite (getAt_nth _ _ _ Hn), (getAt_nth _ _ _ Hn2). cbn [bind].
  rewrite Hrn.
  pose proof Hfix as [_ [Hrc _]].
  pose proof (Forall2_length Hw) as Hl.
  assert (HlV : length (columns d) = length V).
  { rewrite <- He. unfold entryBag, baseOn.
    rewrite length_map, length_combine, giveBack_length; lia. }
  assert (Hff : false = true ->
                0 <= currentSize r <= zsum (map maxExtra (selection r)))
    by discriminate.
  destruct (multisetComplex_ok mcv (coeff R) t2 HcR Ht2 fuel r (columns d)
              false Hrc Hw Hg Hs Hff)
    as [Hout | [ok [sel' [bag' [Hrun [M1 [M2 [M3 [M4 [M5 [M6 M7]]]]]]]]]]].
  { left. rewrite Hout. reflexivity. }
  rewrite Hrun. cbn [bind].
  assert (Hlsel : length sel' = length (selection r)).
  { rewrite <- (length_map base sel'), M2. apply length_map. }
  assert (HbS : baseSum sel' = baseSum (selection r))
    by (unfold baseSum; rewrite M2; reflexivity).
  assert (Hb' : Forall (fun s => 0 <= base s) sel')
    by (apply (Forall_base_eq _ _ (fun z => 0 <= z) M2 Hb)).
  assert (Hfix' : rowFixed R (set_selection r sel')).
  { eapply rowFixed_trans; [exact Hfix|]. apply rowFixed_set_selection. }
  destruct ok.
  - right. exists true, (set_selection r sel'), bag'.
    split; [reflexivity|]. split; [assumption|].
    split; [cbn [selection set_selection]; lia|].
    split; [|discriminate]. intros _. unfold activeComplex.
    cbn [selection set_selection].
    change (currentSize (set_selection r sel')) with (currentSize r).
    change (currentMaxSize (set_selection r sel'))
      with (currentMaxSize r).
    split; [assumption|]. split; [assumption|]. split; [assumption|].
    split; [apply M6; reflexivity|].
    split.
    { unfold entryBag. rewrite M4, (baseOn_cong _ _ _ _ M2). exact He. }
    split; [assumption|]. split; [assumption|].
    split; [rewrite M3; assumption|].
    unfold windowOK. cbn [selection set_selection].
    change (currentSize (set_selection r sel')) with (currentSize r).
    change (currentMaxSize (set_selection r sel'))
      with (currentMaxSize r).
    rewrite HbS. repeat split; assumption.
  - assert (Hz := M7 eq_refl).
    set (r1 := set_currentSize (set_selection r sel')
                 (currentSize (set_selection r sel') + 1)).
    pose proof (within_sum _ _ (weakCol_within _ _ _ _ _ Hw)) as Hsum.
    assert (Hbag' : giveBack (coeff R) sel' bag' = bag').
    { apply giveBack_zeros; [|assumption].
      rewrite (Forall2_length M1). reflexivity. }
    assert (Q1 : rowFixed R r1).
    { eapply rowFixed_trans; [exact Hfix'|]. unfold r1, set_currentSize.
      apply rowFixed_set_sizes. }
    assert (Q2 : 0 <= currentSize r1) by (unfold r1; cbn; lia).
    assert (Q3 : currentMaxSize r1 <= zsum (map maxExtra (selection r1))).
    { unfold r1. cbn [currentMaxSize set_currentSize set_sizes selection
                      set_selection]. rewrite M3. exact Hcm. }
    assert (Q4 : baseOn (coeff R) (selection r1) bag' = V).
    { unfold r1. cbn [selection set_currentSize set_sizes set_selection].
      rewrite <- Hbag', M4, (baseOn_cong _ _ _ _ M2). exact He. }
    assert (Q5 : minSize R <= baseSum (selection r1) + currentSize r1).
    { unfold r1. cbn [currentSize set_currentSize set_sizes selection
                      set_selection]. rewrite HbS. lia. }
    assert (Q6 : baseSum (selection r1) + currentMaxSize r1 <= maxSize R).
    { unfold r1. cbn [currentMaxSize set_currentSize set_sizes selection
                      set_selection]. rewrite HbS. exact W2. }
    assert (Q7 : zsum V - (baseSum (selection r1) + currentSize r1) * coeff R
                 <= maxLeave R).
    { unfold r1. cbn [currentSize set_currentSize set_sizes selection
                      set_selection]. rewrite HbS. nia. }
    assert (Q8 : minLeave R
                 <= zsum V
                    - (baseSum (selection r1) + currentMaxSize r1) * coeff R).
    { unfold r1. cbn [currentMaxSize set_currentSize set_sizes selection
                      set_selection]. rewrite HbS. exact W4. }
    destruct (trySizes_ok fuel d k r1 bag' V
                Hm Q1 M1 M5 Hz Q2 Q3 Hb' Q4 HVm Q5 Q6 Q7 Q8)
      as [Hout | [b [r' [bag2 [Hrun2 [T1 [T2 [T3 T4]]]]]]]].
    + left. exact Hout.
    + right. exists b, r', bag2. split; [exact Hrun2|].
      split; [assumption|]. split; [assumption|]. split; assumption.
Qed.

End ComplexRow.

(* ----------------------------------------------------------------- *)
(** ** A row activation in the complex case *)

Lemma In_skipn {A : Type} (n : nat) (l : list A) (x : A) :
  In x (skipn n l) -> In x l.
Proof.
  revert l. induction n as [|n IH]; intros [|h t] H; simpl in *; auto.
Qed.

Lemma skipn_nth_error {A : Type} (l : list A) (i : nat) (x : A) :
  nth_error l i = Some x -> skipn i l = x :: skipn (S i) l.
Proof.
  revert i. induction l as [|h t IH]; intros [|i] H; simpl in H;
    try discriminate.
  - injection H as <-. reflexivity.
  - simpl. apply IH. assumption.
Qed.

Lemma row_tables (mcv : Z) (rs : list Row) (k : nat) (r rn : Row) :
  tablesOK mcv rs -> Forall (fun r => 0 < coeff r) rs ->
  nth_error rs k = Some r -> nth_error rs (S k) = Some rn ->
  tableOK (solubleBy (skipn (S k) rs)) mcv (coeff r) (maxSize r)
    (soluble r)
  /\ (forall w, 0 <= w <= mcv ->
        (solubleBy (skipn (S k) rs) w <-> sol2 (soluble rn) w))
  /\ (forall w, solubleBy (skipn (S k) rs) w -> 0 <= w)
  /\ length (soluble rn) = S (Z.to_nat mcv).
Proof.
  intros Ht Hpos Hn Hn2.
  pose proof (tablesOK_nth _ _ _ _ Ht Hn) as T1.
  pose proof (tablesOK_nth _ _ _ _ Ht Hn2) as T2.
  split; [exact T1|]. rewrite (skipn_nth_error _ _ _ Hn2).
  split; [|split].
  - intros w Hw. rewrite sol2_iff.
    exact (tableOK_decides _ _ mcv T2 w Hw).
  - intros w. apply solubleBy_nonneg.
    rewrite <- (skipn_nth_error _ _ _ Hn2).
    apply Forall_forall. intros x Hx. apply In_skipn in Hx.
    rewrite Forall_forall in Hpos. auto.
  - destruct T2 as [Hl _]. exact Hl.
Qed.

Lemma putRow_nth_same (d : DiophantineSystem) (k : nat) (r : Row)
    (cols : list Z) :
  (k < length (rows d))%nat ->
  nth_error (rows (putRow d k r cols)) k = Some r.
Proof. intros H. rewrite putRow_rows. apply nth_error_upd_eq. exact H. Qed.

Lemma putRow_nth_other (d : DiophantineSystem) (k j : nat) (r : Row)
    (cols : list Z) :
  k <> j ->
  nth_error (rows (putRow d k r cols)) j = nth_error (rows d) j.
Proof. intros H. rewrite putRow_rows. apply nth_error_upd_neq. exact H. Qed.

Lemma activation_complex (n fuel : nat) (d : DiophantineSystem) (k : nat) :
  complexEntry d k ->
  activationC n fuel d k = OutOfFuel
  \/ exists d', activationC n fuel d k = Done d'
                /\ columns d' = columns d.
Proof.
  intros [Hmcv [Htab [Hpos [Hk [Hlen Hcols]]]]].
  destruct (nth_error (rows d) k) as [r|] eqn:Hn;
    [|apply nth_error_None in Hn; lia].
  destruct (nth_error (rows d) (S k)) as [rn|] eqn:Hn2;
    [|apply nth_error_None in Hn2; lia].
  rewrite (nth_error_nth _ _ emptyRow Hn) in Hlen, Hcols.
  destruct (row_tables _ _ _ _ _ Htab Hpos Hn Hn2) as [T1 [T2 [T3 T4]]].
  assert (Hcr : 0 < coeff r).
  { rewrite Forall_forall in Hpos. apply Hpos.
    apply (nth_error_In _ _ Hn). }
  set (P := solubleBy (skipn (S k) (rows d))) in *.
  set (t2 := soluble rn) in *.
  set (mcv := maxColumnValue d) in *.
  pose proof (solveRowComplex_first mcv r t2 P Hmcv Hcr T1 T2 T3 T4)
    as Hfirst.
  pose proof (solveRowComplex_next mcv r t2 Hcr T4) as Hnext.
  unfold activationC.
  destruct (Hfirst fuel d k r rn Hn Hn2 eq_refl eq_refl (rowFixed_refl r)
              Hlen Hcols)
    as [Hout | [b [r' [bag' [Hrun [F1 [F2 [F3 F4]]]]]]]].
  { left. rewrite Hout. reflexivity. }
  rewrite Hrun. cbn [bind]. destruct b.
  2:{ right. eexists. split; [reflexivity|].
      rewrite putRow_columns. apply F4. reflexivity. }
  specialize (F3 eq_refl). clear Hrun F4 Hfirst.
  set (V := columns d) in *.
  assert (Hgen : forall n d1 r1,
            nth_error (rows d1) k = Some r1 ->
            nth_error (rows d1) (S k) = Some rn ->
            maxColumnValue d1 = mcv ->
            activeComplex mcv t2 r r1 V (columns d1) ->
            retries n fuel d1 k = OutOfFuel
            \/ exists d', retries n fuel d1 k = Done d' /\ columns d' = V).
  { clear dependent r'. clear dependent bag'.
    induction n0 as [|n0 IH]; intros d1 r1 H1 H2 H3 H4;
      [left; reflexivity|].
    cbn [retries].
    destruct (Hnext fuel d1 k r1 rn V H1 H2 eq_refl H3 H4)
      as [Hout | [b [r' [bag' [Hrun [N1 [N2 [N3 N4]]]]]]]].
    { left. rewrite Hout. reflexivity. }
    rewrite Hrun. cbn [bind].
    pose proof (nth_error_lt _ _ _ H1) as Hk1.
    destruct b.
    - apply (IH _ r').
      + apply putRow_nth_same. exact Hk1.
      + rewrite putRow_nth_other by lia. exact H2.
      + exact H3.
      + rewrite putRow_columns. apply N3. reflexivity.
    - right. eexists. split; [reflexivity|].
      rewrite putRow_columns. apply N4. reflexivity. }
  pose proof (nth_error_lt _ _ _ Hn) as Hk0.
  apply (Hgen n _ r').
  - apply putRow_nth_same. exact Hk0.
  - rewrite putRow_nth_other by lia. exact Hn2.
  - reflexivity.
  - rewrite putRow_columns. exact F3.
Qed.

(** C7: in the complex case, a complete activation of a row, from its
    first visit to the call that fails, leaves the column bag as it was
    when the first visit began: the failing call has put the bases
    back. *)
Theorem C7_failed_activation_restores_bag (n fuel : nat)
    (d d' : DiophantineSystem) (k : nat) :
  complexEntry d k ->
  activationC n fuel d k = Done d' ->
  columns d' = columns d.
Proof.
  intros He Hrun.
  destruct (activation_complex n fuel d k He) as [Hout | [d2 [H2 Hc]]].
  - rewrite Hout in Hrun. discriminate.
  - rewrite H2 in Hrun. injection Hrun as <-. exact Hc.
Qed.


Lemma complexExample_entry : complexEntry complexExample 0.
Proof.
  unfold complexEntry. split; [vm_compute; discriminate|].
  split.
  { change (rows complexExample) with (tabledRows ascendingExample).
    change (maxColumnValue complexExample)
      with (maxColumnValue ascendingExample).
    apply tabledRows_ok.
    - repeat constructor; simpl; lia.
    - vm_compute; discriminate.
    - vm_compute; discriminate. }
  split; [repeat constructor|]. split; [vm_compute; lia|].
  split; [reflexivity|].
  repeat constructor. eexists. split; [vm_compute; reflexivity|].
  vm_compute. discriminate.
Qed.

Lemma C7_failed_activation_restores_bag_witness :
  exists d', activationC 10 10 complexExample 0 = Done d'
             /\ columns d' = columns complexExample.
Proof.
  eexists. split; [vm_compute; reflexivity|].
  apply (C7_failed_activation_restores_bag 10 10 complexExample _ 0).
  - exact complexExample_entry.
  - vm_compute. reflexivity.
Defined.


(* ----------------------------------------------------------------- *)
(** ** The driver loop *)

Section Driver.

Variable solveRow :
  DiophantineSystem -> nat -> bool -> Outcome (bool * DiophantineSystem).
Variable n : nat.
Variable Active : nat -> Row -> list Z -> list Z -> Prop.
Variable Idle : nat -> Row -> Prop.
Variable Entry : nat -> list Z -> Prop.
Variable Sys : DiophantineSystem -> Prop.
Variable V0 : list Z.

Hypothesis Sys_putRow :
  forall d k r cols, Sys d -> Sys (putRow d k r cols).

Hypothesis first_step :
  forall d k r rn b d',
    (S k < n)%nat -> Sys d ->
    nth_error (rows d) k = Some r ->
    nth_error (rows d) (S k) = Some rn ->
    Idle k r -> Idle (S k) rn -> Entry k (columns d) ->
    solveRow d k true = Done (b, d') ->
    exists r' bag',
      d' = putRow d k r' bag'
      /\ if b then Active k r' (columns d) bag'
         else Idle k r' /\ bag' = columns d.

Hypothesis next_step :
  forall d k r rn V b d',
    (S k < n)%nat -> Sys d ->
    nth_error (rows d) k = Some r ->
    nth_error (rows d) (S k) = Some rn ->
    Active k r V (columns d) -> Idle (S k) rn -> Entry k V ->
    solveRow d k false = Done (b, d') ->
    exists r' bag',
      d' = putRow d k r' bag'
      /\ if b then Active k r' V bag' else Idle k r' /\ bag' = V.

Hypothesis active_entry :
  forall k r V bag,
    (S k < n)%nat -> Entry k V -> Active k r V bag -> Entry (S k) bag.

Lemma activeUpTo_upd (a j : nat) (x : Row) (rs : list Row)
    (bag : list Z) :
  (a <= j)%nat ->
  activeUpTo Active Entry a rs V0 bag ->
  activeUpTo Active Entry a (upd j x rs) V0 bag.
Proof.
  revert bag. induction a as [|a IH]; intros bag Hj H; [exact H|].
  cbn [activeUpTo] in *. destruct H as [V [r [H1 [H2 [H3 H4]]]]].
  exists V, r. split; [rewrite nth_error_upd_neq by lia; exact H1|].
  split; [apply IH; [lia | exact H2]|]. split; assumption.
Qed.

Lemma idleFrom_upd_above (a j : nat) (x : Row) (rs : list Row) :
  (j < a)%nat -> idleFrom Idle a rs -> idleFrom Idle a (upd j x rs).
Proof.
  intros Hj H i r Hi Hn. rewrite nth_error_upd_neq in Hn by lia.
  exact (H i r Hi Hn).
Qed.

Lemma idleFrom_upd_at (a : nat) (x : Row) (rs : list Row) :
  Idle a x -> idleFrom Idle (S a) rs -> idleFrom Idle a (upd a x rs).
Proof.
  intros Hx H i r Hi Hn. destruct (Nat.eq_dec i a) as [->|Hne].
  - assert (Hlt : (a < length rs)%nat).
    { rewrite <- (length_upd a x rs). apply nth_error_Some. congruence. }
    rewrite nth_error_upd_eq in Hn by exact Hlt. congruence.
  - rewrite nth_error_upd_neq in Hn by lia. apply (H i r); [lia | exact Hn].
Qed.

Lemma idleFrom_weaken (a : nat) (rs : list Row) :
  idleFrom Idle a rs -> idleFrom Idle (S a) rs.
Proof. intros H i r Hi Hn. apply (H i r); [lia | exact Hn]. Qed.

Lemma driver_ok (fuel : nat) :
  forall (k : nat) (ff : bool) (d : DiophantineSystem) (b : bool)
         (d' : DiophantineSystem),
    (S k < n)%nat ->
    driverInv Active Idle Entry Sys n V0 (if ff then k else S k) d ->
    driverLoop solveRow fuel (n - 2) k ff d = Done (b, d') ->
    driverInv Active Idle Entry Sys n V0
      (if b then (n - 1)%nat else O) d'.
Proof.
  induction fuel as [|fuel IH]; intros k ff d b d' Hk Hinv Hrun;
    [discriminate|].
  cbn [driverLoop] in Hrun.
  destruct (solveRow d k ff) as [[found d1]| |] eqn:Hs; try discriminate.
  cbn [bind] in Hrun.
  destruct Hinv as [Hlen [Hsys [Hact [Hidle Hent]]]].
  assert (Hkl : (k < length (rows d))%nat) by lia.
  destruct (nth_error (rows d) (S k)) as [rn|] eqn:Hn2;
    [|apply nth_error_None in Hn2; lia].
  assert (Hstep : exists r' bag',
            d1 = putRow d k r' bag'
            /\ driverInv Active Idle Entry Sys n V0
                 (if found then S k else k) d1).
  { destruct ff.
    - destruct (nth_error (rows d) k) as [r|] eqn:Hn1;
        [|apply nth_error_None in Hn1; lia].
      assert (Hik : Idle k r) by (apply (Hidle k r); [lia | exact Hn1]).
      assert (Hik2 : Idle (S k) rn)
        by (apply (Hidle (S k) rn); [lia | exact Hn2]).
      destruct (first_step d k r rn found d1 Hk Hsys Hn1 Hn2 Hik Hik2
                  Hent Hs) as [r' [bag' [Hd1 Hres]]].
      exists r', bag'. split; [exact Hd1|]. subst d1.
      split; [rewrite putRow_rows, length_upd; exact Hlen|].
      split; [apply Sys_putRow; exact Hsys|].
      rewrite putRow_rows, putRow_columns. destruct found.
      + split.
        { cbn [activeUpTo]. exists (columns d), r'.
          split; [apply nth_error_upd_eq; exact Hkl|].
          split; [apply activeUpTo_upd; [lia | exact Hact]|].
          split; [exact Hent | exact Hres]. }
        split; [apply idleFrom_upd_above;
                [lia | apply idleFrom_weaken; exact Hidle]|].
        apply (active_entry k r' (columns d) bag' Hk Hent Hres).
      + destruct Hres as [Hir ->].
        split; [apply activeUpTo_upd; [lia | exact Hact]|].
        split; [|exact Hent].
        apply idleFrom_upd_at; [exact Hir|].
        apply idleFrom_weaken. exact Hidle.
    - cbn [activeUpTo] in Hact.
      destruct Hact as [V [r [Hn1 [Hact [HentV Hactive]]]]].
      assert (Hik2 : Idle (S k) rn)
        by (apply (Hidle (S k) rn); [lia | exact Hn2]).
      destruct (next_step d k r rn V found d1 Hk Hsys Hn1 Hn2 Hactive
                  Hik2 HentV Hs) as [r' [bag' [Hd1 Hres]]].
      exists r', bag'. split; [exact Hd1|]. subst d1.
      split; [rewrite putRow_rows, length_upd; exact Hlen|].
      split; [apply Sys_putRow; exact Hsys|].
      rewrite putRow_rows, putRow_columns. destruct found.
      + split.
        { cbn [activeUpTo]. exists V, r'.
          split; [apply nth_error_upd_eq; exact Hkl|].
          split; [apply activeUpTo_upd; [lia | exact Hact]|].
          split; [exact HentV | exact Hres]. }
        split; [apply idleFrom_upd_above; [lia | exact Hidle]|].
        apply (active_entry k r' V bag' Hk HentV Hres).
      + destruct Hres as [Hir ->].
        split; [apply activeUpTo_upd; [lia | exact Hact]|].
        split; [|exact HentV].
        apply idleFrom_upd_at; [exact Hir | exact Hidle]. }
  destruct Hstep as [r' [bag' [Hd1 Hinv1]]].
  destruct found.
  - destruct (k =? n - 2)%nat eqn:Ek.
    + injection Hrun as <- <-. apply Nat.eqb_eq in Ek.
      replace (n - 1)%nat with (S k) by lia. exact Hinv1.
    + apply Nat.eqb_neq in Ek.
      apply (IH (S k) true d1 b d'); [lia | exact Hinv1 | exact Hrun].
  - destruct (k =? 0)%nat eqn:Ek.
    + injection Hrun as <- <-. apply Nat.eqb_eq in Ek. subst k.
      exact Hinv1.
    + apply Nat.eqb_neq in Ek.
      apply (IH (pred k) false d1 b d'); [lia | | exact Hrun].
      replace (S (pred k)) with k by lia. exact Hinv1.
Qed.

End Driver.

(* ----------------------------------------------------------------- *)
(** ** The rows of the simple case *)

Lemma baseSum_zero (sel : list Select) :
  Forall (fun s => base s = 0) sel -> baseSum sel = 0.
Proof.
  unfold baseSum. induction 1 as [|s sel Hs _ IH]; [reflexivity|].
  simpl map. rewrite zsum_cons, Hs, IH. reflexivity.
Qed.

Lemma Forall2_maxExtra_eq (Q : Z -> Z -> Prop) (sel sel' : list Select)
    (V : list Z) :
  map maxExtra sel' = map maxExtra sel ->
  Forall2 (fun s v => Q (maxExtra s) v) sel V ->
  Forall2 (fun s v => Q (maxExtra s) v) sel' V.
Proof.
  intros Hm H. revert sel' Hm.
  induction H as [|s v sel V Hs _ IH]; intros [|s' sel'] Hm;
    simpl in Hm; try discriminate; [constructor|].
  injection Hm as H1 H2. constructor; [rewrite H1; exact Hs | auto].
Qed.

Lemma capOf_fits (c t : Z) : 0 < c -> 0 <= t -> capOf c t * c <= t.
Proof.
  intros Hc Ht. unfold capOf. destruct (c <=? t) eqn:E; [|lia].
  rewrite Z.quot_div_nonneg by lia.
  pose proof (Z.mul_div_le t c Hc). lia.
Qed.

Lemma caps_fit (c : Z) (sel : list Select) (cols : list Z) :
  0 < c -> Forall (fun t => 0 <= t) cols ->
  map maxExtra sel = map (capOf c) cols ->
  Forall2 (fun s v => maxExtra s * c <= v) sel cols.
Proof.
  intros Hc H. revert sel. induction H as [|t cols Ht _ IH];
    intros [|s sel] Hm; simpl in Hm; try discriminate; [constructor|].
  injection Hm as H1 H2. constructor; [|auto].
  rewrite H1. apply capOf_fits; assumption.
Qed.

Lemma zsum_giveBack (c : Z) (sel : list Select) (bag : list Z) :
  length sel = length bag ->
  zsum (giveBack c sel bag) = zsum bag + zsum (map extra sel) * c.
Proof.
  revert bag. induction sel as [|s sel IH]; intros [|b bag] Hl;
    simpl in Hl; try discriminate; [reflexivity|].
  unfold giveBack in *. simpl map. rewrite !zsum_cons, IH by lia.
  simpl. ring.
Qed.

Lemma simple_first_active (R : Row) (d d' : DiophantineSystem) (k : nat)
    (r : Row) (b : bool) :
  0 < coeff R -> 0 <= minSize R ->
  nth_error (rows d) k = Some r ->
  rowFixed R r ->
  length (selection r) = length (columns d) ->
  Forall (fun s => base s = 0) (selection r) ->
  Forall (fun t => 0 <= t) (columns d) ->
  solveRowSimple d k true = Done (b, d') ->
  exists r' bag',
    d' = putRow d k r' bag'
    /\ rowFixed R r'
    /\ length (selection r') = length (columns d)
    /\ Forall (fun s => base s = 0) (selection r')
    /\ if b then activeSimple R r' (columns d) bag'
       else bag' = columns d.
Proof.
  intros HcR HmR Hn Hfix Hl Hbz Hcols Hrun.
  pose proof Hfix as [_ [Hrc [Hmin [Hmax [_ [_ [HminL [HmaxL _]]]]]]]].
  rewrite (solveRowSimple_first d k r Hn Hl) in Hrun;
    [|lia | lia | assumption].
  destruct (negb (viable d k)).
  { injection Hrun as <- <-. exists r, (columns d).
    rewrite (putRow_same _ _ _ Hn). split; [reflexivity|].
    split; [exact Hfix|]. split; [exact Hl|].
    split; [exact Hbz | reflexivity]. }
  set (c := coeff r) in *.
  set (caps := map (capOf c) (columns d)) in *.
  set (sel0 := initSel c (selection r) (columns d)) in *.
  set (lo := simpleLo r (columns d)) in *.
  set (hi := simpleHi r (columns d)) in *.
  destruct (initSel_fields c (selection r) (columns d) Hl)
    as [F1 [F2 [F3 F4]]]. fold sel0 caps in F1, F2, F3, F4.
  assert (Hbz0 : Forall (fun s => base s = 0) sel0)
    by (apply (Forall_base_eq _ _ (fun z => z = 0) F2 Hbz)).
  destruct (hi <? lo) eqn:E.
  { injection Hrun as <- <-. exists (set_selection r sel0), (columns d).
    split; [reflexivity|].
    split; [eapply rowFixed_trans; [exact Hfix|];
            apply rowFixed_set_selection|].
    split; [exact F4|]. split; [exact Hbz0 | reflexivity]. }
  apply Z.ltb_ge in E. injection Hrun as <- <-.
  assert (Hcaps : Forall (fun z => 0 <= z) caps).
  { unfold caps. apply Forall_map. eapply Forall_impl; [|exact Hcols].
    intros t Ht. apply capOf_nonneg; [lia | assumption]. }
  assert (Hlo : 0 <= lo <= zsum caps).
  { clear - E Hmin HmR. subst lo hi. unfold simpleLo, simpleHi in *.
    subst c caps. lia. }
  destruct (greedy_valid caps lo Hcaps Hlo) as [G1 G2].
  assert (Hlg : length (greedy lo caps) = length sel0).
  { rewrite <- (within_length _ _ G1). unfold caps.
    rewrite length_map. symmetry. exact F4. }
  destruct (setExtras_fields sel0 _ Hlg) as [S1 [S2 S3]].
  set (r' := set_sizes (set_selection r (setExtras sel0 (greedy lo caps)))
               lo hi).
  exists r', (takeFrom c (columns d) (greedy lo caps)).
  split; [reflexivity|].
  assert (Hfix' : rowFixed R r').
  { eapply rowFixed_trans; [exact Hfix|]. unfold r'.
    eapply rowFixed_trans; [apply rowFixed_set_selection|].
    apply rowFixed_set_sizes. }
  split; [exact Hfix'|].
  assert (Hbz' : Forall (fun s => base s = 0) (selection r')).
  { unfold r'. cbn [selection set_sizes set_selection].
    apply (Forall_base_eq _ _ (fun z => z = 0) S2 Hbz0). }
  split; [unfold r'; cbn [selection set_sizes set_selection];
          rewrite setExtras_length; lia|].
  split; [exact Hbz'|].
  unfold activeSimple. split; [exact Hfix'|].
  split.
  { unfold simpleRowOK, r'.
    cbn [selection set_sizes set_selection currentSize currentMaxSize].
    rewrite S1, S3, F1.
    split; [rewrite setExtras_length, takeFrom_length; lia|].
    split; [exact G1|]. split; [exact G2|].
    split; [exact E|]. clear. subst hi. unfold simpleHi.
    subst caps c. lia. }
  split; [exact Hbz'|].
  split.
  { unfold r'. cbn [selection set_sizes set_selection].
    rewrite <- Hrc. apply giveBack_takeFrom; lia. }
  split.
  { unfold r'. cbn [selection set_sizes set_selection].
    apply caps_fit; [assumption | assumption|].
    rewrite S1, F1, <- Hrc. reflexivity. }
  unfold windowOK. rewrite (baseSum_zero _ Hbz').
  unfold r'. cbn [currentSize currentMaxSize set_sizes].
  pose proof (ceilingDivision_ge (zsum (columns d) - maxLeave r) c) as Hce.
  pose proof (floorDivision_le (zsum (columns d) - minLeave r) c) as Hfl.
  assert (Hc0 : 0 < c) by lia.
  specialize (Hce Hc0). specialize (Hfl Hc0).
  assert (L1 : minSize r <= lo
               /\ ceilingDivision (zsum (columns d) - maxLeave r) c <= lo)
    by (clear; subst lo; unfold simpleLo; subst c; lia).
  assert (L2 : hi <= maxSize r
               /\ hi <= floorDivision (zsum (columns d) - minLeave r) c)
    by (clear; subst hi; unfold simpleHi; subst c; lia).
  rewrite <- Hrc.
  repeat split; try lia; nia.
Qed.

Lemma simple_next_active (R : Row) (d d' : DiophantineSystem) (k : nat)
    (r : Row) (V : list Z) (b : bool) :
  0 < coeff R ->
  nth_error (rows d) k = Some r ->
  activeSimple R r V (columns d) ->
  solveRowSimple d k false = Done (b, d') ->
  exists r' bag',
    d' = putRow d k r' bag'
    /\ rowFixed R r'
    /\ length (selection r') = length V
    /\ Forall (fun s => base s = 0) (selection r')
    /\ if b then activeSimple R r' V bag' else bag' = V.
Proof.
  intros HcR Hn [Hfix [Hok [Hbz [Hgb [Hfit Hwin]]]]] Hrun.
  pose proof Hfix as [_ [Hrc _]].
  rewrite (solveRowSimple_advance d k r Hn Hok) in Hrun.
  destruct Hok as [Hl [Hw [Hs [Hcs Hcm]]]].
  assert (HlV : length V = length (selection r)).
  { rewrite <- Hgb, giveBack_length; lia. }
  rewrite Hrc, Hgb in Hrun.
  set (caps := map maxExtra (selection r)) in *.
  set (xs := map extra (selection r)) in *.
  assert (Hxs : zsum xs <= currentMaxSize r) by lia.
  destruct (advanceSel caps (currentMaxSize r) xs) as [ys|] eqn:Ea.
  - injection Hrun as <- <-.
    destruct (advanceSel_some _ _ _ _ Hw Hxs Hcm Ea)
      as [Hy [Hys [Hlt Hleast]]].
    assert (Hlsel : length ys = length (selection r)).
    { rewrite <- (within_length _ _ Hy). apply length_map. }
    destruct (setExtras_fields (selection r) ys Hlsel) as [F1 [F2 F3]].
    set (r' := set_sizes (set_selection r (setExtras (selection r) ys))
                 (zsum ys) (currentMaxSize r)).
    exists r', (takeFrom (coeff R) V ys). split; [reflexivity|].
    assert (Hfix' : rowFixed R r').
    { eapply rowFixed_trans; [exact Hfix|]. unfold r'.
      eapply rowFixed_trans; [apply rowFixed_set_selection|].
      apply rowFixed_set_sizes. }
    assert (Hbz' : Forall (fun s => base s = 0) (selection r')).
    { unfold r'. cbn [selection set_sizes set_selection].
      apply (Forall_base_eq _ _ (fun z => z = 0) F2 Hbz). }
    split; [exact Hfix'|].
    split; [unfold r'; cbn [selection set_sizes set_selection];
            rewrite setExtras_length; lia|].
    split; [exact Hbz'|].
    unfold activeSimple. split; [exact Hfix'|].
    split.
    { unfold simpleRowOK, r'.
      cbn [selection set_sizes set_selection currentSize currentMaxSize].
      rewrite F1, F3. fold caps.
      split; [rewrite setExtras_length, takeFrom_length; lia|].
      repeat split; try assumption; lia. }
    split; [exact Hbz'|].
    split.
    { unfold r'. cbn [selection set_sizes set_selection].
      apply giveBack_takeFrom; lia. }
    split.
    { unfold r'. cbn [selection set_sizes set_selection].
      apply (Forall2_maxExtra_eq (fun cap v => cap * coeff R <= v)
               (selection r)); [exact F1 | exact Hfit]. }
    destruct Hwin as [W0 [W1 [W2 [W3 W4]]]].
    unfold windowOK. rewrite (baseSum_zero _ Hbz').
    rewrite (baseSum_zero _ Hbz) in W1, W2, W3, W4.
    unfold r'. cbn [currentSize currentMaxSize set_sizes].
    repeat split; try lia; nia.
  - injection Hrun as <- <-.
    exists (set_selection r (setExtras (selection r)
                               (repeat 0 (length (selection r))))), V.
    split; [reflexivity|].
    assert (Hlz : length (repeat 0 (length (selection r)))
                  = length (selection r)) by apply repeat_length.
    destruct (setExtras_fields (selection r) _ Hlz) as [F1 [F2 F3]].
    split; [eapply rowFixed_trans; [exact Hfix|];
            apply rowFixed_set_selection|].
    cbn [selection set_selection].
    split; [rewrite setExtras_length; lia|].
    split; [apply (Forall_base_eq _ _ (fun z => z = 0) F2 Hbz)|].
    reflexivity.
Qed.

Lemma bag_nonneg (c : Z) (sel : list Select) (bag : list Z) :
  Forall selOK sel -> length sel = length bag ->
  Forall2 (fun s v => maxExtra s * c <= v) sel (giveBack c sel bag) ->
  0 < c -> Forall (fun t => 0 <= t) bag.
Proof.
  intros H. revert bag. induction H as [|s sel Hs _ IH];
    intros [|b bag] Hl Hf Hc; simpl in Hl; try discriminate;
    [constructor|].
  rewrite giveBack_cons in Hf. inversion Hf; subst.
  destruct Hs as [Hs1 Hs2]. constructor; [nia|].
  apply IH; [lia | assumption | assumption].
Qed.

Lemma simple_active_entry (Rs : list Row) (m : nat) (k : nat) (r : Row)
    (V bag : list Z) :
  staticRows Rs -> (k < length Rs)%nat ->
  activeSimpleAt Rs m k r V bag ->
  entrySimple Rs m (S k) bag.
Proof.
  intros Hst Hk [[Hfix [Hok [Hbz [Hgb [Hfit Hwin]]]]] HlV].
  destruct (nth_error Rs k) as [R|] eqn:HR;
    [|apply nth_error_None in HR; lia].
  rewrite (nth_error_nth _ _ emptyRow HR) in *.
  destruct (Hst k R HR) as [HcR [HmR [Hp1 [Hp2 [HL1 HL2]]]]].
  destruct Hok as [Hl [Hw [Hs [Hcs Hcm]]]].
  assert (Hlb : length bag = m).
  { rewrite <- HlV, <- Hgb, giveBack_length; lia. }
  split; [exact Hlb|]. split.
  - apply (bag_nonneg (coeff R) (selection r)); try assumption.
    + apply within_selOK. exact Hw.
    + rewrite Hgb. exact Hfit.
  - unfold leaveBounds. rewrite <- HL1, <- HL2.
    pose proof (zsum_giveBack (coeff R) _ _ Hl) as Hz.
    rewrite Hgb, Hs in Hz.
    destruct Hwin as [W0 [W1 [W2 [W3 W4]]]].
    rewrite (baseSum_zero _ Hbz) in W1, W2, W3, W4. nia.
Qed.

Lemma simple_driver (Rs : list Row) (m : nat) (perm : list nat)
    (mcv : Z) (V0 : list Z) (fuel : nat) (k : nat) (ff : bool)
    (d : DiophantineSystem) (b : bool)
    (d' : DiophantineSystem) :
  staticRows Rs ->
  (S k < length Rs)%nat ->
  driverInv (activeSimpleAt Rs m) (idleSimple Rs m) (entrySimple Rs m)
    (sysIs false perm mcv) (length Rs) V0 (if ff then k else S k) d ->
  driverLoop solveRowSimple fuel (length Rs - 2) k ff d = Done (b, d') ->
  driverInv (activeSimpleAt Rs m) (idleSimple Rs m) (entrySimple Rs m)
    (sysIs false perm mcv) (length Rs) V0
    (if b then (length Rs - 1)%nat else O) d'.
Proof.
  intros Hst Hk Hinv Hrun.
  assert (HR : forall j, (j < length Rs)%nat ->
                 0 < coeff (nth j Rs emptyRow)
                 /\ 0 <= minSize (nth j Rs emptyRow)).
  { intros j Hj. destruct (nth_error Rs j) as [R|] eqn:E;
      [|apply nth_error_None in E; lia].
    rewrite (nth_error_nth _ _ emptyRow E).
    destruct (Hst j R E) as [H1 [H2 _]]. split; lia. }
  apply (driver_ok solveRowSimple (length Rs) (activeSimpleAt Rs m)
           (idleSimple Rs m) (entrySimple Rs m) (sysIs false perm mcv) V0)
    with (fuel := fuel) (k := k) (ff := ff) (d := d);
    try assumption.
  - intros d0 k0 r cols H. exact H.
  - intros d0 k0 r rn b0 d0' Hk0 _ Hn1 Hn2 [I1 [I2 I3]] _ [E1 [E2 E3]] Hs.
    destruct (HR k0) as [Hc Hm]; [lia|].
    destruct (simple_first_active _ d0 d0' k0 r b0 Hc Hm Hn1 I1
                ltac:(lia) I3 E2 Hs)
      as [r' [bag' [Hd [A1 [A2 [A3 A4]]]]]].
    exists r', bag'. split; [exact Hd|]. destruct b0.
    + split; [exact A4 | exact E1].
    + split; [|exact A4]. split; [exact A1|]. split; [lia | exact A3].
  - intros d0 k0 r rn V b0 d0' Hk0 _ Hn1 Hn2 [Hact HlV] _ _ Hs.
    destruct (HR k0) as [Hc Hm]; [lia|].
    destruct (simple_next_active _ d0 d0' k0 r V b0 Hc Hn1 Hact Hs)
      as [r' [bag' [Hd [A1 [A2 [A3 A4]]]]]].
    exists r', bag'. split; [exact Hd|]. destruct b0.
    + split; [exact A4 | exact HlV].
    + split; [|exact A4]. split; [exact A1|]. split; [lia | exact A3].
  - intros k0 r V bag Hk0 _ Hact.
    apply (simple_active_entry Rs m k0 r V bag Hst); [lia | exact Hact].
Qed.

(* ----------------------------------------------------------------- *)
(** ** The rows of the complex case *)

Lemma zsum_baseOn (c : Z) (sel : list Select) (bag : list Z) :
  length sel = length bag ->
  zsum (baseOn c sel bag) = zsum bag + baseSum sel * c.
Proof.
  revert bag. induction sel as [|s sel IH]; intros [|b bag] Hl;
    simpl in Hl; try discriminate; [reflexivity|].
  unfold baseOn, baseSum in *. simpl map. rewrite !zsum_cons, IH by lia.
  simpl. ring.
Qed.

Lemma zsum_entryBag (c : Z) (sel : list Select) (bag : list Z) :
  length sel = length bag ->
  zsum (entryBag c sel bag)
  = zsum bag + (baseSum sel + zsum (map extra sel)) * c.
Proof.
  intros Hl. unfold entryBag.
  rewrite zsum_baseOn by (rewrite giveBack_length; lia).
  rewrite zsum_giveBack by assumption. ring.
Qed.

Lemma complex_active_entry (Rs : list Row) (m : nat) (mcv : Z) (k : nat)
    (r : Row) (V bag : list Z) :
  staticRows Rs -> (k < length Rs)%nat ->
  activeComplexAt Rs m mcv k r V bag ->
  entryComplex Rs m (S k) bag.
Proof.
  intros Hst Hk [[Hfix [Hw [Hg [Hs [He [Hb [HVm [Hcm Hwin]]]]]]]] HlV].
  destruct (nth_error Rs k) as [R|] eqn:HR;
    [|apply nth_error_None in HR; lia].
  rewrite (nth_error_nth _ _ emptyRow HR) in *.
  destruct (Hst k R HR) as [HcR [HmR [Hp1 [Hp2 [HL1 HL2]]]]].
  pose proof (Forall2_length Hw) as Hl.
  assert (Hlb : length bag = m).
  { rewrite <- HlV, <- He. unfold entryBag, baseOn.
    rewrite length_map, length_combine, giveBack_length; lia. }
  split; [exact Hlb|]. split; [exact Hg|].
  unfold leaveBounds. rewrite <- HL1, <- HL2.
  pose proof (zsum_entryBag (coeff R) _ _ Hl) as Hz.
  rewrite He, Hs in Hz.
  destruct Hwin as [W0 [W1 [W2 [W3 W4]]]]. nia.
Qed.

Lemma complex_driver (Rs : list Row) (m : nat) (perm : list nat) (mcv : Z)
    (V0 : list Z)
    (fuel0 fuel : nat) (k : nat) (ff : bool) (d : DiophantineSystem)
    (b : bool) (d' : DiophantineSystem) :
  staticRows Rs -> tablesOK mcv Rs -> 0 <= mcv ->
  (S k < length Rs)%nat ->
  driverInv (activeComplexAt Rs m mcv) (idleComplex Rs m)
    (entryComplex Rs m) (sysIs true perm mcv) (length Rs) V0
    (if ff then k else S k) d ->
  driverLoop (solveRowComplex fuel0) fuel (length Rs - 2) k ff d
  = Done (b, d') ->
  driverInv (activeComplexAt Rs m mcv) (idleComplex Rs m)
    (entryComplex Rs m) (sysIs true perm mcv) (length Rs) V0
    (if b then (length Rs - 1)%nat else O) d'.
Proof.
  intros Hst Htab Hmcv Hk Hinv Hrun.
  assert (Hpos : Forall (fun r => 0 < coeff r) Rs).
  { apply Forall_forall. intros R HR. apply In_nth_error in HR.
    destruct HR as [j Hj]. destruct (Hst j R Hj) as [H _]. exact H. }
  assert (HR : forall j, (S j < length Rs)%nat ->
            exists R Rn,
              nth_error Rs j = Some R /\ nth_error Rs (S j) = Some Rn
              /\ nth j Rs emptyRow = R /\ nth (S j) Rs emptyRow = Rn).
  { intros j Hj.
    destruct (nth_error Rs j) as [R|] eqn:E1;
      [|apply nth_error_None in E1; lia].
    destruct (nth_error Rs (S j)) as [Rn|] eqn:E2;
      [|apply nth_error_None in E2; lia].
    exists R, Rn. repeat split.
    - apply (nth_error_nth _ _ emptyRow E1).
    - apply (nth_error_nth _ _ emptyRow E2). }
  apply (driver_ok (solveRowComplex fuel0) (length Rs)
           (activeComplexAt Rs m mcv) (idleComplex Rs m)
           (entryComplex Rs m) (sysIs true perm mcv) V0)
    with (fuel := fuel) (k := k) (ff := ff) (d := d);
    try assumption.
  - intros d0 k0 r cols H. exact H.
  - intros d0 k0 r rn b0 d0' Hk0 [_ [_ [_ [_ Hsys]]]] Hn1 Hn2 [I1 [I2 I3]]
           [J1 [J2 J3]] [E1 [E2 E3]] Hs.
    destruct (HR k0 Hk0) as [R [Rn [HR1 [HR2 [HR3 HR4]]]]].
    rewrite HR3 in *. rewrite HR4 in *.
    destruct (row_tables _ _ _ _ _ Htab Hpos HR1 HR2) as [T1 [T2 [T3 T4]]].
    destruct (Hst k0 R HR1) as [HcR _].
    assert (Hsol : soluble rn = soluble Rn)
      by (destruct J1 as [_ [_ [_ [_ [_ [_ [_ [_ H]]]]]]]]; exact H).
    destruct (solveRowComplex_first mcv R (soluble Rn) _ Hmcv HcR T1 T2 T3
                T4 fuel0 d0 k0 r rn Hn1 Hn2 Hsol Hsys I1 ltac:(lia) E2)
      as [Hout | [b1 [r' [bag' [Hrun1 [A1 [A2 [A3 A4]]]]]]]];
      [congruence|].
    rewrite Hrun1 in Hs. injection Hs as <- <-.
    exists r', bag'. split; [reflexivity|]. destruct b1.
    + split; [|exact E1]. unfold activeComplexAt. rewrite HR3, HR4.
      apply A3. reflexivity.
    + split; [|apply A4; reflexivity].
      unfold idleComplex. rewrite HR3. split; [exact A1|].
      split; [lia|]. intros Hlast. lia.
  - intros d0 k0 r rn V b0 d0' Hk0 [_ [_ [_ [_ Hsys]]]] Hn1 Hn2 [Hact HlV]
           [J1 [J2 J3]] _ Hs.
    destruct (HR k0 Hk0) as [R [Rn [HR1 [HR2 [HR3 HR4]]]]].
    rewrite HR3 in *. rewrite HR4 in *.
    destruct (row_tables _ _ _ _ _ Htab Hpos HR1 HR2) as [T1 [T2 [T3 T4]]].
    destruct (Hst k0 R HR1) as [HcR _].
    assert (Hsol : soluble rn = soluble Rn)
      by (destruct J1 as [_ [_ [_ [_ [_ [_ [_ [_ H]]]]]]]]; exact H).
    destruct (solveRowComplex_next mcv R (soluble Rn) HcR T4 fuel0 d0 k0 r
                rn V Hn1 Hn2 Hsol Hsys Hact)
      as [Hout | [b1 [r' [bag' [Hrun1 [A1 [A2 [A3 A4]]]]]]]];
      [congruence|].
    rewrite Hrun1 in Hs. injection Hs as <- <-.
    exists r', bag'. split; [reflexivity|]. destruct b1.
    + split; [|exact HlV]. rewrite HR3, HR4.
      apply A3. reflexivity.
    + split; [|apply A4; reflexivity].
      unfold idleComplex. rewrite HR3. split; [exact A1|].
      split; [lia|]. intros Hlast. lia.
  - intros k0 r V bag Hk0 _ Hact.
    apply (complex_active_entry Rs m mcv k0 r V bag Hst); [lia | exact Hact].
Qed.

(* ----------------------------------------------------------------- *)
(** ** What the state of the rows means *)

Lemma nth_entryBag (c : Z) (sel : list Select) (bag : list Z) (j : nat) :
  length sel = length bag ->
  nth j (entryBag c sel bag) 0
  = nth j bag 0
    + (base (nth j sel (mkSelect 0 0 0))
       + extra (nth j sel (mkSelect 0 0 0))) * c.
Proof.
  revert bag j. induction sel as [|s sel IH]; intros [|b bag] j Hl;
    simpl in Hl; try discriminate.
  - destruct j; simpl; ring.
  - destruct j as [|j].
    + simpl. ring.
    + specialize (IH bag j ltac:(lia)). unfold entryBag, baseOn, giveBack in *.
      simpl. exact IH.
Qed.

Lemma baseOn_zero (c : Z) (sel : list Select) (bag : list Z) :
  length sel = length bag ->
  Forall (fun s => base s = 0) sel -> baseOn c sel bag = bag.
Proof.
  revert bag. induction sel as [|s sel IH]; intros [|b bag] Hl Hz;
    simpl in Hl; try discriminate; [reflexivity|].
  inversion Hz as [|? ? Hs Hz']; subst. unfold baseOn in *. simpl.
  rewrite Hs, IH by (lia || assumption). f_equal. ring.
Qed.

Lemma rowTotal_split (r : Row) :
  rowTotal r = baseSum (selection r) + zsum (map extra (selection r)).
Proof.
  unfold rowTotal, baseSum. induction (selection r) as [|s sel IH];
    [reflexivity|].
  simpl map. rewrite !zsum_cons, IH. ring.
Qed.

Lemma activeComplex_sem (mcv : Z) (t2 : list Soluble) (R r : Row)
    (V bag : list Z) :
  activeComplex mcv t2 R r V bag -> rowSem R r V bag.
Proof.
  intros [Hfix [Hw [Hg [Hs [He [Hb [HVm [Hcm Hwin]]]]]]]].
  pose proof (Forall2_length Hw) as Hl.
  assert (HlV : length V = length bag).
  { rewrite <- He. unfold entryBag, baseOn.
    rewrite length_map, length_combine, giveBack_length; lia. }
  split; [exact Hfix|]. split; [lia|]. split; [lia|]. split.
  - intros j. rewrite <- He. apply nth_entryBag. exact Hl.
  - rewrite rowTotal_split, Hs.
    destruct Hwin as [W0 [W1 [W2 _]]]. lia.
Qed.

Lemma activeSimple_sem (R r : Row) (V bag : list Z) :
  activeSimple R r V bag -> rowSem R r V bag.
Proof.
  intros [Hfix [[Hl [Hwi [Hs [Hc1 Hc2]]]] [Hz [Hg [Hfit Hwin]]]]].
  assert (He : entryBag (coeff R) (selection r) bag = V).
  { unfold entryBag. rewrite baseOn_zero; [exact Hg | | exact Hz].
    rewrite giveBack_length; lia. }
  assert (HlV : length V = length bag).
  { rewrite <- Hg. apply giveBack_length. exact Hl. }
  split; [exact Hfix|]. split; [lia|]. split; [lia|]. split.
  - intros j. rewrite <- He. apply nth_entryBag. exact Hl.
  - rewrite rowTotal_split, Hs.
    destruct Hwin as [W0 [W1 [W2 _]]]. lia.
Qed.

Lemma seq_snoc (a : nat) : seq 0 (S a) = seq 0 a ++ [a].
Proof. rewrite seq_S. reflexivity. Qed.

Lemma activeUpTo_sem (Active : nat -> Row -> list Z -> list Z -> Prop)
    (Entry : nat -> list Z -> Prop) (Rs : list Row) (V0 : list Z) :
  (forall k r V bag, Active k r V bag ->
     rowSem (nth k Rs emptyRow) r V bag) ->
  forall a rs bag,
    activeUpTo Active Entry a rs V0 bag ->
    length bag = length V0
    /\ (forall j,
          nth j V0 0
          = nth j bag 0
            + zsum (map (fun k => cell (nth k rs emptyRow) j
                                  * coeff (nth k Rs emptyRow))
                      (seq 0 a)))
    /\ (forall k, (k < a)%nat ->
          rowFixed (nth k Rs emptyRow) (nth k rs emptyRow)
          /\ length (selection (nth k rs emptyRow)) = length V0
          /\ minSize (nth k Rs emptyRow) <= rowTotal (nth k rs emptyRow)
             <= maxSize (nth k Rs emptyRow)).
Proof.
  intros Hsem. induction a as [|a IH]; intros rs bag H.
  - cbn [activeUpTo] in H. subst bag. split; [reflexivity|]. split.
    + intros j. simpl. ring.
    + intros k Hk. lia.
  - cbn [activeUpTo] in H. destruct H as [V [r [H1 [H2 [H3 H4]]]]].
    destruct (IH rs V H2) as [L1 [L2 L3]].
    destruct (Hsem a r V bag H4) as [S1 [S2 [S3 [S4 S5]]]].
    pose proof (nth_error_nth _ _ emptyRow H1) as Hn.
    split; [lia|]. split.
    + intros j. rewrite seq_snoc, map_app, zsum_app. simpl map.
      rewrite zsum_cons. rewrite Hn, (L2 j), (S4 j). simpl. ring.
    + intros k Hk. destruct (Nat.eq_dec k a) as [->|Hne].
      * rewrite Hn. split; [exact S1|]. split; [lia | exact S5].
      * apply L3. lia.
Qed.

(* ----------------------------------------------------------------- *)
(** ** The last row *)

Lemma fillLastSimple_ok (sel : list Select) (cols : list Z) :
  length sel = length cols ->
  exists sel',
    fillLastSimple sel cols = Done sel'
    /\ map base sel' = map base sel
    /\ map extra sel' = cols.
Proof.
  revert sel. induction cols as [|t cols IH]; intros [|s sel] Hl;
    simpl in Hl; try discriminate.
  - exists []. auto.
  - destruct (IH sel ltac:(lia)) as [sel' [H1 [H2 H3]]].
    exists (set_extra s t :: sel'). simpl. rewrite H1. simpl.
    rewrite H2, H3. auto.
Qed.

Lemma fillLastComplex_ok (mcv c mx : Z) (tl : list Soluble) :
  0 <= mcv ->
  tableOK (solubleBy []) mcv c mx tl ->
  forall sel cols sel',
    length sel = length cols ->
    fillLastComplex tl sel cols = Done sel' ->
    map base sel' = map base sel
    /\ Forall2 (fun s v => extra s * c = v) sel' cols.
Proof.
  intros Hmcv [Hlen Hent]. intros sel cols. revert sel.
  induction cols as [|t cols IH]; intros [|s sel] sel' Hl Hrun;
    simpl in Hl; try discriminate.
  - simpl in Hrun. injection Hrun as <-. auto.
  - simpl in Hrun. unfold readSol in Hrun.
    destruct (getSol tl t) as [x|] eqn:Hx; [|discriminate].
    cbn [bind] in Hrun.
    destruct (min x =? INSOLUBLE) eqn:Hm; [discriminate|].
    apply Z.eqb_neq in Hm.
    destruct (fillLastComplex tl sel cols) as [sel2| |] eqn:Hrec;
      try discriminate.
    cbn [bind] in Hrun. injection Hrun as <-.
    destruct (IH sel sel2 ltac:(lia) Hrec) as [H1 H2].
    assert (Hs : sol2 tl t) by (exists x; auto).
    destruct (sol2_range _ _ Hs) as [Ht0 Ht1].
    assert (Hx' : solAt tl t = x) by (unfold solAt; rewrite Hx; reflexivity).
    assert (Ht : 0 <= t <= mcv) by lia.
    specialize (Hent t Ht). rewrite Hx' in Hent.
    destruct Hent as [[E1 _] | [[_ E1] _]]; [contradiction|].
    apply solubleBy_nil in E1.
    split.
    + simpl. rewrite H1. reflexivity.
    + constructor; [simpl; lia | exact H2].
Qed.

Lemma fill_sem (c : Z) (sel : list Select) (bag : list Z) :
  Forall (fun s => base s = 0) sel ->
  Forall2 (fun s v => extra s * c = v) sel bag ->
  (forall j,
     nth j bag 0
     = (base (nth j sel (mkSelect 0 0 0))
        + extra (nth j sel (mkSelect 0 0 0))) * c)
  /\ zsum bag = zsum (map (fun s => base s + extra s) sel) * c.
Proof.
  intros Hz H. induction H as [|s v sel bag Hsv H IH].
  - split; [intros [|j]; simpl; ring | reflexivity].
  - inversion Hz as [|? ? Hs Hz']; subst.
    destruct (IH Hz') as [I1 I2]. split.
    + intros [|j]; simpl; [rewrite Hs; ring | apply I1].
    + simpl map. rewrite !zsum_cons, I2, Hs. ring.
Qed.

Lemma Forall_map_base (sel sel' : list Select) :
  map base sel' = map base sel ->
  Forall (fun s => base s = 0) sel -> Forall (fun s => base s = 0) sel'.
Proof.
  intros He H. apply (proj1 (Forall_map base (fun b => b = 0) sel')).
  rewrite He. apply (proj2 (Forall_map base (fun b => b = 0) sel)). exact H.
Qed.

Lemma lastRow_filled (Active : nat -> Row -> list Z -> list Z -> Prop)
    (Idle : nat -> Row -> Prop) (Entry : nat -> list Z -> Prop)
    (Sys : DiophantineSystem -> Prop) (n : nat) (V0 : list Z)
    (d : DiophantineSystem) (rl : Row) (sel' : list Select) :
  (forall d k r cols, Sys d -> Sys (putRow d k r cols)) ->
  (1 <= n)%nat ->
  nth_error (rows d) (n - 1) = Some rl ->
  Idle (n - 1)%nat (set_selection rl sel') ->
  driverInv Active Idle Entry Sys n V0 (n - 1) d ->
  driverInv Active Idle Entry Sys n V0 (n - 1)
    (putRow d (n - 1) (set_selection rl sel') (columns d)).
Proof.
  intros HSys Hn Hrl Hidle [Hlen [Hsys [Hact [Hid Hent]]]].
  split; [simpl; rewrite length_upd; exact Hlen|].
  split; [apply HSys; exact Hsys|].
  split; [simpl; apply activeUpTo_upd; [lia | exact Hact]|].
  split; [|exact Hent].
  simpl. apply idleFrom_upd_at; [exact Hidle|].
  intros j r Hj Hr. exfalso.
  assert (j < length (rows d))%nat by (apply nth_error_Some; congruence).
  lia.
Qed.

Lemma last_row_static (Rs : list Row) :
  staticRows Rs -> (1 <= length Rs)%nat ->
  let R := nth (length Rs - 1) Rs emptyRow in
  0 < coeff R /\ 0 <= minSize R
  /\ forall bag, leaveBounds Rs (length Rs - 1) bag ->
       minSize R * coeff R <= zsum bag <= maxSize R * coeff R.
Proof.
  intros Hst Hn. cbn zeta.
  destruct (nth_error Rs (length Rs - 1)) as [R|] eqn:HR;
    [|apply nth_error_None in HR; lia].
  rewrite (nth_error_nth _ _ emptyRow HR).
  destruct (Hst _ R HR) as [Hc [Hm [Hp1 [Hp2 _]]]].
  split; [exact Hc|]. split; [exact Hm|].
  intros bag. unfold leaveBounds.
  rewrite (skipn_nth_error _ _ _ HR).
  replace (S (length Rs - 1)) with (length Rs) by lia.
  rewrite skipn_all. unfold sumOfMinProducts, sumOfMaxProducts. simpl.
  lia.
Qed.

Lemma solveLastRowSimple_ok (Rs : list Row) (m : nat) (perm : list nat)
    (mcv : Z) (V0 : list Z) (d d2 : DiophantineSystem) :
  staticRows Rs -> (1 <= length Rs)%nat ->
  coeff (nth (length Rs - 1) Rs emptyRow) = 1 ->
  driverInv (activeSimpleAt Rs m) (idleSimple Rs m) (entrySimple Rs m)
    (sysIs false perm mcv) (length Rs) V0 (length Rs - 1) d ->
  solveLastRowSimple d = Done d2 ->
  driverInv (activeSimpleAt Rs m) (idleSimple Rs m) (entrySimple Rs m)
    (sysIs false perm mcv) (length Rs) V0 (length Rs - 1) d2
  /\ lastSem (nth (length Rs - 1) Rs emptyRow)
       (nth (length Rs - 1) (rows d2) emptyRow) (columns d2).
Proof.
  intros Hst Hn Hc1 Hinv Hrun.
  pose proof Hinv as [Hlen [Hsys [Hact [Hid Hent]]]].
  destruct (last_row_static Rs Hst Hn) as [Hc [Hm Hb]].
  unfold solveLastRowSimple, lastIndex in Hrun. rewrite Hlen in Hrun.
  destruct (nth_error (rows d) (length Rs - 1)) as [rl|] eqn:Hrl;
    [|apply nth_error_None in Hrl; lia].
  rewrite (getAt_nth _ _ _ Hrl) in Hrun. cbn [bind] in Hrun.
  destruct (Hid _ rl (Nat.le_refl _) Hrl) as [I1 [I2 I3]].
  destruct Hent as [E1 [E2 E3]].
  destruct (fillLastSimple_ok (selection rl) (columns d) ltac:(lia))
    as [sel' [F1 [F2 F3]]].
  rewrite F1 in Hrun. cbn [bind] in Hrun. injection Hrun as <-.
  assert (Hz : Forall (fun s => base s = 0) sel')
    by (apply (Forall_map_base _ _ F2 I3)).
  assert (Hl' : length sel' = m).
  { rewrite <- (length_map extra), F3. exact E1. }
  assert (Hfix' : rowFixed (nth (length Rs - 1) Rs emptyRow)
                    (set_selection rl sel')).
  { apply (rowFixed_trans _ rl); [exact I1|].
    apply rowFixed_set_selection. }
  split.
  - apply (lastRow_filled _ _ _ _ _ _ d rl sel'); try assumption.
    + intros d0 k0 r cols H. exact H.
    + split; [exact Hfix'|]. split; [exact Hl' | exact Hz].
  - cbn [rows columns set_rows_columns].
    assert (Hlt : (length Rs - 1 < length (rows d))%nat) by lia.
    rewrite (nth_error_nth _ _ emptyRow
               (nth_error_upd_eq _ (set_selection rl sel') _ Hlt)).
    assert (HF : Forall2 (fun s v => extra s * 1 = v) sel' (columns d)).
    { rewrite <- F3. clear. induction sel' as [|s sel IH]; simpl;
        constructor; [lia | exact IH]. }
    destruct (fill_sem 1 sel' (columns d) Hz HF) as [G1 G2].
    split; [exact Hfix'|]. split; [simpl; lia|]. split.
    + intros j. rewrite Hc1. unfold cell. simpl. apply G1.
    + unfold rowTotal. simpl selection.
      specialize (Hb _ E3). rewrite Hc1 in Hb. lia.
Qed.

Lemma solveLastRowComplex_ok (Rs : list Row) (m : nat) (perm : list nat)
    (mcv : Z) (V0 : list Z) (d d2 : DiophantineSystem) :
  staticRows Rs -> tablesOK mcv Rs -> 0 <= mcv -> (1 <= length Rs)%nat ->
  driverInv (activeComplexAt Rs m mcv) (idleComplex Rs m)
    (entryComplex Rs m) (sysIs true perm mcv) (length Rs) V0
    (length Rs - 1) d ->
  solveLastRowComplex d = Done d2 ->
  driverInv (activeComplexAt Rs m mcv) (idleComplex Rs m)
    (entryComplex Rs m) (sysIs true perm mcv) (length Rs) V0
    (length Rs - 1) d2
  /\ lastSem (nth (length Rs - 1) Rs emptyRow)
       (nth (length Rs - 1) (rows d2) emptyRow) (columns d2).
Proof.
  intros Hst Htab Hmcv Hn Hinv Hrun.
  pose proof Hinv as [Hlen [Hsys [Hact [Hid Hent]]]].
  destruct (last_row_static Rs Hst Hn) as [Hc [Hm Hb]].
  unfold solveLastRowComplex, lastIndex in Hrun. rewrite Hlen in Hrun.
  destruct (nth_error (rows d) (length Rs - 1)) as [rl|] eqn:Hrl;
    [|apply nth_error_None in Hrl; lia].
  rewrite (getAt_nth _ _ _ Hrl) in Hrun. cbn [bind] in Hrun.
  destruct (Hid _ rl (Nat.le_refl _) Hrl) as [I1 [I2 I3]].
  specialize (I3 ltac:(lia)).
  destruct Hent as [E1 [E2 E3]].
  destruct (fillLastComplex (soluble rl) (selection rl) (columns d))
    as [sel'| |] eqn:Hfill; try discriminate.
  cbn [bind] in Hrun. injection Hrun as <-.
  destruct (nth_error Rs (length Rs - 1)) as [R|] eqn:HR;
    [|apply nth_error_None in HR; lia].
  pose proof (nth_error_nth _ _ emptyRow HR) as HRn.
  rewrite HRn in *.
  pose proof (tablesOK_nth _ _ _ _ Htab HR) as Ht.
  replace (S (length Rs - 1)) with (length Rs) in Ht by lia.
  rewrite skipn_all in Ht.
  assert (Hsol : soluble rl = soluble R)
    by (destruct I1 as [_ [_ [_ [_ [_ [_ [_ [_ H]]]]]]]]; exact H).
  rewrite Hsol in Hfill.
  assert (Hll : length (selection rl) = length (columns d)) by lia.
  destruct (fillLastComplex_ok _ _ _ _ Hmcv Ht _ _ _ Hll Hfill)
    as [F2 F3].
  assert (Hz : Forall (fun s => base s = 0) sel')
    by (apply (Forall_map_base _ _ F2 I3)).
  assert (Hl' : length sel' = m).
  { rewrite (Forall2_length F3). exact E1. }
  assert (Hfix' : rowFixed R (set_selection rl sel')).
  { apply (rowFixed_trans _ rl); [exact I1|].
    apply rowFixed_set_selection. }
  split.
  - apply (lastRow_filled _ _ _ _ _ _ d rl sel'); try assumption.
    + intros d0 k0 r cols H. exact H.
    + unfold idleComplex. rewrite HRn.
      split; [exact Hfix'|]. split; [exact Hl'|]. intros _. exact Hz.
  - cbn [rows columns set_rows_columns].
    assert (Hlt : (length Rs - 1 < length (rows d))%nat) by lia.
    rewrite (nth_error_nth _ _ emptyRow
               (nth_error_upd_eq _ (set_selection rl sel') _ Hlt)).
    destruct (fill_sem (coeff R) sel' (columns d) Hz F3) as [G1 G2].
    split; [exact Hfix'|]. split; [simpl; lia|]. split.
    + intros j. unfold cell. simpl. apply G1.
    + unfold rowTotal. simpl selection.
      specialize (Hb _ E3). nia.
Qed.

(* ----------------------------------------------------------------- *)
(** ** The drivers and [solve] *)

Lemma solveSimple_ok (Rs : list Row) (perm : list nat) (mcv : Z)
    (V0 : list Z) (fuel : nat) (d : DiophantineSystem) (ff : bool)
    (d' : DiophantineSystem) :
  prepared false Rs mcv ->
  searchInv false Rs perm mcv V0 (if ff then O else (length Rs - 1)%nat) d ->
  solveSimple fuel d ff = Done (true, d') ->
  solvedState false Rs perm mcv V0 d'.
Proof.
  intros [Hst [Hn [Hmcv Hc1]]] Hinv Hrun. unfold searchInv in Hinv.
  assert (Hlen : length (rows d) = length Rs) by (destruct Hinv; assumption).
  unfold solveSimple in Hrun. rewrite Hlen in Hrun.
  assert (Hfin : forall d1,
            driverInv (activeSimpleAt Rs (length V0))
              (idleSimple Rs (length V0)) (entrySimple Rs (length V0))
              (sysIs false perm mcv) (length Rs) V0 (length Rs - 1) d1 ->
            solveLastRowSimple d1 = Done d' ->
            solvedState false Rs perm mcv V0 d').
  { intros d1 H1 H2. unfold solvedState, searchInv.
    apply (solveLastRowSimple_ok Rs _ perm mcv V0 d1 d' Hst Hn Hc1 H1 H2). }
  destruct (1 <? length Rs)%nat eqn:En.
  - apply Nat.ltb_lt in En.
    destruct (driverLoop solveRowSimple fuel (length Rs - 2)
                (if ff then O else (length Rs - 2)%nat) ff d)
      as [[found d1]| |] eqn:Hloop; try discriminate.
    cbn [bind] in Hrun.
    assert (Hd1 : driverInv (activeSimpleAt Rs (length V0))
              (idleSimple Rs (length V0)) (entrySimple Rs (length V0))
              (sysIs false perm mcv) (length Rs) V0
              (if found then (length Rs - 1)%nat else O) d1).
    { apply (simple_driver Rs (length V0) perm mcv V0 fuel
               (if ff then O else (length Rs - 2)%nat) ff d found d1 Hst);
        [destruct ff; lia | | exact Hloop].
      destruct ff; [exact Hinv|].
      replace (S (length Rs - 2)) with (length Rs - 1)%nat by lia.
      exact Hinv. }
    destruct found; [|discriminate].
    destruct (solveLastRowSimple d1) as [d2| |] eqn:Hlast; try discriminate.
    cbn [bind] in Hrun. injection Hrun as <-.
    apply (Hfin d1 Hd1 Hlast).
  - apply Nat.ltb_ge in En. cbn [bind] in Hrun.
    destruct ff; [|discriminate].
    destruct (solveLastRowSimple d) as [d2| |] eqn:Hlast; try discriminate.
    cbn [bind] in Hrun. injection Hrun as <-.
    apply (Hfin d); [|exact Hlast].
    replace (length Rs - 1)%nat with O by lia. exact Hinv.
Qed.

Lemma solveComplex_ok (Rs : list Row) (perm : list nat) (mcv : Z)
    (V0 : list Z) (fuel : nat) (d : DiophantineSystem) (ff : bool)
    (d' : DiophantineSystem) :
  prepared true Rs mcv ->
  searchInv true Rs perm mcv V0 (if ff then O else (length Rs - 1)%nat) d ->
  solveComplex fuel d ff = Done (true, d') ->
  solvedState true Rs perm mcv V0 d'.
Proof.
  intros [Hst [Hn [Hmcv Htab]]] Hinv Hrun. unfold searchInv in Hinv.
  assert (Hlen : length (rows d) = length Rs) by (destruct Hinv; assumption).
  unfold solveComplex in Hrun. rewrite Hlen in Hrun.
  assert (Hfin : forall d1,
            driverInv (activeComplexAt Rs (length V0) mcv)
              (idleComplex Rs (length V0)) (entryComplex Rs (length V0))
              (sysIs true perm mcv) (length Rs) V0 (length Rs - 1) d1 ->
            solveLastRowComplex d1 = Done d' ->
            solvedState true Rs perm mcv V0 d').
  { intros d1 H1 H2. unfold solvedState, searchInv.
    apply (solveLastRowComplex_ok Rs _ perm mcv V0 d1 d' Hst Htab Hmcv Hn
             H1 H2). }
  destruct (1 <? length Rs)%nat eqn:En.
  - apply Nat.ltb_lt in En.
    destruct (driverLoop (solveRowComplex fuel) fuel (length Rs - 2)
                (if ff then O else (length Rs - 2)%nat) ff d)
      as [[found d1]| |] eqn:Hloop; try discriminate.
    cbn [bind] in Hrun.
    assert (Hd1 : driverInv (activeComplexAt Rs (length V0) mcv)
              (idleComplex Rs (length V0)) (entryComplex Rs (length V0))
              (sysIs true perm mcv) (length Rs) V0
              (if found then (length Rs - 1)%nat else O) d1).
    { apply (complex_driver Rs (length V0) perm mcv V0 fuel fuel
               (if ff then O else (length Rs - 2)%nat) ff d found d1 Hst
               Htab Hmcv);
        [destruct ff; lia | | exact Hloop].
      destruct ff; [exact Hinv|].
      replace (S (length Rs - 2)) with (length Rs - 1)%nat by lia.
      exact Hinv. }
    destruct found; [|discriminate].
    destruct (solveLastRowComplex d1) as [d2| |] eqn:Hlast;
      try discriminate.
    cbn [bind] in Hrun. injection Hrun as <-.
    apply (Hfin d1 Hd1 Hlast).
  - apply Nat.ltb_ge in En. cbn [bind] in Hrun.
    destruct ff; [|discriminate].
    destruct (solveLastRowComplex d) as [d2| |] eqn:Hlast; try discriminate.
    cbn [bind] in Hrun. injection Hrun as <-.
    apply (Hfin d); [|exact Hlast].
    replace (length Rs - 1)%nat with O by lia. exact Hinv.
Qed.

Lemma searchInv_sys (cx : bool) (Rs : list Row) (perm : list nat) (mcv : Z)
    (V0 : list Z) (a : nat) (d : DiophantineSystem) :
  searchInv cx Rs perm mcv V0 a d -> sysIs cx perm mcv d.
Proof.
  unfold searchInv. destruct cx; intros [_ [H _]]; exact H.
Qed.

Lemma solve_next (cx : bool) (Rs : list Row) (perm : list nat) (mcv : Z)
    (V0 : list Z) (fuel : nat) (d d' : DiophantineSystem) :
  prepared cx Rs mcv ->
  solvedState cx Rs perm mcv V0 d ->
  solve fuel d = Done (true, d') ->
  solvedState cx Rs perm mcv V0 d'.
Proof.
  intros Hp [Hinv _] Hrun.
  destruct (searchInv_sys _ _ _ _ _ _ _ Hinv) as [S1 [S2 [S3 _]]].
  unfold solve in Hrun. rewrite S1 in Hrun. cbn [negb bind] in Hrun.
  rewrite S2, S3 in Hrun. destruct cx.
  - apply (solveComplex_ok Rs perm mcv V0 fuel d false d' Hp Hinv Hrun).
  - apply (solveSimple_ok Rs perm mcv V0 fuel d false d' Hp Hinv Hrun).
Qed.

Lemma solve_first (Rs : list Row) (V0 : list Z) (fuel : nat)
    (d0 d1 d' : DiophantineSystem) :
  closed d0 = false ->
  (length (rows d0) =? 0)%nat || (length (columns d0) =? 0)%nat = false ->
  precompute d0 = (true, d1) ->
  prepared (complex d1) Rs (maxColumnValue d1) ->
  searchInv (complex d1) Rs (rowPermute d1) (maxColumnValue d1) V0 O d1 ->
  solve fuel d0 = Done (true, d') ->
  solvedState (complex d1) Rs (rowPermute d1) (maxColumnValue d1) V0 d'.
Proof.
  intros Hcl Hne Hpre Hp Hinv Hrun.
  destruct (searchInv_sys _ _ _ _ _ _ _ Hinv) as [S1 [S2 [S3 _]]].
  unfold solve in Hrun. rewrite Hcl in Hrun. cbn [negb] in Hrun.
  rewrite Hne, Hpre in Hrun. cbn [negb bind] in Hrun.
  rewrite S2 in Hrun. destruct (complex d1).
  - apply (solveComplex_ok Rs _ _ V0 fuel d1 true d' Hp Hinv Hrun).
  - apply (solveSimple_ok Rs _ _ V0 fuel d1 true d' Hp Hinv Hrun).
Qed.

(* ----------------------------------------------------------------- *)
(** ** Declared systems and [precompute] *)

Lemma insertRows_fields (rs : list (Z * Z * Z)) (d : DiophantineSystem) :
  let d' := fold_left
              (fun d r => insertRow (fst (fst r)) (snd (fst r)) (snd r) d)
              rs d in
  rows d' = rows d ++ declaredRows (length (rows d)) rs
  /\ columns d' = columns d /\ rowPermute d' = rowPermute d
  /\ columnSum d' = columnSum d /\ maxColumnValue d' = maxColumnValue d
  /\ closed d' = closed d /\ complex d' = complex d
  /\ failed d' = failed d.
Proof.
  cbn zeta. revert d. induction rs as [|r rs IH]; intros d.
  - simpl. rewrite app_nil_r. repeat split.
  - simpl fold_left. destruct (IH (insertRow (fst (fst r)) (snd (fst r))
                                     (snd r) d))
      as [H1 [H2 [H3 [H4 [H5 [H6 [H7 H8]]]]]]].
    rewrite H1, H2, H3, H4, H5, H6, H7, H8. simpl.
    rewrite <- app_assoc, length_app. simpl.
    replace (length (rows d) + 1)%nat with (S (length (rows d))) by lia.
    repeat split.
Qed.

Lemma insertColumns_fields (cs : list Z) (d : DiophantineSystem) :
  let d' := fold_left (fun d v => insertColumn v d) cs d in
  rows d' = rows d
  /\ columns d' = columns d ++ cs /\ rowPermute d' = rowPermute d
  /\ columnSum d' = columnSum d + zsum cs
  /\ maxColumnValue d <= maxColumnValue d'
  /\ Forall (fun v => v <= maxColumnValue d') cs
  /\ closed d' = closed d /\ complex d' = complex d
  /\ failed d' = failed d.
Proof.
  cbn zeta. revert d. induction cs as [|v cs IH]; intros d.
  - simpl. rewrite app_nil_r. repeat split; try lia. constructor.
  - simpl fold_left. destruct (IH (insertColumn v d))
      as [H1 [H2 [H3 [H4 [H5 [H6 [H7 [H8 H9]]]]]]]].
    rewrite H1, H2, H3, H4, H7, H8, H9. simpl in *.
    rewrite <- app_assoc. simpl.
    assert (Hv : v <= (if maxColumnValue d <? v then v
                       else maxColumnValue d)
                 /\ maxColumnValue d
                    <= (if maxColumnValue d <? v then v
                        else maxColumnValue d)).
    { destruct (maxColumnValue d <? v) eqn:E;
        [apply Z.ltb_lt in E | apply Z.ltb_ge in E]; lia. }
    repeat split; try lia; try ring.
    constructor; [lia | exact H6].
Qed.

Lemma declare_fields (rs : list (Z * Z * Z)) (cs : list Z) :
  let d := declare rs cs in
  rows d = declaredRows 0 rs
  /\ columns d = cs /\ rowPermute d = []
  /\ columnSum d = zsum cs
  /\ 0 <= maxColumnValue d
  /\ Forall (fun v => v <= maxColumnValue d) cs
  /\ closed d = false /\ complex d = false /\ failed d = false.
Proof.
  cbn zeta. unfold declare.
  destruct (insertRows_fields rs newSystem)
    as [H1 [H2 [H3 [H4 [H5 [H6 [H7 H8]]]]]]].
  destruct (insertColumns_fields cs
              (fold_left
                 (fun d r => insertRow (fst (fst r)) (snd (fst r))
                               (snd r) d) rs newSystem))
    as [G1 [G2 [G3 [G4 [G5 [G6 [G7 [G8 G9]]]]]]]].
  rewrite G1, G2, G3, G4, G7, G8, G9, H1, H2, H3, H4, H6, H7, H8.
  rewrite H5 in G5. simpl in *.
  repeat split; try assumption.
Qed.

Lemma declaredRows_length (i : nat) (rs : list (Z * Z * Z)) :
  length (declaredRows i rs) = length rs.
Proof.
  revert i. induction rs as [|r rs IH]; intros i; simpl; auto.
Qed.

Lemma declaredRows_nth (rs : list (Z * Z * Z)) (i k : nat)
    (r : Z * Z * Z) :
  nth_error rs k = Some r ->
  nth_error (declaredRows i rs) k
  = Some (mkRow (i + k) (fst (fst r)) (snd (fst r)) (snd r)
            0 0 0 0 0 0 [] []).
Proof.
  revert i k. induction rs as [|r0 rs IH]; intros i [|k] H; simpl in H;
    try discriminate.
  - injection H as ->. simpl. rewrite Nat.add_0_r. reflexivity.
  - replace (i + S k)%nat with (S i + k)%nat by lia.
    simpl declaredRows. simpl nth_error. apply IH. exact H.
Qed.

Lemma declaredRows_names (i : nat) (rs : list (Z * Z * Z)) :
  map name (declaredRows i rs) = seq i (length rs).
Proof.
  revert i. induction rs as [|r rs IH]; intros i; simpl; [reflexivity|].
  rewrite IH. reflexivity.
Qed.

Lemma declaredRows_valid (i : nat) (rs : list (Z * Z * Z)) :
  Forall validRow rs -> Forall rowDeclared (declaredRows i rs).
Proof.
  intros H. revert i. induction H as [|r rs Hr _ IH]; intros i; simpl;
    constructor; [|apply IH].
  destruct Hr as [H1 H2]. unfold rowDeclared. simpl. auto.
Qed.

Lemma nth_upd_eq {A : Type} (i : nat) (x d : A) (l : list A) :
  (i < length l)%nat -> nth i (upd i x l) d = x.
Proof.
  intros H. apply nth_error_nth. apply nth_error_upd_eq. exact H.
Qed.

Lemma nth_upd_neq {A : Type} (i j : nat) (x d : A) (l : list A) :
  i <> j -> nth j (upd i x l) d = nth j l d.
Proof.
  revert i j. induction l as [|h t IH]; intros [|i] [|j] H; simpl;
    try congruence; auto.
Qed.

Lemma zsum_perm (l l' : list Z) : Permutation l l' -> zsum l = zsum l'.
Proof.
  induction 1 as [|x l l' _ IH|x y l|l l' l'' _ IH1 _ IH2].
  - reflexivity.
  - rewrite !zsum_cons, IH. reflexivity.
  - rewrite !zsum_cons. ring.
  - congruence.
Qed.

Lemma Forall2_nth_error_r {A B : Type} (Q : A -> B -> Prop) (l : list A)
    (l' : list B) (k : nat) (y : B) :
  Forall2 Q l l' -> nth_error l' k = Some y ->
  exists x, nth_error l k = Some x /\ Q x y.
Proof.
  intros H. revert k. induction H as [|a b l l' Hab _ IH]; intros [|k] Hk;
    simpl in Hk; try discriminate.
  - injection Hk as <-. exists a. auto.
  - apply IH. exact Hk.
Qed.

Lemma Forall2_nth_error_l {A B : Type} (Q : A -> B -> Prop) (l : list A)
    (l' : list B) (k : nat) (x : A) :
  Forall2 Q l l' -> nth_error l k = Some x ->
  exists y, nth_error l' k = Some y /\ Q x y.
Proof.
  intros H. revert k. induction H as [|a b l l' Hab _ IH]; intros [|k] Hk;
    simpl in Hk; try discriminate.
  - injection Hk as <-. exists b. auto.
  - apply IH. exact Hk.
Qed.

Lemma fillLeaves_totals (nc : nat) (rs : list Row) (i : nat)
    (perm : list nat) :
  let res := fillLeaves nc i rs perm in
  snd (fst res) = sumOfMinProducts (fst (fst (fst res)))
  /\ snd res = sumOfMaxProducts (fst (fst (fst res)))
  /\ length (snd (fst (fst res))) = length perm
  /\ forall k R,
       nth_error (fst (fst (fst res))) k = Some R ->
       minLeave R = sumOfMinProducts (skipn (S k) (fst (fst (fst res))))
       /\ maxLeave R
          = sumOfMaxProducts (skipn (S k) (fst (fst (fst res)))).
Proof.
  cbn zeta. revert i. induction rs as [|r rs IH]; intros i.
  - simpl. split; [reflexivity|]. split; [reflexivity|].
    split; [reflexivity|]. intros [|k] R H; discriminate.
  - simpl. specialize (IH (S i)).
    destruct (fillLeaves nc (S i) rs perm) as [[[rest' perm'] mn] mx].
    simpl in *. destruct IH as [I1 [I2 [I3 I4]]].
    unfold sumOfMinProducts, sumOfMaxProducts in *. simpl map.
    rewrite !zsum_cons. simpl.
    split; [lia|]. split; [lia|]. split; [rewrite length_upd; exact I3|].
    intros [|k] R H; simpl in H.
    + injection H as <-. simpl. auto.
    + apply (I4 k R H).
Qed.

Lemma fillLeaves_permute (nc : nat) (rs : list Row) :
  forall (i : nat) (perm : list nat),
    NoDup (map name rs) ->
    Forall (fun r => (name r < length perm)%nat) rs ->
    forall k r,
      nth_error rs k = Some r ->
      nth (name r) (snd (fst (fst (fillLeaves nc i rs perm)))) O
      = (i + k)%nat.
Proof.
  induction rs as [|r0 rs IH]; intros i perm Hnd Hlt [|k] r Hk;
    simpl in Hk; try discriminate.
  - injection Hk as ->. simpl.
    pose proof (fillLeaves_totals nc rs (S i) perm) as Ht. cbn zeta in Ht.
    destruct (fillLeaves nc (S i) rs perm) as [[[rest' perm'] mn] mx].
    simpl in *. destruct Ht as [_ [_ [Hl _]]].
    inversion Hlt; subst. rewrite nth_upd_eq by lia. lia.
  - simpl. inversion Hnd as [|? ? Hnin Hnd']; subst.
    inversion Hlt as [|? ? Hr0 Hlt']; subst.
    specialize (IH (S i) perm Hnd' Hlt' k r Hk).
    destruct (fillLeaves nc (S i) rs perm) as [[[rest' perm'] mn] mx].
    simpl in *. rewrite nth_upd_neq; [rewrite IH; lia|].
    intros Heq. apply Hnin. rewrite Heq. apply in_map.
    apply (nth_error_In _ _ Hk).
Qed.

Lemma fillLeaves_decl (nc : nat) (rs : list Row) (i : nat)
    (perm : list nat) :
  Forall2 sameDecl rs (fst (fst (fst (fillLeaves nc i rs perm)))).
Proof.
  revert i. induction rs as [|r rs IH]; intros i; simpl; [constructor|].
  specialize (IH (S i)).
  destruct (fillLeaves nc (S i) rs perm) as [[[rest' perm'] mn] mx].
  simpl in *. constructor; [|exact IH]. unfold sameDecl. simpl.
  repeat split.
Qed.

Lemma resize_length {A : Type} (n : nat) (d : A) (l : list A) :
  length (resize n d l) = n.
Proof.
  unfold resize. rewrite length_app, length_firstn, repeat_length. lia.
Qed.

Lemma fillLeaves_selection (nc : nat) (rs : list Row) (i : nat)
    (perm : list nat) :
  Forall (fun r => length (selection r) = nc
                   /\ Forall (fun s => base s = 0) (selection r))
    (fst (fst (fst (fillLeaves nc i rs perm)))).
Proof.
  revert i. induction rs as [|r rs IH]; intros i; simpl; [constructor|].
  specialize (IH (S i)).
  destruct (fillLeaves nc (S i) rs perm) as [[[rest' perm'] mn] mx].
  simpl in *. constructor; [|exact IH]. simpl. split.
  - rewrite length_map. apply resize_length.
  - apply (proj2 (Forall_map _ _ _)). apply Forall_forall. reflexivity.
Qed.

Lemma buildRows_decl (mcv : Z) (rs : list Row) :
  Forall2 sameRow rs (buildRows mcv rs).
Proof.
  pose proof (buildRows_fields mcv rs) as H.
  induction H as [|r r' l l' Hr _ IH]; constructor; [|exact IH].
  rewrite Hr. unfold sameRow, sameDecl. simpl. repeat split.
Qed.

Lemma sameRow_refl (l : list Row) : Forall2 sameRow l l.
Proof.
  induction l as [|r l IH]; constructor; [|exact IH].
  unfold sameRow, sameDecl. repeat split.
Qed.

Lemma products_transfer (Q : Row -> Row -> Prop) (l l' : list Row)
    (k : nat) :
  (forall r r', Q r r' -> minProduct r' = minProduct r
                          /\ maxProduct r' = maxProduct r) ->
  Forall2 Q l l' ->
  sumOfMinProducts (skipn k l') = sumOfMinProducts (skipn k l)
  /\ sumOfMaxProducts (skipn k l') = sumOfMaxProducts (skipn k l).
Proof.
  intros HQ H. revert k. induction H as [|r r' l l' Hr _ IH]; intros k.
  - rewrite !skipn_nil. auto.
  - destruct k as [|k]; [|apply IH].
    simpl skipn. destruct (IH O) as [I1 I2]. simpl skipn in I1, I2.
    destruct (HQ _ _ Hr) as [Q1 Q2].
    unfold sumOfMinProducts, sumOfMaxProducts in *. simpl map.
    rewrite !zsum_cons, I1, I2, Q1, Q2. auto.
Qed.

Lemma sameDecl_products (r r' : Row) :
  sameDecl r r' ->
  minProduct r' = minProduct r /\ maxProduct r' = maxProduct r.
Proof. intros [_ [_ [_ [_ [H1 H2]]]]]. auto. Qed.

Lemma sameRow_products (r r' : Row) :
  sameRow r r' ->
  minProduct r' = minProduct r /\ maxProduct r' = maxProduct r.
Proof. intros [H _]. apply sameDecl_products. exact H. Qed.

Lemma static_transfer (P Rs : list Row) :
  Forall2 sameRow P Rs -> staticRows P -> staticRows Rs.
Proof.
  intros HF Hst k R' Hk.
  destruct (Forall2_nth_error_r _ _ _ _ _ HF Hk)
    as [R [HR [[D1 [D2 [D3 [D4 [D5 D6]]]]] [D7 [D8 D9]]]]].
  destruct (Hst k R HR) as [S1 [S2 [S3 [S4 [S5 S6]]]]].
  destruct (products_transfer _ P Rs (S k) sameRow_products HF) as [T1 T2].
  rewrite T1, T2, D2, D3, D4, D5, D6, D7, D8. auto.
Qed.

Lemma prepared_static (d : DiophantineSystem) :
  Forall (fun r => 0 < coeff r /\ 0 <= minSize r) (rows d) ->
  staticRows (preparedRows d).
Proof.
  intros Hd.
  assert (HQ : Forall (fun r => 0 < coeff r /\ 0 <= minSize r
                         /\ minProduct r = minSize r * coeff r
                         /\ maxProduct r = maxSize r * coeff r)
                 (preparedRows d)).
  { apply preparedRows_Forall; [intros r a b s H; exact H|].
    unfold boundedRows. apply (proj2 (Forall_map _ _ _)).
    eapply Forall_impl; [|exact Hd]. intros r [H1 H2]. simpl. auto. }
  intros k R Hk.
  pose proof (proj1 (Forall_forall _ _) HQ R (nth_error_In _ _ Hk))
    as [Q1 [Q2 [Q3 Q4]]].
  pose proof (fillLeaves_totals (length (columns d))
                (sortRows (boundedRows d)) O
                (resize (length (sortRows (boundedRows d))) O
                   (rowPermute d))) as Ht.
  cbn zeta in Ht. destruct Ht as [_ [_ [_ Ht]]].
  destruct (Ht k R Hk) as [L1 L2].
  split; [exact Q1|]. split; [exact Q2|]. split; [exact Q3|].
  split; [exact Q4|]. split; [exact L1 | exact L2].
Qed.

Lemma prepared_decl (d : DiophantineSystem) :
  Forall2 sameDecl (sortRows (boundedRows d)) (preparedRows d).
Proof. apply fillLeaves_decl. Qed.

Lemma prepared_sums (d : DiophantineSystem) :
  sumOfMinProducts (preparedRows d) = sumOfMinProducts (boundedRows d)
  /\ sumOfMaxProducts (preparedRows d) = sumOfMaxProducts (boundedRows d).
Proof.
  destruct (products_transfer sameDecl _ _ O sameDecl_products
              (prepared_decl d)) as [H1 H2].
  simpl skipn in H1, H2. rewrite H1, H2.
  pose proof (sortRows_perm (boundedRows d)) as Hp.
  unfold sumOfMinProducts, sumOfMaxProducts. split; apply zsum_perm;
    apply Permutation_map; exact Hp.
Qed.

Lemma prepared_length (d : DiophantineSystem) :
  length (preparedRows d) = length (rows d).
Proof.
  rewrite <- (Forall2_length (prepared_decl d)).
  rewrite (Permutation_length (sortRows_perm (boundedRows d))).
  unfold boundedRows. apply length_map.
Qed.

Lemma prepared_selection (d : DiophantineSystem) :
  Forall (fun r => length (selection r) = length (columns d)
                   /\ Forall (fun s => base s = 0) (selection r))
    (preparedRows d).
Proof. apply fillLeaves_selection. Qed.

Lemma prepared_permute (d : DiophantineSystem) (i : nat) (r : Row) :
  map name (rows d) = seq 0 (length (rows d)) ->
  nth_error (boundedRows d) i = Some r ->
  exists R,
    nth_error (preparedRows d) (nth i (preparedPermute d) O) = Some R
    /\ name r = i /\ sameDecl r R.
Proof.
  intros Hnames Hi.
  assert (HnB : map name (boundedRows d) = seq 0 (length (rows d))).
  { rewrite <- Hnames. unfold boundedRows. rewrite map_map.
    apply map_ext. reflexivity. }
  assert (Hname : name r = i).
  { pose proof (map_nth_error name _ _ Hi) as H1. rewrite HnB in H1.
    assert (Hlt : (i < length (rows d))%nat).
    { assert (H0 : (i < length (seq 0 (length (rows d))))%nat)
        by (apply nth_error_Some; congruence).
      rewrite length_seq in H0. exact H0. }
    pose proof (nth_error_nth _ _ O H1) as H2.
    rewrite seq_nth in H2 by exact Hlt. simpl in H2. lia. }
  pose proof (sortRows_perm (boundedRows d)) as Hp.
  assert (HnS : Permutation (map name (sortRows (boundedRows d)))
                  (seq 0 (length (rows d)))).
  { rewrite <- HnB. apply Permutation_map. exact Hp. }
  assert (Hin : In r (sortRows (boundedRows d))).
  { apply (Permutation_in r (Permutation_sym Hp)).
    apply (nth_error_In _ _ Hi). }
  destruct (In_nth_error _ _ Hin) as [k Hk].
  assert (Hnd : NoDup (map name (sortRows (boundedRows d)))).
  { apply (Permutation_NoDup (Permutation_sym HnS)). apply seq_NoDup. }
  assert (Hlen : length (sortRows (boundedRows d)) = length (rows d)).
  { rewrite (Permutation_length Hp). unfold boundedRows. apply length_map. }
  assert (Hlt : Forall (fun r => (name r
                   < length (resize (length (sortRows (boundedRows d))) O
                               (rowPermute d)))%nat)
                  (sortRows (boundedRows d))).
  { apply Forall_forall. intros r' Hr'. rewrite resize_length, Hlen.
    assert (In (name r') (seq 0 (length (rows d)))).
    { apply (Permutation_in _ HnS). apply in_map. exact Hr'. }
    apply in_seq in H. lia. }
  pose proof (fillLeaves_permute (length (columns d)) _ O _ Hnd Hlt k r Hk)
    as Hperm.
  destruct (Forall2_nth_error_l _ _ _ _ _ (prepared_decl d) Hk)
    as [R [HR HD]].
  exists R. split; [|split; [exact Hname | exact HD]].
  unfold preparedPermute, preparedState. rewrite <- Hname, Hperm.
  exact HR.
Qed.

Lemma last_nth_pred {A : Type} (l : list A) (d : A) :
  last l d = nth (length l - 1) l d.
Proof.
  induction l as [|a [|b l] IH]; try reflexivity.
  rewrite (last_cons_cons a b l d) || (change (last (a :: b :: l) d)
                                         with (last (b :: l) d)).
  rewrite IH. simpl. rewrite Nat.sub_0_r. reflexivity.
Qed.

Lemma precompute_true (d d1 : DiophantineSystem) :
  precompute d = (true, d1) ->
  sumOfMinProducts (boundedRows d) <= columnSum d
    <= sumOfMaxProducts (boundedRows d)
  /\ columns d1 = columns d /\ rowPermute d1 = preparedPermute d
  /\ maxColumnValue d1 = maxColumnValue d
  /\ closed d1 = true /\ failed d1 = failed d
  /\ ((complex d1 = true
       /\ lastRowIsComplex (maxColumnValue d) (preparedRows d) = true
       /\ rows d1 = tabledRows d
       /\ anyInsoluble (soluble (hd emptyRow (tabledRows d))) (columns d)
          = false)
      \/ (complex d1 = complex d
          /\ lastRowIsComplex (maxColumnValue d) (preparedRows d) = false
          /\ rows d1 = preparedRows d)).
Proof.
  unfold precompute.
  destruct ((columnSum d <? sumOfMinProducts (boundedRows d))
            || (sumOfMaxProducts (boundedRows d) <? columnSum d)) eqn:E;
    [discriminate|].
  apply orb_false_iff in E. destruct E as [E1 E2].
  apply Z.ltb_ge in E1. apply Z.ltb_ge in E2.
  destruct (lastRowIsComplex (maxColumnValue d) (preparedRows d)) eqn:Hc.
  - destruct (anyInsoluble (soluble (hd emptyRow (tabledRows d)))
                (columns d)) eqn:Ha; [discriminate|].
    intros H. injection H as <-. simpl.
    split; [lia|]. repeat split. left. repeat split.
  - intros H. injection H as <-. simpl.
    split; [lia|]. repeat split. right. repeat split.
Qed.

Lemma zsum_nonneg (l : list Z) : Forall (fun v => 0 <= v) l -> 0 <= zsum l.
Proof.
  induction 1 as [|v l Hv _ IH]; [simpl; lia|]. rewrite zsum_cons. lia.
Qed.

Lemma prepared_common (rs : list (Z * Z * Z)) (cs : list Z)
    (Rs : list Row) :
  Forall validRow rs -> Forall validColumn cs ->
  sumOfMinProducts (boundedRows (declare rs cs)) <= zsum cs
    <= sumOfMaxProducts (boundedRows (declare rs cs)) ->
  Forall2 sameRow (preparedRows (declare rs cs)) Rs ->
  staticRows Rs
  /\ (forall j r, nth_error Rs j = Some r ->
        length (selection r) = length cs
        /\ Forall (fun s => base s = 0) (selection r))
  /\ leaveBounds Rs O cs
  /\ permuted rs (zsum cs) Rs (preparedPermute (declare rs cs)).
Proof.
  intros Hrs Hcs Htot HF.
  destruct (declare_fields rs cs)
    as [D1 [D2 [D3 [D4 [D5 [D6 [D7 [D8 D9]]]]]]]].
  set (d := declare rs cs) in *.
  assert (Hrd : Forall rowDeclared (rows d))
    by (rewrite D1; apply declaredRows_valid; exact Hrs).
  assert (Hpos : Forall (fun r => 0 < coeff r /\ 0 <= minSize r) (rows d)).
  { eapply Forall_impl; [|exact Hrd]. intros r [H1 H2]. split; lia. }
  pose proof (prepared_static d Hpos) as HstP.
  split; [apply (static_transfer _ _ HF HstP)|]. split; [|split].
  - intros j r Hj.
    destruct (Forall2_nth_error_r _ _ _ _ _ HF Hj)
      as [p [Hp [_ [_ [_ Hsel]]]]].
    rewrite Hsel, <- D2.
    apply (proj1 (Forall_forall _ _) (prepared_selection d) p
             (nth_error_In _ _ Hp)).
  - unfold leaveBounds.
    destruct (products_transfer _ _ _ O sameRow_products HF) as [T1 T2].
    destruct (prepared_sums d) as [P1 P2].
    rewrite T1, T2. simpl skipn. rewrite P1, P2. exact Htot.
  - split.
    + rewrite <- (Forall2_length HF), prepared_length, D1.
      apply declaredRows_length.
    + intros i r Hi.
      assert (HB : nth_error (boundedRows d) i
                   = Some (substituteBound (columnSum d)
                             (mkRow i (fst (fst r)) (snd (fst r)) (snd r)
                                0 0 0 0 0 0 [] []))).
      { unfold boundedRows. apply map_nth_error. rewrite D1.
        apply (declaredRows_nth rs O i r Hi). }
      assert (Hnames : map name (rows d) = seq 0 (length (rows d))).
      { rewrite D1, declaredRows_names, declaredRows_length. reflexivity. }
      destruct (prepared_permute d i _ Hnames HB)
        as [p [Hp [_ [N1 [N2 [N3 [N4 _]]]]]]].
      destruct (Forall2_nth_error_l _ _ _ _ _ HF Hp)
        as [R [HR [[M1 [M2 [M3 [M4 _]]]] _]]].
      exists R. split; [exact HR|].
      rewrite M1, M2, M3, M4, N1, N2, N3, N4, D4. simpl. auto.
Qed.

Lemma anyInsoluble_false (t : list Soluble) (cs : list Z) :
  anyInsoluble t cs = false -> Forall (sol2 t) cs.
Proof.
  unfold anyInsoluble. intros H. apply Forall_forall. intros c Hc.
  apply sol2_iff. intros Hm.
  assert (Ht : existsb (fun c => min (solAt t c) <? 0) cs = true).
  { apply existsb_exists. exists c. split; [exact Hc|].
    apply Z.ltb_lt. rewrite Hm. unfold INSOLUBLE. lia. }
  congruence.
Qed.

Lemma idle_start (Rs : list Row) (m : nat) :
  (forall j r, nth_error Rs j = Some r ->
     length (selection r) = m
     /\ Forall (fun s => base s = 0) (selection r)) ->
  idleFrom (idleSimple Rs m) O Rs /\ idleFrom (idleComplex Rs m) O Rs.
Proof.
  intros H. split; intros j r _ Hj; destruct (H j r Hj) as [H1 H2];
    (split; [rewrite (nth_error_nth _ _ emptyRow Hj); apply rowFixed_refl|]);
    split; auto.
Qed.

Lemma precompute_declared (rs : list (Z * Z * Z)) (cs : list Z)
    (d1 : DiophantineSystem) :
  Forall validRow rs -> Forall validColumn cs -> rs <> [] ->
  precompute (declare rs cs) = (true, d1) ->
  prepared (complex d1) (rows d1) (maxColumnValue d1)
  /\ searchInv (complex d1) (rows d1) (rowPermute d1) (maxColumnValue d1)
       cs O d1
  /\ permuted rs (zsum cs) (rows d1) (rowPermute d1).
Proof.
  intros Hrs Hcs Hne Hpre.
  destruct (declare_fields rs cs)
    as [D1 [D2 [D3 [D4 [D5 [D6 [D7 [D8 D9]]]]]]]].
  destruct (precompute_true _ _ Hpre)
    as [Htot [P1 [P2 [P3 [P4 [P5 Hcase]]]]]].
  set (d := declare rs cs) in *.
  rewrite D4 in Htot. rewrite D2 in P1. rewrite D9 in P5.
  assert (Hnn : Forall (fun v => 0 <= v) cs).
  { eapply Forall_impl; [|exact Hcs]. unfold validColumn. intros; lia. }
  assert (Hrd : Forall rowDeclared (rows d))
    by (rewrite D1; apply declaredRows_valid; exact Hrs).
  assert (Hsum : 0 <= columnSum d)
    by (rewrite D4; apply zsum_nonneg; exact Hnn).
  assert (Hlen1 : (1 <= length rs)%nat)
    by (destruct rs; [congruence | simpl; lia]).
  destruct Hcase as [[C1 [C2 [C3 C4]]] | [C1 [C2 C3]]].
  - assert (HF : Forall2 sameRow (preparedRows d) (rows d1))
      by (rewrite C3; apply buildRows_decl).
    destruct (prepared_common rs cs (rows d1) Hrs Hcs Htot HF)
      as [Hst [Hsel [Hlb [Hpl Hpm]]]].
    rewrite C1, P2, P3. split; [|split].
    + split; [exact Hst|]. split; [lia|]. split; [exact D5|].
      rewrite C3. apply tabledRows_ok; assumption.
    + unfold searchInv, driverInv. split; [reflexivity|].
      split; [unfold sysIs; rewrite C1, P2, P3, P4, P5; repeat split|].
      split; [simpl; exact P1|].
      split; [apply (idle_start _ _ Hsel)|].
      rewrite P1. split; [reflexivity|]. split; [|exact Hlb].
      rewrite D2 in C4. apply anyInsoluble_false in C4.
      rewrite C3. destruct (tabledRows d); exact C4.
    + split; assumption.
  - assert (HF : Forall2 sameRow (preparedRows d) (rows d1))
      by (rewrite C3; apply sameRow_refl).
    destruct (prepared_common rs cs (rows d1) Hrs Hcs Htot HF)
      as [Hst [Hsel [Hlb [Hpl Hpm]]]].
    rewrite D8 in C1. rewrite C1, P2, P3. split; [|split].
    + split; [exact Hst|]. split; [lia|]. split; [exact D5|].
      destruct (last_row_static _ Hst ltac:(lia)) as [Hc _].
      rewrite C3 in *. unfold lastRowIsComplex in C2.
      rewrite last_nth_pred in C2. apply orb_false_iff in C2.
      destruct C2 as [C2 _]. apply Z.ltb_ge in C2. lia.
    + unfold searchInv, driverInv. split; [reflexivity|].
      split; [unfold sysIs; rewrite C1, P2, P3, P4, P5; repeat split|].
      split; [simpl; exact P1|].
      split; [apply (idle_start _ _ Hsel)|].
      rewrite P1. split; [reflexivity|]. split; [exact Hnn | exact Hlb].
    + split; assumption.
Qed.

(* ----------------------------------------------------------------- *)
(** ** The emitted matrix *)

Lemma solvedState_sem (cx : bool) (Rs : list Row) (perm : list nat)
    (mcv : Z) (V0 : list Z) (d : DiophantineSystem) :
  (1 <= length Rs)%nat ->
  solvedState cx Rs perm mcv V0 d ->
  rowPermute d = perm
  /\ (forall j,
        nth j V0 0
        = zsum (map (fun k => cell (nth k (rows d) emptyRow) j
                              * coeff (nth k Rs emptyRow))
                  (seq 0 (length Rs))))
  /\ (forall k, (k < length Rs)%nat ->
        length (selection (nth k (rows d) emptyRow)) = length V0
        /\ minSize (nth k Rs emptyRow) <= rowTotal (nth k (rows d) emptyRow)
           <= maxSize (nth k Rs emptyRow)).
Proof.
  intros Hn [Hinv [LS1 [LS2 [LS3 LS4]]]].
  destruct (searchInv_sys _ _ _ _ _ _ _ Hinv) as [_ [_ [_ [Hperm _]]]].
  assert (Hchain :
    length (columns d) = length V0
    /\ (forall j,
          nth j V0 0
          = nth j (columns d) 0
            + zsum (map (fun k => cell (nth k (rows d) emptyRow) j
                                  * coeff (nth k Rs emptyRow))
                      (seq 0 (length Rs - 1))))
    /\ (forall k, (k < length Rs - 1)%nat ->
          rowFixed (nth k Rs emptyRow) (nth k (rows d) emptyRow)
          /\ length (selection (nth k (rows d) emptyRow)) = length V0
          /\ minSize (nth k Rs emptyRow)
             <= rowTotal (nth k (rows d) emptyRow)
             <= maxSize (nth k Rs emptyRow))).
  { unfold searchInv in Hinv. destruct cx;
      destruct Hinv as [_ [_ [Hact _]]].
    - apply (activeUpTo_sem _ _ Rs V0
               (fun k r V bag H => activeComplex_sem _ _ _ _ _ _ (proj1 H))
               _ _ _ Hact).
    - apply (activeUpTo_sem _ _ Rs V0
               (fun k r V bag H => activeSimple_sem _ _ _ _ (proj1 H))
               _ _ _ Hact). }
  destruct Hchain as [L1 [L2 L3]].
  split; [exact Hperm|]. split.
  - intros j. replace (length Rs) with (S (length Rs - 1)) at 1 by lia.
    rewrite seq_snoc, map_app, zsum_app. simpl map. rewrite zsum_cons.
    rewrite (L2 j), (LS3 j). simpl. ring.
  - intros k Hk. destruct (Nat.eq_dec k (length Rs - 1)) as [->|Hne].
    + split; [lia | exact LS4].
    + destruct (L3 k ltac:(lia)) as [_ H]. exact H.
Qed.

Lemma solved_state (rs : list (Z * Z * Z)) (cs : list Z)
    (d : DiophantineSystem) :
  Forall validRow rs -> Forall validColumn cs ->
  solved (declare rs cs) d ->
  exists cx Rs perm mcv,
    prepared cx Rs mcv /\ solvedState cx Rs perm mcv cs d
    /\ permuted rs (zsum cs) Rs perm.
Proof.
  intros Hrs Hcs H. induction H as [fuel d Hrun|fuel d d' _ IH Hrun].
  - destruct (declare_fields rs cs)
      as [D1 [D2 [D3 [D4 [D5 [D6 [D7 [D8 D9]]]]]]]].
    pose proof Hrun as Hrun0.
    unfold solve in Hrun. rewrite D7 in Hrun. cbn [negb] in Hrun.
    destruct ((length (rows (declare rs cs)) =? 0)%nat
              || (length (columns (declare rs cs)) =? 0)%nat) eqn:Hne;
      [discriminate|].
    destruct (precompute (declare rs cs)) as [ok d1] eqn:Hpre.
    cbn [bind] in Hrun. destruct ok; [|discriminate].
    assert (Hrne : rs <> []).
    { intros ->. rewrite D1 in Hne. simpl in Hne. discriminate. }
    destruct (precompute_declared rs cs d1 Hrs Hcs Hrne Hpre)
      as [Hp [Hinv Hpm]].
    exists (complex d1), (rows d1), (rowPermute d1), (maxColumnValue d1).
    split; [exact Hp|]. split; [|exact Hpm].
    apply (solve_first (rows d1) cs fuel (declare rs cs) d1 d D7 Hne Hpre
             Hp Hinv Hrun0).
  - destruct IH as [cx [Rs [perm [mcv [Hp [Hs Hpm]]]]]].
    exists cx, Rs, perm, mcv. split; [exact Hp|]. split; [|exact Hpm].
    apply (solve_next cx Rs perm mcv cs fuel d d' Hp Hs Hrun).
Qed.

Lemma permuted_positions (rs : list (Z * Z * Z)) (csum : Z)
    (Rs : list Row) (perm : list nat) :
  permuted rs csum Rs perm ->
  Permutation (map (fun i => nth i perm O) (seq 0 (length rs)))
    (seq 0 (length rs)).
Proof.
  intros [Hlen Hp].
  assert (Hex : forall i, In i (seq 0 (length rs)) ->
                  exists R, nth_error Rs (nth i perm O) = Some R
                            /\ name R = i).
  { intros i Hi. apply in_seq in Hi.
    destruct (nth_error rs i) as [r|] eqn:E;
      [|apply nth_error_None in E; lia].
    destruct (Hp i r E) as [R [H1 [H2 _]]]. eauto. }
  apply NoDup_Permutation_bis.
  - apply NoDup_map_NoDup_ForallPairs; [|apply seq_NoDup].
    intros i i' Hi Hi' Heq.
    destruct (Hex i Hi) as [R [H1 H2]].
    destruct (Hex i' Hi') as [R' [H1' H2']].
    rewrite Heq in H1. congruence.
  - rewrite length_map. lia.
  - intros k Hk. apply in_map_iff in Hk. destruct Hk as [i [<- Hi]].
    destruct (Hex i Hi) as [R [H1 _]].
    apply in_seq. split; [lia|]. simpl. rewrite <- Hlen.
    apply nth_error_Some. congruence.
Qed.

Lemma map_nth_seq {A B : Type} (f : A -> B) (d : A) (l : list A) :
  map (fun j => f (nth j l d)) (seq 0 (length l)) = map f l.
Proof.
  induction l as [|a l IH]; [reflexivity|].
  simpl length. simpl seq. simpl map at 1.
  rewrite <- seq_shift, map_map. simpl. rewrite IH. reflexivity.
Qed.

Lemma cell_sum (r : Row) :
  zsum (map (cell r) (seq 0 (length (selection r)))) = rowTotal r.
Proof.
  unfold rowTotal, cell.
  rewrite (map_nth_seq (fun s => base s + extra s) (mkSelect 0 0 0)).
  reflexivity.
Qed.

Lemma solution_cell (d : DiophantineSystem) (i j : nat) :
  solution d i j
  = cell (nth (nth i (rowPermute d) O) (rows d) emptyRow) j.
Proof. reflexivity. Qed.





(* ================================================================= *)
(** * Further properties of the code *)

(* ----------------------------------------------------------------- *)
(** ** Building a system *)

Lemma insertRow_insertColumns (c mn mx : Z) (cs : list Z)
    (d : DiophantineSystem) :
  insertRow c mn mx (fold_left (fun d v => insertColumn v d) cs d)
  = fold_left (fun d v => insertColumn v d) cs (insertRow c mn mx d).
Proof.
  revert d. induction cs as [|v cs IH]; intros d; [reflexivity|].
  simpl fold_left. rewrite IH. reflexivity.
Qed.

Lemma insertRow_declare (c mn mx : Z) (rs : list (Z * Z * Z))
    (cs : list Z) :
  insertRow c mn mx (declare rs cs) = declare (rs ++ [(c, mn, mx)]) cs.
Proof.
  unfold declare. rewrite insertRow_insertColumns, fold_left_app.
  reflexivity.
Qed.

Lemma insertColumn_declare (v : Z) (rs : list (Z * Z * Z)) (cs : list Z) :
  insertColumn v (declare rs cs) = declare rs (cs ++ [v]).
Proof. unfold declare. rewrite fold_left_app. reflexivity. Qed.

Lemma insertRowAsserted_inv (c mn mx : Z) (d d' : DiophantineSystem) :
  insertRowAsserted c mn mx d = Done d' ->
  closed d = false /\ validRow (c, mn, mx) /\ d' = insertRow c mn mx d.
Proof.
  unfold insertRowAsserted, validRow. simpl.
  destruct (closed d); [discriminate|].
  destruct (0 <? c) eqn:E1; [|discriminate]. simpl.
  destruct (mn <? 0) eqn:E2; [discriminate|].
  destruct (mx <? mn) eqn:E3; [discriminate|].
  intros H. injection H as <-.
  apply Z.ltb_lt in E1. apply Z.ltb_ge in E2. apply Z.ltb_ge in E3.
  auto.
Qed.

Lemma insertColumnAsserted_inv (v : Z) (d d' : DiophantineSystem) :
  insertColumnAsserted v d = Done d' ->
  closed d = false /\ validColumn v /\ d' = insertColumn v d.
Proof.
  unfold insertColumnAsserted, validColumn.
  destruct (0 <? v) eqn:E1; [|discriminate]. simpl.
  destruct (closed d); [discriminate|].
  intros H. injection H as <-. apply Z.ltb_lt in E1. auto.
Qed.

Lemma declare_built (rs : list (Z * Z * Z)) (cs : list Z) :
  Forall validRow rs -> Forall validColumn cs -> built (declare rs cs).
Proof.
  intros Hrs Hcs. revert Hcs. induction cs as [|v cs IH] using rev_ind.
  - intros _. revert Hrs. induction rs as [|r rs IH] using rev_ind.
    + intros _. apply built_new.
    + intros Hrs. apply Forall_app in Hrs. destruct Hrs as [Hrs Hr].
      inversion Hr as [|? ? Hr0 _]; subst. clear Hr. rename Hr0 into Hr.
      specialize (IH Hrs).
      destruct r as [[c mn] mx]. rewrite <- insertRow_declare.
      apply (built_row c mn mx (declare rs [])); [exact IH|].
      destruct (declare_fields rs []) as [_ [_ [_ [_ [_ [_ [Hc _]]]]]]].
      destruct Hr as [H1 [H2 H3]]. simpl in H1, H2, H3.
      unfold insertRowAsserted. rewrite Hc.
      replace (0 <? c) with true by (symmetry; apply Z.ltb_lt; lia).
      replace (mn <? 0) with false by (symmetry; apply Z.ltb_ge; lia).
      replace (mx <? mn) with false by (symmetry; apply Z.ltb_ge; lia).
      reflexivity.
  - intros Hcs. apply Forall_app in Hcs. destruct Hcs as [Hcs Hv].
    inversion Hv as [|? ? Hv0 _]; subst.
    rewrite <- insertColumn_declare.
    apply (built_column v (declare rs cs)); [apply IH; exact Hcs|].
    destruct (declare_fields rs cs) as [_ [_ [_ [_ [_ [_ [Hc _]]]]]]].
    unfold insertColumnAsserted. rewrite Hc. unfold validColumn in Hv0.
    replace (0 <? v) with true by (symmetry; apply Z.ltb_lt; lia).
    reflexivity.
Qed.

Lemma built_declared (d : DiophantineSystem) :
  built d ->
  exists rs cs,
    Forall validRow rs /\ Forall validColumn cs /\ d = declare rs cs.
Proof.
  induction 1 as [|c mn mx d d' _ IH Hins|v d d' _ IH Hins].
  - exists [], []. repeat split; constructor.
  - destruct IH as [rs [cs [Hrs [Hcs ->]]]].
    destruct (insertRowAsserted_inv _ _ _ _ _ Hins) as [_ [Hv ->]].
    exists (rs ++ [(c, mn, mx)]), cs.
    split; [apply Forall_app; split; [exact Hrs | constructor; auto]|].
    split; [exact Hcs|]. apply insertRow_declare.
  - destruct IH as [rs [cs [Hrs [Hcs ->]]]].
    destruct (insertColumnAsserted_inv _ _ _ Hins) as [_ [Hv ->]].
    exists rs, (cs ++ [v]). split; [exact Hrs|].
    split; [apply Forall_app; split; [exact Hcs | constructor; auto]|].
    apply insertColumn_declare.
Qed.

(** X1: the insertions commute.  A system is built by the constructor
    and insertions that fire no assertion, in any interleaving, exactly
    when it is the system declared by a list of valid rows followed by a
    list of valid columns: the rows and the columns in their order of
    insertion. *)
Theorem X1_built_iff_declare (d : DiophantineSystem) :
  built d
  <-> exists rs cs,
        Forall validRow rs /\ Forall validColumn cs /\ d = declare rs cs.
Proof.
  split.
  - apply built_declared.
  - intros [rs [cs [Hrs [Hcs ->]]]]. apply declare_built; assumption.
Qed.

Lemma interleavedExample_built : built interleavedExample.
Proof.
  unfold interleavedExample.
  apply (built_row 1 0 UNBOUNDED
           (insertColumn 2 (insertRow 2 0 3 (insertColumn 3 newSystem))));
    [|reflexivity].
  apply (built_column 2 (insertRow 2 0 3 (insertColumn 3 newSystem)));
    [|reflexivity].
  apply (built_row 2 0 3 (insertColumn 3 newSystem)); [|reflexivity].
  apply (built_column 3 newSystem); [|reflexivity].
  apply built_new.
Qed.

Lemma built_columns (d : DiophantineSystem) :
  built d ->
  columnSum d = zsum (columns d)
  /\ Forall (fun v => 0 < v <= maxColumnValue d) (columns d)
  /\ (columns d = [] -> maxColumnValue d = 0)
  /\ (columns d <> [] -> In (maxColumnValue d) (columns d)).
Proof.
  induction 1 as [|c mn mx d d' _ IH Hins|v d d' _ IH Hins].
  - simpl. repeat split; auto; congruence.
  - destruct (insertRowAsserted_inv _ _ _ _ _ Hins) as [_ [_ ->]].
    exact IH.
  - destruct (insertColumnAsserted_inv _ _ _ Hins) as [_ [Hv ->]].
    unfold validColumn in Hv. destruct IH as [I1 [I2 [I3 I4]]].
    simpl. rewrite zsum_app, I1. simpl.
    split; [ring|]. split; [|split].
    + apply Forall_app. split.
      * eapply Forall_impl; [|exact I2]. simpl. intros a Ha.
        destruct (maxColumnValue d <? v) eqn:E;
          [apply Z.ltb_lt in E | apply Z.ltb_ge in E]; lia.
      * constructor; [|constructor].
        destruct (maxColumnValue d <? v) eqn:E;
          [apply Z.ltb_lt in E | apply Z.ltb_ge in E]; lia.
    + intros H. destruct (columns d); discriminate.
    + intros _. apply in_or_app.
      destruct (maxColumnValue d <? v) eqn:E;
        [right; left; reflexivity|].
      apply Z.ltb_ge in E. left. apply I4. intros Hnil.
      rewrite (I3 Hnil) in E. lia.
Qed.



(** X3: in a built system the row inserted [i]-th is at index [i] and
    carries the name [i], with the coefficient and the bounds it was
    inserted with; the system is not closed and has not failed. *)
Theorem X3_rows_named_by_index (d : DiophantineSystem) :
  built d ->
  map name (rows d) = seq 0 (length (rows d))
  /\ Forall rowDeclared (rows d)
  /\ closed d = false /\ failed d = false.
Proof.
  intros H. destruct (built_declared d H) as [rs [cs [Hrs [Hcs ->]]]].
  destruct (declare_fields rs cs)
    as [D1 [_ [_ [_ [_ [_ [D7 [_ D9]]]]]]]].
  rewrite D1, declaredRows_names, declaredRows_length.
  split; [reflexivity|]. split; [apply declaredRows_valid; exact Hrs|].
  auto.
Qed.

Lemma X3_rows_named_by_index_witness :
  map name (rows interleavedExample)
  = seq 0 (length (rows interleavedExample))
  /\ Forall rowDeclared (rows interleavedExample)
  /\ closed interleavedExample = false
  /\ failed interleavedExample = false.
Proof.
  apply (X3_rows_named_by_index interleavedExample).
  apply interleavedExample_built.
Defined.

(* ----------------------------------------------------------------- *)
(** ** What the search leaves alone *)

Lemma rowFixed_all (l : list Row) : Forall2 rowFixed l l.
Proof.
  induction l as [|r l IH]; constructor; [apply rowFixed_refl | exact IH].
Qed.

Lemma rowFixed_upd (l : list Row) (k : nat) (r r' : Row) :
  nth_error l k = Some r -> rowFixed r r' ->
  Forall2 rowFixed l (upd k r' l).
Proof.
  revert k. induction l as [|a l IH]; intros [|k] Hk Hf; simpl in Hk;
    try discriminate; simpl.
  - injection Hk as ->. constructor; [exact Hf | apply rowFixed_all].
  - constructor; [apply rowFixed_refl | apply (IH k Hk Hf)].
Qed.

Lemma rowFixed_all_trans (l1 l2 l3 : list Row) :
  Forall2 rowFixed l1 l2 -> Forall2 rowFixed l2 l3 ->
  Forall2 rowFixed l1 l3.
Proof.
  intros H. revert l3. induction H as [|a b l1 l2 Hab _ IH]; intros l3 H3;
    inversion H3; subst; constructor.
  - apply (rowFixed_trans _ b); assumption.
  - apply IH. assumption.
Qed.

Lemma sameSystem_refl (d : DiophantineSystem) : sameSystem d d.
Proof. unfold sameSystem. repeat split. apply rowFixed_all. Qed.

Lemma sameSystem_trans (d1 d2 d3 : DiophantineSystem) :
  sameSystem d1 d2 -> sameSystem d2 d3 -> sameSystem d1 d3.
Proof.
  intros [A1 [A2 [A3 [A4 [A5 A6]]]]] [B1 [B2 [B3 [B4 [B5 B6]]]]].
  unfold sameSystem. repeat split; try congruence.
  apply (rowFixed_all_trans _ _ _ A6 B6).
Qed.

Lemma sameSystem_putRow (d : DiophantineSystem) (k : nat) (r r' : Row)
    (cols : list Z) :
  nth_error (rows d) k = Some r -> rowFixed r r' ->
  sameSystem d (putRow d k r' cols)
  /\ failed (putRow d k r' cols) = failed d.
Proof.
  intros Hk Hf. unfold sameSystem. simpl. repeat split.
  apply (rowFixed_upd _ _ _ _ Hk Hf).
Qed.

Lemma multisetSelect_fixed (r : Row) (bag : list Z) (ff b : bool)
    (r' : Row) (bag' : list Z) :
  multisetSelect r bag ff = Done (b, r', bag') -> rowFixed r r'.
Proof.
  unfold multisetSelect. destruct ff; simpl.
  - destruct (selectForward (coeff r) (currentSize r) (selection r) bag)
      as [[sel2 bag2]| |]; simpl; try discriminate.
    intros H. injection H as _ <- _. apply rowFixed_set_selection.
  - destruct (0 <? currentSize r).
    + destruct (selectBackward (coeff r) 0 (selection r) bag)
        as [[[[found u] sel] bag1]| |]; simpl; try discriminate.
      destruct found.
      * destruct (selectForward (coeff r) u sel bag1)
          as [[sel2 bag2]| |]; simpl; try discriminate.
        intros H. injection H as _ <- _. apply rowFixed_set_selection.
      * intros H. injection H as _ <- _. apply rowFixed_set_selection.
    + intros H. injection H as _ <- _. apply rowFixed_refl.
Qed.

Lemma multisetComplex_fixed (fuel : nat) (r : Row) (bag : list Z)
    (sol : list Soluble) (ff b : bool) (r' : Row) (bag' : list Z) :
  multisetComplex fuel r bag sol ff = Done (b, r', bag') -> rowFixed r r'.
Proof.
  unfold multisetComplex. destruct ff; simpl.
  - destruct (complexSearch fuel (coeff r) sol (currentSize r)
                (selection r) bag)
      as [[[ok sel2] bag2]| |]; simpl; try discriminate.
    intros H. injection H as _ <- _. apply rowFixed_set_selection.
  - destruct (0 <? currentSize r).
    + destruct (complexBackward (coeff r) sol 0 (selection r) bag)
        as [[[[found u] sel] bag1]| |]; simpl; try discriminate.
      destruct found.
      * destruct (complexSearch fuel (coeff r) sol u sel bag1)
          as [[[ok sel2] bag2]| |]; simpl; try discriminate.
        intros H. injection H as _ <- _. apply rowFixed_set_selection.
      * intros H. injection H as _ <- _. apply rowFixed_set_selection.
    + intros H. injection H as _ <- _. apply rowFixed_refl.
Qed.

Lemma sizeLoop_fixed (n fuel : nat) (sol2 : list Soluble) :
  forall (r : Row) (bag : list Z) (b : bool) (r' : Row) (bag' : list Z),
    sizeLoop n fuel r sol2 bag = Done (b, r', bag') -> rowFixed r r'.
Proof.
  induction n as [|n IH]; intros r bag b r' bag' H; simpl in H.
  - destruct (currentSize r <=? currentMaxSize r); [discriminate|].
    injection H as _ <- _. apply rowFixed_refl.
  - destruct (currentSize r <=? currentMaxSize r).
    + destruct (multisetComplex fuel r bag sol2 true)
        as [[[ok r1] bag1]| |] eqn:E; simpl in H; try discriminate.
      pose proof (multisetComplex_fixed _ _ _ _ _ _ _ _ E) as H1.
      destruct ok.
      * injection H as _ <- _. exact H1.
      * apply (rowFixed_trans _ r1); [exact H1|].
        apply (rowFixed_trans _ (set_currentSize r1 (currentSize r1 + 1)));
          [apply rowFixed_set_sizes|].
        apply (IH _ _ _ _ _ H).
    + injection H as _ <- _. apply rowFixed_refl.
Qed.

Lemma trySizes_frame (fuel : nat) (d : DiophantineSystem) (k : nat)
    (r0 r : Row) (sol2 : list Soluble) (bag : list Z) (b : bool)
    (d' : DiophantineSystem) :
  nth_error (rows d) k = Some r0 -> rowFixed r0 r ->
  trySizes fuel d k r sol2 bag = Done (b, d') ->
  sameSystem d d' /\ failed d' = failed d.
Proof.
  intros Hk Hf. unfold trySizes.
  destruct (sizeLoop (sizesLeft r) fuel r sol2 bag)
    as [[[ok r1] bag1]| |] eqn:E; simpl; try discriminate.
  pose proof (sizeLoop_fixed _ _ _ _ _ _ _ _ E) as H1.
  assert (Hf1 : rowFixed r0 r1) by (apply (rowFixed_trans _ r); assumption).
  destruct ok.
  - intros H. injection H as _ <-. apply (sameSystem_putRow _ _ _ _ _ Hk Hf1).
  - destruct (restoreBase (maxColumnValue d) (coeff r1) (selection r1) bag1)
      as [bag2| |]; simpl; try discriminate.
    intros H. injection H as _ <-. apply (sameSystem_putRow _ _ _ _ _ Hk Hf1).
Qed.

Lemma solveRowSimple_frame (d : DiophantineSystem) (k : nat) (ff b : bool)
    (d' : DiophantineSystem) :
  solveRowSimple d k ff = Done (b, d') ->
  sameSystem d d' /\ failed d' = failed d.
Proof.
  unfold solveRowSimple, getAt.
  destruct (nth_error (rows d) k) as [r|] eqn:Hk; simpl; [|discriminate].
  destruct ff.
  - destruct (negb (viable d k)).
    { intros H. injection H as _ <-. split; [apply sameSystem_refl|auto]. }
    destruct (initSimple (coeff r) (selection r) (columns d))
      as [[[sel ct] ms]| |]; simpl; try discriminate.
    match goal with |- context [if ?c then _ else _] => destruct c end.
    { intros H. injection H as _ <-.
      apply (sameSystem_putRow _ _ _ _ _ Hk).
      apply rowFixed_set_selection. }
    match goal with
    | |- context [multisetSelect ?x ?y ?z] =>
        destruct (multisetSelect x y z) as [[[b1 r2] cols]| |] eqn:E
    end; simpl; try discriminate.
    intros H. injection H as _ <-.
    apply (sameSystem_putRow _ _ _ _ _ Hk).
    apply (rowFixed_trans _ (set_selection r sel));
      [apply rowFixed_set_selection|].
    eapply rowFixed_trans; [apply rowFixed_set_sizes|].
    apply (multisetSelect_fixed _ _ _ _ _ _ E).
  - destruct (multisetSelect r (columns d) false)
      as [[[b1 r1] cols1]| |] eqn:E; simpl; try discriminate.
    pose proof (multisetSelect_fixed _ _ _ _ _ _ E) as H1.
    destruct b1.
    { intros H. injection H as _ <-.
      apply (sameSystem_putRow _ _ _ _ _ Hk H1). }
    destruct (currentSize r1 =? currentMaxSize r1).
    { intros H. injection H as _ <-.
      apply (sameSystem_putRow _ _ _ _ _ Hk H1). }
    destruct (multisetSelect (set_currentSize r1 (currentSize r1 + 1))
                cols1 true) as [[[b2 r2] cols2]| |] eqn:E2;
      simpl; try discriminate.
    intros H. injection H as _ <-.
    apply (sameSystem_putRow _ _ _ _ _ Hk).
    apply (rowFixed_trans _ r1); [exact H1|].
    eapply rowFixed_trans; [apply rowFixed_set_sizes|].
    apply (multisetSelect_fixed _ _ _ _ _ _ E2).
Qed.

Lemma solveRowComplex_frame (fuel : nat) (d : DiophantineSystem) (k : nat)
    (ff b : bool) (d' : DiophantineSystem) :
  solveRowComplex fuel d k ff = Done (b, d') ->
  sameSystem d d' /\ failed d' = failed d.
Proof.
  unfold solveRowComplex, getAt.
  destruct (nth_error (rows d) k) as [r|] eqn:Hk; cbn [bind]; [|discriminate].
  destruct (nth_error (rows d) (S k)) as [rn|] eqn:Hk2; cbn [bind];
    [|discriminate].
  destruct ff.
  - destruct (negb (viable d k)).
    { intros H. injection H as _ <-. split; [apply sameSystem_refl|auto]. }
    destruct (initComplex (soluble r) (selection r) (columns d))
      as [[[[sel ct] mns] mxs]| |]; cbn [bind]; try discriminate.
    match goal with |- context [if ?c then _ else _] => destruct c end.
    { intros H. injection H as _ <-.
      apply (sameSystem_putRow _ _ _ _ _ Hk).
      apply rowFixed_set_selection. }
    destruct (applyBase (coeff r) sel (columns d)) as [cols1| |]; cbn [bind];
      try discriminate.
    intros H. apply (trySizes_frame _ _ _ r _ _ _ _ _ Hk) in H; [exact H|].
    apply (rowFixed_trans _ (set_selection r sel));
      [apply rowFixed_set_selection | apply rowFixed_set_sizes].
  - destruct (multisetComplex fuel r (columns d) (soluble rn) false)
      as [[[ok r1] cols1]| |] eqn:E; cbn [bind]; try discriminate.
    pose proof (multisetComplex_fixed _ _ _ _ _ _ _ _ E) as H1.
    destruct ok.
    { intros H. injection H as _ <-.
      apply (sameSystem_putRow _ _ _ _ _ Hk H1). }
    intros H. apply (trySizes_frame _ _ _ r _ _ _ _ _ Hk) in H; [exact H|].
    apply (rowFixed_trans _ r1); [exact H1 | apply rowFixed_set_sizes].
Qed.

Lemma driverLoop_frame
    (solveRow : DiophantineSystem -> nat -> bool ->
                Outcome (bool * DiophantineSystem))
    (pen : nat) :
  (forall d k ff b d',
     solveRow d k ff = Done (b, d') ->
     sameSystem d d' /\ failed d' = failed d) ->
  forall fuel i ff d b d',
    driverLoop solveRow fuel pen i ff d = Done (b, d') ->
    sameSystem d d' /\ failed d' = failed d.
Proof.
  intros Hstep. induction fuel as [|fuel IH]; intros i ff d b d' H;
    simpl in H; [discriminate|].
  destruct (solveRow d i ff) as [[found d1]| |] eqn:E; simpl in H;
    try discriminate.
  destruct (Hstep _ _ _ _ _ E) as [S1 F1].
  assert (Hgo : forall i' ff',
            driverLoop solveRow fuel pen i' ff' d1 = Done (b, d') ->
            sameSystem d d' /\ failed d' = failed d).
  { intros i' ff' H'. destruct (IH _ _ _ _ _ H') as [S2 F2].
    split; [apply (sameSystem_trans _ d1); assumption | congruence]. }
  destruct found.
  - destruct (i =? pen)%nat; [|apply (Hgo _ _ H)].
    injection H as _ <-. auto.
  - destruct (i =? 0)%nat; [|apply (Hgo _ _ H)].
    injection H as _ <-. auto.
Qed.

Lemma lastRow_frame (d : DiophantineSystem) (r : Row) (sel : list Select) :
  nth_error (rows d) (lastIndex d) = Some r ->
  sameSystem d
    (set_rows_columns d
       (upd (lastIndex d) (set_selection r sel) (rows d)) (columns d)).
Proof.
  intros Hk.
  apply (sameSystem_putRow d (lastIndex d) r (set_selection r sel)
           (columns d) Hk (rowFixed_set_selection r sel)).
Qed.

Lemma solveSimple_frame (fuel : nat) (d : DiophantineSystem) (ff b : bool)
    (d' : DiophantineSystem) :
  solveSimple fuel d ff = Done (b, d') ->
  sameSystem d d' /\ failed d' = (if b then failed d else true).
Proof.
  unfold solveSimple.
  match goal with
  | |- context [bind ?m _] => destruct m as [[found d1]| |] eqn:E
  end; simpl; try discriminate.
  assert (H1 : sameSystem d d1 /\ failed d1 = failed d).
  { destruct (1 <? length (rows d))%nat.
    - apply (driverLoop_frame _ _ solveRowSimple_frame _ _ _ _ _ _ E).
    - injection E as _ <-. split; [apply sameSystem_refl | reflexivity]. }
  destruct H1 as [S1 F1]. destruct found.
  - unfold solveLastRowSimple, getAt.
    destruct (nth_error (rows d1) (lastIndex d1)) as [r|] eqn:Hk; simpl;
      [|discriminate].
    destruct (fillLastSimple (selection r) (columns d1)) as [sel| |];
      simpl; try discriminate.
    intros H. injection H as <- <-. split; [|exact F1].
    apply (sameSystem_trans _ d1); [exact S1|].
    apply (lastRow_frame _ _ _ Hk).
  - intros H. injection H as <- <-. split; [|reflexivity].
    destruct S1 as [A1 [A2 [A3 [A4 [A5 A6]]]]].
    unfold sameSystem. simpl. repeat split; assumption.
Qed.

Lemma solveComplex_frame (fuel : nat) (d : DiophantineSystem) (ff b : bool)
    (d' : DiophantineSystem) :
  solveComplex fuel d ff = Done (b, d') ->
  sameSystem d d' /\ failed d' = (if b then failed d else true).
Proof.
  unfold solveComplex.
  match goal with
  | |- context [bind ?m _] => destruct m as [[found d1]| |] eqn:E
  end; simpl; try discriminate.
  assert (H1 : sameSystem d d1 /\ failed d1 = failed d).
  { destruct (1 <? length (rows d))%nat.
    - apply (driverLoop_frame _ _ (solveRowComplex_frame fuel)
               _ _ _ _ _ _ E).
    - injection E as _ <-. split; [apply sameSystem_refl | reflexivity]. }
  destruct H1 as [S1 F1]. destruct found.
  - unfold solveLastRowComplex, getAt.
    destruct (nth_error (rows d1) (lastIndex d1)) as [r|] eqn:Hk; simpl;
      [|discriminate].
    destruct (fillLastComplex (soluble r) (selection r) (columns d1))
      as [sel| |]; simpl; try discriminate.
    intros H. injection H as <- <-. split; [|exact F1].
    apply (sameSystem_trans _ d1); [exact S1|].
    apply (lastRow_frame _ _ _ Hk).
  - intros H. injection H as <- <-. split; [|reflexivity].
    destruct S1 as [A1 [A2 [A3 [A4 [A5 A6]]]]].
    unfold sameSystem. simpl. repeat split; assumption.
Qed.

Lemma solve_closed_frame (fuel : nat) (d : DiophantineSystem) (b : bool)
    (d' : DiophantineSystem) :
  closed d = true ->
  solve fuel d = Done (b, d') ->
  failed d = false /\ sameSystem d d' /\ failed d' = negb b.
Proof.
  intros Hc. unfold solve. rewrite Hc. simpl.
  destruct (failed d) eqn:Hf; [discriminate|].
  intros H. split; [reflexivity|].
  assert (H1 : sameSystem d d' /\ failed d' = (if b then failed d else true)).
  { destruct (complex d);
      [apply (solveComplex_frame _ _ _ _ _ H)
      | apply (solveSimple_frame _ _ _ _ _ H)]. }
  destruct H1 as [S1 F1]. split; [exact S1|].
  rewrite F1, Hf. destruct b; reflexivity.
Qed.

Lemma precompute_flags (d : DiophantineSystem) :
  closed (snd (precompute d)) = true
  /\ (fst (precompute d) = false -> failed (snd (precompute d)) = true)
  /\ (fst (precompute d) = true ->
      failed (snd (precompute d)) = failed d).
Proof.
  unfold precompute.
  repeat match goal with
         | |- context [if ?c then _ else _] => destruct c
         end; simpl; repeat split; auto; discriminate.
Qed.

Lemma solve_flags (fuel : nat) (d : DiophantineSystem) (b : bool)
    (d' : DiophantineSystem) :
  solve fuel d = Done (b, d') ->
  closed d' = true /\ failed d' = negb b.
Proof.
  destruct (closed d) eqn:Hc.
  - intros H.
    destruct (solve_closed_frame fuel d b d' Hc H)
      as [_ [[_ [_ [_ [S4 _]]]] F]].
    split; [congruence | exact F].
  - intros H. pose proof H as H0. unfold solve in H. rewrite Hc in H.
    simpl in H.
    destruct ((length (rows d) =? 0)%nat || (length (columns d) =? 0)%nat);
      [discriminate|].
    simpl in H. destruct (precompute_flags d) as [P1 [P2 P3]].
    destruct (precompute d) as [ok d1]. simpl in *.
    destruct ok; simpl in H.
    + destruct (failed d1) eqn:Hf; [discriminate|].
      assert (H1 : sameSystem d1 d'
                   /\ failed d' = (if b then failed d1 else true)).
      { destruct (complex d1);
          [apply (solveComplex_frame _ _ _ _ _ H)
          | apply (solveSimple_frame _ _ _ _ _ H)]. }
      destruct H1 as [[_ [_ [_ [S4 _]]]] F1].
      split; [congruence|]. rewrite F1, Hf. destruct b; reflexivity.
    + injection H as <- <-. split; [exact P1 | apply P2; reflexivity].
Qed.

(** X4: every call of [solve] that returns leaves the system closed,
    with [failed] set exactly when it returned false.  From then on
    [insertRow] and [insertColumn] fire their assertion, and after a
    false return so does [solve]. *)
Theorem X4_solve_life_cycle (fuel : nat) (d : DiophantineSystem) (b : bool)
    (d' : DiophantineSystem) :
  solve fuel d = Done (b, d') ->
  closed d' = true /\ failed d' = negb b
  /\ (forall c mn mx, insertRowAsserted c mn mx d' = Abort)
  /\ (forall v, insertColumnAsserted v d' = Abort)
  /\ (b = false -> forall fuel', solve fuel' d' = Abort).
Proof.
  intros H. destruct (solve_flags fuel d b d' H) as [Hc Hf].
  split; [exact Hc|]. split; [exact Hf|]. split; [|split].
  - intros c mn mx. unfold insertRowAsserted. rewrite Hc. reflexivity.
  - intros v. unfold insertColumnAsserted. rewrite Hc.
    destruct (negb (0 <? v)); reflexivity.
  - intros -> fuel'. unfold solve. rewrite Hc. simpl. rewrite Hf.
    reflexivity.
Qed.

Lemma X4_solve_life_cycle_witness :
  closed scenario4Failed = true /\ failed scenario4Failed = negb false
  /\ (forall c mn mx, insertRowAsserted c mn mx scenario4Failed = Abort)
  /\ (forall v, insertColumnAsserted v scenario4Failed = Abort)
  /\ (false = false -> forall fuel', solve fuel' scenario4Failed = Abort).
Proof.
  apply (X4_solve_life_cycle 0 scenario4 false scenario4Failed).
  vm_compute. reflexivity.
Defined.

(** X5: a call of [solve] on a closed system changes nothing but the
    state of the search: [rowPermute], [columnSum], [maxColumnValue] and
    the classification stay, the rows stay in place, and every row keeps
    its name, coefficient, bounds, products, leaves and table. *)
Theorem X5_solve_frame (fuel : nat) (d : DiophantineSystem) (b : bool)
    (d' : DiophantineSystem) :
  closed d = true ->
  solve fuel d = Done (b, d') ->
  sameSystem d d'.
Proof.
  intros Hc H. destruct (solve_closed_frame fuel d b d' Hc H) as [_ [S _]].
  exact S.
Qed.

Lemma X5_solve_frame_witness : sameSystem firstSolution secondSolution.
Proof.
  apply (X5_solve_frame 50 firstSolution true secondSolution).
  - vm_compute. reflexivity.
  - vm_compute. reflexivity.
Defined.

(* ----------------------------------------------------------------- *)
(** ** The order of the rows *)

Lemma rowLt_false (a b : Row) : rowLt b a = false <-> rowLe a b.
Proof.
  unfold rowLt, rowLe.
  destruct (coeff b - coeff a =? 0) eqn:E; simpl.
  - apply Z.eqb_eq in E. rewrite Z.ltb_ge. split; intros H; [right|]; lia.
  - apply Z.eqb_neq in E. rewrite Z.ltb_ge. split; intros H; [left|]; lia.
Qed.

Lemma rowLt_true (a b : Row) : rowLt a b = true -> rowLe a b.
Proof.
  unfold rowLt, rowLe.
  destruct (coeff a - coeff b =? 0) eqn:E; simpl.
  - apply Z.eqb_eq in E. rewrite Z.ltb_lt. intros H. right. lia.
  - rewrite Z.ltb_lt. intros H. left. lia.
Qed.

Lemma rowLe_refl (a : Row) : rowLe a a.
Proof. right. lia. Qed.

Lemma rowLe_trans (a b c : Row) : rowLe a b -> rowLe b c -> rowLe a c.
Proof. unfold rowLe. intros H1 H2. lia. Qed.

Lemma insertSorted_sorted (x : Row) (l : list Row) :
  StronglySorted rowLe l -> StronglySorted rowLe (insertSorted x l).
Proof.
  induction 1 as [|y l Hs IH Hy]; simpl.
  - constructor; constructor.
  - destruct (rowLt y x) eqn:E.
    + constructor; [exact IH|].
      apply Forall_forall. intros z Hz.
      apply (Permutation_in z (insertSorted_perm x l)) in Hz.
      destruct Hz as [<-|Hz]; [apply rowLt_true; exact E|].
      apply (proj1 (Forall_forall _ _) Hy z Hz).
    + apply rowLt_false in E. constructor.
      * constructor; assumption.
      * constructor; [exact E|].
        eapply Forall_impl; [|exact Hy]. intros z Hz.
        apply (rowLe_trans _ y); assumption.
Qed.

Lemma sortRows_sorted (l : list Row) : StronglySorted rowLe (sortRows l).
Proof.
  unfold sortRows.
  assert (H : forall acc, StronglySorted rowLe acc ->
            StronglySorted rowLe
              (fold_left (fun acc x => insertSorted x acc) l acc)).
  { induction l as [|x l IH]; intros acc Hacc; simpl; [exact Hacc|].
    apply IH. apply insertSorted_sorted. exact Hacc. }
  apply H. constructor.
Qed.

Lemma sorted_transfer (Q : Row -> Row -> Prop) (l l' : list Row) :
  (forall r r', Q r r' -> coeff r' = coeff r /\ maxSize r' = maxSize r) ->
  Forall2 Q l l' ->
  StronglySorted rowLe l -> StronglySorted rowLe l'.
Proof.
  intros HQ H. induction H as [|a b l l' Hab Hl IH]; intros Hs.
  - constructor.
  - inversion Hs as [|? ? Hs' Ha]; subst. constructor; [apply IH; exact Hs'|].
    destruct (HQ _ _ Hab) as [Q1 Q2].
    clear IH Hs Hs'. induction Hl as [|c e l l' Hce Hl IH]; constructor.
    + inversion Ha; subst. destruct (HQ _ _ Hce) as [Q3 Q4].
      unfold rowLe in *. rewrite Q1, Q2, Q3, Q4. assumption.
    + inversion Ha; subst. apply IH. assumption.
Qed.

Lemma sameDecl_keys (r r' : Row) :
  sameDecl r r' -> coeff r' = coeff r /\ maxSize r' = maxSize r.
Proof. intros [_ [H1 [_ [H2 _]]]]. auto. Qed.

Lemma sameRow_keys (r r' : Row) :
  sameRow r r' -> coeff r' = coeff r /\ maxSize r' = maxSize r.
Proof. intros [H _]. apply sameDecl_keys. exact H. Qed.

Lemma precompute_rows (d d1 : DiophantineSystem) :
  precompute d = (true, d1) ->
  Forall2 sameRow (preparedRows d) (rows d1)
  /\ complex d1
     = (lastRowIsComplex (maxColumnValue d) (preparedRows d) || complex d).
Proof.
  intros H. destruct (precompute_true _ _ H)
    as [_ [_ [_ [_ [_ [_ [[C1 [C2 [C3 _]]] | [C1 [C2 C3]]]]]]]]].
  - rewrite C3, C1, C2. split; [apply buildRows_decl | reflexivity].
  - rewrite C3, C1, C2. split; [apply sameRow_refl | reflexivity].
Qed.

Lemma preparedRows_sorted (d : DiophantineSystem) :
  StronglySorted rowLe (preparedRows d).
Proof.
  apply (sorted_transfer sameDecl _ _ sameDecl_keys (prepared_decl d)).
  apply sortRows_sorted.
Qed.

(** X6: when [precompute] succeeds the rows are left in ascending order
    of coefficient, rows of equal coefficient in ascending order of
    [maxSize] (after [UNBOUNDED] was replaced). *)
Theorem X6_rows_sorted (d d1 : DiophantineSystem) :
  precompute d = (true, d1) ->
  StronglySorted rowLe (rows d1).
Proof.
  intros H. destruct (precompute_rows d d1 H) as [HF _].
  apply (sorted_transfer sameRow _ _ sameRow_keys HF).
  apply preparedRows_sorted.
Qed.

Lemma X6_rows_sorted_witness :
  StronglySorted rowLe
    (rows (snd (precompute (declare exampleRows exampleColumns)))).
Proof.
  apply (X6_rows_sorted (declare exampleRows exampleColumns)).
  vm_compute. reflexivity.
Defined.

Lemma permuted_onto (rs : list (Z * Z * Z)) (csum : Z) (Rs : list Row)
    (perm : list nat) (k : nat) (R : Row) :
  permuted rs csum Rs perm ->
  nth_error Rs k = Some R ->
  exists i r,
    nth_error rs i = Some r /\ nth i perm O = k /\ name R = i
    /\ coeff R = fst (fst r) /\ minSize R = snd (fst r)
    /\ maxSize R = boundOf csum r.
Proof.
  intros Hpm Hk. pose proof (permuted_positions _ _ _ _ Hpm) as HP.
  destruct Hpm as [Hlen Hp].
  assert (Hin : In k (seq 0 (length rs))).
  { apply in_seq. split; [lia|]. simpl. rewrite <- Hlen.
    apply nth_error_Some. congruence. }
  apply (Permutation_in k (Permutation_sym HP)) in Hin.
  apply in_map_iff in Hin. destruct Hin as [i [Hi Hin]].
  apply in_seq in Hin.
  destruct (nth_error rs i) as [r|] eqn:E;
    [|apply nth_error_None in E; lia].
  destruct (Hp i r E) as [R' [H1 [H2 [H3 [H4 H5]]]]].
  rewrite Hi, Hk in H1. injection H1 as <-.
  exists i, r. unfold boundOf. repeat split; assumption.
Qed.

Lemma sorted_last (l : list Row) (x : Row) :
  StronglySorted rowLe l -> In x l -> rowLe x (last l emptyRow).
Proof.
  intros Hsorted. revert x.
  induction Hsorted as [|y l Hs IH Hy]; intros x Hin; [destruct Hin|].
  destruct l as [|z l].
  - destruct Hin as [<-|[]]. apply rowLe_refl.
  - change (last (y :: z :: l) emptyRow) with (last (z :: l) emptyRow).
    destruct Hin as [<-|Hin]; [|apply IH; exact Hin].
    apply (rowLe_trans _ z).
    + inversion Hy; subst. assumption.
    + apply IH. left. reflexivity.
Qed.

Lemma last_in {A : Type} (l : list A) (d : A) : l <> [] -> In (last l d) l.
Proof.
  induction l as [|a [|b l] IH]; intros H; [congruence | left; reflexivity|].
  right. apply IH. discriminate.
Qed.

Lemma Forall2_last (Q : Row -> Row -> Prop) (l l' : list Row) :
  Forall2 Q l l' -> l <> [] -> Q (last l emptyRow) (last l' emptyRow).
Proof.
  induction 1 as [|a b l l' Hab Hl IH]; intros Hne; [congruence|].
  destruct Hl as [|a2 b2 l l' Hab2 Hl]; [exact Hab|].
  change (Q (last (a2 :: l) emptyRow) (last (b2 :: l') emptyRow)).
  apply IH. discriminate.
Qed.

Lemma declare_max_in (rs : list (Z * Z * Z)) (cs : list Z) :
  Forall validRow rs -> Forall validColumn cs -> cs <> [] ->
  In (maxColumnValue (declare rs cs)) cs
  /\ Forall (fun v => v <= maxColumnValue (declare rs cs)) cs.
Proof.
  intros Hrs Hcs Hne.
  destruct (built_columns _ (declare_built rs cs Hrs Hcs))
    as [_ [B2 [_ B4]]].
  destruct (declare_fields rs cs) as [_ [D2 _]]. rewrite D2 in *.
  split; [apply B4; exact Hne|].
  eapply Forall_impl; [|exact B2]. simpl. intros; lia.
Qed.

(** X7: the classification the code computes.  After a successful
    [precompute] of a declared system, the system is treated as simple
    exactly when every coefficient is 1 and some row has a [maxSize]
    (with [UNBOUNDED] replaced by the column sum) that is at least every
    column value. *)
Theorem X7_simple_iff (rs : list (Z * Z * Z)) (cs : list Z)
    (d1 : DiophantineSystem) :
  Forall validRow rs -> Forall validColumn cs ->
  rs <> [] -> cs <> [] ->
  precompute (declare rs cs) = (true, d1) ->
  complex d1 = false
  <-> (Forall (fun r => fst (fst r) = 1) rs
       /\ Exists (fun r => Forall (fun v => v <= boundOf (zsum cs) r) cs)
            rs).
Proof.
  intros Hrs Hcs Hrne Hcne Hpre.
  destruct (precompute_declared rs cs d1 Hrs Hcs Hrne Hpre)
    as [[Hst [Hn _]] [_ Hpm]].
  destruct (precompute_rows _ _ Hpre) as [HF Hcx].
  destruct (declare_fields rs cs) as [_ [_ [_ [_ [_ [_ [_ [D8 _]]]]]]]].
  destruct (declare_max_in rs cs Hrs Hcs Hcne) as [Hin Hle].
  rewrite D8, orb_false_r in Hcx.
  assert (Hsorted : StronglySorted rowLe (rows d1)).
  { apply (sorted_transfer sameRow _ _ sameRow_keys HF).
    apply preparedRows_sorted. }
  assert (Hne1 : rows d1 <> []) by (destruct (rows d1); simpl in Hn;
                                    [lia | discriminate]).
  assert (HneP : preparedRows (declare rs cs) <> []).
  { intros E. rewrite E in HF. inversion HF. congruence. }
  destruct (sameRow_keys _ _ (Forall2_last _ _ _ HF HneP)) as [K1 K2].
  set (mcv := maxColumnValue (declare rs cs)) in *.
  set (L := last (rows d1) emptyRow) in *.
  assert (HcL : complex d1 = (1 <? coeff L) || (maxSize L <? mcv)).
  { rewrite Hcx. unfold lastRowIsComplex. rewrite K1, K2. reflexivity. }
  assert (HLin : In L (rows d1)) by (apply last_in; exact Hne1).
  assert (Hpos : forall R, In R (rows d1) -> 0 < coeff R).
  { intros R HR. destruct (In_nth_error _ _ HR) as [k Hk].
    destruct (Hst k R Hk) as [H _]. exact H. }
  rewrite HcL, orb_false_iff, !Z.ltb_ge. split.
  - intros [H1 H2]. split.
    + apply Forall_forall. intros r Hr.
      destruct (In_nth_error _ _ Hr) as [i Hi].
      destruct (proj2 Hpm i r Hi) as [R [HR [_ [HcR _]]]].
      pose proof (nth_error_In _ _ HR) as HRin.
      pose proof (sorted_last _ _ Hsorted HRin) as Hle1.
      pose proof (Hpos R HRin). fold L in Hle1. unfold rowLe in Hle1. lia.
    + destruct (In_nth_error _ _ HLin) as [k Hk].
      destruct (permuted_onto _ _ _ _ _ _ Hpm Hk)
        as [i [r [Hi [_ [_ [_ [_ Hmx]]]]]]].
      apply Exists_exists. exists r. split; [apply (nth_error_In _ _ Hi)|].
      eapply Forall_impl; [|exact Hle]. simpl. intros v Hv. lia.
  - intros [H1 H2].
    assert (Hall : forall R, In R (rows d1) -> coeff R = 1).
    { intros R HR. destruct (In_nth_error _ _ HR) as [k Hk].
      destruct (permuted_onto _ _ _ _ _ _ Hpm Hk)
        as [i [r [Hi [_ [_ [HcR _]]]]]].
      rewrite HcR.
      apply (proj1 (Forall_forall _ _) H1 r (nth_error_In _ _ Hi)). }
    split; [rewrite (Hall L HLin); lia|].
    apply Exists_exists in H2. destruct H2 as [r [Hr Hb]].
    destruct (In_nth_error _ _ Hr) as [i Hi].
    destruct (proj2 Hpm i r Hi) as [R [HR [_ [_ [_ HmR]]]]].
    pose proof (nth_error_In _ _ HR) as HRin.
    pose proof (sorted_last _ _ Hsorted HRin) as Hle1. fold L in Hle1.
    pose proof (Hall R HRin). pose proof (Hall L HLin).
    pose proof (proj1 (Forall_forall _ _) Hb mcv Hin) as Hm.
    unfold boundOf in Hm. unfold rowLe in Hle1. lia.
Qed.

Lemma X7_simple_iff_witness :
  complex (snd (precompute (declare exampleRows exampleColumns))) = false
  <-> (Forall (fun r => fst (fst r) = 1) exampleRows
       /\ Exists (fun r => Forall (fun v => v <= boundOf
                                              (zsum exampleColumns) r)
                             exampleColumns)
            exampleRows).
Proof.
  apply (X7_simple_iff exampleRows exampleColumns).
  - repeat constructor; vm_compute; discriminate.
  - repeat constructor.
  - discriminate.
  - discriminate.
  - vm_compute. reflexivity.
Defined.

(* ----------------------------------------------------------------- *)
(** ** The rows behind [solution] *)

Lemma solved_frame (d0 d : DiophantineSystem) :
  closed d0 = false ->
  solved d0 d ->
  exists d1,
    precompute d0 = (true, d1) /\ sameSystem d1 d
    /\ closed d = true /\ failed d = false
    /\ rows d0 <> [] /\ columns d0 <> [].
Proof.
  intros Hc H. induction H as [fuel d Hrun|fuel d d' _ IH Hrun].
  - destruct (solve_flags _ _ _ _ Hrun) as [F1 F2].
    unfold solve in Hrun. rewrite Hc in Hrun. simpl in Hrun.
    destruct ((length (rows d0) =? 0)%nat || (length (columns d0) =? 0)%nat)
      eqn:Hne; [discriminate|].
    apply orb_false_iff in Hne. destruct Hne as [N1 N2].
    simpl in Hrun. destruct (precompute d0) as [ok d1].
    destruct ok; simpl in Hrun; [|discriminate].
    destruct (failed d1); [discriminate|].
    exists d1. split; [reflexivity|]. split.
    + destruct (complex d1);
        [apply (solveComplex_frame _ _ _ _ _ Hrun)
        | apply (solveSimple_frame _ _ _ _ _ Hrun)].
    + split; [exact F1|]. split; [exact F2|].
      split; intros E; rewrite E in *; discriminate.
  - destruct IH as [d1 [H1 [H2 [H3 [H4 [H5 H6]]]]]].
    destruct (solve_closed_frame _ _ _ _ H3 Hrun) as [_ [S F]].
    destruct (solve_flags _ _ _ _ Hrun) as [F1 F2].
    exists d1. split; [exact H1|].
    split; [apply (sameSystem_trans _ d); assumption|].
    repeat split; assumption.
Qed.





(* ----------------------------------------------------------------- *)
(** ** What [precompute] rejects *)

Lemma zsum_map_add {A : Type} (f g : A -> Z) (l : list A) :
  zsum (map (fun a => f a + g a) l) = zsum (map f l) + zsum (map g l).
Proof.
  induction l as [|a l IH]; [reflexivity|]. simpl map.
  rewrite !zsum_cons, IH. ring.
Qed.

Lemma zsum_map_scale {A : Type} (c : Z) (f : A -> Z) (l : list A) :
  zsum (map (fun a => c * f a) l) = c * zsum (map f l).
Proof.
  induction l as [|a l IH]; [simpl; ring|]. simpl map.
  rewrite !zsum_cons, IH. ring.
Qed.

Lemma zsum_map_zero {A : Type} (l : list A) :
  zsum (map (fun _ => 0) l) = 0.
Proof. induction l as [|a l IH]; [reflexivity|]. simpl map.
  rewrite zsum_cons, IH. reflexivity.
Qed.

Lemma zsum_swap {A B : Type} (f : A -> B -> Z) (l1 : list A)
    (l2 : list B) :
  zsum (map (fun a => zsum (map (fun b => f a b) l2)) l1)
  = zsum (map (fun b => zsum (map (fun a => f a b) l1)) l2).
Proof.
  induction l1 as [|a l1 IH].
  - simpl. rewrite zsum_map_zero. reflexivity.
  - simpl map. rewrite zsum_cons, IH.
    rewrite <- zsum_map_add. f_equal.
Qed.

Lemma zsum_map_le {A : Type} (f g : A -> Z) (l : list A) :
  (forall a, In a l -> f a <= g a) ->
  zsum (map f l) <= zsum (map g l).
Proof.
  induction l as [|a l IH]; intros H; [simpl; lia|]. simpl map.
  rewrite !zsum_cons.
  pose proof (H a (or_introl eq_refl)).
  assert (zsum (map f l) <= zsum (map g l))
    by (apply IH; intros b Hb; apply H; right; exact Hb).
  lia.
Qed.

Lemma zsum_term_le {A : Type} (f : A -> Z) (l : list A) (a : A) :
  (forall b, In b l -> 0 <= f b) -> In a l -> f a <= zsum (map f l).
Proof.
  induction l as [|b l IH]; intros Hnn Hin; [destruct Hin|].
  simpl map. rewrite zsum_cons.
  assert (0 <= zsum (map f l)).
  { apply zsum_nonneg. apply (proj2 (Forall_map _ _ _)).
    apply Forall_forall. intros x Hx. apply Hnn. right. exact Hx. }
  pose proof (Hnn b (or_introl eq_refl)).
  destruct Hin as [->|Hin]; [lia|].
  assert (f a <= zsum (map f l))
    by (apply IH; [intros x Hx; apply Hnn; right; exact Hx | exact Hin]).
  lia.
Qed.

Lemma zsum_nth_seq (l : list Z) :
  zsum (map (fun j => nth j l 0) (seq 0 (length l))) = zsum l.
Proof.
  rewrite (map_nth_seq (fun x => x) 0 l), map_id. reflexivity.
Qed.

Lemma map_seq_nth {A B : Type} (f : A -> B) (d : A) (l : list A) :
  map f l = map (fun i => f (nth i l d)) (seq 0 (length l)).
Proof. symmetry. apply map_nth_seq. Qed.

Lemma bounded_sums (rs : list (Z * Z * Z)) (cs : list Z) :
  sumOfMinProducts (boundedRows (declare rs cs))
  = zsum (map (fun r => snd (fst r) * fst (fst r)) rs)
  /\ sumOfMaxProducts (boundedRows (declare rs cs))
     = zsum (map (fun r => boundOf (zsum cs) r * fst (fst r)) rs).
Proof.
  destruct (declare_fields rs cs) as [D1 [_ [_ [D4 _]]]].
  unfold sumOfMinProducts, sumOfMaxProducts, boundedRows.
  rewrite D1, D4. clear D1 D4. generalize O.
  induction rs as [|r rs IH]; intros i; [split; reflexivity|].
  destruct (IH (S i)) as [I1 I2]. simpl map.
  rewrite !zsum_cons, I1, I2. simpl. unfold boundOf. split; reflexivity.
Qed.

Section Solutions.

Variables (rs : list (Z * Z * Z)) (cs : list Z) (M : list (list Z)).
Hypothesis Hrs : Forall validRow rs.
Hypothesis Hcs : Forall validColumn cs.
Hypothesis Hsol : isSolution rs cs M.

Let coeffOf (i : nat) : Z := fst (fst (nth i rs (0, 0, 0))).
Let sizeOf (i : nat) : Z := zsum (nth i M []).

Lemma solution_row (i : nat) :
  (i < length rs)%nat ->
  length (nth i M []) = length cs
  /\ Forall (fun x => 0 <= x) (nth i M []).
Proof.
  intros Hi. destruct Hsol as [Hl [HM _]].
  apply (proj1 (Forall_forall _ _) HM). apply nth_In. lia.
Qed.

Lemma solution_entry (i j : nat) :
  (i < length rs)%nat ->
  0 <= nth j (nth i M []) 0 <= sizeOf i.
Proof.
  intros Hi. destruct (solution_row i Hi) as [Hl Hnn].
  destruct (Nat.lt_ge_cases j (length (nth i M []))) as [Hj|Hj].
  - pose proof (nth_In _ 0 Hj) as Hin. split.
    + apply (proj1 (Forall_forall _ _) Hnn _ Hin).
    + unfold sizeOf. rewrite <- (map_id (nth i M [])) at 2.
      apply (zsum_term_le (fun x => x)); [|exact Hin].
      intros b Hb. apply (proj1 (Forall_forall _ _) Hnn _ Hb).
  - rewrite nth_overflow by exact Hj. split; [lia|].
    unfold sizeOf. apply zsum_nonneg. exact Hnn.
Qed.

Lemma coeffOf_pos (i : nat) : (i < length rs)%nat -> 0 < coeffOf i.
Proof.
  intros Hi. unfold coeffOf.
  assert (Hin : In (nth i rs (0, 0, 0)) rs) by (apply nth_In; exact Hi).
  destruct (proj1 (Forall_forall _ _) Hrs _ Hin) as [H _]. exact H.
Qed.

Lemma solution_total :
  zsum cs = zsum (map (fun i => coeffOf i * sizeOf i) (seq 0 (length rs))).
Proof.
  destruct Hsol as [Hl [HM [Hbal _]]].
  rewrite <- (zsum_nth_seq cs).
  rewrite (map_ext_in _
             (fun j => zsum (map (fun i => coeffOf i * nth j (nth i M []) 0)
                               (seq 0 (length rs))))).
  2:{ intros j Hj. apply in_seq in Hj. symmetry. apply Hbal. lia. }
  rewrite <- zsum_swap. f_equal. apply map_ext_in. intros i Hi.
  apply in_seq in Hi. rewrite zsum_map_scale. f_equal.
  destruct (solution_row i ltac:(lia)) as [Hli _].
  unfold sizeOf. rewrite <- Hli. apply zsum_nth_seq.
Qed.

Lemma solution_size (i : nat) (r : Z * Z * Z) :
  nth_error rs i = Some r ->
  snd (fst r) <= sizeOf i <= boundOf (zsum cs) r.
Proof.
  intros Hi. pose proof (nth_error_lt _ _ _ Hi) as Hlt.
  destruct Hsol as [_ [_ [_ Hb]]]. destruct (Hb i r Hi) as [B1 B2].
  split; [exact B1|]. unfold boundOf.
  destruct (snd r =? UNBOUNDED) eqn:E;
    [|apply Z.eqb_neq in E; destruct B2; [contradiction | assumption]].
  rewrite solution_total.
  assert (Hin : In i (seq 0 (length rs))) by (apply in_seq; lia).
  pose proof (zsum_term_le (fun i => coeffOf i * sizeOf i)
                (seq 0 (length rs)) i) as Ht.
  cbn beta in Ht.
  assert (Hnn : forall b, In b (seq 0 (length rs)) ->
                  0 <= coeffOf b * sizeOf b).
  { intros b Hb'. apply in_seq in Hb'.
    pose proof (coeffOf_pos b ltac:(lia)).
    pose proof (proj2 (solution_entry b 0 ltac:(lia))).
    pose proof (proj1 (solution_entry b 0 ltac:(lia))). nia. }
  specialize (Ht Hnn Hin).
  pose proof (coeffOf_pos i Hlt).
  pose proof (solution_entry i 0 Hlt). fold (sizeOf i). nia.
Qed.

Lemma solution_totals_ok :
  sumOfMinProducts (boundedRows (declare rs cs)) <= zsum cs
    <= sumOfMaxProducts (boundedRows (declare rs cs)).
Proof.
  destruct (bounded_sums rs cs) as [B1 B2]. rewrite B1, B2.
  rewrite (map_seq_nth (fun r => snd (fst r) * fst (fst r)) (0, 0, 0)).
  rewrite (map_seq_nth (fun r => boundOf (zsum cs) r * fst (fst r))
             (0, 0, 0)).
  split; [rewrite solution_total | rewrite solution_total at 1];
    apply zsum_map_le; intros i Hi; apply in_seq in Hi;
    (destruct (nth_error rs i) as [r|] eqn:E;
       [|apply nth_error_None in E; lia]);
    pose proof (solution_size i r E) as Hs;
    pose proof (coeffOf_pos i ltac:(lia)) as Hc;
    unfold coeffOf in *; rewrite (nth_error_nth _ _ (0, 0, 0) E) in *; nia.
Qed.

Lemma solution_column_soluble (Rs : list Row) (perm : list nat) (j : nat) :
  permuted rs (zsum cs) Rs perm ->
  (j < length cs)%nat ->
  solubleBy Rs (nth j cs 0).
Proof.
  intros Hpm Hj. pose proof (permuted_positions _ _ _ _ Hpm) as HP.
  exists (map (fun R => nth j (nth (name R) M []) 0) Rs).
  assert (Hall : forall k R, nth_error Rs k = Some R ->
            (name R < length rs)%nat /\ coeff R = coeffOf (name R)
            /\ sizeOf (name R) <= maxSize R).
  { intros k R Hk.
    destruct (permuted_onto _ _ _ _ _ _ Hpm Hk)
      as [i [r [Hi [_ [Hn [Hc [_ Hm]]]]]]].
    pose proof (nth_error_lt _ _ _ Hi). rewrite Hn.
    split; [assumption|]. split.
    - unfold coeffOf. rewrite (nth_error_nth _ _ (0, 0, 0) Hi). exact Hc.
    - rewrite Hm. apply (solution_size i r Hi). }
  split.
  - assert (HF : Forall (fun R => 0 <= nth j (nth (name R) M []) 0
                                  <= maxSize R) Rs).
    { apply Forall_forall. intros R HR.
      destruct (In_nth_error _ _ HR) as [k Hk].
      destruct (Hall k R Hk) as [A1 [A2 A3]].
      pose proof (solution_entry (name R) j A1). lia. }
    clear - HF. induction Rs as [|R l IH]; simpl; constructor.
    + inversion HF; subst. assumption.
    + apply IH. inversion HF; subst. assumption.
  - unfold weightedSum.
    assert (Hcomb : forall l : list Row,
              map (fun p => snd p * coeff (fst p))
                (combine l (map (fun R => nth j (nth (name R) M []) 0) l))
              = map (fun R => nth j (nth (name R) M []) 0 * coeff R) l).
    { induction l as [|R l IH]; [reflexivity|]. simpl. rewrite IH.
      reflexivity. }
    rewrite Hcomb.
    rewrite (map_seq_nth
               (fun R => nth j (nth (name R) M []) 0 * coeff R) emptyRow).
    destruct Hpm as [Hlen Hp]. rewrite Hlen.
    rewrite <- (zsum_perm _ _
                  (Permutation_map
                     (fun k => nth j (nth (name (nth k Rs emptyRow)) M []) 0
                               * coeff (nth k Rs emptyRow)) HP)).
    rewrite map_map.
    destruct Hsol as [_ [_ [Hbal _]]]. rewrite <- (Hbal j Hj).
    f_equal. apply map_ext_in. intros i Hi. apply in_seq in Hi.
    destruct (nth_error rs i) as [r|] eqn:E;
      [|apply nth_error_None in E; lia].
    destruct (Hp i r E) as [R [H1 [H2 [H3 _]]]].
    rewrite (nth_error_nth _ _ emptyRow H1), H2, H3.
    rewrite (nth_error_nth _ _ (0, 0, 0) E). ring.
Qed.

End Solutions.

Lemma entry_min_nonneg (P : Z -> Prop) (c mx v : Z) (e : Soluble) :
  entryOK P c mx v e -> min e <> INSOLUBLE -> 0 <= min e.
Proof.
  intros [[H _] | [[H _] _]] Hne; [contradiction | lia].
Qed.

Lemma precompute_soluble (rs : list (Z * Z * Z))
    (cs : list Z) (M : list (list Z)) :
  Forall validRow rs -> Forall validColumn cs -> rs <> [] ->
  isSolution rs cs M ->
  fst (precompute (declare rs cs)) = true.
Proof.
  intros Hrs Hcs Hne Hsol.
  pose proof (solution_totals_ok rs cs M Hrs Hsol) as Htot.
  destruct (declare_fields rs cs)
    as [D1 [D2 [D3 [D4 [D5 [D6 _]]]]]].
  set (d := declare rs cs) in *.
  unfold precompute. rewrite D4.
  replace ((zsum cs <? sumOfMinProducts (boundedRows d))
           || (sumOfMaxProducts (boundedRows d) <? zsum cs)) with false.
  2:{ symmetry. apply orb_false_iff. split; apply Z.ltb_ge; lia. }
  destruct (lastRowIsComplex (maxColumnValue d) (preparedRows d));
    [|reflexivity].
  replace (anyInsoluble (soluble (hd emptyRow (tabledRows d))) (columns d))
    with false; [reflexivity|].
  symmetry. apply not_true_is_false. intros Hany.
  unfold anyInsoluble in Hany. apply existsb_exists in Hany.
  destruct Hany as [v [Hv Hneg]]. apply Z.ltb_lt in Hneg. rewrite D2 in Hv.
  destruct (In_nth _ _ 0 Hv) as [j [Hj Hnth]].
  destruct (prepared_common rs cs (tabledRows d) Hrs Hcs Htot
              (buildRows_decl _ _)) as [_ [_ [_ Hpm]]].
  pose proof (solution_column_soluble rs cs M Hrs Hsol _ _ j Hpm Hj)
    as Hsb.
  rewrite Hnth in Hsb.
  assert (Hrd : Forall rowDeclared (rows d))
    by (rewrite D1; apply declaredRows_valid; exact Hrs).
  assert (Hnn : Forall (fun v => 0 <= v) cs).
  { eapply Forall_impl; [|exact Hcs]. unfold validColumn. intros; lia. }
  assert (Hsum : 0 <= columnSum d)
    by (rewrite D4; apply zsum_nonneg; exact Hnn).
  pose proof (tabledRows_ok d Hrd Hsum D5) as Htab.
  assert (Hv0 : 0 <= v <= maxColumnValue d).
  { split; [apply (proj1 (Forall_forall _ _) Hnn v Hv)
           | apply (proj1 (Forall_forall _ _) D6 v Hv)]. }
  destruct (tabledRows d) as [|T0 rest].
  - destruct Hpm as [Hlen _]. destruct rs; [congruence | discriminate].
  - simpl in Hneg. destruct Htab as [Ht _].
    pose proof (proj1 (tableOK_decides rest T0 _ Ht v Hv0) Hsb) as Hmin.
    pose proof (entry_min_nonneg _ _ _ _ _ (proj2 Ht v Hv0) Hmin).
    lia.
Qed.


Lemma missedSolution_ok : isSolution missedRows missedColumns missedSolution.
Proof.
  split; [reflexivity|]. split; [|split].
  - repeat constructor; lia.
  - intros [|[|j]] Hj; [reflexivity | reflexivity | simpl in Hj; lia].
  - intros i r Hi.
    destruct i as [|[|[|i]]]; simpl in Hi;
      [| | |destruct i; discriminate];
      injection Hi as <-; simpl; (split; [lia | right; lia]).
Qed.


(** X11: a false return of [solve] does not mean that there is no
    solution.  There is a system of valid rows and columns that has a
    solution and on which the first [solve] returns false, whatever the
    bound on the loops: [viable] rejects at the first row, because the
    rows before the row it looks at have a smaller coefficient, not a
    greater one. *)
Theorem X11_solve_misses_solution :
  exists rs cs M,
    Forall validRow rs /\ Forall validColumn cs /\ isSolution rs cs M
    /\ forall fuel,
         exists d', solve (S fuel) (declare rs cs) = Done (false, d').
Proof.
  exists missedRows, missedColumns, missedSolution.
  split; [repeat constructor; vm_compute; discriminate|].
  split; [repeat constructor|]. split; [apply missedSolution_ok|].
  intros fuel. eexists. vm_compute. reflexivity.
Qed.

(* ----------------------------------------------------------------- *)
(** ** The entries of the matrix are natural numbers *)

Lemma cell_nonneg (r : Row) :
  Forall (fun s => 0 <= base s /\ 0 <= extra s) (selection r) ->
  forall j, 0 <= cell r j.
Proof.
  intros H j. unfold cell.
  destruct (Nat.lt_ge_cases j (length (selection r))) as [Hj|Hj].
  - pose proof (proj1 (Forall_forall _ _) H _
                  (nth_In _ (mkSelect 0 0 0) Hj)) as [H1 H2]. lia.
  - rewrite nth_overflow by exact Hj. simpl. lia.
Qed.

Lemma activeSimple_nonneg (R r : Row) (V bag : list Z) :
  activeSimple R r V bag -> forall j, 0 <= cell r j.
Proof.
  intros [_ [[_ [Hwi _]] [Hz _]]]. apply cell_nonneg.
  unfold within in Hwi. revert Hwi Hz.
  induction (selection r) as [|s sel IH]; intros Hwi Hz; constructor.
  - inversion Hwi; subst. inversion Hz; subst. lia.
  - inversion Hwi; subst. inversion Hz; subst. apply IH; assumption.
Qed.

Lemma activeComplex_nonneg (mcv : Z) (t2 : list Soluble) (R r : Row)
    (V bag : list Z) :
  activeComplex mcv t2 R r V bag -> forall j, 0 <= cell r j.
Proof.
  intros [_ [Hw [_ [_ [_ [Hb _]]]]]]. apply cell_nonneg.
  revert Hb. induction Hw as [|s b sel bag' Hs _ IH]; intros Hb;
    constructor.
  - inversion Hb; subst. destruct Hs as [Hs _]. lia.
  - inversion Hb; subst. apply IH. assumption.
Qed.

Lemma activeUpTo_forall (Active : nat -> Row -> list Z -> list Z -> Prop)
    (Entry : nat -> list Z -> Prop) (Q : Row -> Prop) (V0 : list Z) :
  (forall k r V bag, Active k r V bag -> Q r) ->
  forall a rs bag,
    activeUpTo Active Entry a rs V0 bag ->
    forall k, (k < a)%nat -> Q (nth k rs emptyRow).
Proof.
  intros HQ. induction a as [|a IH]; intros rs bag H k Hk; [lia|].
  cbn [activeUpTo] in H. destruct H as [V [r [H1 [H2 [H3 H4]]]]].
  destruct (Nat.eq_dec k a) as [->|Hne].
  - rewrite (nth_error_nth _ _ emptyRow H1). apply (HQ a r V bag H4).
  - apply (IH rs V H2). lia.
Qed.

Lemma solvedState_nonneg (cx : bool) (Rs : list Row) (perm : list nat)
    (mcv : Z) (V0 : list Z) (d : DiophantineSystem) :
  prepared cx Rs mcv ->
  solvedState cx Rs perm mcv V0 d ->
  forall k j, (k < length Rs)%nat -> 0 <= cell (nth k (rows d) emptyRow) j.
Proof.
  intros [Hst [Hn _]] [Hinv [_ [LS2 [LS3 _]]]] k j Hk.
  destruct (last_row_static Rs Hst Hn) as [Hc _].
  destruct (Nat.eq_dec k (length Rs - 1)) as [->|Hne].
  - assert (Hbag : 0 <= nth j (columns d) 0).
    { assert (HF : Forall (fun t => 0 <= t) (columns d)).
      { unfold searchInv in Hinv. destruct cx;
          destruct Hinv as [_ [_ [_ [_ [_ [E2 _]]]]]].
        - eapply Forall_impl; [|exact E2]. intros t Ht.
          apply (sol2_range _ _ Ht).
        - exact E2. }
      destruct (Nat.lt_ge_cases j (length (columns d))) as [Hj|Hj].
      - apply (proj1 (Forall_forall _ _) HF _ (nth_In _ 0 Hj)).
      - rewrite nth_overflow by exact Hj. lia. }
    rewrite (LS3 j) in Hbag. nia.
  - unfold searchInv in Hinv. destruct cx;
      destruct Hinv as [_ [_ [Hact _]]].
    + apply (activeUpTo_forall _ _
               (fun r => forall j, 0 <= cell r j) V0
               (fun k r V bag H =>
                  activeComplex_nonneg _ _ _ _ _ _ (proj1 H))
               _ _ _ Hact k ltac:(lia)).
    + apply (activeUpTo_forall _ _
               (fun r => forall j, 0 <= cell r j) V0
               (fun k r V bag H => activeSimple_nonneg _ _ _ _ (proj1 H))
               _ _ _ Hact k ltac:(lia)).
Qed.



(* ----------------------------------------------------------------- *)
(** ** No assertion fires *)

Section DriverSafe.

Variable solveRow :
  DiophantineSystem -> nat -> bool -> Outcome (bool * DiophantineSystem).
Variable n : nat.
Variable Active : nat -> Row -> list Z -> list Z -> Prop.
Variable Idle : nat -> Row -> Prop.
Variable Entry : nat -> list Z -> Prop.
Variable Sys : DiophantineSystem -> Prop.
Variable V0 : list Z.

Hypothesis Sys_putRow :
  forall d k r cols, Sys d -> Sys (putRow d k r cols).

Hypothesis first_step :
  forall d k r rn b d',
    (S k < n)%nat -> Sys d ->
    nth_error (rows d) k = Some r ->
    nth_error (rows d) (S k) = Some rn ->
    Idle k r -> Idle (S k) rn -> Entry k (columns d) ->
    solveRow d k true = Done (b, d') ->
    exists r' bag',
      d' = putRow d k r' bag'
      /\ if b then Active k r' (columns d) bag'
         else Idle k r' /\ bag' = columns d.

Hypothesis next_step :
  forall d k r rn V b d',
    (S k < n)%nat -> Sys d ->
    nth_error (rows d) k = Some r ->
    nth_error (rows d) (S k) = Some rn ->
    Active k r V (columns d) -> Idle (S k) rn -> Entry k V ->
    solveRow d k false = Done (b, d') ->
    exists r' bag',
      d' = putRow d k r' bag'
      /\ if b then Active k r' V bag' else Idle k r' /\ bag' = V.

Hypothesis active_entry :
  forall k r V bag,
    (S k < n)%nat -> Entry k V -> Active k r V bag -> Entry (S k) bag.

Hypothesis first_safe :
  forall d k r rn,
    (S k < n)%nat -> Sys d ->
    nth_error (rows d) k = Some r ->
    nth_error (rows d) (S k) = Some rn ->
    Idle k r -> Idle (S k) rn -> Entry k (columns d) ->
    solveRow d k true <> Abort.

Hypothesis next_safe :
  forall d k r rn V,
    (S k < n)%nat -> Sys d ->
    nth_error (rows d) k = Some r ->
    nth_error (rows d) (S k) = Some rn ->
    Active k r V (columns d) -> Idle (S k) rn -> Entry k V ->
    solveRow d k false <> Abort.

Lemma driver_step (k : nat) (ff : bool) (d : DiophantineSystem) :
  (S k < n)%nat ->
  driverInv Active Idle Entry Sys n V0 (if ff then k else S k) d ->
  solveRow d k ff <> Abort
  /\ forall found d1,
       solveRow d k ff = Done (found, d1) ->
       driverInv Active Idle Entry Sys n V0 (if found then S k else k) d1.
Proof.
  intros Hk [Hlen [Hsys [Hact [Hidle Hent]]]].
  assert (Hkl : (k < length (rows d))%nat) by lia.
  destruct (nth_error (rows d) (S k)) as [rn|] eqn:Hn2;
    [|apply nth_error_None in Hn2; lia].
  assert (Hik2 : Idle (S k) rn).
  { apply (Hidle (S k) rn); [destruct ff; lia | exact Hn2]. }
  destruct ff.
  - destruct (nth_error (rows d) k) as [r|] eqn:Hn1;
      [|apply nth_error_None in Hn1; lia].
    assert (Hik : Idle k r) by (apply (Hidle k r); [lia | exact Hn1]).
    split; [apply (first_safe d k r rn Hk Hsys Hn1 Hn2 Hik Hik2 Hent)|].
    intros found d1 Hs.
    destruct (first_step d k r rn found d1 Hk Hsys Hn1 Hn2 Hik Hik2
                Hent Hs) as [r' [bag' [Hd1 Hres]]].
    subst d1.
    split; [rewrite putRow_rows, length_upd; exact Hlen|].
    split; [apply Sys_putRow; exact Hsys|].
    rewrite putRow_rows, putRow_columns. destruct found.
    + split.
      { cbn [activeUpTo]. exists (columns d), r'.
        split; [apply nth_error_upd_eq; exact Hkl|].
        split; [apply activeUpTo_upd; [lia | exact Hact]|].
        split; [exact Hent | exact Hres]. }
      split; [apply idleFrom_upd_above;
              [lia | apply idleFrom_weaken; exact Hidle]|].
      apply (active_entry k r' (columns d) bag' Hk Hent Hres).
    + destruct Hres as [Hir ->].
      split; [apply activeUpTo_upd; [lia | exact Hact]|].
      split; [|exact Hent].
      apply idleFrom_upd_at; [exact Hir|].
      apply idleFrom_weaken. exact Hidle.
  - cbn [activeUpTo] in Hact.
    destruct Hact as [V [r [Hn1 [Hact [HentV Hactive]]]]].
    split; [apply (next_safe d k r rn V Hk Hsys Hn1 Hn2 Hactive Hik2
                     HentV)|].
    intros found d1 Hs.
    destruct (next_step d k r rn V found d1 Hk Hsys Hn1 Hn2 Hactive
                Hik2 HentV Hs) as [r' [bag' [Hd1 Hres]]].
    subst d1.
    split; [rewrite putRow_rows, length_upd; exact Hlen|].
    split; [apply Sys_putRow; exact Hsys|].
    rewrite putRow_rows, putRow_columns. destruct found.
    + split.
      { cbn [activeUpTo]. exists V, r'.
        split; [apply nth_error_upd_eq; exact Hkl|].
        split; [apply activeUpTo_upd; [lia | exact Hact]|].
        split; [exact HentV | exact Hres]. }
      split; [apply idleFrom_upd_above; [lia | exact Hidle]|].
      apply (active_entry k r' V bag' Hk HentV Hres).
    + destruct Hres as [Hir ->].
      split; [apply activeUpTo_upd; [lia | exact Hact]|].
      split; [|exact HentV].
      apply idleFrom_upd_at; [exact Hir | exact Hidle].
Qed.

Lemma driver_safe (fuel : nat) :
  forall (k : nat) (ff : bool) (d : DiophantineSystem),
    (S k < n)%nat ->
    driverInv Active Idle Entry Sys n V0 (if ff then k else S k) d ->
    driverLoop solveRow fuel (n - 2) k ff d <> Abort.
Proof.
  induction fuel as [|fuel IH]; intros k ff d Hk Hinv; [discriminate|].
  cbn [driverLoop].
  destruct (driver_step k ff d Hk Hinv) as [Hsafe Hnext].
  destruct (solveRow d k ff) as [[found d1]| |] eqn:Hs;
    [|congruence|discriminate].
  cbn [bind]. specialize (Hnext found d1 eq_refl).
  destruct found.
  - destruct (k =? n - 2)%nat eqn:Ek; [discriminate|].
    apply Nat.eqb_neq in Ek. apply (IH (S k) true d1); [lia | exact Hnext].
  - destruct (k =? 0)%nat eqn:Ek; [discriminate|].
    apply Nat.eqb_neq in Ek. apply (IH (pred k) false d1); [lia|].
    replace (S (pred k)) with k by lia. exact Hnext.
Qed.

End DriverSafe.

Lemma static_row (Rs : list Row) (j : nat) :
  staticRows Rs -> (j < length Rs)%nat ->
  0 < coeff (nth j Rs emptyRow) /\ 0 <= minSize (nth j Rs emptyRow).
Proof.
  intros Hst Hj. destruct (nth_error Rs j) as [R|] eqn:E;
    [|apply nth_error_None in E; lia].
  rewrite (nth_error_nth _ _ emptyRow E).
  destruct (Hst j R E) as [H1 [H2 _]]. split; lia.
Qed.

Lemma simple_first_safe (Rs : list Row) (m : nat) (d : DiophantineSystem)
    (k : nat) (r : Row) :
  staticRows Rs -> (k < length Rs)%nat ->
  nth_error (rows d) k = Some r ->
  idleSimple Rs m k r -> entrySimple Rs m k (columns d) ->
  solveRowSimple d k true <> Abort.
Proof.
  intros Hst Hk Hn1 [I1 [I2 I3]] [E1 [E2 E3]].
  destruct (static_row Rs k Hst Hk) as [Hc Hm].
  destruct I1 as [_ [F2 [F3 _]]].
  rewrite (solveRowSimple_first d k r Hn1 ltac:(lia) ltac:(lia)
             ltac:(lia) E2).
  destruct (negb (viable d k)); [discriminate|].
  match goal with |- context [if ?c then _ else _] => destruct c end;
    discriminate.
Qed.

Lemma simple_next_safe (d : DiophantineSystem) (k : nat) (R r : Row)
    (V : list Z) :
  nth_error (rows d) k = Some r ->
  activeSimple R r V (columns d) ->
  solveRowSimple d k false <> Abort.
Proof.
  intros Hn1 [_ [Hok _]].
  rewrite (solveRowSimple_advance d k r Hn1 Hok).
  match goal with |- context [match ?c with _ => _ end] => destruct c end;
    discriminate.
Qed.

Lemma simple_steps (Rs : list Row) (m : nat) (perm : list nat) (mcv : Z) :
  staticRows Rs ->
  (forall d k r rn b d',
     (S k < length Rs)%nat -> sysIs false perm mcv d ->
     nth_error (rows d) k = Some r ->
     nth_error (rows d) (S k) = Some rn ->
     idleSimple Rs m k r -> idleSimple Rs m (S k) rn ->
     entrySimple Rs m k (columns d) ->
     solveRowSimple d k true = Done (b, d') ->
     exists r' bag',
       d' = putRow d k r' bag'
       /\ if b then activeSimpleAt Rs m k r' (columns d) bag'
          else idleSimple Rs m k r' /\ bag' = columns d)
  /\ (forall d k r rn V b d',
        (S k < length Rs)%nat -> sysIs false perm mcv d ->
        nth_error (rows d) k = Some r ->
        nth_error (rows d) (S k) = Some rn ->
        activeSimpleAt Rs m k r V (columns d) ->
        idleSimple Rs m (S k) rn -> entrySimple Rs m k V ->
        solveRowSimple d k false = Done (b, d') ->
        exists r' bag',
          d' = putRow d k r' bag'
          /\ if b then activeSimpleAt Rs m k r' V bag'
             else idleSimple Rs m k r' /\ bag' = V)
  /\ (forall k r V bag,
        (S k < length Rs)%nat -> entrySimple Rs m k V ->
        activeSimpleAt Rs m k r V bag -> entrySimple Rs m (S k) bag).
Proof.
  intros Hst. split; [|split].
  - intros d0 k0 r rn b0 d0' Hk0 _ Hn1 Hn2 [I1 [I2 I3]] _ [E1 [E2 E3]] Hs.
    destruct (static_row Rs k0 Hst ltac:(lia)) as [Hc Hm].
    destruct (simple_first_active _ d0 d0' k0 r b0 Hc Hm Hn1 I1
                ltac:(lia) I3 E2 Hs)
      as [r' [bag' [Hd [A1 [A2 [A3 A4]]]]]].
    exists r', bag'. split; [exact Hd|]. destruct b0.
    + split; [exact A4 | exact E1].
    + split; [|exact A4]. split; [exact A1|]. split; [lia | exact A3].
  - intros d0 k0 r rn V b0 d0' Hk0 _ Hn1 Hn2 [Hact HlV] _ _ Hs.
    destruct (static_row Rs k0 Hst ltac:(lia)) as [Hc Hm].
    destruct (simple_next_active _ d0 d0' k0 r V b0 Hc Hn1 Hact Hs)
      as [r' [bag' [Hd [A1 [A2 [A3 A4]]]]]].
    exists r', bag'. split; [exact Hd|]. destruct b0.
    + split; [exact A4 | exact HlV].
    + split; [|exact A4]. split; [exact A1|]. split; [lia | exact A3].
  - intros k0 r V bag Hk0 _ Hact.
    apply (simple_active_entry Rs m k0 r V bag Hst); [lia | exact Hact].
Qed.

Lemma simple_driver_safe (Rs : list Row) (m : nat) (perm : list nat)
    (mcv : Z) (V0 : list Z) (fuel : nat) (k : nat) (ff : bool)
    (d : DiophantineSystem) :
  staticRows Rs ->
  (S k < length Rs)%nat ->
  driverInv (activeSimpleAt Rs m) (idleSimple Rs m) (entrySimple Rs m)
    (sysIs false perm mcv) (length Rs) V0 (if ff then k else S k) d ->
  driverLoop solveRowSimple fuel (length Rs - 2) k ff d <> Abort.
Proof.
  intros Hst Hk Hinv.
  destruct (simple_steps Rs m perm mcv Hst) as [H1 [H2 H3]].
  apply (driver_safe solveRowSimple (length Rs) (activeSimpleAt Rs m)
           (idleSimple Rs m) (entrySimple Rs m) (sysIs false perm mcv) V0)
    with (fuel := fuel) (k := k) (ff := ff) (d := d); try assumption.
  - intros d0 k0 r cols H. exact H.
  - intros d0 k0 r rn Hk0 _ Hn1 _ Hi _ He.
    apply (simple_first_safe Rs m d0 k0 r Hst ltac:(lia) Hn1 Hi He).
  - intros d0 k0 r rn V Hk0 _ Hn1 _ [Ha _] _ _.
    apply (simple_next_safe d0 k0 _ r V Hn1 Ha).
Qed.

Lemma complex_steps (Rs : list Row) (m : nat) (perm : list nat) (mcv : Z)
    (fuel0 : nat) :
  staticRows Rs -> tablesOK mcv Rs -> 0 <= mcv ->
  (forall d k r rn,
     (S k < length Rs)%nat -> sysIs true perm mcv d ->
     nth_error (rows d) k = Some r ->
     nth_error (rows d) (S k) = Some rn ->
     idleComplex Rs m k r -> idleComplex Rs m (S k) rn ->
     entryComplex Rs m k (columns d) ->
     solveRowComplex fuel0 d k true = OutOfFuel
     \/ exists b r' bag',
          solveRowComplex fuel0 d k true = Done (b, putRow d k r' bag')
          /\ if b then activeComplexAt Rs m mcv k r' (columns d) bag'
             else idleComplex Rs m k r' /\ bag' = columns d)
  /\ (forall d k r rn V,
        (S k < length Rs)%nat -> sysIs true perm mcv d ->
        nth_error (rows d) k = Some r ->
        nth_error (rows d) (S k) = Some rn ->
        activeComplexAt Rs m mcv k r V (columns d) ->
        idleComplex Rs m (S k) rn -> entryComplex Rs m k V ->
        solveRowComplex fuel0 d k false = OutOfFuel
        \/ exists b r' bag',
             solveRowComplex fuel0 d k false = Done (b, putRow d k r' bag')
             /\ if b then activeComplexAt Rs m mcv k r' V bag'
                else idleComplex Rs m k r' /\ bag' = V).
Proof.
  intros Hst Htab Hmcv.
  assert (Hpos : Forall (fun r => 0 < coeff r) Rs).
  { apply Forall_forall. intros R HR. apply In_nth_error in HR.
    destruct HR as [j Hj]. destruct (Hst j R Hj) as [H _]. exact H. }
  assert (HR : forall j, (S j < length Rs)%nat ->
            exists R Rn,
              nth_error Rs j = Some R /\ nth_error Rs (S j) = Some Rn
              /\ nth j Rs emptyRow = R /\ nth (S j) Rs emptyRow = Rn).
  { intros j Hj.
    destruct (nth_error Rs j) as [R|] eqn:E1;
      [|apply nth_error_None in E1; lia].
    destruct (nth_error Rs (S j)) as [Rn|] eqn:E2;
      [|apply nth_error_None in E2; lia].
    exists R, Rn. repeat split.
    - apply (nth_error_nth _ _ emptyRow E1).
    - apply (nth_error_nth _ _ emptyRow E2). }
  split.
  - intros d0 k0 r rn Hk0 [_ [_ [_ [_ Hsys]]]] Hn1 Hn2 [I1 [I2 I3]]
           [J1 [J2 J3]] [E1 [E2 E3]].
    destruct (HR k0 Hk0) as [R [Rn [HR1 [HR2 [HR3 HR4]]]]].
    unfold activeComplexAt, idleComplex.
    rewrite HR3 in *. rewrite HR4 in *.
    destruct (row_tables _ _ _ _ _ Htab Hpos HR1 HR2) as [T1 [T2 [T3 T4]]].
    destruct (Hst k0 R HR1) as [HcR _].
    assert (Hsol : soluble rn = soluble Rn)
      by (destruct J1 as [_ [_ [_ [_ [_ [_ [_ [_ H]]]]]]]]; exact H).
    assert (Hll : length (selection r) = length (columns d0)) by lia.
    destruct (solveRowComplex_first mcv R (soluble Rn) _ Hmcv HcR T1 T2 T3
                T4 fuel0 d0 k0 r rn Hn1 Hn2 Hsol Hsys I1 Hll E2)
      as [Hout | [b1 [r' [bag' [Hrun1 [A1 [A2 [A3 A4]]]]]]]];
      [left; exact Hout|].
    right. exists b1, r', bag'. split; [exact Hrun1|]. destruct b1.
    + split; [apply A3; reflexivity | exact E1].
    + split; [|apply A4; reflexivity].
      split; [exact A1|]. split; [lia|]. intros Hlast. lia.
  - intros d0 k0 r rn V Hk0 [_ [_ [_ [_ Hsys]]]] Hn1 Hn2 [Hact HlV]
           [J1 [J2 J3]] _.
    destruct (HR k0 Hk0) as [R [Rn [HR1 [HR2 [HR3 HR4]]]]].
    unfold activeComplexAt, idleComplex.
    rewrite HR3 in *. rewrite HR4 in *.
    destruct (row_tables _ _ _ _ _ Htab Hpos HR1 HR2) as [T1 [T2 [T3 T4]]].
    destruct (Hst k0 R HR1) as [HcR _].
    assert (Hsol : soluble rn = soluble Rn)
      by (destruct J1 as [_ [_ [_ [_ [_ [_ [_ [_ H]]]]]]]]; exact H).
    destruct (solveRowComplex_next mcv R (soluble Rn) HcR T4 fuel0 d0 k0 r
                rn V Hn1 Hn2 Hsol Hsys Hact)
      as [Hout | [b1 [r' [bag' [Hrun1 [A1 [A2 [A3 A4]]]]]]]];
      [left; exact Hout|].
    right. exists b1, r', bag'. split; [exact Hrun1|]. destruct b1.
    + split; [apply A3; reflexivity | exact HlV].
    + split; [|apply A4; reflexivity].
      split; [exact A1|]. split; [lia|]. intros Hlast. lia.
Qed.

Lemma complex_driver_safe (Rs : list Row) (m : nat) (perm : list nat)
    (mcv : Z) (V0 : list Z) (fuel0 fuel : nat) (k : nat) (ff : bool)
    (d : DiophantineSystem) :
  staticRows Rs -> tablesOK mcv Rs -> 0 <= mcv ->
  (S k < length Rs)%nat ->
  driverInv (activeComplexAt Rs m mcv) (idleComplex Rs m)
    (entryComplex Rs m) (sysIs true perm mcv) (length Rs) V0
    (if ff then k else S k) d ->
  driverLoop (solveRowComplex fuel0) fuel (length Rs - 2) k ff d <> Abort.
Proof.
  intros Hst Htab Hmcv Hk Hinv.
  destruct (complex_steps Rs m perm mcv fuel0 Hst Htab Hmcv) as [H1 H2].
  apply (driver_safe (solveRowComplex fuel0) (length Rs)
           (activeComplexAt Rs m mcv) (idleComplex Rs m)
           (entryComplex Rs m) (sysIs true perm mcv) V0)
    with (fuel := fuel) (k := k) (ff := ff) (d := d); try assumption.
  - intros d0 k0 r cols H. exact H.
  - intros d0 k0 r rn b d' Hk0 Hsys Hn1 Hn2 Hi Hi2 He Hs.
    destruct (H1 d0 k0 r rn Hk0 Hsys Hn1 Hn2 Hi Hi2 He)
      as [Hout | [b1 [r' [bag' [Hrun Hres]]]]]; [congruence|].
    rewrite Hrun in Hs. injection Hs as <- <-. eauto.
  - intros d0 k0 r rn V b d' Hk0 Hsys Hn1 Hn2 Ha Hi2 He Hs.
    destruct (H2 d0 k0 r rn V Hk0 Hsys Hn1 Hn2 Ha Hi2 He)
      as [Hout | [b1 [r' [bag' [Hrun Hres]]]]]; [congruence|].
    rewrite Hrun in Hs. injection Hs as <- <-. eauto.
  - intros k0 r V bag Hk0 _ Hact.
    apply (complex_active_entry Rs m mcv k0 r V bag Hst); [lia | exact Hact].
  - intros d0 k0 r rn Hk0 Hsys Hn1 Hn2 Hi Hi2 He.
    destruct (H1 d0 k0 r rn Hk0 Hsys Hn1 Hn2 Hi Hi2 He)
      as [Hout | [b1 [r' [bag' [Hrun Hres]]]]]; congruence.
  - intros d0 k0 r rn V Hk0 Hsys Hn1 Hn2 Ha Hi2 He.
    destruct (H2 d0 k0 r rn V Hk0 Hsys Hn1 Hn2 Ha Hi2 He)
      as [Hout | [b1 [r' [bag' [Hrun Hres]]]]]; congruence.
Qed.

Lemma fillLastComplex_total (tl : list Soluble) (sel : list Select)
    (cols : list Z) :
  Forall (sol2 tl) cols -> length sel = length cols ->
  exists sel', fillLastComplex tl sel cols = Done sel'.
Proof.
  intros H. revert sel. induction H as [|c cols Hc _ IH]; intros [|s sel] Hl;
    simpl in Hl; try discriminate.
  - exists []. reflexivity.
  - destruct Hc as [e [He Hm]]. destruct (IH sel ltac:(lia)) as [sel' Hs].
    exists (set_extra s (min e) :: sel'). simpl. unfold readSol.
    rewrite He. cbn [bind].
    replace (min e =? INSOLUBLE) with false
      by (symmetry; apply Z.eqb_neq; exact Hm).
    rewrite Hs. reflexivity.
Qed.

Lemma solveLastRowSimple_total (Rs : list Row) (m : nat) (perm : list nat)
    (mcv : Z) (V0 : list Z) (d : DiophantineSystem) :
  (1 <= length Rs)%nat ->
  driverInv (activeSimpleAt Rs m) (idleSimple Rs m) (entrySimple Rs m)
    (sysIs false perm mcv) (length Rs) V0 (length Rs - 1) d ->
  solveLastRowSimple d <> Abort.
Proof.
  intros Hn [Hlen [_ [_ [Hid [E1 _]]]]].
  unfold solveLastRowSimple, lastIndex. rewrite Hlen.
  destruct (nth_error (rows d) (length Rs - 1)) as [rl|] eqn:Hrl;
    [|apply nth_error_None in Hrl; lia].
  rewrite (getAt_nth _ _ _ Hrl). cbn [bind].
  destruct (Hid _ rl (Nat.le_refl _) Hrl) as [_ [I2 _]].
  destruct (fillLastSimple_ok (selection rl) (columns d) ltac:(lia))
    as [sel' [F1 _]].
  rewrite F1. discriminate.
Qed.

Lemma solveLastRowComplex_total (Rs : list Row) (m : nat)
    (perm : list nat) (mcv : Z) (V0 : list Z) (d : DiophantineSystem) :
  (1 <= length Rs)%nat ->
  driverInv (activeComplexAt Rs m mcv) (idleComplex Rs m)
    (entryComplex Rs m) (sysIs true perm mcv) (length Rs) V0
    (length Rs - 1) d ->
  solveLastRowComplex d <> Abort.
Proof.
  intros Hn [Hlen [_ [_ [Hid [E1 [E2 _]]]]]].
  unfold solveLastRowComplex, lastIndex. rewrite Hlen.
  destruct (nth_error (rows d) (length Rs - 1)) as [rl|] eqn:Hrl;
    [|apply nth_error_None in Hrl; lia].
  rewrite (getAt_nth _ _ _ Hrl). cbn [bind].
  destruct (Hid _ rl (Nat.le_refl _) Hrl) as [I1 [I2 _]].
  assert (Hsol : soluble rl = soluble (nth (length Rs - 1) Rs emptyRow))
    by (destruct I1 as [_ [_ [_ [_ [_ [_ [_ [_ H]]]]]]]]; exact H).
  rewrite Hsol.
  destruct (fillLastComplex_total _ (selection rl) (columns d) E2
              ltac:(lia)) as [sel' F1].
  rewrite F1. discriminate.
Qed.

Lemma solveSimple_safe (Rs : list Row) (perm : list nat) (mcv : Z)
    (V0 : list Z) (fuel : nat) (d : DiophantineSystem) (ff : bool) :
  prepared false Rs mcv ->
  searchInv false Rs perm mcv V0 (if ff then O else (length Rs - 1)%nat) d ->
  solveSimple fuel d ff <> Abort.
Proof.
  intros [Hst [Hn [Hmcv Hc1]]] Hinv. unfold searchInv in Hinv.
  assert (Hlen : length (rows d) = length Rs) by (destruct Hinv; assumption).
  unfold solveSimple. rewrite Hlen.
  destruct (1 <? length Rs)%nat eqn:En.
  - apply Nat.ltb_lt in En.
    assert (Hinv' : driverInv (activeSimpleAt Rs (length V0))
              (idleSimple Rs (length V0)) (entrySimple Rs (length V0))
              (sysIs false perm mcv) (length Rs) V0
              (if ff then (if ff then O else (length Rs - 2)%nat)
               else S (if ff then O else (length Rs - 2)%nat)) d).
    { destruct ff; [exact Hinv|].
      replace (S (length Rs - 2)) with (length Rs - 1)%nat by lia.
      exact Hinv. }
    assert (Hk : (S (if ff then O else (length Rs - 2)%nat)
                  < length Rs)%nat) by (destruct ff; lia).
    pose proof (simple_driver_safe Rs _ perm mcv V0 fuel _ ff d Hst Hk
                  Hinv') as Hsafe.
    destruct (driverLoop solveRowSimple fuel (length Rs - 2)
                (if ff then O else (length Rs - 2)%nat) ff d)
      as [[found d1]| |] eqn:Hloop; [|congruence|discriminate].
    cbn [bind]. destruct found; [|discriminate].
    pose proof (simple_driver Rs _ perm mcv V0 fuel _ ff d true d1 Hst Hk
                  Hinv' Hloop) as Hd1.
    pose proof (solveLastRowSimple_total Rs _ perm mcv V0 d1 Hn Hd1).
    destruct (solveLastRowSimple d1); [discriminate|congruence|discriminate].
  - apply Nat.ltb_ge in En. cbn [bind]. destruct ff; [|discriminate].
    assert (Hd : driverInv (activeSimpleAt Rs (length V0))
              (idleSimple Rs (length V0)) (entrySimple Rs (length V0))
              (sysIs false perm mcv) (length Rs) V0 (length Rs - 1) d).
    { replace (length Rs - 1)%nat with O by lia. exact Hinv. }
    pose proof (solveLastRowSimple_total Rs _ perm mcv V0 d Hn Hd).
    destruct (solveLastRowSimple d); [discriminate|congruence|discriminate].
Qed.

Lemma solveComplex_safe (Rs : list Row) (perm : list nat) (mcv : Z)
    (V0 : list Z) (fuel : nat) (d : DiophantineSystem) (ff : bool) :
  prepared true Rs mcv ->
  searchInv true Rs perm mcv V0 (if ff then O else (length Rs - 1)%nat) d ->
  solveComplex fuel d ff <> Abort.
Proof.
  intros [Hst [Hn [Hmcv Htab]]] Hinv. unfold searchInv in Hinv.
  assert (Hlen : length (rows d) = length Rs) by (destruct Hinv; assumption).
  unfold solveComplex. rewrite Hlen.
  destruct (1 <? length Rs)%nat eqn:En.
  - apply Nat.ltb_lt in En.
    assert (Hinv' : driverInv (activeComplexAt Rs (length V0) mcv)
              (idleComplex Rs (length V0)) (entryComplex Rs (length V0))
              (sysIs true perm mcv) (length Rs) V0
              (if ff then (if ff then O else (length Rs - 2)%nat)
               else S (if ff then O else (length Rs - 2)%nat)) d).
    { destruct ff; [exact Hinv|].
      replace (S (length Rs - 2)) with (length Rs - 1)%nat by lia.
      exact Hinv. }
    assert (Hk : (S (if ff then O else (length Rs - 2)%nat)
                  < length Rs)%nat) by (destruct ff; lia).
    pose proof (complex_driver_safe Rs _ perm mcv V0 fuel fuel _ ff d Hst
                  Htab Hmcv Hk Hinv') as Hsafe.
    destruct (driverLoop (solveRowComplex fuel) fuel (length Rs - 2)
                (if ff then O else (length Rs - 2)%nat) ff d)
      as [[found d1]| |] eqn:Hloop; [|congruence|discriminate].
    cbn [bind]. destruct found; [|discriminate].
    pose proof (complex_driver Rs _ perm mcv V0 fuel fuel _ ff d true d1
                  Hst Htab Hmcv Hk Hinv' Hloop) as Hd1.
    pose proof (solveLastRowComplex_total Rs _ perm mcv V0 d1 Hn Hd1).
    destruct (solveLastRowComplex d1);
      [discriminate|congruence|discriminate].
  - apply Nat.ltb_ge in En. cbn [bind]. destruct ff; [|discriminate].
    assert (Hd : driverInv (activeComplexAt Rs (length V0) mcv)
              (idleComplex Rs (length V0)) (entryComplex Rs (length V0))
              (sysIs true perm mcv) (length Rs) V0 (length Rs - 1) d).
    { replace (length Rs - 1)%nat with O by lia. exact Hinv. }
    pose proof (solveLastRowComplex_total Rs _ perm mcv V0 d Hn Hd).
    destruct (solveLastRowComplex d);
      [discriminate|congruence|discriminate].
Qed.



(* ----------------------------------------------------------------- *)
(** ** A row of the simple case, from its first visit to its failure *)

Lemma simpleRank_nonneg (r : Row) (bag : list Z) :
  simpleRowOK r bag -> 0 <= simpleRank r.
Proof.
  intros [_ [Hw [Hs [Hcs _]]]]. unfold simpleRank.
  apply selMeasure_nonneg; [exact Hw | lia].
Qed.

Lemma simple_next_rank (d d' : DiophantineSystem) (k : nat) (r : Row) :
  nth_error (rows d) k = Some r ->
  simpleRowOK r (columns d) ->
  solveRowSimple d k false = Done (true, d') ->
  exists r',
    nth_error (rows d') k = Some r' /\ simpleRank r' < simpleRank r.
Proof.
  intros Hn Hok. rewrite (solveRowSimple_advance d k r Hn Hok).
  destruct Hok as [Hl [Hw [Hs [Hcs Hcm]]]].
  set (caps := map maxExtra (selection r)) in *.
  set (hi := currentMaxSize r) in *.
  set (xs := map extra (selection r)) in *.
  assert (Hxs : zsum xs <= hi) by lia.
  destruct (advanceSel caps hi xs) as [ys|] eqn:Ea; [|discriminate].
  intros H. injection H as <-.
  destruct (advanceSel_some _ _ _ _ Hw Hxs Hcm Ea) as [Hy [Hys [Hlt _]]].
  pose proof (within_length _ _ Hy) as Hly.
  assert (Hlsel : length ys = length (selection r)).
  { rewrite <- Hly. unfold caps. apply length_map. }
  destruct (setExtras_fields (selection r) ys Hlsel) as [F1 [F2 F3]].
  eexists. split.
  - rewrite putRow_rows. apply nth_error_upd_eq.
    apply (nth_error_lt _ _ _ Hn).
  - unfold simpleRank.
    cbn [selection set_sizes set_selection currentMaxSize].
    rewrite F1, F3. fold caps. fold xs.
    apply (selLt_measure caps xs ys hi Hw Hy); [lia | exact Hlt].
Qed.

Lemma retriesSimple_ok (n : nat) :
  forall (d : DiophantineSystem) (k : nat) (R r : Row) (V : list Z),
    0 < coeff R ->
    nth_error (rows d) k = Some r ->
    activeSimple R r V (columns d) ->
    (forall d', retriesSimple n d k = Done d' -> columns d' = V)
    /\ retriesSimple n d k <> Abort
    /\ (simpleRank r < Z.of_nat n ->
        exists d', retriesSimple n d k = Done d').
Proof.
  induction n as [|n IH]; intros d k R r V Hc Hn Hact.
  - split; [discriminate|]. split; [discriminate|].
    intros H. pose proof (simpleRank_nonneg r _ (proj1 (proj2 Hact))). lia.
  - cbn [retriesSimple].
    pose proof (simple_next_safe d k R r V Hn Hact) as Hsafe.
    destruct (solveRowSimple d k false) as [[found d1]| |] eqn:Hs;
      [|congruence|].
    2:{ exfalso. revert Hs.
        rewrite (solveRowSimple_advance d k r Hn (proj1 (proj2 Hact))).
        destruct (advanceSel _ _ _); discriminate. }
    cbn [bind].
    destruct (simple_next_active R d d1 k r V found Hc Hn Hact Hs)
      as [r' [bag' [Hd1 [A1 [A2 [A3 A4]]]]]].
    destruct found.
    + assert (Hn' : nth_error (rows d1) k = Some r').
      { subst d1. rewrite putRow_rows. apply nth_error_upd_eq.
        apply (nth_error_lt _ _ _ Hn). }
      assert (Hact' : activeSimple R r' V (columns d1))
        by (subst d1; rewrite putRow_columns; exact A4).
      destruct (IH d1 k R r' V Hc Hn' Hact') as [I1 [I2 I3]].
      split; [exact I1|]. split; [exact I2|].
      intros Hr. apply I3.
      destruct (simple_next_rank d d1 k r Hn (proj1 (proj2 Hact)) Hs)
        as [r'' [Hn'' Hlt]].
      rewrite Hn' in Hn''. injection Hn'' as <-. lia.
    + split; [|split; [discriminate | eauto]].
      intros d' H. injection H as <-. subst d1. rewrite putRow_columns.
      exact A4.
Qed.

(** X14: in the simple case, a complete activation of a row, from its
    first visit to the advance call that fails, comes to an end, fires
    no assertion, and leaves the column bag as it was when the first
    visit began. *)
Theorem X14_simple_activation (d : DiophantineSystem) (k : nat) :
  simpleEntry d k ->
  (exists n d', activationSimple n d k = Done d')
  /\ forall n,
       activationSimple n d k <> Abort
       /\ forall d', activationSimple n d k = Done d' ->
            columns d' = columns d.
Proof.
  intros [Hk [Hc [Hm [Hl [Hz Hnn]]]]].
  destruct (nth_error (rows d) k) as [r|] eqn:Hn;
    [|apply nth_error_None in Hn; lia].
  rewrite (nth_error_nth _ _ emptyRow Hn) in *.
  unfold activationSimple.
  assert (Hs : exists b d1, solveRowSimple d k true = Done (b, d1)).
  { rewrite (solveRowSimple_first d k r Hn Hl Hc Hm Hnn).
    destruct (negb (viable d k)); [eauto|].
    match goal with |- context [if ?c then _ else _] => destruct c end;
      eauto. }
  destruct Hs as [b [d1 Hs]]. rewrite Hs. cbn [bind].
  destruct (simple_first_active r d d1 k r b Hc Hm Hn (rowFixed_refl r)
              Hl Hz Hnn Hs) as [r' [bag' [Hd1 [A1 [A2 [A3 A4]]]]]].
  destruct b.
  - assert (Hn' : nth_error (rows d1) k = Some r').
    { subst d1. rewrite putRow_rows. apply nth_error_upd_eq. exact Hk. }
    assert (Hact' : activeSimple r r' (columns d) (columns d1))
      by (subst d1; rewrite putRow_columns; exact A4).
    split.
    + exists (S (Z.to_nat (simpleRank r'))).
      destruct (retriesSimple_ok (S (Z.to_nat (simpleRank r'))) d1 k r r'
                  (columns d) Hc Hn' Hact') as [_ [_ I3]].
      apply I3.
      pose proof (simpleRank_nonneg r' _ (proj1 (proj2 Hact'))). lia.
    + intros n.
      destruct (retriesSimple_ok n d1 k r r' (columns d) Hc Hn' Hact')
        as [I1 [I2 _]].
      split; [exact I2 | exact I1].
  - split; [exists O; eauto|]. intros n. split; [discriminate|].
    intros d' H. injection H as <-. subst d1. rewrite putRow_columns.
    exact A4.
Qed.

Lemma unitExample_entry : simpleEntry unitExample 0.
Proof.
  unfold simpleEntry. split; [vm_compute; lia|].
  split; [reflexivity|]. split; [vm_compute; discriminate|].
  split; [reflexivity|].
  split; repeat constructor; vm_compute; discriminate.
Qed.

Lemma X14_simple_activation_witness :
  (exists n d', activationSimple n unitExample 0 = Done d')
  /\ forall n,
       activationSimple n unitExample 0 <> Abort
       /\ forall d', activationSimple n unitExample 0 = Done d' ->
            columns d' = columns unitExample.
Proof.
  apply (X14_simple_activation unitExample 0).
  apply unitExample_entry.
Defined.

(* ----------------------------------------------------------------- *)
(** ** The emitted matrix is a solution *)

Lemma nth_solutionMatrix (d : DiophantineSystem) (i j : nat) :
  (i < length (rows d))%nat -> (j < length (columns d))%nat ->
  nth j (nth i (solutionMatrix d) []) 0 = solution d i j.
Proof.
  intros Hi Hj. unfold solutionMatrix.
  rewrite (nth_indep _ [] (map (fun j => solution d O j)
                             (seq 0 (length (columns d)))))
    by (rewrite length_map, length_seq; exact Hi).
  rewrite (map_nth (fun i => map (fun j => solution d i j)
                                (seq 0 (length (columns d))))
             (seq 0 (length (rows d))) O i).
  rewrite seq_nth by exact Hi. simpl.
  rewrite (nth_indep _ 0 (solution d i O))
    by (rewrite length_map, length_seq; exact Hj).
  rewrite (map_nth (fun j => solution d i j)
             (seq 0 (length (columns d))) O j).
  rewrite seq_nth by exact Hj. reflexivity.
Qed.

Lemma nth_solutionMatrix_row (d : DiophantineSystem) (i : nat) :
  (i < length (rows d))%nat ->
  nth i (solutionMatrix d) []
  = map (fun j => solution d i j) (seq 0 (length (columns d))).
Proof.
  intros Hi. unfold solutionMatrix.
  rewrite (nth_indep _ [] (map (fun j => solution d O j)
                             (seq 0 (length (columns d)))))
    by (rewrite length_map, length_seq; exact Hi).
  rewrite (map_nth (fun i => map (fun j => solution d i j)
                                (seq 0 (length (columns d))))
             (seq 0 (length (rows d))) O i).
  rewrite seq_nth by exact Hi. reflexivity.
Qed.

Lemma solvedState_lengths (cx : bool) (Rs : list Row) (perm : list nat)
    (mcv : Z) (V0 : list Z) (d : DiophantineSystem) :
  solvedState cx Rs perm mcv V0 d ->
  length (rows d) = length Rs /\ length (columns d) = length V0.
Proof.
  intros [Hinv _]. unfold searchInv in Hinv.
  destruct cx; destruct Hinv as [H1 [_ [_ [_ [H2 _]]]]]; auto.
Qed.

Lemma solved_is_solution (rs : list (Z * Z * Z)) (cs : list Z)
    (d : DiophantineSystem) :
  Forall validRow rs -> Forall validColumn cs ->
  solved (declare rs cs) d ->
  isSolution rs cs (solutionMatrix d).
Proof.
  intros Hrs Hcs Hsol.
  destruct (solved_state rs cs d Hrs Hcs Hsol)
    as [cx [Rs [perm [mcv [Hp [Hs Hpm]]]]]].
  pose proof Hp as [_ [Hn _]].
  destruct (solvedState_sem cx Rs perm mcv cs d Hn Hs)
    as [Hperm [Hbal Hrow]].
  destruct (solvedState_lengths _ _ _ _ _ _ Hs) as [Hlr Hlc].
  pose proof (permuted_positions rs _ Rs perm Hpm) as HP.
  pose proof Hpm as [Hlen Hpp].
  assert (Hcell : forall i, (i < length rs)%nat ->
            (nth i perm O < length Rs)%nat
            /\ forall j, solution d i j
                         = cell (nth (nth i perm O) (rows d) emptyRow) j).
  { intros i Hi. destruct (nth_error rs i) as [r|] eqn:E;
      [|apply nth_error_None in E; lia].
    destruct (Hpp i r E) as [R [H1 _]].
    split; [apply nth_error_Some; congruence|].
    intros j. rewrite solution_cell, Hperm. reflexivity. }
  split; [|split; [|split]].
  - unfold solutionMatrix. rewrite length_map, length_seq. lia.
  - apply Forall_forall. intros row Hrow'.
    unfold solutionMatrix in Hrow'. apply in_map_iff in Hrow'.
    destruct Hrow' as [i [<- Hi]]. apply in_seq in Hi.
    split; [rewrite length_map, length_seq; exact Hlc|].
    apply Forall_forall. intros x Hx. apply in_map_iff in Hx.
    destruct Hx as [j [<- _]].
    destruct (Hcell i ltac:(lia)) as [Hk Hc]. rewrite Hc.
    apply (solvedState_nonneg cx Rs perm mcv cs d Hp Hs). exact Hk.
  - intros j Hj. rewrite (Hbal j), Hlen.
    rewrite <- (zsum_perm _ _
                  (Permutation_map
                     (fun k => cell (nth k (rows d) emptyRow) j
                               * coeff (nth k Rs emptyRow)) HP)).
    rewrite map_map. f_equal. apply map_ext_in. intros i Hi.
    apply in_seq in Hi.
    destruct (nth_error rs i) as [r|] eqn:E;
      [|apply nth_error_None in E; lia].
    destruct (Hpp i r E) as [R [H1 [_ [H3 _]]]].
    rewrite (nth_error_nth _ _ (0, 0, 0) E).
    rewrite (nth_error_nth _ _ emptyRow H1), H3.
    rewrite nth_solutionMatrix by lia.
    rewrite (proj2 (Hcell i ltac:(lia))). ring.
  - intros i r Hi. pose proof (nth_error_lt _ _ _ Hi) as Hlt.
    destruct (Hpp i r Hi) as [R [H1 [_ [_ [H4 H5]]]]].
    destruct (Hcell i Hlt) as [Hk Hc].
    destruct (Hrow _ Hk) as [Hl Hb].
    rewrite (nth_error_nth _ _ emptyRow H1), H4, H5 in Hb.
    rewrite nth_solutionMatrix_row by lia.
    replace (map (fun j => solution d i j) (seq 0 (length (columns d))))
      with (map (cell (nth (nth i perm O) (rows d) emptyRow))
              (seq 0 (length (selection
                                (nth (nth i perm O) (rows d) emptyRow))))).
    2:{ rewrite Hl, Hlc. apply map_ext. intros j. symmetry. apply Hc. }
    rewrite cell_sum. split; [lia|].
    destruct (snd r =? UNBOUNDED) eqn:E;
      [left; apply Z.eqb_eq; exact E | right; lia].
Qed.



(* ----------------------------------------------------------------- *)
(** ** The driver comes to an end *)

Section DriverTerm.

Variable solveRow :
  DiophantineSystem -> nat -> bool -> Outcome (bool * DiophantineSystem).
Variable n : nat.
Variable Inv : nat -> DiophantineSystem -> Prop.
Variable rank : Row -> nat.

(** A call of the row solver returns, keeps the invariant, touches no
    other row, and a successful advance lowers the rank of its row. *)
Hypothesis step_ok :
  forall (k : nat) (ff : bool) (d : DiophantineSystem),
    (S k < n)%nat -> Inv (if ff then k else S k) d ->
    exists (found : bool) (d1 : DiophantineSystem),
      solveRow d k ff = Done (found, d1)
      /\ Inv (if found then S k else k) d1
      /\ (forall j, j <> k -> nth_error (rows d1) j = nth_error (rows d) j)
      /\ (ff = false -> found = true ->
          (rank (nth k (rows d1) emptyRow)
           < rank (nth k (rows d) emptyRow))%nat).

Lemma driverLoop_S (fuel k : nat) (ff : bool) (d : DiophantineSystem)
    (found : bool) (d1 : DiophantineSystem) :
  solveRow d k ff = Done (found, d1) ->
  driverLoop solveRow (S fuel) (n - 2) k ff d
  = if found
    then if (k =? n - 2)%nat then Done (true, d1)
         else driverLoop solveRow fuel (n - 2) (S k) true d1
    else if (k =? 0)%nat then Done (false, d1)
         else driverLoop solveRow fuel (n - 2) (pred k) false d1.
Proof. intros H. cbn [driverLoop]. rewrite H. reflexivity. Qed.

(** Where a part of the loop ends: with a solution, or below row [k]. *)
Lemma level_false (k : nat) :
  (S k < n)%nat ->
  (S (S k) < n -> forall d,
     Inv (S k) d ->
     exists N,
       (exists d', forall fuel,
          driverLoop solveRow (N + fuel) (n - 2) (S k) true d
          = Done (true, d'))
       \/ (exists d',
            Inv (S k) d'
            /\ (forall j, (j < S k)%nat ->
                  nth_error (rows d') j = nth_error (rows d) j)
            /\ forall fuel,
                 driverLoop solveRow (N + fuel) (n - 2) (S k) true d
                 = driverLoop solveRow fuel (n - 2) k false d'))%nat ->
  forall (m : nat) (d : DiophantineSystem),
    (rank (nth k (rows d) emptyRow) < m)%nat ->
    Inv (S k) d ->
    exists N,
      (exists d', forall fuel,
         driverLoop solveRow (N + fuel) (n - 2) k false d = Done (true, d'))
      \/ (exists d',
           Inv k d'
           /\ (forall j, (j < k)%nat ->
                 nth_error (rows d') j = nth_error (rows d) j)
           /\ forall fuel,
                driverLoop solveRow (N + fuel) (n - 2) k false d
                = if (k =? 0)%nat then Done (false, d')
                  else driverLoop solveRow fuel (n - 2) (pred k) false d').
Proof.
  intros Hk Hup. induction m as [|m IH]; intros d Hr Hinv; [lia|].
  destruct (step_ok k false d Hk Hinv)
    as [found [d1 [Hs [Hinv1 [Hoth Hrank]]]]].
  destruct found.
  - specialize (Hrank eq_refl eq_refl).
    destruct (k =? n - 2)%nat eqn:Ek.
    + exists 1%nat. left. exists d1. intros fuel.
      change (1 + fuel)%nat with (S fuel).
      rewrite (driverLoop_S _ _ _ _ _ _ Hs), Ek. reflexivity.
    + apply Nat.eqb_neq in Ek.
      destruct (Hup ltac:(lia) d1 Hinv1) as [N1 [[d' Hfin] | Hback]].
      * exists (S N1). left. exists d'. intros fuel.
        change (S N1 + fuel)%nat with (S (N1 + fuel)).
        rewrite (driverLoop_S _ _ _ _ _ _ Hs).
        replace (k =? n - 2)%nat with false
          by (symmetry; apply Nat.eqb_neq; exact Ek).
        apply Hfin.
      * destruct Hback as [d2 [Hinv2 [Hsame2 Hrun2]]].
        assert (Hr2 : (rank (nth k (rows d2) emptyRow) < m)%nat).
        { assert (E : nth k (rows d2) emptyRow = nth k (rows d1) emptyRow).
          { pose proof (Hsame2 k ltac:(lia)) as E.
            destruct (nth_error (rows d1) k) as [x|] eqn:E1.
            - rewrite (nth_error_nth _ _ emptyRow E),
                (nth_error_nth _ _ emptyRow E1). reflexivity.
            - apply nth_error_None in E1. apply nth_error_None in E.
              rewrite !nth_overflow by assumption. reflexivity. }
          rewrite E. lia. }
        destruct (IH d2 Hr2 Hinv2) as [N2 [[d' Hfin] | Hbelow]].
        -- exists (S (N1 + N2)). left. exists d'. intros fuel.
           change (S (N1 + N2) + fuel)%nat with (S (N1 + N2 + fuel)).
           rewrite (driverLoop_S _ _ _ _ _ _ Hs).
           replace (k =? n - 2)%nat with false
             by (symmetry; apply Nat.eqb_neq; exact Ek).
           replace (N1 + N2 + fuel)%nat with (N1 + (N2 + fuel))%nat by lia.
           rewrite Hrun2. apply Hfin.
        -- destruct Hbelow as [d3 [Hinv3 [Hsame3 Hrun3]]].
           exists (S (N1 + N2)). right. exists d3.
           split; [exact Hinv3|]. split.
           ++ intros j Hj. rewrite (Hsame3 j Hj), (Hsame2 j ltac:(lia)).
              apply Hoth. lia.
           ++ intros fuel.
              change (S (N1 + N2) + fuel)%nat with (S (N1 + N2 + fuel)).
              rewrite (driverLoop_S _ _ _ _ _ _ Hs).
              replace (k =? n - 2)%nat with false
                by (symmetry; apply Nat.eqb_neq; exact Ek).
              replace (N1 + N2 + fuel)%nat with (N1 + (N2 + fuel))%nat
                by lia.
              rewrite Hrun2. apply Hrun3.
  - exists 1%nat. right. exists d1. split; [exact Hinv1|].
    split; [intros j Hj; apply Hoth; lia|].
    intros fuel. change (1 + fuel)%nat with (S fuel).
    rewrite (driverLoop_S _ _ _ _ _ _ Hs). reflexivity.
Qed.

Lemma level_true (j : nat) :
  forall k, (S k < n)%nat -> (n - 2 - k = j)%nat ->
  forall d,
    Inv k d ->
    exists N,
      (exists d', forall fuel,
         driverLoop solveRow (N + fuel) (n - 2) k true d = Done (true, d'))
      \/ (exists d',
           Inv k d'
           /\ (forall i, (i < k)%nat ->
                 nth_error (rows d') i = nth_error (rows d) i)
           /\ forall fuel,
                driverLoop solveRow (N + fuel) (n - 2) k true d
                = if (k =? 0)%nat then Done (false, d')
                  else driverLoop solveRow fuel (n - 2) (pred k) false d').
Proof.
  induction j as [|j IH]; intros k Hk Hj d Hinv.
  - destruct (step_ok k true d Hk Hinv)
      as [found [d1 [Hs [Hinv1 [Hoth _]]]]].
    exists 1%nat. destruct found.
    + left. exists d1. intros fuel. change (1 + fuel)%nat with (S fuel).
      rewrite (driverLoop_S _ _ _ _ _ _ Hs).
      replace (k =? n - 2)%nat with true
        by (symmetry; apply Nat.eqb_eq; lia).
      reflexivity.
    + right. exists d1. split; [exact Hinv1|].
      split; [intros i Hi; apply Hoth; lia|].
      intros fuel. change (1 + fuel)%nat with (S fuel).
      rewrite (driverLoop_S _ _ _ _ _ _ Hs). reflexivity.
  - destruct (step_ok k true d Hk Hinv)
      as [found [d1 [Hs [Hinv1 [Hoth _]]]]].
    destruct found.
    + assert (Ek : (k =? n - 2)%nat = false)
        by (apply Nat.eqb_neq; lia).
      assert (Hup : forall d0, Inv (S k) d0 ->
                exists N,
                  (exists d', forall fuel,
                     driverLoop solveRow (N + fuel) (n - 2) (S k) true d0
                     = Done (true, d'))
                  \/ (exists d',
                       Inv (S k) d'
                       /\ (forall i, (i < S k)%nat ->
                             nth_error (rows d') i = nth_error (rows d0) i)
                       /\ forall fuel,
                            driverLoop solveRow (N + fuel) (n - 2) (S k)
                              true d0
                            = driverLoop solveRow fuel (n - 2) k false d')).
      { intros d0 Hinv0.
        destruct (IH (S k) ltac:(lia) ltac:(lia) d0 Hinv0)
          as [N [Hfin | [d' [H1 [H2 H3]]]]].
        - exists N. left. exact Hfin.
        - exists N. right. exists d'. split; [exact H1|].
          split; [exact H2|]. intros fuel. rewrite (H3 fuel). reflexivity. }
      destruct (Hup d1 Hinv1) as [N1 [[d' Hfin] | Hback]].
      * exists (S N1). left. exists d'. intros fuel.
        change (S N1 + fuel)%nat with (S (N1 + fuel)).
        rewrite (driverLoop_S _ _ _ _ _ _ Hs), Ek. apply Hfin.
      * destruct Hback as [d2 [Hinv2 [Hsame2 Hrun2]]].
        destruct (level_false k Hk (fun _ => Hup)
                    (S (rank (nth k (rows d2) emptyRow))) d2
                    ltac:(lia) Hinv2) as [N2 [[d' Hfin] | Hbelow]].
        -- exists (S (N1 + N2)). left. exists d'. intros fuel.
           change (S (N1 + N2) + fuel)%nat with (S (N1 + N2 + fuel)).
           rewrite (driverLoop_S _ _ _ _ _ _ Hs), Ek.
           replace (N1 + N2 + fuel)%nat with (N1 + (N2 + fuel))%nat by lia.
           rewrite Hrun2. apply Hfin.
        -- destruct Hbelow as [d3 [Hinv3 [Hsame3 Hrun3]]].
           exists (S (N1 + N2)). right. exists d3.
           split; [exact Hinv3|]. split.
           ++ intros i Hi. rewrite (Hsame3 i Hi), (Hsame2 i ltac:(lia)).
              apply Hoth. lia.
           ++ intros fuel.
              change (S (N1 + N2) + fuel)%nat with (S (N1 + N2 + fuel)).
              rewrite (driverLoop_S _ _ _ _ _ _ Hs), Ek.
              replace (N1 + N2 + fuel)%nat with (N1 + (N2 + fuel))%nat
                by lia.
              rewrite Hrun2. apply Hrun3.
    + exists 1%nat. right. exists d1. split; [exact Hinv1|].
      split; [intros i Hi; apply Hoth; lia|].
      intros fuel. change (1 + fuel)%nat with (S fuel).
      rewrite (driverLoop_S _ _ _ _ _ _ Hs). reflexivity.
Qed.

Lemma descent (k : nat) :
  (S k < n)%nat ->
  forall d,
    Inv (S k) d ->
    exists N, forall fuel,
      exists res, driverLoop solveRow (N + fuel) (n - 2) k false d = Done res.
Proof.
  induction k as [|k IH]; intros Hk d Hinv.
  - assert (Hup : (2 < n)%nat -> forall d0, Inv 1%nat d0 ->
              exists N,
                (exists d', forall fuel,
                   driverLoop solveRow (N + fuel) (n - 2) 1 true d0
                   = Done (true, d'))
                \/ (exists d',
                     Inv 1%nat d'
                     /\ (forall i, (i < 1)%nat ->
                           nth_error (rows d') i = nth_error (rows d0) i)
                     /\ forall fuel,
                          driverLoop solveRow (N + fuel) (n - 2) 1 true d0
                          = driverLoop solveRow fuel (n - 2) 0 false d')).
    { intros H2 d0 Hinv0.
      destruct (level_true (n - 2 - 1) 1 H2 eq_refl d0 Hinv0)
        as [N [Hfin | [d' [H1 [H3 H4]]]]].
      - exists N. left. exact Hfin.
      - exists N. right. exists d'. split; [exact H1|].
        split; [exact H3|]. intros fuel. rewrite (H4 fuel). reflexivity. }
    destruct (level_false 0 Hk Hup (S (rank (nth 0 (rows d) emptyRow))) d
                ltac:(lia) Hinv) as [N [[d' Hfin] | [d' [_ [_ Hrun]]]]].
    + exists N. intros fuel. eexists. apply Hfin.
    + exists N. intros fuel. eexists. rewrite Hrun. reflexivity.
  - assert (Hup : (S (S (S k)) < n)%nat -> forall d0, Inv (S (S k)) d0 ->
              exists N,
                (exists d', forall fuel,
                   driverLoop solveRow (N + fuel) (n - 2) (S (S k)) true d0
                   = Done (true, d'))
                \/ (exists d',
                     Inv (S (S k)) d'
                     /\ (forall i, (i < S (S k))%nat ->
                           nth_error (rows d') i = nth_error (rows d0) i)
                     /\ forall fuel,
                          driverLoop solveRow (N + fuel) (n - 2) (S (S k))
                            true d0
                          = driverLoop solveRow fuel (n - 2) (S k) false
                              d')).
    { intros H2 d0 Hinv0.
      destruct (level_true (n - 2 - S (S k)) (S (S k)) H2 eq_refl d0 Hinv0)
        as [N [Hfin | [d' [H1 [H3 H4]]]]].
      - exists N. left. exact Hfin.
      - exists N. right. exists d'. split; [exact H1|].
        split; [exact H3|]. intros fuel. rewrite (H4 fuel). reflexivity. }
    destruct (level_false (S k) Hk Hup
                (S (rank (nth (S k) (rows d) emptyRow))) d
                ltac:(lia) Hinv) as [N [[d' Hfin] | [d' [Hinv' [_ Hrun]]]]].
    + exists N. intros fuel. eexists. apply Hfin.
    + destruct (IH ltac:(lia) d' Hinv') as [N' Hdone].
      exists (N + N')%nat. intros fuel.
      replace (N + N' + fuel)%nat with (N + (N' + fuel))%nat by lia.
      rewrite Hrun. simpl. apply Hdone.
Qed.

Lemma ascent (d : DiophantineSystem) :
  (1 < n)%nat -> Inv O d ->
  exists N, forall fuel,
    exists res, driverLoop solveRow (N + fuel) (n - 2) 0 true d = Done res.
Proof.
  intros Hn Hinv.
  destruct (level_true (n - 2 - 0) 0 Hn eq_refl d Hinv)
    as [N [[d' Hfin] | [d' [_ [_ Hrun]]]]].
  - exists N. intros fuel. eexists. apply Hfin.
  - exists N. intros fuel. eexists. rewrite Hrun. reflexivity.
Qed.

End DriverTerm.

(* ----------------------------------------------------------------- *)
(** ** The simple case comes to an end *)

Lemma selectBackward_no_fuel (c : Z) (sel : list Select) (bag : list Z) :
  forall undone, selectBackward c undone sel bag <> OutOfFuel.
Proof.
  revert bag. induction sel as [|s sel IH]; intros [|b bag] undone; simpl;
    try discriminate.
  destruct (maxExtra s <? extra s); [discriminate|].
  destruct ((0 <? undone) && (extra s <? maxExtra s)); [discriminate|].
  match goal with
  | |- context [selectBackward ?a ?u ?x ?y] =>
      pose proof (IH y u) as H; destruct (selectBackward a u x y)
        as [[[[f u2] s2] b2]| |]
  end; simpl; congruence.
Qed.

Lemma selectForward_no_fuel (c : Z) (sel : list Select) :
  forall (bag : list Z) (undone : Z),
    selectForward c undone sel bag <> OutOfFuel.
Proof.
  induction sel as [|s sel IH]; intros bag undone; simpl.
  - destruct (0 <? undone); discriminate.
  - destruct (0 <? undone); [|discriminate].
    destruct bag as [|b bag]; [discriminate|].
    match goal with
    | |- context [selectForward ?a ?u ?x ?y] =>
        pose proof (IH y u) as H; destruct (selectForward a u x y)
          as [[s2 b2]| |]
    end; simpl; congruence.
Qed.

Lemma multisetSelect_no_fuel (r : Row) (bag : list Z) (ff : bool) :
  multisetSelect r bag ff <> OutOfFuel.
Proof.
  unfold multisetSelect. destruct ff; simpl.
  - pose proof (selectForward_no_fuel (coeff r) (selection r) bag
                  (currentSize r)).
    destruct (selectForward (coeff r) (currentSize r) (selection r) bag)
      as [[s2 b2]| |]; simpl; congruence.
  - destruct (0 <? currentSize r); [|discriminate].
    pose proof (selectBackward_no_fuel (coeff r) (selection r) bag 0).
    destruct (selectBackward (coeff r) 0 (selection r) bag)
      as [[[[f u] s1] b1]| |]; simpl; try congruence.
    destruct f; [|discriminate].
    pose proof (selectForward_no_fuel (coeff r) s1 b1 u).
    destruct (selectForward (coeff r) u s1 b1) as [[s2 b2]| |]; simpl;
      congruence.
Qed.

Lemma initSimple_no_fuel (c : Z) (sel : list Select) (cols : list Z) :
  initSimple c sel cols <> OutOfFuel.
Proof.
  revert cols. induction sel as [|s sel IH]; intros [|t cols]; simpl;
    try discriminate.
  pose proof (IH cols).
  destruct (initSimple c sel cols) as [[[s2 ct] ms]| |]; simpl;
    try congruence.
  destruct (c <=? t); discriminate.
Qed.

Lemma solveRowSimple_shape (d : DiophantineSystem) (k : nat) (ff : bool) :
  solveRowSimple d k ff <> OutOfFuel
  /\ forall b d',
       solveRowSimple d k ff = Done (b, d') ->
       forall j, j <> k -> nth_error (rows d') j = nth_error (rows d) j.
Proof.
  unfold solveRowSimple, getAt.
  destruct (nth_error (rows d) k) as [r|] eqn:Hk; cbn [bind];
    [|split; discriminate].
  assert (Hput : forall r' cols j, j <> k ->
            nth_error (rows (putRow d k r' cols)) j = nth_error (rows d) j).
  { intros r' cols j Hj. rewrite putRow_rows.
    apply nth_error_upd_neq. congruence. }
  destruct ff.
  - destruct (negb (viable d k)).
    { split; [discriminate|]. intros b d' H. injection H as _ <-. auto. }
    pose proof (initSimple_no_fuel (coeff r) (selection r) (columns d)).
    destruct (initSimple (coeff r) (selection r) (columns d))
      as [[[sel ct] ms]| |]; cbn [bind]; [|split; discriminate|congruence].
    match goal with |- context [if ?c then _ else _] => destruct c end.
    { split; [discriminate|]. intros b d' H0. injection H0 as _ <-.
      apply Hput. }
    match goal with
    | |- context [multisetSelect ?x ?y ?z] =>
        pose proof (multisetSelect_no_fuel x y z);
        destruct (multisetSelect x y z) as [[[b1 r2] cols]| |]
    end; cbn [bind]; [|split; discriminate|congruence].
    split; [discriminate|]. intros b d' H1. injection H1 as _ <-.
    apply Hput.
  - pose proof (multisetSelect_no_fuel r (columns d) false).
    destruct (multisetSelect r (columns d) false)
      as [[[b1 r1] cols1]| |]; cbn [bind]; [|split; discriminate|congruence].
    destruct b1.
    { split; [discriminate|]. intros b d' H0. injection H0 as _ <-.
      apply Hput. }
    destruct (currentSize r1 =? currentMaxSize r1).
    { split; [discriminate|]. intros b d' H0. injection H0 as _ <-.
      apply Hput. }
    pose proof (multisetSelect_no_fuel
                  (set_currentSize r1 (currentSize r1 + 1)) cols1 true).
    destruct (multisetSelect (set_currentSize r1 (currentSize r1 + 1))
                cols1 true) as [[[b2 r2] cols2]| |]; cbn [bind];
      [|split; discriminate|congruence].
    split; [discriminate|]. intros b d' H1. injection H1 as _ <-.
    apply Hput.
Qed.

Lemma simple_step_ok (Rs : list Row) (m : nat) (perm : list nat) (mcv : Z)
    (V0 : list Z) (k : nat) (ff : bool) (d : DiophantineSystem) :
  staticRows Rs ->
  (S k < length Rs)%nat ->
  driverInv (activeSimpleAt Rs m) (idleSimple Rs m) (entrySimple Rs m)
    (sysIs false perm mcv) (length Rs) V0 (if ff then k else S k) d ->
  exists (found : bool) (d1 : DiophantineSystem),
    solveRowSimple d k ff = Done (found, d1)
    /\ driverInv (activeSimpleAt Rs m) (idleSimple Rs m) (entrySimple Rs m)
         (sysIs false perm mcv) (length Rs) V0 (if found then S k else k) d1
    /\ (forall j, j <> k -> nth_error (rows d1) j = nth_error (rows d) j)
    /\ (ff = false -> found = true ->
        (Z.to_nat (simpleRank (nth k (rows d1) emptyRow))
         < Z.to_nat (simpleRank (nth k (rows d) emptyRow)))%nat).
Proof.
  intros Hst Hk Hinv.
  destruct (simple_steps Rs m perm mcv Hst) as [H1 [H2 H3]].
  assert (Hstep :
    solveRowSimple d k ff <> Abort
    /\ forall found d1,
         solveRowSimple d k ff = Done (found, d1) ->
         driverInv (activeSimpleAt Rs m) (idleSimple Rs m)
           (entrySimple Rs m) (sysIs false perm mcv) (length Rs) V0
           (if found then S k else k) d1).
  { apply (driver_step solveRowSimple (length Rs) (activeSimpleAt Rs m)
             (idleSimple Rs m) (entrySimple Rs m) (sysIs false perm mcv)
             V0); try assumption.
    - intros d0 k0 r cols H. exact H.
    - intros d0 k0 r rn Hk0 _ Hn1 _ Hi _ He.
      apply (simple_first_safe Rs m d0 k0 r Hst ltac:(lia) Hn1 Hi He).
    - intros d0 k0 r rn V Hk0 _ Hn1 _ [Ha _] _ _.
      apply (simple_next_safe d0 k0 _ r V Hn1 Ha). }
  destruct Hstep as [Hsafe Hnext].
  destruct (solveRowSimple_shape d k ff) as [Hfuel Hoth].
  destruct (solveRowSimple d k ff) as [[found d1]| |] eqn:Hs;
    [|congruence|congruence].
  exists found, d1. split; [reflexivity|].
  pose proof (Hnext found d1 eq_refl) as Hinv1.
  split; [exact Hinv1|]. split; [apply (Hoth found d1 eq_refl)|].
  intros -> ->.
  destruct Hinv as [_ [_ [Hact _]]]. cbn [activeUpTo] in Hact.
  destruct Hact as [V [r [Hn1 [_ [_ [Ha _]]]]]].
  destruct (simple_next_rank d d1 k r Hn1 (proj1 (proj2 Ha)) Hs)
    as [r' [Hn' Hlt]].
  destruct Hinv1 as [_ [_ [Hact1 _]]]. cbn [activeUpTo] in Hact1.
  destruct Hact1 as [V1 [r1 [Hn1' [_ [_ [Ha1 _]]]]]].
  rewrite Hn' in Hn1'. injection Hn1' as <-.
  pose proof (simpleRank_nonneg r' _ (proj1 (proj2 Ha1))).
  rewrite (nth_error_nth _ _ emptyRow Hn1), (nth_error_nth _ _ emptyRow Hn').
  lia.
Qed.

Lemma solveSimple_terminates (Rs : list Row) (perm : list nat) (mcv : Z)
    (V0 : list Z) (d : DiophantineSystem) (ff : bool) :
  prepared false Rs mcv ->
  searchInv false Rs perm mcv V0 (if ff then O else (length Rs - 1)%nat) d ->
  exists N, forall fuel,
    exists b d', solveSimple (N + fuel) d ff = Done (b, d').
Proof.
  intros Hp Hinv. pose proof Hp as [Hst [Hn [Hmcv Hc1]]].
  pose proof Hinv as Hinv0. unfold searchInv in Hinv.
  assert (Hlen : length (rows d) = length Rs) by (destruct Hinv; assumption).
  assert (Hfin : forall fuel,
            solveSimple fuel d ff <> Abort)
    by (intros fuel; apply (solveSimple_safe Rs perm mcv V0 fuel d ff Hp
                              Hinv0)).
  assert (Hloop : exists N, forall fuel,
            exists res,
              (if (1 <? length Rs)%nat
               then driverLoop solveRowSimple (N + fuel) (length Rs - 2)
                      (if ff then O else (length Rs - 2)%nat) ff d
               else Done (ff, d)) = Done res).
  { destruct (1 <? length Rs)%nat eqn:En; [|exists O; eauto].
    apply Nat.ltb_lt in En.
    pose proof (fun k ff d Hk H =>
                  simple_step_ok Rs (length V0) perm mcv V0 k ff d Hst Hk H)
      as Hstep.
    destruct ff.
    - apply (ascent solveRowSimple (length Rs)
               (driverInv (activeSimpleAt Rs (length V0))
                  (idleSimple Rs (length V0)) (entrySimple Rs (length V0))
                  (sysIs false perm mcv) (length Rs) V0)
               (fun r => Z.to_nat (simpleRank r)) Hstep d En Hinv).
    - apply (descent solveRowSimple (length Rs)
               (driverInv (activeSimpleAt Rs (length V0))
                  (idleSimple Rs (length V0)) (entrySimple Rs (length V0))
                  (sysIs false perm mcv) (length Rs) V0)
               (fun r => Z.to_nat (simpleRank r)) Hstep
               (length Rs - 2) ltac:(lia) d).
      replace (S (length Rs - 2)) with (length Rs - 1)%nat by lia.
      exact Hinv. }
  destruct Hloop as [N Hloop]. exists N. intros fuel.
  specialize (Hfin (N + fuel)%nat). unfold solveSimple in *.
  rewrite Hlen in *. destruct (Hloop fuel) as [[found d1] Hres].
  rewrite Hres in *. cbn [bind] in *. destruct found; [|eauto].
  destruct (solveLastRowSimple d1) as [d2| |] eqn:Hl; cbn [bind] in *;
    [eauto | congruence|].
  exfalso. revert Hl. unfold solveLastRowSimple, getAt.
  destruct (nth_error (rows d1) (lastIndex d1)); cbn [bind];
    [|discriminate].
  match goal with
  | |- context [fillLastSimple ?a ?b] =>
      assert (Hf : fillLastSimple a b <> OutOfFuel);
        [|destruct (fillLastSimple a b); cbn [bind]; congruence]
  end.
  generalize (columns d1).
  induction (selection r) as [|s sel IH]; intros [|t cols]; simpl;
    try discriminate.
  specialize (IH cols). destruct (fillLastSimple sel cols); simpl;
    congruence.
Qed.



(* ----------------------------------------------------------------- *)
(** ** The program of [main.cc] *)

Lemma mainState_solved :
  Forall (fun k => solved (declare mainRows mainColumns) (mainState k))
    [1; 2; 3; 4; 5; 6; 7; 8]%nat.
Proof.
  assert (H1 : solved (declare mainRows mainColumns) (mainState 1))
    by (apply (solved_first _ 200%nat); vm_compute; reflexivity).
  assert (Hn : forall k,
            solved (declare mainRows mainColumns) (mainState k) ->
            solve 200 (mainState k) = Done (true, mainState (S k)) ->
            solved (declare mainRows mainColumns) (mainState (S k))).
  { intros k Hk Hs. apply (solved_next _ 200%nat (mainState k)); assumption. }
  assert (H2 := Hn 1%nat H1 ltac:(vm_compute; reflexivity)).
  assert (H3 := Hn 2%nat H2 ltac:(vm_compute; reflexivity)).
  assert (H4 := Hn 3%nat H3 ltac:(vm_compute; reflexivity)).
  assert (H5 := Hn 4%nat H4 ltac:(vm_compute; reflexivity)).
  assert (H6 := Hn 5%nat H5 ltac:(vm_compute; reflexivity)).
  assert (H7 := Hn 6%nat H6 ltac:(vm_compute; reflexivity)).
  assert (H8 := Hn 7%nat H7 ltac:(vm_compute; reflexivity)).
  repeat constructor; assumption.
Qed.


(* ----------------------------------------------------------------- *)
(** ** Viability *)

Lemma prefixReaches_unit (target : Z) (cs : list Z) :
  forall acc,
    Forall (fun t => 0 <= t) cs ->
    acc < target <= acc + zsum cs ->
    prefixReaches 1 target acc cs = true.
Proof.
  induction cs as [|c cs IH]; intros acc Hnn Ht;
    [unfold zsum in Ht; simpl in Ht; lia|].
  inversion Hnn as [|? ? Hc Hnn']; subst. rewrite zsum_cons in Ht.
  simpl. destruct (1 <=? c) eqn:E1.
  - destruct (target <=? acc + c) eqn:E2; [reflexivity|].
    apply Z.leb_gt in E2. apply IH; [exact Hnn' | lia].
  - apply Z.leb_gt in E1. apply IH; [exact Hnn' | lia].
Qed.

Lemma viableFrom_unit (cs : list Z) (rs : list Row) :
  forall localSum,
    Forall (fun t => 0 <= t) cs ->
    Forall (fun r => coeff r = 1) rs ->
    0 <= localSum ->
    localSum + sumOfMinProducts rs <= zsum cs ->
    Forall (fun r => 0 <= minProduct r) rs ->
    viableFrom rs cs localSum = true.
Proof.
  induction rs as [|r rs IH]; intros localSum Hnn Hc Hl Hs Hm;
    [reflexivity|].
  inversion Hc as [|? ? Hc1 Hc']; subst.
  inversion Hm as [|? ? Hm1 Hm']; subst.
  unfold sumOfMinProducts in *. simpl map in Hs. rewrite zsum_cons in Hs.
  assert (Hrest : 0 <= zsum (map minProduct rs)).
  { apply zsum_nonneg. apply (proj2 (Forall_map _ _ _)). exact Hm'. }
  simpl. destruct (0 <? minProduct r) eqn:E.
  - apply Z.ltb_lt in E. rewrite Hc1.
    rewrite prefixReaches_unit by (assumption || lia).
    apply IH; try assumption; lia.
  - apply IH; try assumption. apply Z.ltb_ge in E. lia.
Qed.

(** X18: [viable] accepts whenever the rows it inspects, from
    [row_idx] to the last but one, have coefficient 1 and minimum
    products that are not negative, no column is negative, and the
    columns sum to at least the sum of these minimum products.  So in
    the simple case, where every coefficient is 1, it prunes nothing as
    long as the minimum sizes still fit. *)
Theorem X18_viable_unit_rows (d : DiophantineSystem) (row_idx : nat) :
  Forall (fun r => coeff r = 1 /\ 0 <= minProduct r)
    (skipn row_idx (removelast (rows d))) ->
  Forall (fun t => 0 <= t) (columns d) ->
  sumOfMinProducts (skipn row_idx (removelast (rows d)))
    <= zsum (columns d) ->
  viable d row_idx = true.
Proof.
  intros Hr Hc Hs. unfold viable. apply viableFrom_unit.
  - exact Hc.
  - eapply Forall_impl; [|exact Hr]. intros r [H _]. exact H.
  - lia.
  - lia.
  - eapply Forall_impl; [|exact Hr]. intros r [_ H]. exact H.
Qed.

Lemma X18_viable_unit_rows_witness : viable unitExample 0 = true.
Proof.
  apply (X18_viable_unit_rows unitExample 0).
  - repeat constructor; vm_compute; discriminate.
  - repeat constructor; vm_compute; discriminate.
  - vm_compute. discriminate.
Defined.

(* ----------------------------------------------------------------- *)
(** ** Systems of a single row *)

Lemma solveLastRowSimple_no_fuel (d : DiophantineSystem) :
  solveLastRowSimple d <> OutOfFuel.
Proof.
  unfold solveLastRowSimple, getAt.
  destruct (nth_error (rows d) (lastIndex d)); cbn [bind]; [|discriminate].
  match goal with
  | |- context [fillLastSimple ?a ?b] =>
      assert (Hf : fillLastSimple a b <> OutOfFuel);
        [|destruct (fillLastSimple a b); cbn [bind]; congruence]
  end.
  generalize (columns d).
  induction (selection r) as [|s sel IH]; intros [|t cols]; simpl;
    try discriminate.
  specialize (IH cols). destruct (fillLastSimple sel cols); simpl;
    congruence.
Qed.

Lemma solveLastRowComplex_no_fuel (d : DiophantineSystem) :
  solveLastRowComplex d <> OutOfFuel.
Proof.
  unfold solveLastRowComplex, getAt.
  destruct (nth_error (rows d) (lastIndex d)); cbn [bind]; [|discriminate].
  match goal with
  | |- context [fillLastComplex ?t ?a ?b] =>
      assert (Hf : fillLastComplex t a b <> OutOfFuel);
        [|destruct (fillLastComplex t a b); cbn [bind]; congruence]
  end.
  generalize (columns d).
  induction (selection r) as [|s sel IH]; intros [|t cols]; simpl;
    try discriminate.
  unfold readSol. destruct (getSol (soluble r) t); cbn [bind];
    [|discriminate].
  destruct (min s0 =? INSOLUBLE); [discriminate|].
  specialize (IH cols).
  destruct (fillLastComplex (soluble r) sel cols); simpl; congruence.
Qed.

Lemma single_first (c lo hi : Z) (cs : list Z) (fuel : nat) :
  validRow (c, lo, hi) -> Forall validColumn cs -> cs <> [] ->
  fst (precompute (declare [(c, lo, hi)] cs)) = true ->
  exists d', solve fuel (declare [(c, lo, hi)] cs) = Done (true, d').
Proof.
  intros Hr Hcs Hcne Hpre.
  assert (Hrs : Forall validRow [(c, lo, hi)]) by (constructor; auto).
  assert (Hrne : [(c, lo, hi)] <> []) by discriminate.
  destruct (declare_fields [(c, lo, hi)] cs)
    as [D1 [D2 [_ [_ [_ [_ [D7 [_ D9]]]]]]]].
  destruct (precompute (declare [(c, lo, hi)] cs)) as [ok d1] eqn:Hp.
  simpl in Hpre. subst ok.
  destruct (precompute_declared _ cs d1 Hrs Hcs Hrne Hp)
    as [Hprep [Hinv [Hlen _]]].
  simpl in Hlen.
  destruct (searchInv_sys _ _ _ _ _ _ _ Hinv) as [_ [S2 _]].
  assert (Hrun : solve fuel (declare [(c, lo, hi)] cs)
                 = if complex d1 then solveComplex fuel d1 true
                   else solveSimple fuel d1 true).
  { unfold solve. rewrite D7. cbn [negb].
    replace ((length (rows (declare [(c, lo, hi)] cs)) =? 0)%nat
             || (length (columns (declare [(c, lo, hi)] cs)) =? 0)%nat)
      with false.
    2:{ rewrite D1, D2. destruct cs; [congruence | reflexivity]. }
    rewrite Hp. cbn [bind negb]. rewrite S2. reflexivity. }
  rewrite Hrun. destruct (complex d1) eqn:Hc.
  - pose proof (solveComplex_safe (rows d1) _ _ cs fuel d1 true Hprep Hinv)
      as Hsafe.
    unfold solveComplex in *. rewrite Hlen in *. cbn [Nat.ltb Nat.leb bind]
      in *.
    pose proof (solveLastRowComplex_no_fuel d1).
    destruct (solveLastRowComplex d1); cbn [bind] in *;
      [eauto | congruence | congruence].
  - pose proof (solveSimple_safe (rows d1) _ _ cs fuel d1 true Hprep Hinv)
      as Hsafe.
    unfold solveSimple in *. rewrite Hlen in *. cbn [Nat.ltb Nat.leb bind]
      in *.
    pose proof (solveLastRowSimple_no_fuel d1).
    destruct (solveLastRowSimple d1); cbn [bind] in *;
      [eauto | congruence | congruence].
Qed.

Lemma single_solution (c lo hi : Z) (cs : list Z) (M : list (list Z)) :
  0 < c -> isSolution [(c, lo, hi)] cs M ->
  M = [map (fun v => v / c) cs].
Proof.
  intros Hc [Hlen [Hrows [Hbal _]]].
  destruct M as [|row [|]]; try discriminate.
  inversion Hrows as [|? ? [Hl _] _]; subst.
  f_equal. apply nth_ext with (d := 0) (d' := 0 / c).
  - rewrite length_map. exact Hl.
  - intros j Hj. rewrite (map_nth (fun v => v / c)).
    rewrite Hl in Hj. specialize (Hbal j Hj). simpl in Hbal.
    unfold zsum in Hbal. simpl in Hbal.
    rewrite <- Hbal, Z.add_0_r, Z.mul_comm, Z.div_mul by lia.
    reflexivity.
Qed.



(* ----------------------------------------------------------------- *)
(** ** The checked precomputation *)

Lemma readSol_ok (s : list Soluble) (k : Z) :
  0 <= k -> (Z.to_nat k < length s)%nat -> readSol s k = Done (solAt s k).
Proof.
  intros Hk Hl. unfold readSol, solAt, getSol.
  destruct (k <? 0) eqn:E; [apply Z.ltb_lt in E; lia|].
  destruct (nth_error s (Z.to_nat k)) eqn:En; [reflexivity|].
  apply nth_error_None in En. lia.
Qed.

Lemma writeSol_ok (s : list Soluble) (k : Z) (e : Soluble) :
  0 <= k -> (Z.to_nat k < length s)%nat ->
  writeSol s k e = Done (upd (Z.to_nat k) e s).
Proof.
  intros Hk Hl. unfold writeSol, getSol.
  destruct (k <? 0) eqn:E; [apply Z.ltb_lt in E; lia|].
  destruct (nth_error s (Z.to_nat k)) eqn:En; [reflexivity|].
  apply nth_error_None in En. lia.
Qed.

Lemma lastRowLoop_fuel (mcv c mx : Z) (fuel fuel' : nat) (j count : Z)
    (s : list Soluble) :
  0 < c ->
  (Z.to_nat (mcv + 1 - j) <= fuel)%nat ->
  (Z.to_nat (mcv + 1 - j) <= fuel')%nat ->
  lastRowLoop fuel mcv c mx j count s
  = lastRowLoop fuel' mcv c mx j count s.
Proof.
  intros Hc. revert fuel' j count s.
  induction fuel as [|fuel IH]; intros [|fuel'] j count s H1 H2; simpl;
    try reflexivity.
  - destruct (j <=? mcv) eqn:E; [apply Z.leb_le in E; lia | reflexivity].
  - destruct (j <=? mcv) eqn:E; [apply Z.leb_le in E; lia | reflexivity].
  - destruct ((j <=? mcv) && (count <=? mx)) eqn:E; [|reflexivity].
    apply andb_true_iff in E. destruct E as [E _]. apply Z.leb_le in E.
    apply IH; lia.
Qed.

Lemma lastRowLoopChecked_ok (mcv c mx : Z) (fuel : nat) (j count : Z)
    (s : list Soluble) :
  0 < c -> 0 <= j ->
  length s = S (Z.to_nat mcv) ->
  (Z.to_nat (mcv + 1 - j) < fuel)%nat ->
  lastRowLoopChecked fuel mcv c mx j count s
  = Done (lastRowLoop fuel mcv c mx j count s).
Proof.
  intros Hc. revert j count s.
  induction fuel as [|fuel IH]; intros j count s Hj Hlen Hf; [lia|].
  simpl. destruct ((j <=? mcv) && (count <=? mx)) eqn:E; [|reflexivity].
  apply andb_true_iff in E. destruct E as [E _]. apply Z.leb_le in E.
  rewrite writeSol_ok by lia. cbn [bind].
  apply IH; [lia | rewrite length_upd; exact Hlen | lia].
Qed.

Lemma lastRowTableChecked_ok (fuel : nat) (mcv : Z) (r : Row) :
  0 <= mcv -> 0 < coeff r -> (S (Z.to_nat mcv) < fuel)%nat ->
  lastRowTableChecked fuel mcv r = Done (lastRowTable mcv r).
Proof.
  intros Hm Hc Hf. unfold lastRowTableChecked, lastRowTable.
  rewrite lastRowLoopChecked_ok; try lia.
  - f_equal. apply lastRowLoop_fuel; [assumption | lia | lia].
  - simpl. rewrite repeat_length. reflexivity.
Qed.

Section NextRowChecked.

Variables mcv c mx : Z.
Variable P : Z -> Prop.
Variable prev : list Soluble.
Variable fuel : nat.
Hypothesis Hmcv : 0 <= mcv.
Hypothesis Hc : 0 < c.
Hypothesis Hmx : 0 <= mx.
Hypothesis Hprev : forall v, 0 <= v <= mcv ->
  (P v <-> min (solAt prev v) <> INSOLUBLE).
Hypothesis HP : forall v, P v -> 0 <= v.
Hypothesis Hlen : length prev = S (Z.to_nat mcv).
Hypothesis Hfuel : (S (Z.to_nat mcv) < fuel)%nat.

Lemma scanNewMaxChecked_ok (f : nat) (j lo newMax : Z) :
  0 <= j <= mcv -> 1 <= lo <= newMax -> newMax <= mx ->
  0 <= j - mx * c ->
  countOK P c mx j lo ->
  (forall k, newMax < k -> ~ countOK P c mx j k) ->
  (Z.to_nat (newMax - lo) < f)%nat ->
  exists m,
    scanNewMaxChecked f prev c (j - newMax * c) newMax = Done m
    /\ countOK P c mx j m /\ forall k, countOK P c mx j k -> k <= m.
Proof.
  revert newMax. induction f as [|f IH];
    intros newMax Hj Hlo Hn Hres Hok Hup Hf; [lia|].
  simpl.
  assert (Hidx : 0 <= j - newMax * c <= mcv) by nia.
  rewrite readSol_ok by lia. cbn [bind].
  destruct (min (solAt prev (j - newMax * c)) =? INSOLUBLE) eqn:E.
  - apply Z.eqb_eq in E.
    assert (Hnot : ~ countOK P c mx j newMax).
    { intros [_ Hp]. apply (Hprev _ Hidx) in Hp. congruence. }
    assert (Hlt : lo < newMax).
    { destruct (Z.eq_dec lo newMax) as [->|]; [contradiction | lia]. }
    replace (j - newMax * c + c) with (j - (newMax - 1) * c) by ring.
    apply IH; try lia; try assumption.
    intros k Hk. destruct (Z.eq_dec k newMax) as [->|]; [assumption|].
    apply Hup. lia.
  - apply Z.eqb_neq in E. exists newMax. split; [reflexivity|]. split.
    + split; [lia|]. apply (Hprev _ Hidx). assumption.
    + intros k Hk. destruct (Z_le_dec k newMax); [assumption|].
      exfalso. apply (Hup k); [lia | assumption].
Qed.

Lemma nextEntryChecked_ok (j : Z) (next : list Soluble) :
  0 <= j <= mcv ->
  length next = S (Z.to_nat mcv) ->
  (forall v, 0 <= v < j -> entryOK P c mx v (solAt next v)) ->
  nextEntryChecked fuel prev next c mx j
  = Done (nextEntry prev next c mx j).
Proof.
  intros Hj Hln Hnext. unfold nextEntryChecked, nextEntry.
  set (t := j - c).
  destruct (0 <=? t) eqn:E1.
  - apply Z.leb_le in E1.
    assert (Ht : 0 <= t < j) by (unfold t; lia).
    rewrite readSol_ok by lia. cbn [bind andb].
    destruct (negb (min (solAt next t) =? INSOLUBLE)
              && (min (solAt next t) <? mx)) eqn:E.
    + rewrite !readSol_ok by lia. cbn [bind].
      destruct (max (solAt next t) <? mx) eqn:Em; [reflexivity|].
      apply andb_true_iff in E. destruct E as [E2 E3].
      apply Z.ltb_lt in E3. apply Z.ltb_ge in Em.
      apply negb_true_iff in E2. apply Z.eqb_neq in E2.
      destruct (Hnext t Ht) as [[Hins _] | [Hmin [Hmax Hall]]];
        [congruence|].
      assert (Hmn1 : countOK P c mx j (min (solAt next t) + 1)).
      { apply countOK_succ; [assumption|]. exact Hmin. }
      assert (Hmn0 : 0 <= min (solAt next t)) by (destruct Hmin; lia).
      assert (Hmxt : max (solAt next t) = mx) by (destruct Hmax; lia).
      assert (Hres : 0 <= j - mx * c).
      { pose proof (countOK_residual c mx P HP _ _ Hmax) as Hr.
        rewrite Hmxt in Hr. unfold t in Hr. nia. }
      assert (Hup : forall k, mx < k -> ~ countOK P c mx j k)
        by (intros k Hk [Hb _]; lia).
      destruct (scanNewMaxChecked_ok fuel j (min (solAt next t) + 1) mx)
        as [m [Hrun [Hm1 Hm2]]]; try lia; try assumption.
      { assert (mx * 1 <= mx * c) by (apply Z.mul_le_mono_nonneg_l; lia).
        lia. }
      rewrite Hrun. cbn [bind].
      destruct (scanNewMax_ok mcv c mx P prev Hc Hmx Hprev
                  (S (Z.to_nat mx)) j (min (solAt next t) + 1) mx)
        as [Hs1 Hs2]; try lia; try assumption.
      assert (Hsame : scanNewMax (S (Z.to_nat mx)) prev c (j - mx * c) mx
                      = m).
      { apply Z.le_antisymm; [apply Hm2 | apply Hs2]; assumption. }
      rewrite Hsame.
      destruct (m <? min (solAt next t) + 1) eqn:Ea; [|reflexivity].
      apply Z.ltb_lt in Ea. specialize (Hm2 _ Hmn1). lia.
    + rewrite readSol_ok by lia. reflexivity.
  - cbn [bind andb]. rewrite readSol_ok by lia. reflexivity.
Qed.

Lemma nextRowLoopChecked_ok (n : nat) (j : Z) (next : list Soluble) :
  0 <= j ->
  length next = S (Z.to_nat mcv) ->
  (forall v, 0 <= v < j -> entryOK P c mx v (solAt next v)) ->
  Z.of_nat n + j = mcv + 1 ->
  nextRowLoopChecked n fuel prev c mx j next
  = Done (nextRowLoop n prev c mx j next).
Proof.
  revert j next. induction n as [|n IH];
    intros j next Hj Hln Hent Hf; simpl; [reflexivity|].
  rewrite nextEntryChecked_ok by (try lia; assumption). cbn [bind].
  rewrite writeSol_ok by lia. cbn [bind].
  apply IH; try lia.
  - rewrite length_upd. assumption.
  - intros v Hv. destruct (Z.eq_dec v j) as [->|Hne].
    + rewrite solAt_upd_eq by lia.
      apply (nextEntry_ok mcv c mx P prev Hc Hmx Hprev HP);
        [lia | assumption].
    + rewrite solAt_upd_neq by lia. apply Hent. lia.
Qed.

End NextRowChecked.

Lemma buildRowsChecked_ok (fuel : nat) (mcv : Z) (rs : list Row) :
  0 <= mcv -> (S (Z.to_nat mcv) < fuel)%nat ->
  Forall (fun r => 0 < coeff r /\ 0 <= maxSize r) rs ->
  buildRowsChecked fuel mcv rs = Done (buildRows mcv rs).
Proof.
  intros Hmcv Hf Hrs. induction Hrs as [|r rest [Hc Hm] Hrest IH];
    simpl; [reflexivity|].
  rewrite IH. cbn [bind].
  pose proof (buildRows_ok mcv rest Hmcv Hrest) as Hok.
  pose proof (buildRows_Forall (fun r => 0 < coeff r) mcv rest) as Hpos.
  destruct (buildRows mcv rest) as [|r' rest'] eqn:E.
  - rewrite lastRowTableChecked_ok by assumption. reflexivity.
  - destruct Hok as [Hok1 Hok2].
    unfold nextRowTableChecked, nextRowTable.
    rewrite (nextRowLoopChecked_ok mcv (coeff r) (maxSize r)
               (solubleBy (r' :: rest')) (soluble r') fuel); try lia;
      try assumption.
    + reflexivity.
    + intros v Hv. exact (tableOK_decides rest' r' mcv Hok1 v Hv).
    + intros v. apply solubleBy_nonneg.
      apply Hpos; [intros; assumption|].
      eapply Forall_impl; [|exact Hrest]. simpl. tauto.
    + destruct Hok1 as [Hl _]. exact Hl.
    + rewrite repeat_length. reflexivity.
Qed.

Lemma fillLeavesChecked_ok (nc : nat) (rs : list Row) (i : nat)
    (perm : list nat) :
  Forall (fun r => (name r < length perm)%nat) rs ->
  fillLeavesChecked nc i rs perm = Done (fillLeaves nc i rs perm).
Proof.
  intros H. revert i. induction H as [|r rest Hr _ IH]; intros i; simpl;
    [reflexivity|].
  rewrite IH. cbn [bind].
  destruct (fillLeaves_totals nc rest (S i) perm) as [_ [_ [Hl _]]].
  destruct (fillLeaves nc (S i) rest perm) as [[[rest' perm'] mn] mx].
  simpl in Hl. rewrite Hl.
  destruct (name r <? length perm)%nat eqn:E; [reflexivity|].
  apply Nat.ltb_ge in E. lia.
Qed.

Lemma anyInsolubleChecked_ok (s : list Soluble) (cs : list Z) :
  Forall (fun c => 0 <= c /\ (Z.to_nat c < length s)%nat) cs ->
  anyInsolubleChecked s cs = Done (anyInsoluble s cs).
Proof.
  unfold anyInsoluble. induction 1 as [|c rest [Hc Hl] _ IH]; simpl;
    [reflexivity|].
  rewrite readSol_ok by assumption. cbn [bind].
  destruct (min (solAt s c) <? 0); [reflexivity | exact IH].
Qed.

Lemma getAt_last {A : Type} (l : list A) (x : A) :
  l <> [] -> getAt l (length l - 1) = Done (last l x).
Proof.
  intros Hne. destruct (exists_last Hne) as [l' [a ->]].
  unfold getAt. rewrite last_last, length_app. simpl.
  replace (length l' + 1 - 1)%nat with (length l') by lia.
  rewrite nth_error_app2 by lia. rewrite Nat.sub_diag. reflexivity.
Qed.

(** X20: on a system declared by valid rows and columns the
    precomputation stays inside its vectors and fires no assertion.
    With every computed subscript checked (the tables read and written
    while they are built, [rowPermute[r.name]], the table of the first
    row read at every column value), the assertion on [newMax] kept, and
    a bound of [maxColumnValue + 2] steps on the two loops without a
    counter, it runs to the end and returns what the unchecked
    precomputation returns. *)
Theorem X20_precompute_in_bounds (rs : list (Z * Z * Z)) (cs : list Z)
    (fuel : nat) :
  Forall validRow rs -> Forall validColumn cs ->
  rs <> [] -> cs <> [] ->
  (S (Z.to_nat (maxColumnValue (declare rs cs))) < fuel)%nat ->
  precomputeChecked fuel (declare rs cs)
  = Done (precompute (declare rs cs)).
Proof.
  intros Hrs Hcs Hrne Hcne Hf.
  destruct (declare_fields rs cs)
    as [D1 [D2 [D3 [D4 [D5 [D6 _]]]]]].
  set (d := declare rs cs) in *.
  assert (Hdecl : Forall rowDeclared (rows d))
    by (rewrite D1; apply declaredRows_valid; exact Hrs).
  assert (Hsum : 0 <= columnSum d).
  { rewrite D4. clear -Hcs. induction Hcs as [|v l Hv _ IH];
      [unfold zsum; simpl; lia|].
    rewrite zsum_cons. unfold validColumn in Hv. lia. }
  assert (Hlen1 : length (rows d) = length rs)
    by (rewrite D1; apply declaredRows_length).
  unfold precomputeChecked, precompute.
  replace ((length (rows d) =? 0)%nat || (length (columns d) =? 0)%nat)
    with false.
  2:{ rewrite Hlen1, D2. destruct rs; [congruence|].
      destruct cs; [congruence | reflexivity]. }
  destruct ((columnSum d <? sumOfMinProducts (boundedRows d))
            || (sumOfMaxProducts (boundedRows d) <? columnSum d));
    [reflexivity|].
  pose proof (sortRows_perm (boundedRows d)) as Hp.
  assert (HnB : map name (boundedRows d) = seq 0 (length (rows d))).
  { rewrite Hlen1, <- (declaredRows_names 0 rs), <- D1.
    unfold boundedRows. rewrite map_map. apply map_ext. reflexivity. }
  assert (Hlen2 : length (sortRows (boundedRows d)) = length (rows d)).
  { rewrite (Permutation_length Hp). unfold boundedRows.
    apply length_map. }
  rewrite fillLeavesChecked_ok.
  2:{ apply Forall_forall. intros r' Hr'. rewrite resize_length, Hlen2.
      assert (Hin : In (name r') (seq 0 (length (rows d)))).
      { rewrite <- HnB. apply in_map.
        apply (Permutation_in _ Hp). exact Hr'. }
      apply in_seq in Hin. lia. }
  cbn [bind]. fold (preparedState d). fold (preparedRows d).
  fold (preparedPermute d).
  assert (Hlen3 : length (preparedRows d) = length (rows d)).
  { rewrite <- (Forall2_length (prepared_decl d)). exact Hlen2. }
  assert (Hne3 : preparedRows d <> []).
  { intros E. rewrite E in Hlen3. simpl in Hlen3.
    destruct rs; [congruence | simpl in Hlen1; lia]. }
  rewrite (getAt_last _ emptyRow Hne3). cbn [bind].
  fold (lastRowIsComplex (maxColumnValue d) (preparedRows d)).
  destruct (lastRowIsComplex (maxColumnValue d) (preparedRows d));
    [|reflexivity].
  assert (Hpos : Forall (fun r => 0 < coeff r /\ 0 <= maxSize r)
                   (preparedRows d)).
  { apply preparedRows_Forall; [intros; assumption|].
    apply boundedRows_positive; assumption. }
  rewrite (buildRowsChecked_ok fuel _ _ D5 Hf Hpos). cbn [bind].
  fold (tabledRows d).
  pose proof (tabledRows_ok d Hdecl Hsum D5) as Hok.
  assert (Hlen4 : length (tabledRows d) = length (preparedRows d))
    by apply buildRows_length.
  destruct (tabledRows d) as [|r0 rest0] eqn:Et.
  { simpl in Hlen4. destruct (preparedRows d); [congruence | discriminate]. }
  unfold getAt. simpl nth_error. cbn [bind hd].
  destruct Hok as [[Hl0 _] _].
  rewrite anyInsolubleChecked_ok.
  - cbn [bind].
    destruct (anyInsoluble (soluble r0) (columns d)); reflexivity.
  - rewrite D2, Hl0. rewrite Forall_forall in *. intros v Hv.
    specialize (D6 v Hv). specialize (Hcs v Hv).
    unfold validColumn in Hcs. lia.
Qed.

Lemma X20_precompute_in_bounds_witness :
  precomputeChecked 9 (declare checkedRows checkedColumns)
  = Done (precompute (declare checkedRows checkedColumns)).
Proof.
  apply (X20_precompute_in_bounds checkedRows checkedColumns 9).
  - repeat constructor; vm_compute; discriminate.
  - repeat constructor.
  - discriminate.
  - discriminate.
  - vm_compute. lia.
Defined.

(* ----------------------------------------------------------------- *)
(** ** The order of the solutions *)

Lemma lexLt_total (u v : list Z) :
  length u = length v -> lexLt u v \/ u = v \/ lexLt v u.
Proof.
  revert v. induction u as [|x u IH]; intros [|y v] Hl; simpl in Hl;
    try discriminate; [auto|].
  destruct (Z.lt_trichotomy x y) as [H|[H|H]]; simpl.
  - left. left. exact H.
  - subst y. destruct (IH v ltac:(lia)) as [H|[H|H]].
    + left. right. auto.
    + right. left. congruence.
    + right. right. right. auto.
  - right. right. left. exact H.
Qed.

Lemma selLt_total (u v : list Z) :
  length u = length v -> selLt u v \/ u = v \/ selLt v u.
Proof.
  intros Hl. unfold selLt.
  destruct (Z.lt_trichotomy (zsum u) (zsum v)) as [H|[H|H]]; [auto| |auto].
  destruct (lexLt_total (rev u) (rev v)) as [L|[L|L]].
  - rewrite !length_rev. exact Hl.
  - auto.
  - right. left. rewrite <- (rev_involutive u), L. apply rev_involutive.
  - right. right. right. auto.
Qed.

Lemma selLt_asym (u v : list Z) : selLt u v -> selLt v u -> False.
Proof. intros H1 H2. exact (selLt_irrefl _ (selLt_trans _ _ _ H1 H2)). Qed.

Lemma prefEq_weaken (a b : nat) (Y P : list (list Z)) :
  (b <= a)%nat -> prefEq a Y P -> prefEq b Y P.
Proof. intros Hb H i Hi. apply H. lia. Qed.

Lemma prefEq_sym (a : nat) (Y P : list (list Z)) :
  prefEq a Y P -> prefEq a P Y.
Proof. intros H i Hi. symmetry. apply H. exact Hi. Qed.

Lemma prefEq_trans (a : nat) (Y P Q : list (list Z)) :
  prefEq a Y P -> prefEq a P Q -> prefEq a Y Q.
Proof. intros H1 H2 i Hi. rewrite (H1 i Hi). apply H2. exact Hi. Qed.

Lemma prefEq_S (a : nat) (Y P : list (list Z)) :
  prefEq (S a) Y P <-> prefEq a Y P /\ nth a Y [] = nth a P [].
Proof.
  split.
  - intros H. split; [apply (prefEq_weaken (S a)); [lia | exact H]|].
    apply H. lia.
  - intros [H1 H2] i Hi. destruct (Nat.eq_dec i a) as [->|Hne];
      [exact H2 | apply H1; lia].
Qed.

Lemma prefLt_weaken (a b : nat) (Y P : list (list Z)) :
  (a <= b)%nat -> prefLt a Y P -> prefLt b Y P.
Proof. intros Hb [i [Hi H]]. exists i. split; [lia | exact H]. Qed.

Lemma prefLt_S (a : nat) (Y P : list (list Z)) :
  prefLt (S a) Y P
  <-> prefLt a Y P \/ (prefEq a Y P /\ selLt (nth a Y []) (nth a P [])).
Proof.
  split.
  - intros [i [Hi [He Hlt]]]. destruct (Nat.eq_dec i a) as [->|Hne].
    + right. auto.
    + left. exists i. split; [lia | auto].
  - intros [H|[He Hlt]].
    + apply (prefLt_weaken a); [lia | exact H].
    + exists a. split; [lia | auto].
Qed.

Lemma prefLt_not_eq (a : nat) (Y P : list (list Z)) :
  prefLt a Y P -> prefEq a Y P -> False.
Proof.
  intros [i [Hi [_ Hlt]]] He. rewrite (He i Hi) in Hlt.
  exact (selLt_irrefl _ Hlt).
Qed.

Lemma prefLt_asym (a : nat) (Y P : list (list Z)) :
  prefLt a Y P -> prefLt a P Y -> False.
Proof.
  intros [i [Hi [He Hlt]]] [j [Hj [He' Hlt']]].
  destruct (Nat.lt_trichotomy i j) as [H|[H|H]].
  - rewrite (He' i H) in Hlt. exact (selLt_irrefl _ Hlt).
  - subst j. exact (selLt_asym _ _ Hlt Hlt').
  - rewrite (He j H) in Hlt'. exact (selLt_irrefl _ Hlt').
Qed.

Lemma prefLt_trans (a : nat) (Y P Q : list (list Z)) :
  prefLt a Y P -> prefLt a P Q -> prefLt a Y Q.
Proof.
  intros [i [Hi [He Hlt]]] [j [Hj [He' Hlt']]].
  destruct (Nat.lt_trichotomy i j) as [H|[H|H]].
  - exists i. split; [exact Hi|]. split.
    + apply (prefEq_trans _ _ P); [exact He|].
      apply (prefEq_weaken j); [lia | exact He'].
    + rewrite <- (He' i H). exact Hlt.
  - subst j. exists i. split; [exact Hi|]. split.
    + apply (prefEq_trans _ _ P); assumption.
    + apply (selLt_trans _ _ _ Hlt Hlt').
  - exists j. split; [exact Hj|]. split.
    + apply (prefEq_trans _ _ P); [|exact He'].
      apply (prefEq_weaken i); [lia | exact He].
    + rewrite (He j H). exact Hlt'.
Qed.

Lemma prefLt_eq_l (a : nat) (Y Y' P : list (list Z)) :
  prefEq a Y Y' -> prefLt a Y P -> prefLt a Y' P.
Proof.
  intros He [i [Hi [H1 H2]]]. exists i. split; [exact Hi|]. split.
  - apply (prefEq_trans _ _ Y); [|exact H1].
    apply prefEq_sym. apply (prefEq_weaken a); [lia | exact He].
  - rewrite <- (He i Hi). exact H2.
Qed.

Lemma prefLt_eq_r (a : nat) (Y P P' : list (list Z)) :
  prefEq a P P' -> prefLt a Y P -> prefLt a Y P'.
Proof.
  intros He [i [Hi [H1 H2]]]. exists i. split; [exact Hi|]. split.
  - apply (prefEq_trans _ _ P); [exact H1|].
    apply (prefEq_weaken a); [lia | exact He].
  - rewrite <- (He i Hi). exact H2.
Qed.

Lemma pref_total (a : nat) (Y P : list (list Z)) :
  (forall i, (i < a)%nat -> length (nth i Y []) = length (nth i P [])) ->
  prefLt a Y P \/ prefEq a Y P \/ prefLt a P Y.
Proof.
  induction a as [|a IH]; intros Hl.
  - right. left. intros i Hi. lia.
  - destruct IH as [H|[H|H]]; [intros i Hi; apply Hl; lia | | |].
    + left. apply (prefLt_weaken a); [lia | exact H].
    + destruct (selLt_total _ _ (Hl a ltac:(lia))) as [L|[L|L]].
      * left. apply prefLt_S. right. auto.
      * right. left. apply prefEq_S. auto.
      * right. right. apply prefLt_S. right.
        split; [apply prefEq_sym; exact H | exact L].
    + right. right. apply (prefLt_weaken a); [lia | exact H].
Qed.

Lemma firstn_prefEq (a : nat) (Y P : list (list Z)) :
  prefEq a Y P -> (a <= length Y)%nat -> (a <= length P)%nat ->
  firstn a Y = firstn a P.
Proof.
  revert Y P. induction a as [|a IH]; intros Y P He HY HP; [reflexivity|].
  destruct Y as [|y Y]; [simpl in HY; lia|].
  destruct P as [|p P]; [simpl in HP; lia|].
  simpl. f_equal.
  - exact (He O ltac:(lia)).
  - apply IH; [|simpl in HY; lia | simpl in HP; lia].
    intros i Hi. exact (He (S i) ltac:(lia)).
Qed.

(* ----------------------------------------------------------------- *)
(** ** The bag along a list of selections *)

Lemma firstn_S_nth {A : Type} (k : nat) (l : list A) (d : A) :
  (k < length l)%nat -> firstn (S k) l = firstn k l ++ [nth k l d].
Proof.
  revert l. induction k as [|k IH]; intros [|x l] H; simpl in H; try lia;
    [reflexivity|].
  simpl. f_equal. apply IH. lia.
Qed.

Lemma bagAfter_snoc (V0 : list Z) (P : list (list Z)) (x : list Z) :
  bagAfter V0 (P ++ [x]) = takeFrom 1 (bagAfter V0 P) x.
Proof. unfold bagAfter. rewrite fold_left_app. reflexivity. Qed.

Lemma bagAfter_step (V0 : list Z) (P : list (list Z)) (k : nat) :
  (k < length P)%nat ->
  bagAfter V0 (firstn (S k) P)
  = takeFrom 1 (bagAfter V0 (firstn k P)) (nth k P []).
Proof.
  intros H. rewrite (firstn_S_nth k P [] H). apply bagAfter_snoc.
Qed.

Lemma zsum_takeFrom (V x : list Z) :
  length x = length V -> zsum (takeFrom 1 V x) = zsum V - zsum x.
Proof.
  revert x. induction V as [|v V IH]; intros [|y x] H; simpl in H;
    try discriminate; [reflexivity|].
  unfold takeFrom in *. simpl map. rewrite !zsum_cons, IH by lia.
  simpl. ring.
Qed.

Lemma firstn_upd {A : Type} (a k : nat) (x : A) (l : list A) :
  (a <= k)%nat -> firstn a (upd k x l) = firstn a l.
Proof.
  revert a k. induction l as [|h t IH]; intros [|a] [|k] H; simpl;
    try reflexivity; try lia.
  f_equal. apply IH. lia.
Qed.

Lemma stateTuple_putRow (d : DiophantineSystem) (k : nat) (r : Row)
    (cols : list Z) :
  stateTuple (putRow d k r cols)
  = upd k (map extra (selection r)) (stateTuple d).
Proof.
  unfold stateTuple. rewrite putRow_rows. revert k.
  induction (rows d) as [|h t IH]; intros [|k]; simpl; try reflexivity.
  f_equal. apply IH.
Qed.

Lemma stateTuple_nth (d : DiophantineSystem) (k : nat) :
  nth k (stateTuple d) [] = map extra (selection (nth k (rows d) emptyRow)).
Proof.
  unfold stateTuple.
  change [] with ((fun r => map extra (selection r)) emptyRow).
  apply map_nth.
Qed.

Lemma stateTuple_length (d : DiophantineSystem) :
  length (stateTuple d) = length (rows d).
Proof. unfold stateTuple. apply length_map. Qed.

Lemma prefEq_upd (a k : nat) (x : list Z) (Y P : list (list Z)) :
  (a <= k)%nat -> (prefEq a Y (upd k x P) <-> prefEq a Y P).
Proof.
  intros Hk. unfold prefEq.
  split; intros H i Hi; specialize (H i Hi);
    rewrite nth_upd_neq in * by lia; exact H.
Qed.

Lemma prefLt_upd (a k : nat) (x : list Z) (Y P : list (list Z)) :
  (a <= k)%nat -> (prefLt a Y (upd k x P) <-> prefLt a Y P).
Proof.
  intros Hk. unfold prefLt.
  split; intros [i [Hi [He Hlt]]]; exists i; (split; [exact Hi|]).
  - split; [apply (prefEq_upd i k x); [lia | exact He]|].
    rewrite nth_upd_neq in Hlt by lia. exact Hlt.
  - split; [apply (prefEq_upd i k x); [lia | exact He]|].
    rewrite nth_upd_neq by lia. exact Hlt.
Qed.

Lemma capOf_one (V : list Z) :
  Forall (fun t => 0 <= t) V -> map (capOf 1) V = V.
Proof.
  induction 1 as [|t V Ht _ IH]; [reflexivity|].
  simpl. rewrite IH. f_equal. unfold capOf.
  destruct (1 <=? t) eqn:E; [apply Z.quot_1_r|].
  apply Z.leb_gt in E. lia.
Qed.

Lemma zsum_zeros (l : list Z) : Forall (fun v => v = 0) l -> zsum l = 0.
Proof.
  induction 1 as [|v l Hv _ IH]; [reflexivity|].
  rewrite zsum_cons, Hv, IH. reflexivity.
Qed.

Lemma takeFrom_all (V x : list Z) :
  within V x -> Forall (fun v => v = 0) (takeFrom 1 V x) -> x = V.
Proof.
  induction 1 as [|v y V x Hy _ IH]; intros Hz; [reflexivity|].
  unfold takeFrom in *. simpl in Hz. inversion Hz as [|? ? H0 Hz']; subst.
  f_equal; [lia | apply IH; exact Hz'].
Qed.

Section Feasible.

Variables (Rs : list Row) (V0 : list Z) (Y : list (list Z)).
Hypothesis Hst : staticRows Rs.
Hypothesis Hone : forall k R, nth_error Rs k = Some R -> coeff R = 1.
Hypothesis Hfe : feasible Rs V0 Y.

Lemma feasible_mass (j k : nat) :
  (j + k = length Rs)%nat ->
  sumOfMinProducts (skipn k Rs)
    <= zsum (bagAfter V0 (firstn k Y))
    <= sumOfMaxProducts (skipn k Rs).
Proof.
  destruct Hfe as [Hlen [Hrow Hend]].
  revert k. induction j as [|j IH]; intros k Hk.
  - simpl in Hk. subst k. rewrite skipn_all, <- Hlen, firstn_all.
    rewrite (zsum_zeros _ Hend).
    unfold sumOfMinProducts, sumOfMaxProducts. simpl. lia.
  - assert (Hlt : (k < length Rs)%nat) by lia.
    destruct (nth_error Rs k) as [R|] eqn:HR;
      [|apply nth_error_None in HR; lia].
    destruct (Hrow k R HR) as [Hw Hsz].
    destruct (Hst k R HR) as [_ [_ [Hp1 [Hp2 _]]]].
    rewrite (Hone k R HR) in Hp1, Hp2.
    specialize (IH (S k) ltac:(lia)).
    rewrite bagAfter_step in IH by lia.
    rewrite zsum_takeFrom in IH
      by (symmetry; apply (within_length _ _ Hw)).
    rewrite (skipn_nth_error _ _ _ HR).
    unfold sumOfMinProducts, sumOfMaxProducts in *. cbn [map].
    rewrite !zsum_cons. lia.
Qed.

Lemma feasible_valid (k : nat) (R : Row) :
  nth_error Rs k = Some R ->
  let V := bagAfter V0 (firstn k Y) in
  validSel (map (capOf 1) V) (simpleLo R V) (simpleHi R V) (nth k Y []).
Proof.
  intros HR V. pose proof (nth_error_lt _ _ _ HR) as Hlt.
  destruct Hfe as [Hlen [Hrow Hend]].
  destruct (Hrow k R HR) as [Hw Hsz]. fold V in Hw.
  destruct (Hst k R HR) as [_ [_ [_ [_ [HL1 HL2]]]]].
  pose proof (feasible_mass (length Rs - S k) (S k) ltac:(lia)) as Hm.
  rewrite bagAfter_step in Hm by lia. fold V in Hm.
  rewrite zsum_takeFrom in Hm by (symmetry; apply (within_length _ _ Hw)).
  rewrite <- HL1, <- HL2 in Hm.
  pose proof (within_sum _ _ Hw) as Hs.
  rewrite (capOf_one V (within_caps_nonneg _ _ Hw)).
  split; [exact Hw|].
  unfold simpleLo, simpleHi, ceilingDivision, floorDivision.
  rewrite (Hone k R HR), (capOf_one V (within_caps_nonneg _ _ Hw)).
  rewrite !Z.div_1_r. lia.
Qed.

Lemma feasible_last :
  (1 <= length Rs)%nat ->
  nth (length Rs - 1) Y [] = bagAfter V0 (firstn (length Rs - 1) Y).
Proof.
  intros Hn. destruct Hfe as [Hlen [Hrow Hend]].
  destruct (nth_error Rs (length Rs - 1)) as [R|] eqn:HR;
    [|apply nth_error_None in HR; lia].
  destruct (Hrow _ R HR) as [Hw _].
  apply (takeFrom_all _ _ Hw).
  rewrite <- bagAfter_step by lia.
  replace (S (length Rs - 1)) with (length Y) by lia.
  rewrite firstn_all. exact Hend.
Qed.

Lemma feasible_row_length (k : nat) :
  (k < length Rs)%nat -> length V0 = length (nth k Y []).
Proof.
  destruct Hfe as [Hlen [Hrow Hend]].
  assert (H : forall i, (i <= length Rs)%nat ->
                length (bagAfter V0 (firstn i Y)) = length V0).
  { induction i as [|i IH]; intros Hi; [reflexivity|].
    destruct (nth_error Rs i) as [R|] eqn:HR;
      [|apply nth_error_None in HR; lia].
    destruct (Hrow i R HR) as [Hw _].
    rewrite bagAfter_step by lia.
    rewrite takeFrom_length; [apply IH; lia|].
    symmetry. apply (within_length _ _ Hw). }
  intros Hk. destruct (nth_error Rs k) as [R|] eqn:HR;
    [|apply nth_error_None in HR; lia].
  destruct (Hrow k R HR) as [Hw _].
  rewrite <- (within_length _ _ Hw). symmetry. apply H. lia.
Qed.

End Feasible.

Lemma map_skipn_ext {A B : Type} (f : A -> B) (d : A) :
  forall (l l' : list A) (k : nat),
    length l = length l' ->
    (forall j, (k <= j < length l)%nat -> f (nth j l d) = f (nth j l' d)) ->
    map f (skipn k l) = map f (skipn k l').
Proof.
  induction l as [|x l IH]; intros [|y l'] k Hl H; simpl in Hl;
    try discriminate.
  - rewrite !skipn_nil. reflexivity.
  - destruct k as [|k].
    + simpl. f_equal.
      * apply (H O). simpl. lia.
      * apply (IH l' O); [lia|]. intros j Hj.
        apply (H (S j)). simpl. lia.
    + simpl. apply IH; [lia|]. intros j Hj. apply (H (S j)). simpl. lia.
Qed.

Lemma viable_simple (Rs : list Row) (m : nat) (perm : list nat) (mcv : Z)
    (V0 : list Z) (k : nat) (d : DiophantineSystem) :
  staticRows Rs ->
  (forall j R, nth_error Rs j = Some R -> coeff R = 1) ->
  (k < length Rs)%nat ->
  driverInv (activeSimpleAt Rs m) (idleSimple Rs m) (entrySimple Rs m)
    (sysIs false perm mcv) (length Rs) V0 k d ->
  viable d k = true.
Proof.
  intros Hst Hone Hk [Hlen [_ [_ [Hidle [E1 [E2 [E3 _]]]]]]].
  assert (Hrow : forall j, (k <= j < length (rows d))%nat ->
            coeff (nth j (rows d) emptyRow) = 1
            /\ minProduct (nth j (rows d) emptyRow)
               = minProduct (nth j Rs emptyRow)
            /\ 0 <= minProduct (nth j (rows d) emptyRow)).
  { intros j Hj.
    destruct (nth_error (rows d) j) as [r|] eqn:Hr;
      [|apply nth_error_None in Hr; lia].
    destruct (nth_error Rs j) as [R|] eqn:HR;
      [|apply nth_error_None in HR; lia].
    destruct (Hidle j r ltac:(lia) Hr) as [[_ [F2 [_ [_ [F5 _]]]]] _].
    rewrite (nth_error_nth _ _ emptyRow Hr).
    rewrite (nth_error_nth _ _ emptyRow HR) in *.
    destruct (Hst j R HR) as [_ [S2 [S3 _]]].
    pose proof (Hone j R HR) as Hc.
    split; [congruence|]. split; [exact F5|]. rewrite F5, S3, Hc. lia. }
  set (p := (length (rows d) - 1)%nat).
  assert (Hrl : removelast (rows d) = firstn p (rows d)).
  { unfold p. rewrite removelast_firstn_len. f_equal. lia. }
  assert (Hall : Forall (fun r => coeff r = 1 /\ 0 <= minProduct r)
                   (skipn k (rows d))).
  { apply Forall_forall. intros x Hx.
    destruct (In_nth _ _ emptyRow Hx) as [i [Hi Hnth]].
    rewrite length_skipn in Hi. rewrite nth_skipn in Hnth.
    destruct (Hrow (k + i)%nat ltac:(lia)) as [H1 [_ H3]].
    rewrite Hnth in H1, H3. auto. }
  assert (Hsplit : skipn k (rows d)
                   = skipn k (firstn p (rows d)) ++ skipn p (rows d)).
  { rewrite <- (firstn_skipn p (rows d)) at 1.
    rewrite skipn_app, length_firstn.
    replace (k - Nat.min p (length (rows d)))%nat with O by (unfold p; lia).
    reflexivity. }
  rewrite Hsplit in Hall. apply Forall_app in Hall.
  destruct Hall as [Hall1 Hall2].
  unfold viable. rewrite Hrl. apply viableFrom_unit.
  - exact E2.
  - eapply Forall_impl; [|exact Hall1]. intros r [H _]. exact H.
  - lia.
  - assert (Hsum : sumOfMinProducts (skipn k (rows d))
                   = sumOfMinProducts (skipn k Rs)).
    { unfold sumOfMinProducts. f_equal.
      apply (map_skipn_ext minProduct emptyRow); [exact Hlen|].
      intros j Hj. destruct (Hrow j Hj) as [_ [H _]]. exact H. }
    rewrite <- Hsum, Hsplit in E3.
    unfold sumOfMinProducts in *. rewrite map_app, zsum_app in E3.
    assert (0 <= zsum (map minProduct (skipn p (rows d)))).
    { apply zsum_nonneg. apply Forall_map.
      eapply Forall_impl; [|exact Hall2]. intros r [_ H]. exact H. }
    lia.
  - eapply Forall_impl; [|exact Hall1]. intros r [_ H]. exact H.
Qed.

(* ----------------------------------------------------------------- *)
(** ** The search keeps the order of the solutions *)

Section Enumeration.

Variables (Rs : list Row) (m : nat) (perm : list nat) (mcv : Z).
Variable V0 : list Z.
Variable T0 : option (list (list Z)).
Hypothesis Hst : staticRows Rs.
Hypothesis Hone : forall k R, nth_error Rs k = Some R -> coeff R = 1.

Lemma enum_valid_at (k : nat) (d : DiophantineSystem) (Y : list (list Z))
    (R : Row) :
  feasible Rs V0 Y -> prefEq k Y (stateTuple d) ->
  length (rows d) = length Rs ->
  nth_error Rs k = Some R ->
  let V := bagAfter V0 (firstn k (stateTuple d)) in
  validSel (map (capOf 1) V) (simpleLo R V) (simpleHi R V) (nth k Y [])
  /\ length (nth k Y []) = length V.
Proof.
  intros Hfe He Hlen HR V. pose proof (nth_error_lt _ _ _ HR) as Hk.
  assert (HV : V = bagAfter V0 (firstn k Y)).
  { unfold V. f_equal. symmetry. apply firstn_prefEq; [exact He| |].
    - destruct Hfe as [H _]. lia.
    - rewrite stateTuple_length. lia. }
  rewrite HV. split; [apply (feasible_valid Rs V0 Y Hst Hone Hfe k R HR)|].
  destruct Hfe as [_ [Hrow _]]. destruct (Hrow k R HR) as [Hw _].
  symmetry. apply (within_length _ _ Hw).
Qed.

Lemma enum_first (k : nat) (d : DiophantineSystem) (found : bool)
    (d1 : DiophantineSystem) :
  (S k < length Rs)%nat ->
  driverInv (activeSimpleAt Rs m) (idleSimple Rs m) (entrySimple Rs m)
    (sysIs false perm mcv) (length Rs) V0 k d ->
  enumInv Rs V0 T0 k true d ->
  solveRowSimple d k true = Done (found, d1) ->
  enumInv Rs V0 T0 (if found then S k else k) found d1.
Proof.
  intros Hk Hinv [I2 [I3 [I4 I6]]] Hrun.
  pose proof (viable_simple Rs m perm mcv V0 k d Hst Hone ltac:(lia) Hinv)
    as Hv.
  destruct Hinv as [Hlen [_ [_ [Hidle [E1 [E2 E3]]]]]].
  destruct (nth_error (rows d) k) as [r|] eqn:Hr;
    [|apply nth_error_None in Hr; lia].
  destruct (nth_error Rs k) as [R|] eqn:HR;
    [|apply nth_error_None in HR; lia].
  destruct (Hidle k r (Nat.le_refl _) Hr) as [Hfix [Hsl Hbz]].
  rewrite (nth_error_nth _ _ emptyRow HR) in Hfix.
  pose proof Hfix as [_ [Hrc [Hmin [Hmax [_ [_ [HminL [HmaxL _]]]]]]]].
  destruct (Hst k R HR) as [HcR [HmR _]]. pose proof (Hone k R HR) as Hc1.
  rewrite (solveRowSimple_first d k r Hr) in Hrun;
    [|lia | lia | lia | exact E2].
  rewrite Hv in Hrun. cbn [negb] in Hrun.
  assert (HloR : simpleLo r (columns d) = simpleLo R (columns d))
    by (unfold simpleLo; rewrite Hmin, HmaxL, Hrc; reflexivity).
  assert (HhiR : simpleHi r (columns d) = simpleHi R (columns d))
    by (unfold simpleHi; rewrite Hmax, HminL, Hrc; reflexivity).
  rewrite HloR, HhiR, Hrc, Hc1 in Hrun.
  set (lo := simpleLo R (columns d)) in *.
  set (hi := simpleHi R (columns d)) in *.
  set (caps := map (capOf 1) (columns d)) in *.
  set (sel0 := initSel 1 (selection r) (columns d)) in *.
  destruct (initSel_fields 1 (selection r) (columns d) ltac:(lia))
    as [F1 [F2 [F3 F4]]]. fold sel0 in F1, F2, F3, F4.
  assert (Hkl : (k < length (stateTuple d))%nat)
    by (rewrite stateTuple_length; lia).
  assert (Hvalid : forall Y, feasible Rs V0 Y -> prefEq k Y (stateTuple d) ->
            validSel caps lo hi (nth k Y [])).
  { intros Y Hfe He.
    destruct (enum_valid_at k d Y R Hfe He Hlen HR) as [H _].
    rewrite <- I2 in H. exact H. }
  destruct (hi <? lo) eqn:E.
  - injection Hrun as <- <-. unfold enumInv.
    rewrite stateTuple_putRow, putRow_columns.
    split; [rewrite firstn_upd by lia; exact I2|]. split.
    { intros i R' Hi HR'. rewrite putRow_rows, nth_upd_neq by lia.
      rewrite firstn_upd by lia. apply I3; assumption. }
    split.
    { intros Y Hfe Hnew. destruct (I4 Y Hfe Hnew) as [J1 _]. split.
      - rewrite prefLt_upd by lia. exact J1.
      - intros _. rewrite prefEq_upd by lia. intros He.
        destruct (Hvalid Y Hfe He) as [_ Hb]. apply Z.ltb_lt in E. lia. }
    destruct T0 as [T|]; [|exact I].
    destruct I6 as [H|[H _]]; [|discriminate].
    left. rewrite prefLt_upd by lia. exact H.
  - apply Z.ltb_ge in E. injection Hrun as <- <-. unfold enumInv.
    rewrite stateTuple_putRow, putRow_columns, putRow_rows.
    assert (Hcaps : Forall (fun c => 0 <= c) caps).
    { unfold caps. rewrite capOf_one by exact E2. exact E2. }
    assert (Hlo : 0 <= lo <= zsum caps).
    { unfold lo, simpleLo. unfold hi, simpleHi in E. rewrite Hc1 in E.
      fold caps in E. unfold lo, simpleLo in E. lia. }
    destruct (greedy_valid caps lo Hcaps Hlo) as [G1 G2].
    set (x := greedy lo caps) in *.
    assert (Hlx : length x = length sel0).
    { rewrite <- (within_length _ _ G1). unfold caps.
      rewrite length_map. symmetry. exact F4. }
    destruct (setExtras_fields sel0 x Hlx) as [S1 [S2 S3]].
    cbn [selection set_sizes set_selection]. rewrite S3.
    assert (Hnx : nth k (upd k x (stateTuple d)) [] = x)
      by (apply nth_upd_eq; exact Hkl).
    split.
    { rewrite bagAfter_step by (rewrite length_upd; exact Hkl).
      rewrite Hnx, firstn_upd by lia. rewrite <- I2. reflexivity. }
    split.
    { intros i R' Hi HR'. rewrite firstn_upd by lia.
      destruct (Nat.eq_dec i k) as [->|Hne].
      - rewrite nth_upd_eq by lia. rewrite HR in HR'. injection HR' as <-.
        rewrite <- I2. split.
        + cbn [selection set_sizes set_selection]. rewrite S1. exact F1.
        + reflexivity.
      - rewrite nth_upd_neq by lia. apply I3; [lia | exact HR']. }
    split.
    { intros Y Hfe Hnew. destruct (I4 Y Hfe Hnew) as [J1 _].
      split; [|discriminate].
      intros Hlt. apply prefLt_S in Hlt. destruct Hlt as [Hlt|[He Hlt]].
      - apply J1. rewrite prefLt_upd in Hlt by lia. exact Hlt.
      - rewrite Hnx in Hlt. rewrite prefEq_upd in He by lia.
        destruct (Hvalid Y Hfe He) as [Hw Hb].
        destruct Hlt as [Hlt|[Hs Hlt]]; [lia|].
        destruct (greedy_least caps _ Hw) as [Hg|Hg];
          rewrite Hs, G2 in Hg; fold x in Hg.
        + rewrite Hg in Hlt. exact (lexLt_irrefl _ Hlt).
        + exact (lexLt_irrefl _ (lexLt_trans _ _ _ Hlt Hg)). }
    destruct T0 as [T|]; [|exact I].
    destruct I6 as [H|[H _]]; [|discriminate].
    left. apply (prefLt_weaken k); [lia|].
    rewrite prefLt_upd by lia. exact H.
Qed.

Lemma enum_next (k : nat) (d : DiophantineSystem) (found : bool)
    (d1 : DiophantineSystem) :
  (S k < length Rs)%nat ->
  driverInv (activeSimpleAt Rs m) (idleSimple Rs m) (entrySimple Rs m)
    (sysIs false perm mcv) (length Rs) V0 (S k) d ->
  enumInv Rs V0 T0 (S k) false d ->
  solveRowSimple d k false = Done (found, d1) ->
  enumInv Rs V0 T0 (if found then S k else k) found d1.
Proof.
  intros Hk Hinv [I2 [I3 [I4 I6]]] Hrun.
  destruct Hinv as [Hlen [_ [Hact _]]]. cbn [activeUpTo] in Hact.
  destruct Hact as [V [r [Hr [_ [_ [Ha HlV]]]]]].
  destruct (nth_error Rs k) as [R|] eqn:HR;
    [|apply nth_error_None in HR; lia].
  rewrite (nth_error_nth _ _ emptyRow HR) in Ha.
  destruct Ha as [Hfix [Hok [Hbz [Hgb _]]]].
  pose proof Hfix as [_ [Hrc _]]. pose proof (Hone k R HR) as Hc1.
  rewrite (solveRowSimple_advance d k r Hr Hok) in Hrun.
  destruct Hok as [Hl [Hw [Hs [Hcs Hcm]]]].
  assert (Hkl : (k < length (stateTuple d))%nat)
    by (rewrite stateTuple_length; lia).
  set (Vk := bagAfter V0 (firstn k (stateTuple d))) in *.
  destruct (I3 k R ltac:(lia) HR) as [X1 X2].
  rewrite (nth_error_nth _ _ emptyRow Hr) in X1, X2. fold Vk in X1, X2.
  set (caps := map maxExtra (selection r)) in *.
  set (hi := currentMaxSize r) in *.
  set (xs := map extra (selection r)) in *.
  assert (Hnk : nth k (stateTuple d) [] = xs).
  { rewrite stateTuple_nth, (nth_error_nth _ _ emptyRow Hr). reflexivity. }
  assert (HlVk : length Vk = length (selection r)).
  { transitivity (length caps); [|unfold caps; apply length_map].
    rewrite X1. symmetry. apply length_map. }
  assert (Hcols : columns d = takeFrom 1 Vk xs).
  { rewrite I2, bagAfter_step by exact Hkl. rewrite Hnk. reflexivity. }
  assert (Hback : giveBack 1 (selection r) (columns d) = Vk).
  { rewrite Hcols. rewrite <- (setExtras_id (selection r)) at 1.
    apply giveBack_takeFrom; [apply length_map | exact HlVk]. }
  rewrite Hrc, Hc1, Hback in Hrun.
  assert (Hxs : zsum xs <= hi) by lia.
  assert (Hvalid : forall Y, feasible Rs V0 Y -> prefEq k Y (stateTuple d) ->
            within caps (nth k Y []) /\ zsum (nth k Y []) <= hi
            /\ length (nth k Y []) = length xs).
  { intros Y Hfe He.
    destruct (enum_valid_at k d Y R Hfe He Hlen HR) as [[Hv1 Hv2] Hv3].
    fold Vk in Hv1, Hv2, Hv3. rewrite <- X1 in Hv1. rewrite <- X2 in Hv2.
    split; [exact Hv1|]. split; [lia|].
    rewrite Hv3, HlVk. unfold xs. symmetry. apply length_map. }
  assert (Hcase : forall Y, feasible Rs V0 Y -> newer (length Rs) T0 Y ->
            prefEq k Y (stateTuple d) -> selLt xs (nth k Y [])).
  { intros Y Hfe Hnew He. destruct (I4 Y Hfe Hnew) as [J1 J2].
    destruct (Hvalid Y Hfe He) as [_ [_ Hly]].
    destruct (selLt_total _ _ Hly) as [L|[L|L]].
    - exfalso. apply J1. apply prefLt_S. right. rewrite Hnk. auto.
    - exfalso. apply (J2 eq_refl). apply prefEq_S. rewrite Hnk. auto.
    - exact L. }
  destruct (advanceSel caps hi xs) as [ys|] eqn:Ea.
  - injection Hrun as <- <-. unfold enumInv.
    rewrite stateTuple_putRow, putRow_columns, putRow_rows.
    destruct (advanceSel_some _ _ _ _ Hw Hxs Hcm Ea)
      as [Hy [Hys [Hlt Hleast]]].
    assert (Hly : length ys = length (selection r)).
    { rewrite <- (within_length _ _ Hy). unfold caps. apply length_map. }
    destruct (setExtras_fields (selection r) ys Hly) as [S1 [S2 S3]].
    cbn [selection set_sizes set_selection]. rewrite S3.
    assert (Hnx : nth k (upd k ys (stateTuple d)) [] = ys)
      by (apply nth_upd_eq; exact Hkl).
    split.
    { rewrite bagAfter_step by (rewrite length_upd; exact Hkl).
      rewrite Hnx, firstn_upd by lia. reflexivity. }
    split.
    { intros i R' Hi HR'. rewrite firstn_upd by lia.
      destruct (Nat.eq_dec i k) as [->|Hne].
      - rewrite nth_upd_eq by lia. rewrite HR in HR'. injection HR' as <-.
        split.
        + cbn [selection set_sizes set_selection]. rewrite S1. exact X1.
        + exact X2.
      - rewrite nth_upd_neq by lia. apply I3; [lia | exact HR']. }
    split.
    { intros Y Hfe Hnew. destruct (I4 Y Hfe Hnew) as [J1 J2].
      split; [|discriminate].
      intros Hl'. apply prefLt_S in Hl'. destruct Hl' as [Hl'|[He Hl']].
      - rewrite prefLt_upd in Hl' by lia. apply J1.
        apply (prefLt_weaken k); [lia | exact Hl'].
      - rewrite Hnx in Hl'. rewrite prefEq_upd in He by lia.
        destruct (Hvalid Y Hfe He) as [Hv1 [Hv2 _]].
        pose proof (Hcase Y Hfe Hnew He) as Hgt.
        destruct (Hleast _ Hv1 Hv2 Hgt) as [Hq|Hq].
        + rewrite Hq in Hl'. exact (selLt_irrefl _ Hl').
        + exact (selLt_asym _ _ Hl' Hq). }
    destruct T0 as [T|]; [|exact I]. left.
    destruct I6 as [H|[_ H]].
    + apply prefLt_S in H. destruct H as [H|[He H]].
      * apply (prefLt_weaken k); [lia|].
        rewrite prefLt_upd by lia. exact H.
      * apply prefLt_S. right. rewrite Hnx.
        split; [rewrite prefEq_upd by lia; exact He|].
        rewrite Hnk in H. exact (selLt_trans _ _ _ H Hlt).
    + apply prefEq_S in H. destruct H as [He H].
      apply prefLt_S. right. rewrite Hnx.
      split; [rewrite prefEq_upd by lia; exact He|].
      rewrite H, Hnk. exact Hlt.
  - injection Hrun as <- <-. unfold enumInv.
    rewrite stateTuple_putRow, putRow_columns, putRow_rows.
    pose proof (advanceSel_none _ _ _ Hw Hxs Ea) as Hnone.
    split; [rewrite firstn_upd by lia; reflexivity|]. split.
    { intros i R' Hi HR'. rewrite nth_upd_neq by lia.
      rewrite firstn_upd by lia. apply I3; [lia | exact HR']. }
    split.
    { intros Y Hfe Hnew. destruct (I4 Y Hfe Hnew) as [J1 J2]. split.
      - rewrite prefLt_upd by lia. intros Hl'. apply J1.
        apply (prefLt_weaken k); [lia | exact Hl'].
      - intros _. rewrite prefEq_upd by lia. intros He.
        destruct (Hvalid Y Hfe He) as [Hv1 [Hv2 _]].
        exact (Hnone _ Hv1 Hv2 (Hcase Y Hfe Hnew He)). }
    destruct T0 as [T|]; [|exact I].
    destruct I6 as [H|[_ H]].
    + apply prefLt_S in H. destruct H as [H|[He H]].
      * left. rewrite prefLt_upd by lia. exact H.
      * right. split; [reflexivity|]. rewrite prefEq_upd by lia. exact He.
    + right. split; [reflexivity|]. rewrite prefEq_upd by lia.
      apply (prefEq_weaken (S k)); [lia | exact H].
Qed.

Lemma enum_driver (fuel : nat) :
  forall (k : nat) (ff : bool) (d : DiophantineSystem) (b : bool)
         (d' : DiophantineSystem),
    (S k < length Rs)%nat ->
    driverInv (activeSimpleAt Rs m) (idleSimple Rs m) (entrySimple Rs m)
      (sysIs false perm mcv) (length Rs) V0 (if ff then k else S k) d ->
    enumInv Rs V0 T0 (if ff then k else S k) ff d ->
    driverLoop solveRowSimple fuel (length Rs - 2) k ff d = Done (b, d') ->
    driverInv (activeSimpleAt Rs m) (idleSimple Rs m) (entrySimple Rs m)
      (sysIs false perm mcv) (length Rs) V0
      (if b then (length Rs - 1)%nat else O) d'
    /\ enumInv Rs V0 T0 (if b then (length Rs - 1)%nat else O) b d'.
Proof.
  induction fuel as [|fuel IH]; intros k ff d b d' Hk Hinv He Hrun;
    [discriminate|].
  cbn [driverLoop] in Hrun.
  destruct (simple_step_ok Rs m perm mcv V0 k ff d Hst Hk Hinv)
    as [found [d1 [Hs [Hinv1 _]]]].
  assert (He1 : enumInv Rs V0 T0 (if found then S k else k) found d1).
  { destruct ff.
    - apply (enum_first k d found d1 Hk Hinv He Hs).
    - apply (enum_next k d found d1 Hk Hinv He Hs). }
  rewrite Hs in Hrun. cbn [bind] in Hrun. destruct found.
  - destruct (k =? length Rs - 2)%nat eqn:E.
    + apply Nat.eqb_eq in E. injection Hrun as <- <-.
      replace (length Rs - 1)%nat with (S k) by lia. auto.
    + apply Nat.eqb_neq in E.
      apply (IH (S k) true d1 b d'); [lia | exact Hinv1 | exact He1
                                      | exact Hrun].
  - destruct (k =? 0)%nat eqn:E.
    + apply Nat.eqb_eq in E. subst k. injection Hrun as <- <-. auto.
    + apply Nat.eqb_neq in E.
      apply (IH (pred k) false d1 b d'); try lia.
      * replace (S (pred k)) with k by lia. exact Hinv1.
      * replace (S (pred k)) with k by lia. exact He1.
      * exact Hrun.
Qed.

Lemma enum_last (d d2 : DiophantineSystem) :
  (1 <= length Rs)%nat ->
  driverInv (activeSimpleAt Rs m) (idleSimple Rs m) (entrySimple Rs m)
    (sysIs false perm mcv) (length Rs) V0 (length Rs - 1) d ->
  enumInv Rs V0 T0 (length Rs - 1) true d ->
  solveLastRowSimple d = Done d2 ->
  enumInv Rs V0 T0 (length Rs - 1) true d2
  /\ nth (length Rs - 1) (stateTuple d2) [] = columns d2.
Proof.
  intros Hn [Hlen [_ [_ [Hid [E1 _]]]]] [I2 [I3 [I4 I6]]] Hrun.
  unfold solveLastRowSimple, lastIndex in Hrun. rewrite Hlen in Hrun.
  destruct (nth_error (rows d) (length Rs - 1)) as [rl|] eqn:Hrl;
    [|apply nth_error_None in Hrl; lia].
  rewrite (getAt_nth _ _ _ Hrl) in Hrun. cbn [bind] in Hrun.
  destruct (Hid _ rl (Nat.le_refl _) Hrl) as [_ [Hl _]].
  destruct (fillLastSimple_ok (selection rl) (columns d) ltac:(lia))
    as [sel' [F1 [F2 F3]]].
  rewrite F1 in Hrun. cbn [bind] in Hrun. injection Hrun as <-.
  change (set_rows_columns d
            (upd (length Rs - 1) (set_selection rl sel') (rows d))
            (columns d))
    with (putRow d (length Rs - 1) (set_selection rl sel') (columns d)).
  unfold enumInv.
  rewrite stateTuple_putRow, putRow_columns, putRow_rows.
  cbn [selection set_selection]. rewrite F3.
  assert (Hkl : (length Rs - 1 < length (stateTuple d))%nat)
    by (rewrite stateTuple_length; lia).
  split; [|apply nth_upd_eq; exact Hkl].
  split; [rewrite firstn_upd by lia; exact I2|]. split.
  { intros i R' Hi HR'. rewrite nth_upd_neq by lia.
    rewrite firstn_upd by lia. apply I3; assumption. }
  split.
  { intros Y Hfe Hnew. destruct (I4 Y Hfe Hnew) as [J1 _].
    split; [|discriminate]. rewrite prefLt_upd by lia. exact J1. }
  destruct T0 as [T|]; [|exact I].
  destruct I6 as [H|[H _]]; [|discriminate].
  left. rewrite prefLt_upd by lia. exact H.
Qed.

Lemma enum_solveSimple (fuel : nat) (d : DiophantineSystem) (ff b : bool)
    (d' : DiophantineSystem) :
  (1 <= length Rs)%nat ->
  driverInv (activeSimpleAt Rs m) (idleSimple Rs m) (entrySimple Rs m)
    (sysIs false perm mcv) (length Rs) V0
    (if ff then O else (length Rs - 1)%nat) d ->
  enumInv Rs V0 T0 (if ff then O else (length Rs - 1)%nat) ff d ->
  solveSimple fuel d ff = Done (b, d') ->
  if b
  then enumInv Rs V0 T0 (length Rs - 1) true d'
       /\ nth (length Rs - 1) (stateTuple d') [] = columns d'
  else forall Y, feasible Rs V0 Y -> newer (length Rs) T0 Y -> False.
Proof.
  intros Hn Hinv He Hrun.
  assert (Hlen : length (rows d) = length Rs) by (destruct Hinv; assumption).
  unfold solveSimple in Hrun. rewrite Hlen in Hrun.
  assert (Hmid : exists found d1,
            (if (1 <? length Rs)%nat
             then driverLoop solveRowSimple fuel (length Rs - 2)
                    (if ff then O else (length Rs - 2)%nat) ff d
             else Done (ff, d)) = Done (found, d1)
            /\ driverInv (activeSimpleAt Rs m) (idleSimple Rs m)
                 (entrySimple Rs m) (sysIs false perm mcv) (length Rs) V0
                 (if found then (length Rs - 1)%nat else O) d1
            /\ enumInv Rs V0 T0 (if found then (length Rs - 1)%nat else O)
                 found d1).
  { destruct (1 <? length Rs)%nat eqn:En.
    - apply Nat.ltb_lt in En.
      destruct (driverLoop solveRowSimple fuel (length Rs - 2)
                  (if ff then O else (length Rs - 2)%nat) ff d)
        as [[found d1]| |] eqn:Hd; try discriminate.
      exists found, d1. split; [reflexivity|].
      apply (enum_driver fuel (if ff then O else (length Rs - 2)%nat) ff d
               found d1); [destruct ff; lia | | | exact Hd].
      + destruct ff; [exact Hinv|].
        replace (S (length Rs - 2)) with (length Rs - 1)%nat by lia.
        exact Hinv.
      + destruct ff; [exact He|].
        replace (S (length Rs - 2)) with (length Rs - 1)%nat by lia.
        exact He.
    - apply Nat.ltb_ge in En. exists ff, d. split; [reflexivity|].
      replace (length Rs - 1)%nat with O in * by lia.
      destruct ff; auto. }
  destruct Hmid as [found [d1 [Hd [Hinv1 He1]]]].
  rewrite Hd in Hrun. cbn [bind] in Hrun. destruct found.
  - destruct (solveLastRowSimple d1) as [d2| |] eqn:Hl; try discriminate.
    cbn [bind] in Hrun. injection Hrun as <- <-.
    apply (enum_last d1 d2 Hn Hinv1 He1 Hl).
  - injection Hrun as <- <-. intros Y Hfe Hnew.
    destruct He1 as [_ [_ [I4 _]]]. destruct (I4 Y Hfe Hnew) as [_ J2].
    apply (J2 eq_refl). intros i Hi. lia.
Qed.

End Enumeration.

Lemma simple_unit_rows (rs : list (Z * Z * Z)) (cs : list Z)
    (d1 : DiophantineSystem) :
  Forall validRow rs -> Forall validColumn cs -> rs <> [] ->
  precompute (declare rs cs) = (true, d1) ->
  complex d1 = false ->
  forall k R, nth_error (rows d1) k = Some R -> coeff R = 1.
Proof.
  intros Hrs Hcs Hrne Hpre Hsimple k R HR.
  destruct (precompute_declared rs cs d1 Hrs Hcs Hrne Hpre)
    as [Hp _]. rewrite Hsimple in Hp.
  destruct Hp as [Hst [Hn [_ Hc1]]].
  destruct (precompute_rows _ _ Hpre) as [HF _].
  assert (Hsorted : StronglySorted rowLe (rows d1)).
  { apply (sorted_transfer sameRow _ _ sameRow_keys HF).
    apply preparedRows_sorted. }
  pose proof (sorted_last _ _ Hsorted (nth_error_In _ _ HR)) as Hle.
  rewrite last_nth_pred in Hle.
  destruct (Hst k R HR) as [Hpos _]. unfold rowLe in Hle. lia.
Qed.

Lemma solve_eq_first (fuel : nat) (d0 d1 : DiophantineSystem) :
  closed d0 = false -> rows d0 <> [] -> columns d0 <> [] ->
  precompute d0 = (true, d1) ->
  failed d1 = false -> complex d1 = false ->
  solve fuel d0 = solveSimple fuel d1 true.
Proof.
  intros Hc Hr Hcol Hp Hf Hx. unfold solve. rewrite Hc. cbn [negb].
  assert (E1 : (length (rows d0) =? 0)%nat = false)
    by (destruct (rows d0); [congruence | reflexivity]).
  assert (E2 : (length (columns d0) =? 0)%nat = false)
    by (destruct (columns d0); [congruence | reflexivity]).
  rewrite E1, E2, Hp. cbn [orb bind negb]. rewrite Hf, Hx. reflexivity.
Qed.

Lemma solve_eq_next (fuel : nat) (perm : list nat) (mcv : Z)
    (d : DiophantineSystem) :
  sysIs false perm mcv d -> solve fuel d = solveSimple fuel d false.
Proof.
  intros [S1 [S2 [S3 _]]]. unfold solve. rewrite S1. cbn [negb bind].
  rewrite S2, S3. reflexivity.
Qed.

Section EnumCalls.

Variables (Rs : list Row) (perm : list nat) (mcv : Z) (V0 : list Z).
Hypothesis Hp : prepared false Rs mcv.
Hypothesis Hone : forall k R, nth_error Rs k = Some R -> coeff R = 1.

Lemma enumInv_state (T0 : option (list (list Z))) (d : DiophantineSystem) :
  enumInv Rs V0 T0 (length Rs - 1) true d ->
  nth (length Rs - 1) (stateTuple d) [] = columns d ->
  enumState Rs V0 d.
Proof.
  intros [I2 [I3 _]] Hl. split; [exact I2|]. split; [exact I3 | exact Hl].
Qed.

Lemma enum_call_first (fuel : nat) (d1 : DiophantineSystem) (b : bool)
    (d' : DiophantineSystem) :
  searchInv false Rs perm mcv V0 O d1 ->
  solveSimple fuel d1 true = Done (b, d') ->
  if b
  then enumState Rs V0 d'
       /\ forall Y, feasible Rs V0 Y ->
            ~ prefLt (length Rs - 1) Y (stateTuple d')
  else forall Y, ~ feasible Rs V0 Y.
Proof.
  intros Hinv Hrun. destruct Hp as [Hst [Hn _]].
  assert (He : enumInv Rs V0 None O true d1).
  { destruct Hinv as [_ [_ [Hact _]]]. cbn [activeUpTo] in Hact.
    split; [exact Hact|]. split; [intros i R Hi; lia|].
    split; [|exact I].
    intros Y _ _. split; [|discriminate]. intros [i [Hi _]]. lia. }
  pose proof (enum_solveSimple Rs (length V0) perm mcv V0 None Hst Hone
                fuel d1 true b d' Hn Hinv He Hrun) as H.
  destruct b.
  - destruct H as [H1 H2]. split; [apply (enumInv_state None); assumption|].
    intros Y Hfe. destruct H1 as [_ [_ [I4 _]]].
    destruct (I4 Y Hfe I) as [J _]. exact J.
  - intros Y Hfe. exact (H Y Hfe I).
Qed.

Lemma enum_call_next (fuel : nat) (d : DiophantineSystem) (b : bool)
    (d' : DiophantineSystem) :
  searchInv false Rs perm mcv V0 (length Rs - 1) d ->
  enumState Rs V0 d ->
  solveSimple fuel d false = Done (b, d') ->
  if b
  then enumState Rs V0 d'
       /\ prefLt (length Rs - 1) (stateTuple d) (stateTuple d')
       /\ forall Y, feasible Rs V0 Y ->
            prefLt (length Rs - 1) (stateTuple d) Y ->
            ~ prefLt (length Rs - 1) Y (stateTuple d')
  else forall Y, feasible Rs V0 Y ->
         ~ prefLt (length Rs - 1) (stateTuple d) Y.
Proof.
  intros Hinv [E2 [E3 _]] Hrun. destruct Hp as [Hst [Hn _]].
  set (T := stateTuple d) in *.
  assert (He : enumInv Rs V0 (Some T) (length Rs - 1) false d).
  { split; [exact E2|]. split; [exact E3|]. split.
    - intros Y _ Hnew. cbn [newer] in Hnew. fold T. split.
      + intros H. exact (prefLt_asym _ _ _ Hnew H).
      + intros _ H. apply (prefLt_not_eq _ _ _ Hnew).
        apply prefEq_sym. exact H.
    - right. split; [reflexivity|]. intros i Hi. reflexivity. }
  pose proof (enum_solveSimple Rs (length V0) perm mcv V0 (Some T) Hst Hone
                fuel d false b d' Hn Hinv He Hrun) as H.
  destruct b.
  - destruct H as [H1 H2].
    split; [apply (enumInv_state (Some T)); assumption|].
    destruct H1 as [_ [_ [I4 I6]]]. split.
    + destruct I6 as [H|[H _]]; [exact H | discriminate].
    + intros Y Hfe Hnew. destruct (I4 Y Hfe Hnew) as [J _]. exact J.
  - intros Y Hfe Hnew. exact (H Y Hfe Hnew).
Qed.

End EnumCalls.

(* ----------------------------------------------------------------- *)
(** ** A measure that falls from one solution to the next *)

Section Measure.

Variable key : list Z -> Z.
Variable K : Z.
Variable good : list Z -> Prop.
Hypothesis key_bound : forall x, good x -> 0 <= key x < K.
Hypothesis key_lt :
  forall x y, good x -> good y -> selLt x y -> key y < key x.

Lemma tupleMeasure_nonneg (a : nat) (T : list (list Z)) :
  (forall i, (i < a)%nat -> good (nth i T [])) ->
  0 <= tupleMeasure key K a T.
Proof.
  induction a as [|a IH]; intros Hg; simpl; [lia|].
  pose proof (key_bound _ (Hg a ltac:(lia))).
  specialize (IH ltac:(intros i Hi; apply Hg; lia)). nia.
Qed.

Lemma tupleMeasure_eq (a : nat) (T T' : list (list Z)) :
  prefEq a T T' -> tupleMeasure key K a T = tupleMeasure key K a T'.
Proof.
  induction a as [|a IH]; intros He; simpl; [reflexivity|].
  apply prefEq_S in He. destruct He as [He Hn].
  rewrite (IH He), Hn. reflexivity.
Qed.

Lemma tupleMeasure_lt (a : nat) (T T' : list (list Z)) :
  (forall i, (i < a)%nat -> good (nth i T [])) ->
  (forall i, (i < a)%nat -> good (nth i T' [])) ->
  prefLt a T T' ->
  tupleMeasure key K a T' < tupleMeasure key K a T.
Proof.
  induction a as [|a IH]; intros Hg Hg' Hlt.
  - destruct Hlt as [i [Hi _]]. lia.
  - simpl. pose proof (key_bound _ (Hg a ltac:(lia))).
    pose proof (key_bound _ (Hg' a ltac:(lia))).
    apply prefLt_S in Hlt. destruct Hlt as [Hlt|[He Hlt]].
    + specialize (IH ltac:(intros i Hi; apply Hg; lia)
                     ltac:(intros i Hi; apply Hg'; lia) Hlt). nia.
    + rewrite (tupleMeasure_eq a T T' He).
      pose proof (key_lt _ _ (Hg a ltac:(lia)) (Hg' a ltac:(lia)) Hlt). lia.
Qed.

End Measure.

Lemma within_repeat_intro (B : Z) (x : list Z) :
  (forall j, (j < length x)%nat -> 0 <= nth j x 0 <= B) ->
  within (repeat B (length x)) x.
Proof.
  induction x as [|v x IH]; intros H; [constructor|].
  simpl. constructor.
  - exact (H O ltac:(simpl; lia)).
  - apply IH. intros j Hj. exact (H (S j) ltac:(simpl; lia)).
Qed.

Lemma zsum_repeat (B : Z) (n : nat) : zsum (repeat B n) = B * Z.of_nat n.
Proof.
  induction n as [|n IH]; [simpl; lia|].
  cbn [repeat]. rewrite zsum_cons, IH. lia.
Qed.

Lemma selMeasure_bound (caps xs : list Z) (hi : Z) :
  within caps xs -> zsum xs <= hi ->
  0 <= selMeasure caps hi xs < (hi + 1) * capSpace (rev caps).
Proof.
  intros Hw Hs. split; [apply selMeasure_nonneg; assumption|].
  unfold selMeasure.
  pose proof (lexRank_bound _ _ (within_rev _ _ Hw)).
  pose proof (capSpace_pos _ (within_caps_nonneg _ _ (within_rev _ _ Hw))).
  pose proof (within_sum _ _ Hw). nia.
Qed.

Lemma solved_rows_within (Rs : list Row) (perm : list nat) (mcv : Z)
    (V0 : list Z) (d : DiophantineSystem) (B : Z) :
  prepared false Rs mcv ->
  solvedState false Rs perm mcv V0 d ->
  Forall (fun v => v <= B) V0 ->
  forall k, (k < length Rs - 1)%nat ->
    within (repeat B (length V0)) (nth k (stateTuple d) []).
Proof.
  intros Hp Hs HB k Hk. pose proof Hp as [Hst [Hn _]].
  destruct (solvedState_sem _ _ _ _ _ _ Hn Hs) as [_ [Hbal Hrow]].
  pose proof (solvedState_nonneg _ _ _ _ _ _ Hp Hs) as Hnn.
  destruct (Hrow k ltac:(lia)) as [Hl _].
  assert (Hbz : Forall (fun s => base s = 0)
                  (selection (nth k (rows d) emptyRow))).
  { destruct Hs as [[_ [_ [Hact _]]] _].
    apply (activeUpTo_forall (activeSimpleAt Rs (length V0))
             (entrySimple Rs (length V0))
             (fun r => Forall (fun s => base s = 0) (selection r)) V0)
      with (a := (length Rs - 1)%nat) (bag := columns d);
      [|exact Hact | exact Hk].
    intros k0 r V bag [[_ [_ [H _]]] _]. exact H. }
  rewrite stateTuple_nth.
  set (r := nth k (rows d) emptyRow) in *.
  assert (Hlx : length (map extra (selection r)) = length V0)
    by (rewrite length_map; exact Hl).
  rewrite <- Hlx. apply within_repeat_intro. intros j Hj.
  rewrite length_map in Hj.
  change 0 with (extra (mkSelect 0 0 0)) at 2 3.
  rewrite map_nth.
  assert (Hcell : cell r j = extra (nth j (selection r) (mkSelect 0 0 0))).
  { unfold cell.
    rewrite (proj1 (Forall_forall _ _) Hbz _ (nth_In _ _ Hj)). lia. }
  rewrite <- Hcell. split; [apply Hnn; lia|].
  assert (Hin : In k (seq 0 (length Rs))) by (apply in_seq; lia).
  pose proof (zsum_term_le
                (fun k => cell (nth k (rows d) emptyRow) j
                          * coeff (nth k Rs emptyRow))
                (seq 0 (length Rs)) k) as Ht.
  cbn beta in Ht. rewrite <- Hbal in Ht. fold r in Ht.
  assert (Hle : cell r j * coeff (nth k Rs emptyRow) <= nth j V0 0).
  { apply Ht; [|exact Hin]. intros i Hi. apply in_seq in Hi.
    pose proof (Hnn i j ltac:(lia)).
    destruct (static_row Rs i Hst ltac:(lia)). nia. }
  destruct (static_row Rs k Hst ltac:(lia)) as [Hc _].
  pose proof (Hnn k j ltac:(lia)) as H0. fold r in H0.
  assert (HV : nth j V0 0 <= B).
  { apply (proj1 (Forall_forall _ _) HB). apply nth_In. lia. }
  nia.
Qed.

(* ----------------------------------------------------------------- *)
(** ** Every solution of a simple system is reached *)

Section EnumDeclared.

Variables (rs : list (Z * Z * Z)) (cs : list Z) (d1 : DiophantineSystem).
Hypothesis Hrs : Forall validRow rs.
Hypothesis Hcs : Forall validColumn cs.
Hypothesis Hrne : rs <> [].
Hypothesis Hpre : precompute (declare rs cs) = (true, d1).
Hypothesis Hsimple : complex d1 = false.

Lemma enum_prepared :
  prepared false (rows d1) (maxColumnValue d1)
  /\ searchInv false (rows d1) (rowPermute d1) (maxColumnValue d1) cs O d1
  /\ permuted rs (zsum cs) (rows d1) (rowPermute d1)
  /\ forall k R, nth_error (rows d1) k = Some R -> coeff R = 1.
Proof.
  destruct (precompute_declared rs cs d1 Hrs Hcs Hrne Hpre)
    as [H1 [H2 H3]]. rewrite Hsimple in H1, H2.
  split; [exact H1|]. split; [exact H2|]. split; [exact H3|].
  apply (simple_unit_rows rs cs d1 Hrs Hcs Hrne Hpre Hsimple).
Qed.

Lemma enum_solved (d : DiophantineSystem) :
  solved (declare rs cs) d ->
  solvedState false (rows d1) (rowPermute d1) (maxColumnValue d1) cs d
  /\ enumState (rows d1) cs d.
Proof.
  destruct enum_prepared as [Hp [Hinv [_ Hone]]].
  destruct (declare_fields rs cs)
    as [D1 [D2 [_ [_ [_ [_ [D7 _]]]]]]].
  intros H. induction H as [fuel d Hrun|fuel d d' Hsol IH Hrun].
  - destruct (solved_frame _ _ D7 (solved_first _ fuel d Hrun))
      as [_ [_ [_ [_ [_ [N1 N2]]]]]].
    destruct (searchInv_sys _ _ _ _ _ _ _ Hinv) as [_ [S2 _]].
    split.
    + pose proof (solve_first (rows d1) cs fuel (declare rs cs) d1 d D7)
        as Hf. rewrite Hsimple in Hf. apply Hf; try assumption.
      destruct (rows (declare rs cs)); [congruence|].
      destruct (columns (declare rs cs)); [congruence | reflexivity].
    + rewrite (solve_eq_first fuel _ d1 D7 N1 N2 Hpre S2 Hsimple) in Hrun.
      pose proof (enum_call_first (rows d1) (rowPermute d1)
                    (maxColumnValue d1) cs Hp Hone fuel d1 true d Hinv Hrun)
        as [H _]. exact H.
  - destruct IH as [IH1 IH2]. split.
    + apply (solve_next false (rows d1) _ _ cs fuel d d' Hp IH1 Hrun).
    + destruct IH1 as [Hinv' _].
      rewrite (solve_eq_next fuel _ _ d (searchInv_sys _ _ _ _ _ _ _ Hinv'))
        in Hrun.
      pose proof (enum_call_next (rows d1) (rowPermute d1)
                    (maxColumnValue d1) cs Hp Hone fuel d true d' Hinv' IH2
                    Hrun) as [H _]. exact H.
Qed.

Lemma enum_first_solution (Y : list (list Z)) :
  cs <> [] ->
  feasible (rows d1) cs Y ->
  exists d,
    solved (declare rs cs) d
    /\ ~ prefLt (length (rows d1) - 1) Y (stateTuple d).
Proof.
  intros Hcne Hfe. destruct enum_prepared as [Hp [Hinv [_ Hone]]].
  destruct (declare_fields rs cs)
    as [D1 [D2 [_ [_ [_ [_ [D7 _]]]]]]].
  destruct (searchInv_sys _ _ _ _ _ _ _ Hinv) as [_ [S2 _]].
  assert (N1 : rows (declare rs cs) <> []).
  { rewrite D1. destruct rs; [congruence | discriminate]. }
  assert (N2 : columns (declare rs cs) <> []) by (rewrite D2; exact Hcne).
  destruct (solveSimple_terminates (rows d1) _ _ cs d1 true Hp Hinv)
    as [N HN].
  destruct (HN O) as [b [d Hrun]].
  pose proof (enum_call_first (rows d1) (rowPermute d1)
                (maxColumnValue d1) cs Hp Hone _ d1 b d Hinv Hrun) as H.
  destruct b; [|exfalso; exact (H Y Hfe)].
  exists d. split; [|apply (proj2 H); exact Hfe].
  apply (solved_first _ (N + 0)).
  rewrite (solve_eq_first _ _ d1 D7 N1 N2 Hpre S2 Hsimple). exact Hrun.
Qed.

Lemma enum_next_solution (d : DiophantineSystem) (Y : list (list Z)) :
  solved (declare rs cs) d ->
  feasible (rows d1) cs Y ->
  prefLt (length (rows d1) - 1) (stateTuple d) Y ->
  exists d',
    solved (declare rs cs) d'
    /\ prefLt (length (rows d1) - 1) (stateTuple d) (stateTuple d')
    /\ ~ prefLt (length (rows d1) - 1) Y (stateTuple d').
Proof.
  intros Hsol Hfe Hlt. destruct enum_prepared as [Hp [_ [_ Hone]]].
  destruct (enum_solved d Hsol) as [[Hinv Hlast] Hen].
  destruct (solveSimple_terminates (rows d1) _ _ cs d false Hp Hinv)
    as [N HN].
  destruct (HN O) as [b [d' Hrun]].
  pose proof (enum_call_next (rows d1) (rowPermute d1)
                (maxColumnValue d1) cs Hp Hone _ d b d' Hinv Hen Hrun) as H.
  destruct b; [|exfalso; exact (H Y Hfe Hlt)].
  destruct H as [_ [H1 H2]]. exists d'. split; [|split].
  - apply (solved_next _ (N + 0) d d' Hsol).
    rewrite (solve_eq_next _ _ _ d (searchInv_sys _ _ _ _ _ _ _ Hinv)).
    exact Hrun.
  - exact H1.
  - apply H2; assumption.
Qed.

End EnumDeclared.

Lemma enum_reach (rs : list (Z * Z * Z)) (cs : list Z)
    (d1 : DiophantineSystem) (Y : list (list Z)) :
  Forall validRow rs -> Forall validColumn cs ->
  rs <> [] -> cs <> [] ->
  precompute (declare rs cs) = (true, d1) ->
  complex d1 = false ->
  feasible (rows d1) cs Y ->
  exists d,
    solved (declare rs cs) d
    /\ prefEq (length (rows d1) - 1) Y (stateTuple d).
Proof.
  intros Hrs Hcs Hrne Hcne Hpre Hsimple Hfe.
  destruct (enum_prepared rs cs d1 Hrs Hcs Hrne Hpre Hsimple)
    as [Hp [_ [_ Hone]]].
  pose proof Hp as [Hst _].
  destruct (declare_fields rs cs) as [_ [_ [_ [_ [_ [D6 _]]]]]].
  set (B := maxColumnValue (declare rs cs)) in *.
  set (n1 := (length (rows d1) - 1)%nat).
  set (caps := repeat B (length cs)).
  set (hi := zsum caps).
  set (key := selMeasure caps hi).
  set (K := (hi + 1) * capSpace (rev caps)).
  assert (key_bound : forall x, within caps x -> 0 <= key x < K).
  { intros x Hx. apply selMeasure_bound; [exact Hx|].
    apply (within_sum _ _ Hx). }
  assert (key_lt : forall x y, within caps x -> within caps y ->
            selLt x y -> key y < key x).
  { intros x y Hx Hy Hlt. apply selLt_measure; try assumption.
    apply (within_sum _ _ Hy). }
  assert (Hgood : forall d, solved (declare rs cs) d ->
            forall i, (i < n1)%nat -> within caps (nth i (stateTuple d) [])).
  { intros d Hsol i Hi.
    destruct (enum_solved rs cs d1 Hrs Hcs Hrne Hpre Hsimple d Hsol)
      as [Hs _].
    apply (solved_rows_within _ _ _ _ _ B Hp Hs D6 i Hi). }
  assert (Hlens : forall d, solved (declare rs cs) d ->
            forall i, (i < n1)%nat ->
              length (nth i Y []) = length (nth i (stateTuple d) [])).
  { intros d Hsol i Hi.
    rewrite <- (feasible_row_length _ _ _ Hfe i) by (unfold n1 in Hi; lia).
    rewrite <- (within_length _ _ (Hgood d Hsol i Hi)).
    unfold caps. rewrite repeat_length. reflexivity. }
  assert (Hclaim : forall mu d,
            solved (declare rs cs) d ->
            (Z.to_nat (tupleMeasure key K n1 (stateTuple d)) <= mu)%nat ->
            ~ prefLt n1 Y (stateTuple d) ->
            exists d', solved (declare rs cs) d'
                       /\ prefEq n1 Y (stateTuple d')).
  { induction mu as [|mu IH]; intros d Hsol Hmu Hnlt;
      (destruct (pref_total n1 Y (stateTuple d) (Hlens d Hsol))
         as [H|[H|H]]; [contradiction | eauto |]);
      destruct (enum_next_solution rs cs d1 Hrs Hcs Hrne Hpre Hsimple d Y
                  Hsol Hfe H) as [d' [Hsol' [Hlt Hn']]];
      pose proof (tupleMeasure_lt key K (within caps) key_bound key_lt n1
                    _ _ (Hgood d Hsol) (Hgood d' Hsol') Hlt) as Hdec;
      pose proof (tupleMeasure_nonneg key K (within caps) key_bound n1
                    _ (Hgood d' Hsol')) as Hnn.
    - lia.
    - apply (IH d' Hsol'); [lia | exact Hn']. }
  destruct (enum_first_solution rs cs d1 Hrs Hcs Hrne Hpre Hsimple Y Hcne
              Hfe) as [d [Hsol Hn]].
  apply (Hclaim _ d Hsol (Nat.le_refl _) Hn).
Qed.

(* ----------------------------------------------------------------- *)
(** ** Solutions in the caller's order and in the sorted order *)

Lemma In_firstn_list {A : Type} (n : nat) (l : list A) (x : A) :
  In x (firstn n l) -> In x l.
Proof.
  intros H. rewrite <- (firstn_skipn n l). apply in_or_app. left. exact H.
Qed.

Lemma takeFrom_nth (V x : list Z) (j : nat) :
  length x = length V ->
  nth j (takeFrom 1 V x) 0 = nth j V 0 - nth j x 0.
Proof.
  revert x j. induction V as [|v V IH]; intros [|y x] j Hl; simpl in Hl;
    try discriminate.
  - destruct j; reflexivity.
  - unfold takeFrom in *. destruct j as [|j]; simpl; [lia|].
    apply IH. lia.
Qed.

Lemma bagAfter_nth (P : list (list Z)) :
  forall (V0 : list Z) (j : nat),
    Forall (fun x => length x = length V0) P ->
    length (bagAfter V0 P) = length V0
    /\ nth j (bagAfter V0 P) 0
       = nth j V0 0 - zsum (map (fun x => nth j x 0) P).
Proof.
  induction P as [|x P IH]; intros V0 j HP.
  - simpl. split; [reflexivity | unfold zsum; simpl; lia].
  - inversion HP as [|? ? Hx HP']; subst.
    change (bagAfter V0 (x :: P)) with (bagAfter (takeFrom 1 V0 x) P).
    pose proof (takeFrom_length 1 V0 x Hx) as Hl.
    destruct (IH (takeFrom 1 V0 x) j) as [I1 I2].
    { eapply Forall_impl; [|exact HP']. simpl. intros a Ha. lia. }
    split; [lia|]. rewrite I2, (takeFrom_nth _ _ _ Hx). simpl map.
    rewrite zsum_cons. lia.
Qed.

Lemma within_intro (V x : list Z) :
  length x = length V ->
  (forall j, (j < length x)%nat -> 0 <= nth j x 0 <= nth j V 0) ->
  within V x.
Proof.
  revert x. induction V as [|v V IH]; intros [|y x] Hl H; simpl in Hl;
    try discriminate; constructor.
  - exact (H O ltac:(simpl; lia)).
  - apply IH; [lia|]. intros j Hj. exact (H (S j) ltac:(simpl; lia)).
Qed.

Lemma zeros_intro (l : list Z) :
  (forall j, (j < length l)%nat -> nth j l 0 = 0) ->
  Forall (fun v => v = 0) l.
Proof.
  induction l as [|v l IH]; intros H; constructor.
  - exact (H O ltac:(simpl; lia)).
  - apply IH. intros j Hj. exact (H (S j) ltac:(simpl; lia)).
Qed.

Lemma sortedTuple_nth (Rs : list Row) (M : list (list Z)) (k : nat)
    (R : Row) :
  nth_error Rs k = Some R ->
  nth k (sortedTuple Rs M) [] = nth (name R) M [].
Proof.
  intros HR. apply nth_error_nth. unfold sortedTuple.
  apply (map_nth_error (fun R => nth (name R) M []) _ _ HR).
Qed.

Section SortedSolution.

Variables (rs : list (Z * Z * Z)) (cs : list Z) (M : list (list Z)).
Variables (Rs : list Row) (perm : list nat).
Hypothesis Hrs : Forall validRow rs.
Hypothesis Hcs : Forall validColumn cs.
Hypothesis Hsol : isSolution rs cs M.
Hypothesis Hpm : permuted rs (zsum cs) Rs perm.
Hypothesis Hone : forall k R, nth_error Rs k = Some R -> coeff R = 1.

Lemma sorted_rows :
  Forall (fun x => length x = length cs /\ Forall (fun v => 0 <= v) x)
    (sortedTuple Rs M).
Proof.
  unfold sortedTuple. apply Forall_map. apply Forall_forall. intros R HR.
  destruct (In_nth_error _ _ HR) as [k Hk].
  destruct (permuted_onto _ _ _ _ _ _ Hpm Hk) as [i [r [Hi [_ [Hn _]]]]].
  rewrite Hn. apply (solution_row rs cs M Hsol).
  apply (nth_error_lt _ _ _ Hi).
Qed.

Lemma sorted_column_sum (j : nat) :
  (j < length cs)%nat ->
  zsum (map (fun x => nth j x 0) (sortedTuple Rs M)) = nth j cs 0.
Proof.
  intros Hj. pose proof (permuted_positions _ _ _ _ Hpm) as HP.
  unfold sortedTuple. rewrite map_map.
  rewrite (map_seq_nth (fun R => nth j (nth (name R) M []) 0) emptyRow).
  destruct Hpm as [Hlen Hp]. rewrite Hlen.
  rewrite <- (zsum_perm _ _
                (Permutation_map
                   (fun k => nth j (nth (name (nth k Rs emptyRow)) M []) 0)
                   HP)).
  rewrite map_map.
  destruct Hsol as [_ [_ [Hbal _]]]. rewrite <- (Hbal j Hj).
  f_equal. apply map_ext_in. intros i Hi. apply in_seq in Hi.
  destruct (nth_error rs i) as [r|] eqn:E;
    [|apply nth_error_None in E; lia].
  destruct (Hp i r E) as [R [H1 [H2 [H3 _]]]].
  rewrite (nth_error_nth _ _ emptyRow H1), H2.
  rewrite (nth_error_nth _ _ (0, 0, 0) E), <- H3, (Hone _ _ H1). ring.
Qed.

Lemma solution_feasible : feasible Rs cs (sortedTuple Rs M).
Proof.
  set (Y := sortedTuple Rs M).
  pose proof sorted_rows as Hrows. fold Y in Hrows.
  assert (HlenY : length Y = length Rs) by apply length_map.
  assert (Hlens : forall l, (forall x, In x l -> In x Y) ->
            Forall (fun x => length x = length cs) l).
  { intros l Hl. apply Forall_forall. intros x Hx.
    apply (proj1 (proj1 (Forall_forall _ _) Hrows x (Hl x Hx))). }
  assert (Hnn : forall l j, (forall x, In x l -> In x Y) ->
            0 <= zsum (map (fun x => nth j x 0) l)).
  { intros l j Hl. apply zsum_nonneg. apply Forall_map.
    apply Forall_forall. intros x Hx.
    destruct (proj1 (Forall_forall _ _) Hrows x (Hl x Hx)) as [_ Hx0].
    destruct (Nat.lt_ge_cases j (length x)) as [H|H].
    - apply (proj1 (Forall_forall _ _) Hx0). apply nth_In. exact H.
    - rewrite nth_overflow by exact H. lia. }
  split; [exact HlenY|]. split.
  - intros k R HR. pose proof (nth_error_lt _ _ _ HR) as Hk.
    assert (HYk : nth_error Y k = Some (nth k Y [])).
    { apply nth_error_nth'. lia. }
    destruct (proj1 (Forall_forall _ _) Hrows _ (nth_error_In _ _ HYk))
      as [Hlk Hk0].
    split.
    + assert (Hfl : Forall (fun x => length x = length cs) (firstn k Y)).
      { apply Hlens. intros x Hx. apply (In_firstn_list k). exact Hx. }
      apply within_intro.
      * rewrite (proj1 (bagAfter_nth _ cs O Hfl)). exact Hlk.
      * intros j Hj. rewrite (proj2 (bagAfter_nth _ cs j Hfl)).
        split; [apply (proj1 (Forall_forall _ _) Hk0); apply nth_In;
                exact Hj|].
        pose proof (sorted_column_sum j ltac:(lia)) as Hsum. fold Y in Hsum.
        rewrite <- (firstn_skipn k Y) in Hsum at 1.
        rewrite map_app, zsum_app in Hsum.
        rewrite (skipn_nth_error _ _ _ HYk) in Hsum. cbn [map] in Hsum.
        rewrite zsum_cons in Hsum.
        pose proof (Hnn (skipn (S k) Y) j
                      ltac:(intros x Hx; apply (In_skipn (S k)); exact Hx)).
        lia.
    + unfold Y. rewrite (sortedTuple_nth _ _ _ _ HR).
      destruct (permuted_onto _ _ _ _ _ _ Hpm HR)
        as [i [r [Hi [_ [Hn [_ [Hmn Hmx]]]]]]].
      rewrite Hn, Hmn, Hmx. apply (solution_size rs cs M Hrs Hsol i r Hi).
  - assert (Hfl : Forall (fun x => length x = length cs) Y)
      by (apply Hlens; auto).
    apply zeros_intro. intros j Hj.
    rewrite (proj1 (bagAfter_nth _ cs O Hfl)) in Hj.
    rewrite (proj2 (bagAfter_nth _ cs j Hfl)).
    unfold Y. rewrite (sorted_column_sum j Hj). lia.
Qed.

End SortedSolution.

Lemma solved_bases_zero (Rs : list Row) (perm : list nat) (mcv : Z)
    (V0 : list Z) (d : DiophantineSystem) (k : nat) :
  solvedState false Rs perm mcv V0 d ->
  (k < length Rs)%nat ->
  Forall (fun s => base s = 0) (selection (nth k (rows d) emptyRow)).
Proof.
  intros [[Hlen [_ [Hact [Hid _]]]] _] Hk.
  destruct (Nat.lt_ge_cases k (length Rs - 1)) as [H|H].
  - apply (activeUpTo_forall (activeSimpleAt Rs (length V0))
             (entrySimple Rs (length V0))
             (fun r => Forall (fun s => base s = 0) (selection r)) V0)
      with (a := (length Rs - 1)%nat) (bag := columns d);
      [|exact Hact | exact H].
    intros k0 r V bag [[_ [_ [Hb _]]] _]. exact Hb.
  - destruct (nth_error (rows d) k) as [r|] eqn:Hr;
      [|apply nth_error_None in Hr; lia].
    rewrite (nth_error_nth _ _ emptyRow Hr).
    destruct (Hid k r H Hr) as [_ [_ Hb]]. exact Hb.
Qed.

Lemma enum_matrix (rs : list (Z * Z * Z)) (cs : list Z)
    (M : list (list Z)) (Rs : list Row) (perm : list nat) (mcv : Z)
    (d : DiophantineSystem) :
  isSolution rs cs M ->
  permuted rs (zsum cs) Rs perm ->
  feasible Rs cs (sortedTuple Rs M) ->
  prepared false Rs mcv ->
  solvedState false Rs perm mcv cs d ->
  enumState Rs cs d ->
  prefEq (length Rs - 1) (sortedTuple Rs M) (stateTuple d) ->
  solutionMatrix d = M.
Proof.
  intros Hsol Hpm Hfe Hp Hs [E1 [_ E3]] He.
  pose proof Hp as [_ [Hn _]].
  set (Y := sortedTuple Rs M) in *. set (T := stateTuple d) in *.
  destruct (solvedState_lengths _ _ _ _ _ _ Hs) as [Hlr Hlc].
  destruct (solvedState_sem _ _ _ _ _ _ Hn Hs) as [Hperm [_ Hrow]].
  assert (Hall : forall k, (k < length Rs)%nat -> nth k T [] = nth k Y []).
  { intros k Hk. destruct (Nat.lt_ge_cases k (length Rs - 1)) as [H|H].
    - symmetry. apply He. exact H.
    - replace k with (length Rs - 1)%nat by lia.
      rewrite E3, E1, (feasible_last Rs cs Y Hfe Hn). f_equal.
      symmetry. apply firstn_prefEq; [exact He| |].
      + destruct Hfe as [H1 _]. lia.
      + unfold T. rewrite stateTuple_length. lia. }
  destruct Hpm as [Hlen Hpos]. destruct Hsol as [HlM [HM _]].
  unfold solutionMatrix. rewrite Hlr, Hlc, Hlen, <- HlM.
  rewrite <- (map_id M) at 2.
  rewrite <- (map_nth_seq (fun x => x) [] M).
  apply map_ext_in. intros i Hi. apply in_seq in Hi.
  destruct (nth_error rs i) as [r|] eqn:Hr;
    [|apply nth_error_None in Hr; lia].
  destruct (Hpos i r Hr) as [R [HR [Hname _]]].
  pose proof (nth_error_lt _ _ _ HR) as Hk.
  destruct (proj1 (Forall_forall _ _) HM (nth i M [])
              ltac:(apply nth_In; lia)) as [Hli _].
  rewrite <- (map_id (nth i M [])).
  rewrite <- (map_nth_seq (fun x => x) 0 (nth i M [])), Hli.
  apply map_ext_in. intros j Hj. apply in_seq in Hj.
  rewrite solution_cell, Hperm.
  set (k := nth i perm O) in *.
  pose proof (solved_bases_zero _ _ _ _ _ k Hs Hk) as Hbz.
  destruct (Hrow k Hk) as [Hlsel _].
  unfold cell.
  assert (Hin : In (nth j (selection (nth k (rows d) emptyRow))
                      (mkSelect 0 0 0))
                  (selection (nth k (rows d) emptyRow)))
    by (apply nth_In; rewrite Hlsel; lia).
  rewrite (proj1 (Forall_forall _ _) Hbz _ Hin).
  change (0 + extra (nth j (selection (nth k (rows d) emptyRow))
                       (mkSelect 0 0 0)))
    with (extra (nth j (selection (nth k (rows d) emptyRow))
                   (mkSelect 0 0 0))).
  rewrite <- (map_nth extra). cbn [extra].
  rewrite <- stateTuple_nth. fold T. rewrite (Hall k Hk).
  unfold Y. rewrite (sortedTuple_nth _ _ _ _ HR), Hname. reflexivity.
Qed.


Lemma unitLast_ok : isSolution unitRows unitColumns unitLast.
Proof.
  split; [reflexivity|]. split; [|split].
  - repeat constructor; lia.
  - intros [|[|j]] Hj; [reflexivity | reflexivity | simpl in Hj; lia].
  - intros i r Hi.
    destruct i as [|[|[|i]]]; simpl in Hi;
      [| | |destruct i; discriminate];
      injection Hi as <-; simpl; (split; [lia | right; lia]).
Qed.


(* ----------------------------------------------------------------- *)
(** ** No solution twice *)

Lemma state_sorted (rs : list (Z * Z * Z)) (csum : Z) (Rs : list Row)
    (perm : list nat) (mcv : Z) (V0 : list Z) (d : DiophantineSystem)
    (k : nat) :
  permuted rs csum Rs perm ->
  prepared false Rs mcv ->
  solvedState false Rs perm mcv V0 d ->
  (k < length Rs)%nat ->
  nth k (stateTuple d) [] = nth k (sortedTuple Rs (solutionMatrix d)) [].
Proof.
  intros Hpm Hp Hs Hk. pose proof Hp as [_ [Hn _]].
  destruct (solvedState_lengths _ _ _ _ _ _ Hs) as [Hlr Hlc].
  destruct (solvedState_sem _ _ _ _ _ _ Hn Hs) as [Hperm [_ Hrow]].
  destruct (nth_error Rs k) as [R|] eqn:HR;
    [|apply nth_error_None in HR; lia].
  destruct (permuted_onto _ _ _ _ _ _ Hpm HR)
    as [i [r [Hi [Hpi [Hname _]]]]].
  pose proof (nth_error_lt _ _ _ Hi) as Hil.
  destruct Hpm as [Hlen _].
  rewrite (sortedTuple_nth _ _ _ _ HR), Hname.
  rewrite nth_solutionMatrix_row by lia.
  rewrite stateTuple_nth.
  pose proof (solved_bases_zero _ _ _ _ _ k Hs Hk) as Hbz.
  destruct (Hrow k Hk) as [Hlsel _].
  set (sel := selection (nth k (rows d) emptyRow)) in *.
  rewrite (map_seq_nth extra (mkSelect 0 0 0) sel), Hlsel, Hlc.
  apply map_ext_in. intros j Hj. apply in_seq in Hj.
  rewrite solution_cell, Hperm, Hpi. unfold cell. fold sel.
  assert (Hin : In (nth j sel (mkSelect 0 0 0)) sel)
    by (apply nth_In; rewrite Hlsel; lia).
  rewrite (proj1 (Forall_forall _ _) Hbz _ Hin). reflexivity.
Qed.

Lemma later_order (rs : list (Z * Z * Z)) (cs : list Z)
    (d1 d d' : DiophantineSystem) :
  Forall validRow rs -> Forall validColumn cs -> rs <> [] ->
  precompute (declare rs cs) = (true, d1) ->
  complex d1 = false ->
  solved (declare rs cs) d ->
  laterThan d d' ->
  solved (declare rs cs) d'
  /\ prefLt (length (rows d1) - 1) (stateTuple d) (stateTuple d').
Proof.
  intros Hrs Hcs Hrne Hpre Hsimple Hsol Hl.
  destruct (enum_prepared rs cs d1 Hrs Hcs Hrne Hpre Hsimple)
    as [Hp [_ [_ Hone]]].
  assert (Hstep : forall fuel a a',
            solved (declare rs cs) a ->
            solve fuel a = Done (true, a') ->
            prefLt (length (rows d1) - 1) (stateTuple a) (stateTuple a')).
  { intros fuel a a' Ha Hrun.
    destruct (enum_solved rs cs d1 Hrs Hcs Hrne Hpre Hsimple a Ha)
      as [[Hinv _] Hen].
    rewrite (solve_eq_next fuel _ _ a (searchInv_sys _ _ _ _ _ _ _ Hinv))
      in Hrun.
    pose proof (enum_call_next (rows d1) (rowPermute d1)
                  (maxColumnValue d1) cs Hp Hone fuel a true a' Hinv Hen
                  Hrun) as [_ [H _]]. exact H. }
  induction Hl as [fuel d' Hrun|fuel d' d'' Hl IH Hrun].
  - split; [apply (solved_next _ fuel d d' Hsol Hrun)|].
    apply (Hstep fuel d d' Hsol Hrun).
  - destruct IH as [IH1 IH2].
    split; [apply (solved_next _ fuel d' d'' IH1 Hrun)|].
    apply (prefLt_trans _ _ _ _ IH2). apply (Hstep fuel d' d'' IH1 Hrun).
Qed.





(* ----------------------------------------------------------------- *)
(** ** The complex search makes progress *)

Lemma colexRank_bound (caps xs : list Z) :
  within caps xs -> 0 <= colexRank caps xs <= capSpace caps - 1.
Proof.
  induction 1 as [|cap x caps xs Hx Hw IH]; simpl; [lia|].
  pose proof (capSpace_pos _ (within_caps_nonneg _ _ Hw)). nia.
Qed.

Lemma capSpace_le (caps : list Z) (B : Z) :
  Forall (fun c => 0 <= c <= B) caps ->
  capSpace caps <= capSpace (repeat B (length caps)).
Proof.
  induction 1 as [|c caps Hc Hcaps IH]; simpl; [lia|].
  assert (Hpos : 1 <= capSpace caps).
  { apply capSpace_pos. eapply Forall_impl; [|exact Hcaps].
    simpl. intros; lia. }
  nia.
Qed.

Lemma probeLift_some (n : nat) (sol : list Soluble) (c t mx : Z) :
  forall e0 b e c',
    probeLift n sol c t mx e0 b = Done (Some (e, c')) ->
    e0 <= e /\ t + e <= mx.
Proof.
  induction n as [|n IH]; intros e0 b e c' H; cbn [probeLift] in H;
    [discriminate|].
  destruct (mx <? t + e0) eqn:E; [discriminate|]. apply Z.ltb_ge in E.
  destruct (readSol sol (b - c)) as [x| |]; cbn [bind] in H;
    try discriminate.
  destruct (negb (min x =? INSOLUBLE)).
  - injection H as <- <-. lia.
  - apply IH in H. lia.
Qed.

Lemma complexBackward_rank (c : Z) (sol : list Soluble) :
  forall (sel : list Select) (bag : list Z) (u u' : Z)
         (sel' : list Select) (bag' : list Z),
    within (map maxExtra sel) (map extra sel) ->
    complexBackward c sol u sel bag = Done (true, u', sel', bag') ->
    map maxExtra sel' = map maxExtra sel
    /\ colexRank (map maxExtra sel) (map extra sel)
       < colexRank (map maxExtra sel) (map extra sel').
Proof.
  induction sel as [|s sel IH]; intros bag u u' sel' bag' Hw H.
  - destruct bag; cbn [complexBackward] in H; discriminate.
  - destruct bag as [|b bag]; cbn [complexBackward] in H; [discriminate|].
    simpl map in Hw. inversion Hw as [|? ? ? ? Hx Hw']; subst.
    destruct (maxExtra s <? extra s); [discriminate|].
    destruct (if (0 <? u) && (extra s <? maxExtra s)
              then probeLift (Z.to_nat u) sol c (extra s) (maxExtra s) 1 b
              else Done None) as [[[e c']|]| |] eqn:Hp; cbn [bind] in H;
      try discriminate.
    + injection H as <- <- <-.
      assert (He : 1 <= e /\ extra s + e <= maxExtra s).
      { destruct ((0 <? u) && (extra s <? maxExtra s));
          [|discriminate].
        apply (probeLift_some _ _ _ _ _ _ _ _ _ Hp). }
      split; [reflexivity|]. simpl. lia.
    + destruct (complexBackward c sol
                  (if 0 <? extra s then u + extra s else u) sel bag)
        as [[[[found u2] sel2] bag2]| |] eqn:Hrec; cbn [bind] in H;
        try discriminate.
      injection H as -> <- <- <-.
      destruct (IH _ _ _ _ _ Hw' Hrec) as [I1 I2].
      assert (Hm : maxExtra (if 0 <? extra s then set_extra s 0 else s)
                   = maxExtra s) by (destruct (0 <? extra s); reflexivity).
      split; [simpl; rewrite Hm, I1; reflexivity|].
      simpl.
      assert (He : 0 <= extra (if 0 <? extra s then set_extra s 0 else s)).
      { destruct (0 <? extra s) eqn:E0; simpl; lia. }
      nia.
Qed.

Lemma complexForward_rank (c : Z) (sol : list Soluble) :
  forall (sel : list Select) (bag : list Z) (u : Z) (ok : bool)
         (sel' : list Select) (bag' : list Z),
    within (map maxExtra sel) (map extra sel) ->
    fillsZeros u (map maxExtra sel) (map extra sel) ->
    complexForward c sol u sel bag = Done (ok, sel', bag') ->
    colexRank (map maxExtra sel) (map extra sel)
    <= colexRank (map maxExtra sel) (map extra sel').
Proof.
  induction sel as [|s sel IH]; intros bag u ok sel' bag' Hw Hfz H.
  - cbn [complexForward] in H. destruct (0 <? u); [discriminate|].
    injection H as _ <- _. lia.
  - cbn [complexForward] in H. destruct (0 <? u) eqn:Eu.
    2:{ injection H as _ <- _. lia. }
    apply Z.ltb_lt in Eu.
    destruct bag as [|b bag]; [discriminate|].
    simpl map in Hw, Hfz. inversion Hw as [|? ? ? ? Hx Hw']; subst.
    cbn [fillsZeros] in Hfz. destruct Hfz as [Hfz|[Hx0 Hfz]]; [lia|].
    pose proof (capSpace_pos _ (within_caps_nonneg _ _ Hw')) as Hpos.
    destruct (maxExtra s <=? u) eqn:Et.
    + apply Z.leb_le in Et.
      destruct (complexForward c sol
                  (if 0 <? maxExtra s then u - maxExtra s else u) sel bag)
        as [[[ok2 sel2] bag2]| |] eqn:Hrec; cbn [bind] in H;
        try discriminate.
      injection H as _ <- _.
      assert (Hu1 : (if 0 <? maxExtra s then u - maxExtra s else u)
                    = u - Z.min u (maxExtra s)).
      { destruct (0 <? maxExtra s) eqn:E0; [lia|].
        apply Z.ltb_ge in E0. lia. }
      rewrite Hu1 in Hrec.
      pose proof (IH _ _ _ _ _ Hw' Hfz Hrec) as Hle.
      simpl.
      assert (He : extra s
                   <= extra (if 0 <? maxExtra s
                             then set_extra s (maxExtra s) else s)).
      { destruct (0 <? maxExtra s) eqn:E0; simpl; lia. }
      nia.
    + apply Z.leb_gt in Et.
      destruct (readSol sol (b - u * c)) as [x| |]; cbn [bind] in H;
        try discriminate.
      injection H as _ <- _. simpl. lia.
Qed.

Lemma restoreBase_no_fuel (mcv c : Z) (sel : list Select) (cols : list Z) :
  restoreBase mcv c sel cols <> OutOfFuel.
Proof.
  revert sel. induction cols as [|t cols IH]; intros [|s sel]; simpl;
    try discriminate.
  specialize (IH sel).
  destruct (restoreBase mcv c sel cols); cbn [bind]; try congruence.
  destruct (0 <? base s); [|discriminate].
  destruct (mcv <? t + base s * c); discriminate.
Qed.

Section ComplexTerm.

Variables mcv c : Z.
Variable t2 : list Soluble.
Hypothesis Hc : 0 < c.
Hypothesis Ht2 : length t2 = S (Z.to_nat mcv).

Lemma weakCol_space (sel : list Select) (bag : list Z) :
  Forall2 (weakCol mcv c t2) sel bag ->
  capSpace (map maxExtra sel)
  <= Z.of_nat (searchBound mcv (length sel)).
Proof.
  intros Hw.
  assert (Hcaps : Forall (fun cap => 0 <= cap <= mcv) (map maxExtra sel)).
  { apply Forall_map. clear -Hw Hc.
    induction Hw as [|s b sel bag [H1 [H2 [H3 _]]] _ IH]; constructor;
      [nia | exact IH]. }
  pose proof (capSpace_le _ _ Hcaps) as Hle. rewrite length_map in Hle.
  unfold searchBound. rewrite Z2Nat.id; [exact Hle|].
  assert (1 <= capSpace (map maxExtra sel)).
  { apply capSpace_pos. eapply Forall_impl; [|exact Hcaps].
    simpl. intros; lia. }
  lia.
Qed.

Lemma complexSearch_order (fuel : nat) :
  forall (sel : list Select) (bag : list Z) (u : Z)
         (sel' : list Select) (bag' : list Z),
    Forall2 (weakCol mcv c t2) sel bag ->
    Forall (sol2 t2) bag ->
    0 <= u ->
    fillsZeros u (map maxExtra sel) (map extra sel) ->
    complexSearch fuel c t2 u sel bag = Done (true, sel', bag') ->
    colexRank (map maxExtra sel) (map extra sel)
    <= colexRank (map maxExtra sel) (map extra sel').
Proof.
  induction fuel as [|fuel IH]; intros sel bag u sel' bag' Hw Hg Hu Hfz H;
    [discriminate|].
  cbn [complexSearch] in H.
  pose proof (weakCol_within _ _ _ _ _ Hw) as Hwi.
  destruct (complexForward_ok mcv c t2 Hc Ht2 sel bag Hw Hg u Hu Hfz)
    as [ok [sel1 [bag1 [Hrun [F1 [F2 [F3 [F4 [F5 [F6 F7]]]]]]]]]].
  rewrite Hrun in H. cbn [bind] in H.
  pose proof (complexForward_rank c t2 _ _ _ _ _ _ Hwi Hfz Hrun) as Hr1.
  destruct ok; [injection H as <- _; exact Hr1|].
  destruct (complexBackward_ok mcv c t2 Hc Ht2 sel1 bag1 F1 0
              (Z.le_refl 0))
    as [found [u2 [sel2 [bag2 [Hrun2 [B1 [B2 [B3 [B4 [B5 [B6 [B7
       [B8 B9]]]]]]]]]]]]].
  rewrite Hrun2 in H. cbn [bind] in H. specialize (B9 (F7 eq_refl)).
  destruct found; [|discriminate].
  destruct (complexBackward_rank c t2 _ _ _ _ _ _
              (weakCol_within _ _ _ _ _ F1) Hrun2) as [_ Hr2].
  assert (Hfz2 : fillsZeros u2 (map maxExtra sel2) (map extra sel2))
    by (apply (B8 eq_refl); lia).
  pose proof (IH sel2 bag2 u2 sel' bag' B1 B9 B6 Hfz2 H) as Hr3.
  rewrite B3, F3 in Hr3. rewrite F3 in Hr2. lia.
Qed.

Lemma complexSearch_term (fuel : nat) :
  forall (sel : list Select) (bag : list Z) (u : Z),
    Forall2 (weakCol mcv c t2) sel bag ->
    Forall (sol2 t2) bag ->
    0 <= u ->
    fillsZeros u (map maxExtra sel) (map extra sel) ->
    capSpace (map maxExtra sel) - 1
      - colexRank (map maxExtra sel) (map extra sel) < Z.of_nat fuel ->
    complexSearch fuel c t2 u sel bag <> OutOfFuel.
Proof.
  induction fuel as [|fuel IH]; intros sel bag u Hw Hg Hu Hfz Hm.
  - pose proof (colexRank_bound _ _ (weakCol_within _ _ _ _ _ Hw)). lia.
  - cbn [complexSearch].
    pose proof (weakCol_within _ _ _ _ _ Hw) as Hwi.
    destruct (complexForward_ok mcv c t2 Hc Ht2 sel bag Hw Hg u Hu Hfz)
      as [ok [sel1 [bag1 [Hrun [F1 [F2 [F3 [F4 [F5 [F6 F7]]]]]]]]]].
    rewrite Hrun. cbn [bind].
    pose proof (complexForward_rank c t2 _ _ _ _ _ _ Hwi Hfz Hrun) as Hr1.
    destruct ok; [discriminate|].
    destruct (complexBackward_ok mcv c t2 Hc Ht2 sel1 bag1 F1 0
                (Z.le_refl 0))
      as [found [u2 [sel2 [bag2 [Hrun2 [B1 [B2 [B3 [B4 [B5 [B6 [B7
         [B8 B9]]]]]]]]]]]]].
    rewrite Hrun2. cbn [bind]. specialize (B9 (F7 eq_refl)).
    destruct found; [|discriminate].
    destruct (complexBackward_rank c t2 _ _ _ _ _ _
                (weakCol_within _ _ _ _ _ F1) Hrun2) as [_ Hr2].
    assert (Hfz2 : fillsZeros u2 (map maxExtra sel2) (map extra sel2))
      by (apply (B8 eq_refl); lia).
    apply (IH sel2 bag2 u2 B1 B9 B6 Hfz2).
    rewrite B3, F3. rewrite F3 in Hr2. lia.
Qed.

Lemma multisetComplex_order (fuel : nat) (r : Row) (bag : list Z)
    (r' : Row) (bag' : list Z) :
  coeff r = c ->
  Forall2 (weakCol mcv c t2) (selection r) bag ->
  Forall (sol2 t2) bag ->
  multisetComplex fuel r bag t2 false = Done (true, r', bag') ->
  colexRank (map maxExtra (selection r)) (map extra (selection r))
  < colexRank (map maxExtra (selection r)) (map extra (selection r')).
Proof.
  intros Hrc Hw Hg H. unfold multisetComplex in H. cbn [negb] in H.
  rewrite Hrc in H.
  destruct (0 <? currentSize r); [|discriminate].
  destruct (complexBackward_ok mcv c t2 Hc Ht2 _ _ Hw 0 (Z.le_refl 0))
    as [found [u2 [sel2 [bag2 [Hrun2 [B1 [B2 [B3 [B4 [B5 [B6 [B7
       [B8 B9]]]]]]]]]]]]].
  rewrite Hrun2 in H. cbn [bind] in H.
  destruct found; [|discriminate].
  destruct (complexBackward_rank c t2 _ _ _ _ _ _
              (weakCol_within _ _ _ _ _ Hw) Hrun2) as [_ Hr2].
  assert (Hfz2 : fillsZeros u2 (map maxExtra sel2) (map extra sel2))
    by (apply (B8 eq_refl); lia).
  assert (Hg2 : Forall (sol2 t2) bag2).
  { apply B9. apply stuckOK_good. exact Hg. }
  destruct (complexSearch fuel c t2 u2 sel2 bag2)
    as [[[ok sel3] bag3]| |] eqn:Hs; cbn [bind] in H; try discriminate.
  injection H as -> <- _.
  pose proof (complexSearch_order fuel _ _ _ _ _ B1 Hg2 B6 Hfz2 Hs) as Hr3.
  rewrite B3 in Hr3. cbn [selection set_selection]. lia.
Qed.

Lemma multisetComplex_term (fuel : nat) (r : Row) (bag : list Z)
    (findFirst : bool) :
  coeff r = c ->
  Forall2 (weakCol mcv c t2) (selection r) bag ->
  Forall (sol2 t2) bag ->
  zsum (map extra (selection r)) = (if findFirst then 0 else currentSize r) ->
  (findFirst = true ->
   0 <= currentSize r <= zsum (map maxExtra (selection r))) ->
  capSpace (map maxExtra (selection r)) <= Z.of_nat fuel ->
  multisetComplex fuel r bag t2 findFirst <> OutOfFuel.
Proof.
  intros Hrc Hw Hg Hs Hff Hfuel. unfold multisetComplex. rewrite Hrc.
  pose proof (weakCol_within _ _ _ _ _ Hw) as Hwi.
  pose proof (colexRank_bound _ _ Hwi) as Hrb.
  destruct findFirst; cbn [negb].
  - destruct (Hff eq_refl) as [Hc0 Hc1].
    assert (Hzero : Forall (fun s => extra s = 0) (selection r)).
    { pose proof (zero_sum_zeros _ _ Hwi ltac:(lia)) as Hrep.
      apply Forall_forall. intros s Hin.
      assert (Hin' : In (extra s) (map extra (selection r)))
        by (apply in_map; assumption).
      rewrite Hrep in Hin'. apply repeat_spec in Hin'. assumption. }
    assert (Hfz : fillsZeros (currentSize r) (map maxExtra (selection r))
                    (map extra (selection r))).
    { rewrite (zero_extras_repeat _ Hzero).
      apply fillsZeros_repeat; [|assumption].
      apply (within_caps_nonneg _ _ Hwi). }
    pose proof (complexSearch_term fuel _ _ _ Hw Hg Hc0 Hfz
                  ltac:(lia)) as Hne.
    destruct (complexSearch fuel c t2 (currentSize r) (selection r) bag)
      as [[[ok sel3] bag3]| |]; cbn [bind]; congruence.
  - destruct (0 <? currentSize r); [|discriminate].
    destruct (complexBackward_ok mcv c t2 Hc Ht2 _ _ Hw 0 (Z.le_refl 0))
      as [found [u2 [sel2 [bag2 [Hrun2 [B1 [B2 [B3 [B4 [B5 [B6 [B7
         [B8 B9]]]]]]]]]]]]].
    rewrite Hrun2. cbn [bind].
    destruct found; [|discriminate].
    assert (Hfz2 : fillsZeros u2 (map maxExtra sel2) (map extra sel2))
      by (apply (B8 eq_refl); lia).
    assert (Hg2 : Forall (sol2 t2) bag2).
    { apply B9. apply stuckOK_good. exact Hg. }
    pose proof (colexRank_bound _ _ (weakCol_within _ _ _ _ _ B1)) as Hrb2.
    assert (Hne : complexSearch fuel c t2 u2 sel2 bag2 <> OutOfFuel).
    { apply (complexSearch_term fuel _ _ _ B1 Hg2 B6 Hfz2).
      rewrite B3 in *. lia. }
    destruct (complexSearch fuel c t2 u2 sel2 bag2)
      as [[[ok sel3] bag3]| |]; cbn [bind]; congruence.
Qed.

Lemma sizeLoop_term (fuel : nat) (n : nat) :
  forall (r : Row) (bag : list Z),
    coeff r = c ->
    Forall2 (weakCol mcv c t2) (selection r) bag ->
    Forall (sol2 t2) bag ->
    Forall (fun s => extra s = 0) (selection r) ->
    0 <= currentSize r ->
    currentMaxSize r <= zsum (map maxExtra (selection r)) ->
    capSpace (map maxExtra (selection r)) <= Z.of_nat fuel ->
    (sizesLeft r <= n)%nat ->
    sizeLoop n fuel r t2 bag <> OutOfFuel.
Proof.
  induction n as [|n IH]; intros r bag Hrc Hw Hg Hz Hcs Hcm Hfuel Hn;
    cbn [sizeLoop].
  - destruct (currentSize r <=? currentMaxSize r) eqn:E; [|discriminate].
    apply Z.leb_le in E. unfold sizesLeft in Hn. lia.
  - destruct (currentSize r <=? currentMaxSize r) eqn:E; [|discriminate].
    apply Z.leb_le in E.
    assert (Hs0 : zsum (map extra (selection r)) = 0).
    { rewrite (zero_extras_repeat _ Hz). apply zsum_repeat_zero. }
    assert (Hff : true = true ->
                  0 <= currentSize r
                  <= zsum (map maxExtra (selection r)))
      by (intros _; lia).
    pose proof (multisetComplex_term fuel r bag true Hrc Hw Hg Hs0 Hff
                  Hfuel) as Hne.
    destruct (multisetComplex_ok mcv c t2 Hc Ht2 fuel r bag true
                Hrc Hw Hg Hs0 Hff)
      as [Hout | [ok [sel' [bag' [Hrun [M1 [M2 [M3 [M4 [M5 [M6 M7]]]]]]]]]]];
      [contradiction|].
    rewrite Hrun. cbn [bind]. destruct ok; [discriminate|].
    apply IH.
    + exact Hrc.
    + exact M1.
    + exact M5.
    + apply M7. reflexivity.
    + cbn [currentSize set_currentSize set_sizes set_selection]. lia.
    + cbn [currentMaxSize set_currentSize set_sizes selection
           set_selection]. rewrite M3. exact Hcm.
    + cbn [selection set_currentSize set_sizes set_selection].
      rewrite M3. exact Hfuel.
    + unfold sizesLeft in *.
      cbn [currentSize currentMaxSize set_currentSize set_sizes
           set_selection]. lia.
Qed.

Lemma trySizes_term (fuel : nat) (d : DiophantineSystem) (k : nat)
    (r : Row) (bag : list Z) :
  coeff r = c ->
  Forall2 (weakCol mcv c t2) (selection r) bag ->
  Forall (sol2 t2) bag ->
  Forall (fun s => extra s = 0) (selection r) ->
  0 <= currentSize r ->
  currentMaxSize r <= zsum (map maxExtra (selection r)) ->
  capSpace (map maxExtra (selection r)) <= Z.of_nat fuel ->
  trySizes fuel d k r t2 bag <> OutOfFuel.
Proof.
  intros Hrc Hw Hg Hz Hcs Hcm Hfuel. unfold trySizes.
  pose proof (sizeLoop_term fuel (sizesLeft r) r bag Hrc Hw Hg Hz Hcs Hcm
                Hfuel (Nat.le_refl _)) as Hne.
  destruct (sizeLoop (sizesLeft r) fuel r t2 bag)
    as [[[ok r1] bag1]| |]; cbn [bind]; try congruence.
  destruct ok; [discriminate|].
  pose proof (restoreBase_no_fuel (maxColumnValue d) (coeff r1)
                (selection r1) bag1) as Hrb.
  destruct (restoreBase (maxColumnValue d) (coeff r1) (selection r1) bag1);
    cbn [bind]; congruence.
Qed.

End ComplexTerm.

Section ComplexRowTerm.

Variable mcv : Z.
Variable R : Row.
Variable t2 : list Soluble.
Variable P : Z -> Prop.
Hypothesis Hmcv : 0 <= mcv.
Hypothesis HcR : 0 < coeff R.
Hypothesis Htk : tableOK P mcv (coeff R) (maxSize R) (soluble R).
Hypothesis Hdec : forall w, 0 <= w <= mcv -> (P w <-> sol2 t2 w).
Hypothesis HP : forall w, P w -> 0 <= w.
Hypothesis Ht2 : length t2 = S (Z.to_nat mcv).

Lemma solveRowComplex_first_term (fuel : nat) (d : DiophantineSystem)
    (k : nat) (r rn : Row) :
  nth_error (rows d) k = Some r ->
  nth_error (rows d) (S k) = Some rn ->
  soluble rn = t2 ->
  maxColumnValue d = mcv ->
  rowFixed R r ->
  length (selection r) = length (columns d) ->
  Forall (sol2 (soluble R)) (columns d) ->
  (searchBound mcv (length (columns d)) <= fuel)%nat ->
  solveRowComplex fuel d k true <> OutOfFuel.
Proof.
  intros Hn Hn2 Hrn Hm Hfix Hl Hcols Hfuel. unfold solveRowComplex.
  rewrite (getAt_nth _ _ _ Hn), (getAt_nth _ _ _ Hn2). cbn [bind].
  rewrite Hrn.
  pose proof Hfix as [_ [Hrc [Hmin [Hmax [_ [_ [HminL [HmaxL Hsol]]]]]]]].
  destruct (negb (viable d k)); [discriminate|].
  rewrite Hsol, (initComplex_ok mcv R t2 P Hmcv HcR Htk Hdec HP Ht2)
    by assumption.
  cbn [bind].
  set (sel0 := initSelC (soluble R) (columns d)).
  set (T := zsum (columns d)).
  set (minSum := baseSum sel0).
  set (mn := Z.max (Z.max minSum (minSize r))
               (ceilingDivision (T - maxLeave r) (coeff r))).
  set (mx := Z.min (Z.min (minSum + zsum (map maxExtra sel0)) (maxSize r))
               (floorDivision (T - minLeave r) (coeff r))).
  destruct (firstCols mcv R t2 P Hmcv HcR Htk Hdec HP Ht2 (columns d) Hcols)
    as [F1 [F2 [F3 [F4 [F5 [F6 F7]]]]]]. fold sel0 in F1, F2, F3, F5, F6, F7.
  destruct (mx <? mn) eqn:E; [discriminate|].
  apply Z.ltb_ge in E.
  rewrite Hrc. rewrite applyBase_ok; [|lia | assumption | assumption].
  cbn [bind].
  assert (Hmn2 : minSum <= mn /\ minSize r <= mn) by (unfold mn; lia).
  assert (Hmx2 : mx <= minSum + zsum (map maxExtra sel0)
                 /\ mx <= maxSize r) by (unfold mx; lia).
  apply (trySizes_term mcv (coeff R) t2 HcR Ht2).
  - exact Hrc.
  - exact F1.
  - exact F2.
  - exact F6.
  - cbn [currentSize set_sizes]. lia.
  - cbn [currentMaxSize set_sizes selection set_selection]. lia.
  - cbn [selection set_sizes set_selection].
    pose proof (weakCol_space mcv (coeff R) t2 HcR Ht2 _ _ F1) as Hsp.
    rewrite F7 in Hsp. lia.
Qed.

Lemma solveRowComplex_next_term (fuel : nat) (d : DiophantineSystem)
    (k : nat) (r rn : Row) (V : list Z) :
  nth_error (rows d) k = Some r ->
  nth_error (rows d) (S k) = Some rn ->
  soluble rn = t2 ->
  maxColumnValue d = mcv ->
  activeComplex mcv t2 R r V (columns d) ->
  (searchBound mcv (length (columns d)) <= fuel)%nat ->
  solveRowComplex fuel d k false <> OutOfFuel.
Proof.
  intros Hn Hn2 Hrn Hm
         [Hfix [Hw [Hg [Hs [He [Hb [HVm [Hcm [W0 [W1 [W2 [W3 W4]]]]]]]]]]]]
         Hfuel.
  unfold solveRowComplex.
  rewrite (getAt_nth _ _ _ Hn), (getAt_nth _ _ _ Hn2). cbn [bind].
  rewrite Hrn.
  pose proof Hfix as [_ [Hrc _]].
  pose proof (Forall2_length Hw) as Hl.
  assert (Hff : false = true ->
                0 <= currentSize r <= zsum (map maxExtra (selection r)))
    by discriminate.
  assert (Hsp : capSpace (map maxExtra (selection r)) <= Z.of_nat fuel).
  { pose proof (weakCol_space mcv (coeff R) t2 HcR Ht2 _ _ Hw) as Hsp.
    rewrite Hl in Hsp. lia. }
  pose proof (multisetComplex_term mcv (coeff R) t2 HcR Ht2 fuel r
                (columns d) false Hrc Hw Hg Hs Hff Hsp) as Hne.
  destruct (multisetComplex_ok mcv (coeff R) t2 HcR Ht2 fuel r (columns d)
              false Hrc Hw Hg Hs Hff)
    as [Hout | [ok [sel' [bag' [Hrun [M1 [M2 [M3 [M4 [M5 [M6 M7]]]]]]]]]]];
    [contradiction|].
  rewrite Hrun. cbn [bind]. destruct ok; [discriminate|].
  pose proof (within_sum _ _ (weakCol_within _ _ _ _ _ Hw)) as Hsum.
  apply (trySizes_term mcv (coeff R) t2 HcR Ht2).
  - exact Hrc.
  - exact M1.
  - exact M5.
  - apply M7. reflexivity.
  - cbn. lia.
  - cbn [currentMaxSize set_currentSize set_sizes selection
         set_selection]. rewrite M3. exact Hcm.
  - cbn [selection set_currentSize set_sizes set_selection].
    rewrite M3. exact Hsp.
Qed.

Lemma solveRowComplex_next_rank (fuel : nat) (d d' : DiophantineSystem)
    (k : nat) (r rn : Row) (V : list Z) :
  nth_error (rows d) k = Some r ->
  nth_error (rows d) (S k) = Some rn ->
  soluble rn = t2 ->
  activeComplex mcv t2 R r V (columns d) ->
  solveRowComplex fuel d k false = Done (true, d') ->
  exists r',
    nth_error (rows d') k = Some r'
    /\ 0 <= complexRank r' /\ rowAdv r r'.
Proof.
  intros Hn Hn2 Hrn
         [Hfix [Hw [Hg [Hs [He [Hb [HVm [Hcm [W0 [W1 [W2 [W3 W4]]]]]]]]]]]].
  unfold solveRowComplex.
  rewrite (getAt_nth _ _ _ Hn), (getAt_nth _ _ _ Hn2). cbn [bind].
  rewrite Hrn.
  pose proof Hfix as [_ [Hrc _]].
  assert (Hff : false = true ->
                0 <= currentSize r <= zsum (map maxExtra (selection r)))
    by discriminate.
  pose proof (weakCol_within _ _ _ _ _ Hw) as Hwi.
  pose proof (colexRank_bound _ _ Hwi) as Hrb.
  pose proof (capSpace_pos _ (within_caps_nonneg _ _ Hwi)) as Hpos.
  assert (Hput : forall r' cols,
            nth_error (rows (putRow d k r' cols)) k = Some r').
  { intros r' cols. rewrite putRow_rows. apply nth_error_upd_eq.
    apply (nth_error_lt _ _ _ Hn). }
  destruct (multisetComplex_ok mcv (coeff R) t2 HcR Ht2 fuel r (columns d)
              false Hrc Hw Hg Hs Hff)
    as [Hout | [ok [sel' [bag' [Hrun [M1 [M2 [M3 [M4 [M5 [M6 M7]]]]]]]]]]].
  { rewrite Hout. discriminate. }
  rewrite Hrun. cbn [bind].
  destruct ok.
  - intros H. injection H as <-.
    exists (set_selection r sel'). split; [apply Hput|].
    pose proof (multisetComplex_order mcv (coeff R) t2 HcR Ht2 fuel r
                  (columns d) _ _ Hrc Hw Hg Hrun) as Hlt.
    cbn [selection set_selection] in Hlt.
    pose proof (colexRank_bound _ _ (weakCol_within _ _ _ _ _ M1)) as Hrb'.
    unfold rowAdv, complexRank. cbn [selection set_selection].
    change (currentSize (set_selection r sel')) with (currentSize r).
    change (currentMaxSize (set_selection r sel'))
      with (currentMaxSize r).
    rewrite (M6 eq_refl). rewrite M3 in *.
    repeat split; try reflexivity; try assumption; nia.
  - set (r1 := set_currentSize (set_selection r sel')
                 (currentSize (set_selection r sel') + 1)).
    pose proof (within_sum _ _ Hwi) as Hsum.
    unfold trySizes.
    assert (Q2 : 0 <= currentSize r1) by (unfold r1; cbn; lia).
    assert (Q3 : currentMaxSize r1 <= zsum (map maxExtra (selection r1))).
    { unfold r1. cbn [currentMaxSize set_currentSize set_sizes selection
                      set_selection]. rewrite M3. exact Hcm. }
    assert (Hrc1 : coeff r1 = coeff R) by exact Hrc.
    destruct (sizeLoop_ok mcv (coeff R) t2 HcR Ht2 fuel (sizesLeft r1) r1
                bag' Hrc1 M1 M5 (M7 eq_refl) Q2 Q3)
      as [Hout | [ok [r2 [bag2 [Hrun2 [L1 [L2 [L3 [L4 [L5 [L6 [L7 [L8 L9]
         ]]]]]]]]]]]].
    { rewrite Hout. discriminate. }
    rewrite Hrun2. cbn [bind]. destruct ok.
    + intros H. injection H as <-.
      exists r2. split; [apply Hput|].
      destruct (L8 eq_refl) as [A0 [A1 A2]].
      pose proof (colexRank_bound _ _ (weakCol_within _ _ _ _ _ L3))
        as Hrb2.
      unfold rowAdv, complexRank. rewrite L2, L4, L5.
      unfold r1 in *.
      cbn [currentSize currentMaxSize set_currentSize set_sizes selection
           set_selection] in *.
      rewrite L5 in Hrb2.
      cbn [currentSize currentMaxSize set_currentSize set_sizes selection
           set_selection] in Hrb2.
      rewrite M3 in *.
      repeat split; try assumption; nia.
    + destruct (restoreBase _ _ _ _); cbn [bind]; discriminate.
Qed.

End ComplexRowTerm.

(* ----------------------------------------------------------------- *)
(** ** A larger bound changes no result *)

Lemma complexSearch_mono (fuel : nat) :
  forall (fuel' : nat) (c : Z) (sol : list Soluble) (u : Z)
         (sel : list Select) (bag : list Z)
         (x : bool * list Select * list Z),
    (fuel <= fuel')%nat ->
    complexSearch fuel c sol u sel bag = Done x ->
    complexSearch fuel' c sol u sel bag = Done x.
Proof.
  induction fuel as [|fuel IH]; intros fuel' c sol u sel bag x Hle H;
    [discriminate|].
  destruct fuel' as [|fuel']; [lia|]. cbn [complexSearch] in *.
  destruct (complexForward c sol u sel bag) as [[[ok s1] b1]| |];
    cbn [bind] in *; try discriminate.
  destruct ok; [exact H|].
  destruct (complexBackward c sol 0 s1 b1) as [[[[f u2] s2] b2]| |];
    cbn [bind] in *; try discriminate.
  destruct f; [|exact H]. apply (IH fuel'); [lia | exact H].
Qed.

Lemma multisetComplex_mono (fuel fuel' : nat) (r : Row) (bag : list Z)
    (sol : list Soluble) (ff : bool) (x : bool * Row * list Z) :
  (fuel <= fuel')%nat ->
  multisetComplex fuel r bag sol ff = Done x ->
  multisetComplex fuel' r bag sol ff = Done x.
Proof.
  intros Hle. unfold multisetComplex. destruct (negb ff).
  - destruct (0 <? currentSize r); [|auto].
    destruct (complexBackward (coeff r) sol 0 (selection r) bag)
      as [[[[f u2] s2] b2]| |]; cbn [bind]; try discriminate.
    destruct f; [|auto].
    destruct (complexSearch fuel (coeff r) sol u2 s2 b2) as [y| |] eqn:E;
      cbn [bind]; try discriminate.
    rewrite (complexSearch_mono _ _ _ _ _ _ _ _ Hle E). auto.
  - destruct (complexSearch fuel (coeff r) sol (currentSize r)
                (selection r) bag) as [y| |] eqn:E;
      cbn [bind]; try discriminate.
    rewrite (complexSearch_mono _ _ _ _ _ _ _ _ Hle E). auto.
Qed.

Lemma sizeLoop_mono (n : nat) :
  forall (fuel fuel' : nat) (r : Row) (sol : list Soluble) (bag : list Z)
         (x : bool * Row * list Z),
    (fuel <= fuel')%nat ->
    sizeLoop n fuel r sol bag = Done x ->
    sizeLoop n fuel' r sol bag = Done x.
Proof.
  induction n as [|n IH]; intros fuel fuel' r sol bag x Hle;
    cbn [sizeLoop]; destruct (currentSize r <=? currentMaxSize r);
    try discriminate; auto.
  destruct (multisetComplex fuel r bag sol true) as [[[ok r1] b1]| |] eqn:E;
    cbn [bind]; try discriminate.
  rewrite (multisetComplex_mono _ _ _ _ _ _ _ Hle E). cbn [bind].
  destruct ok; [auto|]. apply IH. exact Hle.
Qed.

Lemma trySizes_mono (fuel fuel' : nat) (d : DiophantineSystem) (k : nat)
    (r : Row) (sol : list Soluble) (bag : list Z)
    (x : bool * DiophantineSystem) :
  (fuel <= fuel')%nat ->
  trySizes fuel d k r sol bag = Done x ->
  trySizes fuel' d k r sol bag = Done x.
Proof.
  intros Hle. unfold trySizes.
  destruct (sizeLoop (sizesLeft r) fuel r sol bag)
    as [[[ok r1] b1]| |] eqn:E; cbn [bind]; try discriminate.
  rewrite (sizeLoop_mono _ _ _ _ _ _ _ Hle E). auto.
Qed.

Lemma solveRowComplex_mono (fuel fuel' : nat) (d : DiophantineSystem)
    (k : nat) (ff : bool) (x : bool * DiophantineSystem) :
  (fuel <= fuel')%nat ->
  solveRowComplex fuel d k ff = Done x ->
  solveRowComplex fuel' d k ff = Done x.
Proof.
  intros Hle. unfold solveRowComplex.
  destruct (getAt (rows d) k) as [r| |]; cbn [bind]; try discriminate.
  destruct (getAt (rows d) (S k)) as [rn| |]; cbn [bind];
    try discriminate.
  destruct ff.
  - destruct (negb (viable d k)); [auto|].
    destruct (initComplex (soluble r) (selection r) (columns d))
      as [[[[sel ct] ms] mx]| |]; cbn [bind]; try discriminate.
    match goal with |- context [if ?c then _ else _] => destruct c end;
      [auto|].
    destruct (applyBase (coeff r) sel (columns d)) as [cols1| |];
      cbn [bind]; try discriminate.
    apply trySizes_mono. exact Hle.
  - destruct (multisetComplex fuel r (columns d) (soluble rn) false)
      as [[[ok r1] b1]| |] eqn:E; cbn [bind]; try discriminate.
    rewrite (multisetComplex_mono _ _ _ _ _ _ _ Hle E). cbn [bind].
    destruct ok; [auto|]. apply trySizes_mono. exact Hle.
Qed.

Section DriverAgree.

Variables solveRow solveRow' :
  DiophantineSystem -> nat -> bool -> Outcome (bool * DiophantineSystem).
Variable n : nat.
Variable Inv : nat -> DiophantineSystem -> Prop.

Hypothesis step_inv :
  forall (k : nat) (ff : bool) (d : DiophantineSystem),
    (S k < n)%nat -> Inv (if ff then k else S k) d ->
    exists (found : bool) (d1 : DiophantineSystem),
      solveRow d k ff = Done (found, d1)
      /\ Inv (if found then S k else k) d1.

Hypothesis agree :
  forall (k : nat) (ff : bool) (d : DiophantineSystem)
         (x : bool * DiophantineSystem),
    solveRow d k ff = Done x -> solveRow' d k ff = Done x.

Lemma driverLoop_agree (fuel : nat) :
  forall (k : nat) (ff : bool) (d : DiophantineSystem),
    (S k < n)%nat -> Inv (if ff then k else S k) d ->
    driverLoop solveRow' fuel (n - 2) k ff d
    = driverLoop solveRow fuel (n - 2) k ff d.
Proof.
  induction fuel as [|fuel IH]; intros k ff d Hk Hinv; [reflexivity|].
  destruct (step_inv k ff d Hk Hinv) as [found [d1 [Hs Hinv1]]].
  cbn [driverLoop]. rewrite (agree _ _ _ _ Hs), Hs. cbn [bind].
  destruct found.
  - destruct (k =? n - 2)%nat eqn:E; [reflexivity|].
    apply Nat.eqb_neq in E. apply IH; [lia | exact Hinv1].
  - destruct (k =? 0)%nat eqn:E; [reflexivity|].
    apply Nat.eqb_neq in E. apply IH; [lia|].
    replace (S (pred k)) with k by lia. exact Hinv1.
Qed.

End DriverAgree.

(* ----------------------------------------------------------------- *)
(** ** The complex case comes to an end *)

Lemma complex_step_ok (Rs : list Row) (m : nat) (perm : list nat)
    (mcv : Z) (V0 : list Z) (K : nat) (k : nat) (ff : bool)
    (d : DiophantineSystem) :
  staticRows Rs -> tablesOK mcv Rs -> 0 <= mcv ->
  (searchBound mcv m <= K)%nat ->
  (S k < length Rs)%nat ->
  driverInv (activeComplexAt Rs m mcv) (idleComplex Rs m)
    (entryComplex Rs m) (sysIs true perm mcv) (length Rs) V0
    (if ff then k else S k) d ->
  exists (found : bool) (d1 : DiophantineSystem),
    solveRowComplex K d k ff = Done (found, d1)
    /\ driverInv (activeComplexAt Rs m mcv) (idleComplex Rs m)
         (entryComplex Rs m) (sysIs true perm mcv) (length Rs) V0
         (if found then S k else k) d1
    /\ (forall j, j <> k -> nth_error (rows d1) j = nth_error (rows d) j)
    /\ (ff = false -> found = true ->
        (Z.to_nat (complexRank (nth k (rows d1) emptyRow))
         < Z.to_nat (complexRank (nth k (rows d) emptyRow)))%nat).
Proof.
  intros Hst Htab Hmcv HK Hk Hinv.
  destruct (complex_steps Rs m perm mcv K Hst Htab Hmcv) as [H1 H2].
  assert (Hstep :
    solveRowComplex K d k ff <> Abort
    /\ forall found d1,
         solveRowComplex K d k ff = Done (found, d1) ->
         driverInv (activeComplexAt Rs m mcv) (idleComplex Rs m)
           (entryComplex Rs m) (sysIs true perm mcv) (length Rs) V0
           (if found then S k else k) d1).
  { apply (driver_step (solveRowComplex K) (length Rs)
             (activeComplexAt Rs m mcv) (idleComplex Rs m)
             (entryComplex Rs m) (sysIs true perm mcv) V0);
      try assumption.
    - intros d0 k0 r cols H. exact H.
    - intros d0 k0 r rn b d' Hk0 Hsys Hn1 Hn2 Hi Hi2 He Hs.
      destruct (H1 d0 k0 r rn Hk0 Hsys Hn1 Hn2 Hi Hi2 He)
        as [Hout | [b1 [r' [bag' [Hrun Hres]]]]]; [congruence|].
      rewrite Hrun in Hs. injection Hs as <- <-. eauto.
    - intros d0 k0 r rn V b d' Hk0 Hsys Hn1 Hn2 Ha Hi2 He Hs.
      destruct (H2 d0 k0 r rn V Hk0 Hsys Hn1 Hn2 Ha Hi2 He)
        as [Hout | [b1 [r' [bag' [Hrun Hres]]]]]; [congruence|].
      rewrite Hrun in Hs. injection Hs as <- <-. eauto.
    - intros k0 r V bag Hk0 _ Hact.
      apply (complex_active_entry Rs m mcv k0 r V bag Hst);
        [lia | exact Hact].
    - intros d0 k0 r rn Hk0 Hsys Hn1 Hn2 Hi Hi2 He.
      destruct (H1 d0 k0 r rn Hk0 Hsys Hn1 Hn2 Hi Hi2 He)
        as [Hout | [b1 [r' [bag' [Hrun Hres]]]]]; congruence.
    - intros d0 k0 r rn V Hk0 Hsys Hn1 Hn2 Ha Hi2 He.
      destruct (H2 d0 k0 r rn V Hk0 Hsys Hn1 Hn2 Ha Hi2 He)
        as [Hout | [b1 [r' [bag' [Hrun Hres]]]]]; congruence. }
  destruct Hstep as [_ Hnext].
  assert (Hpos : Forall (fun r => 0 < coeff r) Rs).
  { apply Forall_forall. intros R HR. apply In_nth_error in HR.
    destruct HR as [j Hj]. destruct (Hst j R Hj) as [H _]. exact H. }
  destruct (nth_error Rs k) as [R|] eqn:HR1;
    [|apply nth_error_None in HR1; lia].
  destruct (nth_error Rs (S k)) as [Rn|] eqn:HR2;
    [|apply nth_error_None in HR2; lia].
  pose proof (nth_error_nth _ _ emptyRow HR1) as HR3.
  pose proof (nth_error_nth _ _ emptyRow HR2) as HR4.
  destruct (row_tables _ _ _ _ _ Htab Hpos HR1 HR2) as [T1 [T2 [T3 T4]]].
  destruct (Hst k R HR1) as [HcR _].
  pose proof Hinv as [Hlen [Hsys [Hact [Hidle Hent]]]].
  pose proof Hsys as [_ [_ [_ [_ Hm]]]].
  destruct (nth_error (rows d) (S k)) as [rn|] eqn:Hn2;
    [|apply nth_error_None in Hn2; lia].
  assert (Hik2 : idleComplex Rs m (S k) rn).
  { apply (Hidle (S k) rn); [destruct ff; lia | exact Hn2]. }
  assert (Hsol : soluble rn = soluble Rn).
  { destruct Hik2 as [J1 _]. rewrite HR4 in J1.
    destruct J1 as [_ [_ [_ [_ [_ [_ [_ [_ H]]]]]]]]. exact H. }
  assert (Hput : forall r' cols j, j <> k ->
            nth_error (rows (putRow d k r' cols)) j = nth_error (rows d) j).
  { intros r' cols j Hj. rewrite putRow_rows.
    apply nth_error_upd_neq. congruence. }
  destruct ff.
  - destruct (nth_error (rows d) k) as [r|] eqn:Hn1;
      [|apply nth_error_None in Hn1; lia].
    assert (Hik : idleComplex Rs m k r)
      by (apply (Hidle k r); [lia | exact Hn1]).
    destruct Hent as [E1 [E2 E3]]. destruct Hik as [I1 [I2 I3]].
    rewrite HR3 in I1, E2.
    assert (Hll : length (selection r) = length (columns d)) by lia.
    pose proof (solveRowComplex_first_term mcv R (soluble Rn) _ Hmcv HcR
                  T1 T2 T3 T4 K d k r rn Hn1 Hn2 Hsol Hm I1 Hll E2
                  ltac:(rewrite E1; exact HK)) as Hne.
    destruct (H1 d k r rn Hk Hsys Hn1 Hn2
                ltac:(split; [rewrite HR3; exact I1 | split; assumption])
                Hik2
                ltac:(split; [exact E1 | split;
                              [rewrite HR3; exact E2 | exact E3]]))
      as [Hout | [b1 [r' [bag' [Hrun _]]]]]; [contradiction|].
    exists b1, (putRow d k r' bag'). split; [exact Hrun|].
    split; [apply Hnext; exact Hrun|].
    split; [apply Hput | discriminate].
  - cbn [activeUpTo] in Hact.
    destruct Hact as [V [r [Hn1 [_ [HentV Hactive]]]]].
    pose proof Hactive as [Ha HlV]. rewrite HR3, HR4 in Ha.
    destruct Hent as [E1 _].
    pose proof (solveRowComplex_next_term mcv R (soluble Rn) HcR T4 K d
                  k r rn V Hn1 Hn2 Hsol Hm Ha
                  ltac:(rewrite E1; exact HK)) as Hne.
    destruct (H2 d k r rn V Hk Hsys Hn1 Hn2 Hactive Hik2 HentV)
      as [Hout | [b1 [r' [bag' [Hrun _]]]]]; [contradiction|].
    exists b1, (putRow d k r' bag'). split; [exact Hrun|].
    split; [apply Hnext; exact Hrun|].
    split; [apply Hput|].
    intros _ ->.
    destruct (solveRowComplex_next_rank mcv R (soluble Rn) HcR T4 K d _
                k r rn V Hn1 Hn2 Hsol Ha Hrun)
      as [r2 [Hr2 [Hr0 [_ [_ [_ [_ [_ Hlt]]]]]]]].
    rewrite (nth_error_nth _ _ emptyRow Hn1),
      (nth_error_nth _ _ emptyRow Hr2). lia.
Qed.

Lemma solveComplex_terminates (Rs : list Row) (perm : list nat) (mcv : Z)
    (V0 : list Z) (d : DiophantineSystem) (ff : bool) :
  prepared true Rs mcv ->
  searchInv true Rs perm mcv V0 (if ff then O else (length Rs - 1)%nat) d ->
  exists N, forall fuel,
    exists b d', solveComplex (N + fuel) d ff = Done (b, d').
Proof.
  intros Hp Hinv. pose proof Hp as [Hst [Hn [Hmcv Htab]]].
  pose proof Hinv as Hinv0. unfold searchInv in Hinv.
  assert (Hlen : length (rows d) = length Rs) by (destruct Hinv; assumption).
  assert (Hfin : forall fuel, solveComplex fuel d ff <> Abort)
    by (intros fuel; apply (solveComplex_safe Rs perm mcv V0 fuel d ff Hp
                              Hinv0)).
  set (K := searchBound mcv (length V0)).
  set (Inv := driverInv (activeComplexAt Rs (length V0) mcv)
                (idleComplex Rs (length V0)) (entryComplex Rs (length V0))
                (sysIs true perm mcv) (length Rs) V0).
  pose proof (fun k ff d Hk H =>
                complex_step_ok Rs (length V0) perm mcv V0 K k ff d Hst
                  Htab Hmcv (Nat.le_refl _) Hk H) as Hstep.
  assert (Hloop : exists N, forall fuel,
            exists res,
              (if (1 <? length Rs)%nat
               then driverLoop (solveRowComplex (N + fuel)) (N + fuel)
                      (length Rs - 2)
                      (if ff then O else (length Rs - 2)%nat) ff d
               else Done (ff, d)) = Done res).
  { destruct (1 <? length Rs)%nat eqn:En; [|exists O; eauto].
    apply Nat.ltb_lt in En.
    set (k0 := if ff then O else (length Rs - 2)%nat).
    assert (Hk0 : (S k0 < length Rs)%nat) by (unfold k0; destruct ff; lia).
    assert (Hinv1 : Inv (if ff then k0 else S k0) d).
    { unfold k0. destruct ff; [exact Hinv|].
      replace (S (length Rs - 2)) with (length Rs - 1)%nat by lia.
      exact Hinv. }
    assert (Hrun : exists N0, forall fuel,
              exists res,
                driverLoop (solveRowComplex K) (N0 + fuel) (length Rs - 2)
                  k0 ff d = Done res).
    { unfold k0 in *. destruct ff.
      - apply (ascent (solveRowComplex K) (length Rs) Inv
                 (fun r => Z.to_nat (complexRank r)) Hstep d En Hinv1).
      - apply (descent (solveRowComplex K) (length Rs) Inv
                 (fun r => Z.to_nat (complexRank r)) Hstep
                 (length Rs - 2) ltac:(lia) d Hinv1). }
    destruct Hrun as [N0 Hrun]. exists (N0 + K)%nat. intros fuel.
    rewrite (driverLoop_agree (solveRowComplex K)
               (solveRowComplex (N0 + K + fuel)) (length Rs) Inv).
    - replace (N0 + K + fuel)%nat with (N0 + (K + fuel))%nat by lia.
      apply Hrun.
    - intros k1 ff1 d1 Hk1 Hi1.
      destruct (Hstep k1 ff1 d1 Hk1 Hi1) as [found [d2 [Hs [Hi2 _]]]].
      exists found, d2. split; assumption.
    - intros k1 ff1 d1 x Hs.
      apply (solveRowComplex_mono K); [lia | exact Hs].
    - exact Hk0.
    - exact Hinv1. }
  destruct Hloop as [N Hloop]. exists N. intros fuel.
  specialize (Hfin (N + fuel)%nat). unfold solveComplex in *.
  rewrite Hlen in *. destruct (Hloop fuel) as [[found d1] Hres].
  rewrite Hres in *. cbn [bind] in *. destruct found; [|eauto].
  pose proof (solveLastRowComplex_no_fuel d1) as Hl.
  destruct (solveLastRowComplex d1) as [d2| |]; cbn [bind] in *;
    [eauto | congruence | congruence].
Qed.



(* ----------------------------------------------------------------- *)
(** ** Every call of [solve] moves the search ahead *)

Lemma nth_error_eq_nth {A : Type} (l l' : list A) (j : nat) (x : A) :
  nth_error l j = nth_error l' j -> nth j l x = nth j l' x.
Proof.
  intros H. destruct (nth_error l j) as [a|] eqn:E.
  - rewrite (nth_error_nth _ _ x E).
    rewrite (nth_error_nth _ _ x (eq_sym H)). reflexivity.
  - symmetry in H. apply nth_error_None in E. apply nth_error_None in H.
    rewrite !nth_overflow by assumption. reflexivity.
Qed.

Lemma rowAdv_trans (a b c : Row) : rowAdv a b -> rowAdv b c -> rowAdv a c.
Proof.
  intros [A1 [A2 [A3 [A4 [A5 A6]]]]] [B1 [B2 [B3 [B4 [B5 B6]]]]].
  unfold rowAdv. repeat split; try congruence. lia.
Qed.

Lemma advanced_trans (n : nat) (d d' d'' : DiophantineSystem) :
  advanced n d d' -> advanced n d' d'' -> advanced n d d''.
Proof.
  intros [k1 [Hk1 [Hs1 Ha1]]] [k2 [Hk2 [Hs2 Ha2]]].
  destruct (lt_eq_lt_dec k1 k2) as [[Hlt | ->] | Hgt].
  - exists k1. split; [exact Hk1|]. split.
    + intros j Hj. rewrite (Hs2 j) by lia. apply Hs1. exact Hj.
    + rewrite (nth_error_eq_nth _ _ k1 emptyRow (Hs2 k1 Hlt)). exact Ha1.
  - exists k2. split; [exact Hk2|]. split.
    + intros j Hj. rewrite (Hs2 j Hj). apply Hs1. exact Hj.
    + apply (rowAdv_trans _ _ _ Ha1 Ha2).
  - exists k2. split; [exact Hk2|]. split.
    + intros j Hj. rewrite (Hs2 j Hj). apply Hs1. lia.
    + rewrite <- (nth_error_eq_nth _ _ k2 emptyRow (Hs1 k2 Hgt)).
      exact Ha2.
Qed.

Section DriverAdvance.

Variable solveRow :
  DiophantineSystem -> nat -> bool -> Outcome (bool * DiophantineSystem).
Variable n : nat.
Variable Inv : nat -> DiophantineSystem -> Prop.
Variable adv : Row -> Row -> Prop.

Hypothesis adv_trans : forall a b c, adv a b -> adv b c -> adv a c.

(** A call of the row solver keeps the invariant, touches no other row,
    and a successful advance moves its row ahead. *)
Hypothesis step_adv :
  forall (k : nat) (ff : bool) (d : DiophantineSystem) (found : bool)
         (d1 : DiophantineSystem),
    (S k < n)%nat -> Inv (if ff then k else S k) d ->
    solveRow d k ff = Done (found, d1) ->
    Inv (if found then S k else k) d1
    /\ (forall j, j <> k -> nth_error (rows d1) j = nth_error (rows d) j)
    /\ (ff = false -> found = true ->
        adv (nth k (rows d) emptyRow) (nth k (rows d1) emptyRow)).

Lemma driver_advance (fuel : nat) :
  forall (k : nat) (ff : bool) (d d' : DiophantineSystem),
    (S k < n)%nat -> Inv (if ff then k else S k) d ->
    driverLoop solveRow fuel (n - 2) k ff d = Done (true, d') ->
    (ff = true
     /\ forall j, (j < k)%nat ->
          nth_error (rows d') j = nth_error (rows d) j)
    \/ exists k',
         (k' < (if ff then k else S k))%nat
         /\ (forall j, (j < k')%nat ->
               nth_error (rows d') j = nth_error (rows d) j)
         /\ adv (nth k' (rows d) emptyRow) (nth k' (rows d') emptyRow).
Proof.
  induction fuel as [|fuel IH]; intros k ff d d' Hk Hinv H;
    [discriminate|].
  cbn [driverLoop] in H.
  destruct (solveRow d k ff) as [[found d1]| |] eqn:Hs; try discriminate.
  cbn [bind] in H.
  destruct (step_adv k ff d found d1 Hk Hinv Hs) as [Hinv1 [Hoth Hadv]].
  destruct found.
  - destruct (k =? n - 2)%nat eqn:E.
    + injection H as <-. destruct ff.
      * left. split; [reflexivity|]. intros j Hj. apply Hoth. lia.
      * right. exists k. split; [lia|].
        split; [intros j Hj; apply Hoth; lia|].
        apply Hadv; reflexivity.
    + apply Nat.eqb_neq in E.
      destruct (IH (S k) true d1 d' ltac:(lia) Hinv1 H)
        as [[_ Hsame] | [k' [Hk' [Hsame Ha]]]].
      * destruct ff.
        -- left. split; [reflexivity|]. intros j Hj.
           rewrite (Hsame j) by lia. apply Hoth. lia.
        -- right. exists k. split; [lia|].
           split; [intros j Hj; rewrite (Hsame j) by lia;
                   apply Hoth; lia|].
           rewrite (nth_error_eq_nth _ _ k emptyRow (Hsame k ltac:(lia))).
           apply Hadv; reflexivity.
      * destruct (Nat.eq_dec k' k) as [-> | Hne].
        -- destruct ff.
           ++ left. split; [reflexivity|]. intros j Hj.
              rewrite (Hsame j) by lia. apply Hoth. lia.
           ++ right. exists k. split; [lia|].
              split; [intros j Hj; rewrite (Hsame j) by lia;
                      apply Hoth; lia|].
              apply (adv_trans _ (nth k (rows d1) emptyRow));
                [apply Hadv; reflexivity | exact Ha].
        -- right. exists k'. split; [destruct ff; lia|].
           split; [intros j Hj; rewrite (Hsame j) by lia;
                   apply Hoth; lia|].
           rewrite <- (nth_error_eq_nth _ _ k' emptyRow (Hoth k' Hne)).
           exact Ha.
  - destruct (k =? 0)%nat eqn:E; [discriminate|].
    apply Nat.eqb_neq in E.
    assert (Hinv1' : Inv (S (pred k)) d1)
      by (replace (S (pred k)) with k by lia; exact Hinv1).
    destruct (IH (pred k) false d1 d' ltac:(lia) Hinv1' H)
      as [[Hc _] | [k' [Hk' [Hsame Ha]]]]; [discriminate|].
    right. exists k'. split; [destruct ff; lia|].
    split; [intros j Hj; rewrite (Hsame j) by lia; apply Hoth; lia|].
    rewrite <- (nth_error_eq_nth _ _ k' emptyRow (Hoth k' ltac:(lia))).
    exact Ha.
Qed.

End DriverAdvance.

Lemma complex_step_adv (Rs : list Row) (m : nat) (perm : list nat)
    (mcv : Z) (V0 : list Z) (fuel0 : nat) (k : nat) (ff : bool)
    (d : DiophantineSystem) (found : bool) (d1 : DiophantineSystem) :
  staticRows Rs -> tablesOK mcv Rs -> 0 <= mcv ->
  (S k < length Rs)%nat ->
  driverInv (activeComplexAt Rs m mcv) (idleComplex Rs m)
    (entryComplex Rs m) (sysIs true perm mcv) (length Rs) V0
    (if ff then k else S k) d ->
  solveRowComplex fuel0 d k ff = Done (found, d1) ->
  driverInv (activeComplexAt Rs m mcv) (idleComplex Rs m)
    (entryComplex Rs m) (sysIs true perm mcv) (length Rs) V0
    (if found then S k else k) d1
  /\ (forall j, j <> k -> nth_error (rows d1) j = nth_error (rows d) j)
  /\ (ff = false -> found = true ->
      rowAdv (nth k (rows d) emptyRow) (nth k (rows d1) emptyRow)).
Proof.
  intros Hst Htab Hmcv Hk Hinv Hs.
  destruct (complex_steps Rs m perm mcv fuel0 Hst Htab Hmcv) as [H1 H2].
  assert (Hstep :
    solveRowComplex fuel0 d k ff <> Abort
    /\ forall found d1,
         solveRowComplex fuel0 d k ff = Done (found, d1) ->
         driverInv (activeComplexAt Rs m mcv) (idleComplex Rs m)
           (entryComplex Rs m) (sysIs true perm mcv) (length Rs) V0
           (if found then S k else k) d1).
  { apply (driver_step (solveRowComplex fuel0) (length Rs)
             (activeComplexAt Rs m mcv) (idleComplex Rs m)
             (entryComplex Rs m) (sysIs true perm mcv) V0);
      try assumption.
    - intros d0 k0 r cols H. exact H.
    - intros d0 k0 r rn b d' Hk0 Hsys Hn1 Hn2 Hi Hi2 He Hs0.
      destruct (H1 d0 k0 r rn Hk0 Hsys Hn1 Hn2 Hi Hi2 He)
        as [Hout | [b1 [r' [bag' [Hrun Hres]]]]]; [congruence|].
      rewrite Hrun in Hs0. injection Hs0 as <- <-. eauto.
    - intros d0 k0 r rn V b d' Hk0 Hsys Hn1 Hn2 Ha Hi2 He Hs0.
      destruct (H2 d0 k0 r rn V Hk0 Hsys Hn1 Hn2 Ha Hi2 He)
        as [Hout | [b1 [r' [bag' [Hrun Hres]]]]]; [congruence|].
      rewrite Hrun in Hs0. injection Hs0 as <- <-. eauto.
    - intros k0 r V bag Hk0 _ Hact.
      apply (complex_active_entry Rs m mcv k0 r V bag Hst);
        [lia | exact Hact].
    - intros d0 k0 r rn Hk0 Hsys Hn1 Hn2 Hi Hi2 He.
      destruct (H1 d0 k0 r rn Hk0 Hsys Hn1 Hn2 Hi Hi2 He)
        as [Hout | [b1 [r' [bag' [Hrun Hres]]]]]; congruence.
    - intros d0 k0 r rn V Hk0 Hsys Hn1 Hn2 Ha Hi2 He.
      destruct (H2 d0 k0 r rn V Hk0 Hsys Hn1 Hn2 Ha Hi2 He)
        as [Hout | [b1 [r' [bag' [Hrun Hres]]]]]; congruence. }
  destruct Hstep as [_ Hnext].
  split; [apply Hnext; exact Hs|].
  assert (Hpos : Forall (fun r => 0 < coeff r) Rs).
  { apply Forall_forall. intros R HR. apply In_nth_error in HR.
    destruct HR as [j Hj]. destruct (Hst j R Hj) as [H _]. exact H. }
  destruct (nth_error Rs k) as [R|] eqn:HR1;
    [|apply nth_error_None in HR1; lia].
  destruct (nth_error Rs (S k)) as [Rn|] eqn:HR2;
    [|apply nth_error_None in HR2; lia].
  pose proof (nth_error_nth _ _ emptyRow HR1) as HR3.
  pose proof (nth_error_nth _ _ emptyRow HR2) as HR4.
  destruct (row_tables _ _ _ _ _ Htab Hpos HR1 HR2) as [T1 [T2 [T3 T4]]].
  destruct (Hst k R HR1) as [HcR _].
  pose proof Hinv as [Hlen [Hsys [Hact [Hidle Hent]]]].
  destruct (nth_error (rows d) (S k)) as [rn|] eqn:Hn2;
    [|apply nth_error_None in Hn2; lia].
  assert (Hik2 : idleComplex Rs m (S k) rn).
  { apply (Hidle (S k) rn); [destruct ff; lia | exact Hn2]. }
  assert (Hsol : soluble rn = soluble Rn).
  { destruct Hik2 as [J1 _]. rewrite HR4 in J1.
    destruct J1 as [_ [_ [_ [_ [_ [_ [_ [_ H]]]]]]]]. exact H. }
  assert (Hput : forall r' cols j, j <> k ->
            nth_error (rows (putRow d k r' cols)) j = nth_error (rows d) j).
  { intros r' cols j Hj. rewrite putRow_rows.
    apply nth_error_upd_neq. congruence. }
  destruct ff.
  - destruct (nth_error (rows d) k) as [r|] eqn:Hn1;
      [|apply nth_error_None in Hn1; lia].
    assert (Hik : idleComplex Rs m k r)
      by (apply (Hidle k r); [lia | exact Hn1]).
    destruct (H1 d k r rn Hk Hsys Hn1 Hn2 Hik Hik2 Hent)
      as [Hout | [b1 [r' [bag' [Hrun _]]]]]; [congruence|].
    rewrite Hrun in Hs. injection Hs as <- <-.
    split; [apply Hput | discriminate].
  - cbn [activeUpTo] in Hact.
    destruct Hact as [V [r [Hn1 [_ [HentV Hactive]]]]].
    pose proof Hactive as [Ha HlV]. rewrite HR3, HR4 in Ha.
    destruct (H2 d k r rn V Hk Hsys Hn1 Hn2 Hactive Hik2 HentV)
      as [Hout | [b1 [r' [bag' [Hrun _]]]]]; [congruence|].
    pose proof Hs as Hs0.
    rewrite Hrun in Hs. injection Hs as <- <-.
    split; [apply Hput|].
    intros _ ->.
    destruct (solveRowComplex_next_rank mcv R (soluble Rn) HcR T4 fuel0 d
                _ k r rn V Hn1 Hn2 Hsol Ha Hs0) as [r2 [Hr2 [_ Hadv]]].
    rewrite (nth_error_nth _ _ emptyRow Hn1),
      (nth_error_nth _ _ emptyRow Hr2). exact Hadv.
Qed.

Lemma solveLastRowComplex_rows (d d2 : DiophantineSystem) :
  solveLastRowComplex d = Done d2 ->
  forall j, j <> lastIndex d ->
    nth_error (rows d2) j = nth_error (rows d) j.
Proof.
  unfold solveLastRowComplex.
  destruct (getAt (rows d) (lastIndex d)) as [r| |]; cbn [bind];
    try discriminate.
  destruct (fillLastComplex (soluble r) (selection r) (columns d))
    as [sel| |]; cbn [bind]; try discriminate.
  intros H j Hj. injection H as <-. cbn [rows set_rows_columns].
  apply nth_error_upd_neq. congruence.
Qed.

Lemma complex_solve_advanced (Rs : list Row) (perm : list nat) (mcv : Z)
    (V0 : list Z) (fuel : nat) (d d' : DiophantineSystem) :
  prepared true Rs mcv ->
  solvedState true Rs perm mcv V0 d ->
  solve fuel d = Done (true, d') ->
  advanced (length Rs) d d'.
Proof.
  intros [Hst [Hn [Hmcv Htab]]] [Hinv _] Hrun.
  destruct (searchInv_sys _ _ _ _ _ _ _ Hinv) as [S1 [S2 [S3 _]]].
  unfold solve in Hrun. rewrite S1 in Hrun. cbn [negb bind] in Hrun.
  rewrite S2, S3 in Hrun. unfold searchInv in Hinv.
  assert (Hlen : length (rows d) = length Rs) by (destruct Hinv; assumption).
  unfold solveComplex in Hrun. rewrite Hlen in Hrun.
  destruct (1 <? length Rs)%nat eqn:En; [|discriminate].
  apply Nat.ltb_lt in En.
  destruct (driverLoop (solveRowComplex fuel) fuel (length Rs - 2)
              (length Rs - 2) false d) as [[found d1]| |] eqn:Hloop;
    cbn [bind] in Hrun; try discriminate.
  destruct found; [|discriminate].
  destruct (solveLastRowComplex d1) as [d2| |] eqn:Hl; cbn [bind] in Hrun;
    try discriminate.
  injection Hrun as <-.
  assert (Hinv' : driverInv (activeComplexAt Rs (length V0) mcv)
            (idleComplex Rs (length V0)) (entryComplex Rs (length V0))
            (sysIs true perm mcv) (length Rs) V0
            (if false then (length Rs - 2)%nat else S (length Rs - 2)) d).
  { replace (S (length Rs - 2)) with (length Rs - 1)%nat by lia.
    exact Hinv. }
  assert (Hk2 : (S (length Rs - 2) < length Rs)%nat) by lia.
  pose proof (complex_driver Rs _ perm mcv V0 fuel fuel _ false d true d1
                Hst Htab Hmcv Hk2 Hinv' Hloop) as [Hlen1 _].
  pose proof (solveLastRowComplex_rows d1 d2 Hl) as Hlast.
  unfold lastIndex in Hlast. rewrite Hlen1 in Hlast.
  destruct (driver_advance (solveRowComplex fuel) (length Rs)
              (driverInv (activeComplexAt Rs (length V0) mcv)
                 (idleComplex Rs (length V0)) (entryComplex Rs (length V0))
                 (sysIs true perm mcv) (length Rs) V0)
              rowAdv rowAdv_trans
              (fun k ff d0 found d3 Hk0 Hi0 Hs0 =>
                 complex_step_adv Rs (length V0) perm mcv V0 fuel k ff d0
                   found d3 Hst Htab Hmcv Hk0 Hi0 Hs0)
              fuel (length Rs - 2)%nat false d d1 Hk2 Hinv' Hloop)
    as [[Hc _] | [k' [Hk' [Hsame Ha]]]]; [discriminate|].
  exists k'. split; [lia|]. split.
  - intros j Hj. rewrite (Hlast j) by lia. apply Hsame. exact Hj.
  - rewrite (nth_error_eq_nth _ _ k' emptyRow (Hlast k' ltac:(lia))).
    exact Ha.
Qed.

Lemma later_solvedState (cx : bool) (Rs : list Row) (perm : list nat)
    (mcv : Z) (V0 : list Z) (d d' : DiophantineSystem) :
  prepared cx Rs mcv ->
  solvedState cx Rs perm mcv V0 d ->
  laterThan d d' ->
  solvedState cx Rs perm mcv V0 d'.
Proof.
  intros Hp Hs Hl.
  induction Hl as [fuel d' Hrun|fuel d' d'' Hl IH Hrun].
  - apply (solve_next cx Rs perm mcv V0 fuel d d' Hp Hs Hrun).
  - apply (solve_next cx Rs perm mcv V0 fuel d' d'' Hp IH Hrun).
Qed.

Lemma later_advanced (Rs : list Row) (perm : list nat) (mcv : Z)
    (V0 : list Z) (d d' : DiophantineSystem) :
  prepared true Rs mcv ->
  solvedState true Rs perm mcv V0 d ->
  laterThan d d' ->
  advanced (length Rs) d d'.
Proof.
  intros Hp Hs Hl.
  induction Hl as [fuel d' Hrun|fuel d' d'' Hl IH Hrun].
  - apply (complex_solve_advanced Rs perm mcv V0 fuel d d' Hp Hs Hrun).
  - apply (advanced_trans _ _ _ _ IH).
    apply (complex_solve_advanced Rs perm mcv V0 fuel d' d'' Hp
             (later_solvedState _ _ _ _ _ _ _ Hp Hs Hl) Hrun).
Qed.

Lemma advanced_matrix (rs : list (Z * Z * Z)) (csum : Z) (Rs : list Row)
    (perm : list nat) (mcv : Z) (V0 : list Z) (d d' : DiophantineSystem) :
  permuted rs csum Rs perm ->
  prepared true Rs mcv ->
  solvedState true Rs perm mcv V0 d ->
  solvedState true Rs perm mcv V0 d' ->
  advanced (length Rs) d d' ->
  solutionMatrix d' <> solutionMatrix d.
Proof.
  intros Hpm Hp Hs Hs' [k [Hk [_ Ha]]] Heq.
  pose proof Hp as [_ [Hn _]].
  destruct (solvedState_lengths _ _ _ _ _ _ Hs) as [Hlr Hlc].
  destruct (solvedState_lengths _ _ _ _ _ _ Hs') as [Hlr' Hlc'].
  destruct (solvedState_sem _ _ _ _ _ _ Hn Hs) as [Hperm [_ Hrow]].
  destruct (solvedState_sem _ _ _ _ _ _ Hn Hs') as [Hperm' [_ Hrow']].
  destruct (nth_error Rs k) as [R|] eqn:HR;
    [|apply nth_error_None in HR; lia].
  destruct (permuted_onto _ _ _ _ _ _ Hpm HR)
    as [i [r [Hi [Hpi _]]]].
  pose proof (nth_error_lt _ _ _ Hi) as Hil.
  destruct Hpm as [Hlen _].
  assert (Hrowi : nth i (solutionMatrix d') [] = nth i (solutionMatrix d) [])
    by (rewrite Heq; reflexivity).
  rewrite !nth_solutionMatrix_row in Hrowi by lia.
  rewrite Hlc, Hlc' in Hrowi.
  set (r0 := nth k (rows d) emptyRow) in *.
  set (r1 := nth k (rows d') emptyRow) in *.
  assert (Hcell : forall j, (j < length V0)%nat -> cell r1 j = cell r0 j).
  { intros j Hj.
    assert (Hin : In j (seq 0 (length V0))) by (apply in_seq; lia).
    pose proof (proj1 map_ext_in_iff Hrowi j Hin) as E. cbn beta in E.
    rewrite !solution_cell, Hperm, Hperm', Hpi in E. exact E. }
  destruct (Hrow k ltac:(lia)) as [Hl0 _].
  destruct (Hrow' k ltac:(lia)) as [Hl1 _].
  fold r0 in Hl0. fold r1 in Hl1.
  destruct Ha as [A1 [A2 [A3 [A4 [A5 A6]]]]].
  assert (He : map extra (selection r1) = map extra (selection r0)).
  { apply (nth_ext _ _ 0 0); [rewrite !length_map; lia|].
    intros j Hj. rewrite length_map, Hl1 in Hj.
    pose proof (Hcell j Hj) as Hc. unfold cell in Hc.
    pose proof (f_equal (fun l => nth j l 0) A1) as Hb. cbn beta in Hb.
    change 0 with (base (mkSelect 0 0 0)) in Hb.
    rewrite !map_nth in Hb.
    change 0 with (extra (mkSelect 0 0 0)).
    rewrite !map_nth. lia. }
  unfold complexRank in A6. rewrite A2, A3, He, <- A5, <- A4, He in A6.
  lia.
Qed.


